(** * PATH-VISUALIZER: the grid search engine

    A shallow embedding of [src/algorithms/bfs.ts], [src/algorithms/dijkstra.ts],
    [src/algorithms/astar.ts] and of the run entry point [visualizeAlgorithm]
    of [src/App.tsx].

    JavaScript objects are mutable and shared: a [Node] of the grid is
    reached through [grid[row][col]], through the frontier array, through
    [previousNode] links and through the [startNode]/[endNode] arguments.
    The embedding therefore keeps an explicit store ([Heap]) of node
    records, addressed by object references ([addr]); arrays hold
    references.  Loops that the source writes with [while] take fuel. *)

From stdpp Require Import base tactics option list numbers gmap sorting.
From Stdlib Require Import ZArith Lia.

Local Open Scope Z_scope.

(** ** Numbers

    The numeric scratch fields hold either a finite integer or
    [Infinity]. *)

Inductive num : Type :=
  | Fin (z : Z)
  | Inf.

#[global] Instance num_eq_dec : EqDecision num.
Proof. solve_decision. Defined.

(** [x + y] on JS numbers. *)
Definition num_add (x y : num) : num :=
  match x, y with
  | Fin a, Fin b => Fin (a + b)
  | _, _ => Inf
  end.

(** [x < y] on JS numbers. *)
Definition num_lt (x y : num) : bool :=
  match x, y with
  | Fin a, Fin b => a <? b
  | Fin _, Inf => true
  | Inf, _ => false
  end.

(** The comparator [(a, b) => key a - key b] of [Array.prototype.sort]
    orders [a] after [b] exactly when the difference is positive.
    [Infinity - Infinity] is [NaN], which [sort] treats as [+0]. *)
Definition num_gt (x y : num) : bool :=
  match x, y with
  | Fin a, Fin b => b <? a
  | Inf, Fin _ => true
  | _, Inf => false
  end.

(** ** Nodes, the store and the grid *)

Inductive NodeType : Type :=
  | T_empty | T_wall | T_start | T_end | T_visited | T_visited_dijkstra
  | T_visited_astar | T_path | T_path_dijkstra | T_path_astar.

#[global] Instance NodeType_eq_dec : EqDecision NodeType.
Proof. solve_decision. Defined.

Definition addr := nat.

Record Node : Type := mkNode {
  row : Z;
  col : Z;
  type : NodeType;
  distance : num;
  gScore : num;
  hScore : num;
  fScore : num;
  isVisited : bool;
  previousNode : option addr
}.

Definition set_type (t : NodeType) (n : Node) : Node :=
  mkNode (row n) (col n) t (distance n) (gScore n) (hScore n) (fScore n)
         (isVisited n) (previousNode n).
Definition set_distance (d : num) (n : Node) : Node :=
  mkNode (row n) (col n) (type n) d (gScore n) (hScore n) (fScore n)
         (isVisited n) (previousNode n).
Definition set_gScore (d : num) (n : Node) : Node :=
  mkNode (row n) (col n) (type n) (distance n) d (hScore n) (fScore n)
         (isVisited n) (previousNode n).
Definition set_hScore (d : num) (n : Node) : Node :=
  mkNode (row n) (col n) (type n) (distance n) (gScore n) d (fScore n)
         (isVisited n) (previousNode n).
Definition set_fScore (d : num) (n : Node) : Node :=
  mkNode (row n) (col n) (type n) (distance n) (gScore n) (hScore n) d
         (isVisited n) (previousNode n).
Definition set_isVisited (b : bool) (n : Node) : Node :=
  mkNode (row n) (col n) (type n) (distance n) (gScore n) (hScore n) (fScore n)
         b (previousNode n).
Definition set_previousNode (p : option addr) (n : Node) : Node :=
  mkNode (row n) (col n) (type n) (distance n) (gScore n) (hScore n) (fScore n)
         (isVisited n) p.

(** The store: every reference denotes one node object. *)
Definition Heap := addr -> Node.

(** [obj.field = v] on the object behind reference [a]. *)
Definition upd (h : Heap) (a : addr) (f : Node -> Node) : Heap :=
  fun x => if decide (x = a) then f (h x) else h x.

(** [Node[][]]: an array of rows of references. *)
Definition Grid := list (list addr).

(** ** Outcomes

    A call either returns, or throws the [TypeError] of a property access
    on [undefined], or the embedding runs out of fuel. *)

Inductive outcome (A : Type) : Type :=
  | Ok (a : A)
  | TypeError
  | OutOfFuel.
Arguments Ok {A} a.
Arguments TypeError {A}.
Arguments OutOfFuel {A}.

#[global] Instance outcome_ret : MRet outcome := fun A a => Ok a.
#[global] Instance outcome_bind : MBind outcome := fun A B f m =>
  match m with
  | Ok a => f a
  | TypeError => TypeError
  | OutOfFuel => OutOfFuel
  end.

(** An array element that must be an object: [undefined] throws at the
    first property access. *)
Definition defined {A} (o : option A) : outcome A :=
  match o with
  | Some a => Ok a
  | None => TypeError
  end.

Fixpoint foldM {A B} (f : A -> B -> outcome A) (a : A) (l : list B) : outcome A :=
  match l with
  | [] => Ok a
  | b :: l => a' ← f a b; foldM f a' l
  end.

(** What one pass through the body of a [while] loop does; [Starve] is a
    nested loop that ran out of fuel. *)
Inductive step_result (St R : Type) : Type :=
  | Continue (s : St)
  | Return (r : R)
  | Throw
  | Starve.
Arguments Continue {St R} s.
Arguments Return {St R} r.
Arguments Throw {St R}.
Arguments Starve {St R}.

Fixpoint while_loop {St R} (body : St -> step_result St R) (fuel : nat) (s : St)
  : outcome R :=
  match fuel with
  | O => OutOfFuel
  | S fuel =>
      match body s with
      | Continue s' => while_loop body fuel s'
      | Return r => Ok r
      | Throw => TypeError
      | Starve => OutOfFuel
      end
  end.

(** The loop state after [n] passes, while the loop is still running. *)
Fixpoint iterate {St R} (body : St -> step_result St R) (n : nat) (s : St)
  : option St :=
  match n with
  | O => Some s
  | S n =>
      match body s with
      | Continue s' => iterate body n s'
      | _ => None
      end
  end.

(** ** Grid access *)

(** [grid[r][c]] for numbers [r], [c]; [None] is [undefined]. *)
Definition cell (g : Grid) (r c : Z) : option addr :=
  if (0 <=? r) && (0 <=? c)
  then rowl ← g !! Z.to_nat r; rowl !! Z.to_nat c
  else None.

(** [grid.length] and [grid[0].length]. *)
Definition grid_length (g : Grid) : Z := Z.of_nat (length g).
Definition row0_length (g : Grid) : outcome Z :=
  match g with
  | [] => TypeError
  | r0 :: _ => Ok (Z.of_nat (length r0))
  end.

(** The four pushes shared by [getUnvisitedNeighbors] (bfs.ts) and
    [getValidNeighbors] (dijkstra.ts, astar.ts): up, down, left, right.
    An [undefined] that is pushed throws as soon as the caller reads a
    property of it, which every caller does for every element. *)
Definition push_cell (g : Grid) (r c : Z) (neighbors : list addr)
  : outcome (list addr) :=
  a ← defined (cell g r c); Ok (neighbors ++ [a]).

Definition four_directions (h : Heap) (node : addr) (g : Grid)
  : outcome (list addr) :=
  let r := row (h node) in
  let c := col (h node) in
  n1 ← (if 0 <? r then push_cell g (r - 1) c [] else Ok []);
  n2 ← (if r <? grid_length g - 1 then push_cell g (r + 1) c n1 else Ok n1);
  n3 ← (if 0 <? c then push_cell g r (c - 1) n2 else Ok n2);
  w ← row0_length g;
  (if c <? w - 1 then push_cell g r (c + 1) n3 else Ok n3).

(** The while loop of [reconstructPath], the same in the three files:
    [path.unshift(currentNode); currentNode = currentNode.previousNode]. *)
Fixpoint reconstruct_loop (fuel : nat) (h : Heap) (currentNode : option addr)
  (path : list addr) : outcome (list addr) :=
  match currentNode with
  | None => Ok path
  | Some c =>
      match fuel with
      | O => OutOfFuel
      | S fuel => reconstruct_loop fuel h (previousNode (h c)) (c :: path)
      end
  end.

(** [queue.sort(cmp)]: ECMAScript requires the sort to be stable, and for
    a comparator that is a consistent ordering the result is the one
    stable arrangement; insertion from the right computes it. *)
Fixpoint sort_insert {A} (gt : A -> A -> bool) (x : A) (l : list A) : list A :=
  match l with
  | [] => [x]
  | y :: l' => if gt x y then y :: sort_insert gt x l' else x :: l
  end.

Fixpoint stable_sort {A} (gt : A -> A -> bool) (l : list A) : list A :=
  match l with
  | [] => []
  | x :: l' => sort_insert gt x (stable_sort gt l')
  end.

(** [array.includes(x)] on an array of references. *)
Definition includes (l : list addr) (x : addr) : bool := bool_decide (x ∈ l).

Record Result : Type := mkResult {
  visitedNodes : list addr;
  path : list addr
}.

(** The nested [for] loops that initialise every node:
    [for row < grid.length, for col < grid[0].length: node = grid[row][col]]. *)
Definition init_row (f : Heap -> Node -> Node) (rowl : list addr) (ncols : nat)
  (h : Heap) : outcome Heap :=
  foldM (fun h c => a ← defined (rowl !! c); Ok (upd h a (f h))) h (seq 0 ncols).

Definition init_nodes (f : Heap -> Node -> Node) (g : Grid) (h : Heap)
  : outcome Heap :=
  match g with
  | [] => Ok h
  | r0 :: _ => foldM (fun h rowl => init_row f rowl (length r0) h) h g
  end.

(** [a.row === b.row && a.col === b.col] *)
Definition same_cell (h : Heap) (a b : addr) : bool :=
  (row (h a) =? row (h b)) && (col (h a) =? col (h b)).

Definition is_wall (h : Heap) (a : addr) : bool :=
  bool_decide (type (h a) = T_wall).

(** ** bfs.ts *)

Module Bfs.

Definition getUnvisitedNeighbors (h : Heap) (node : addr) (grid : Grid)
    : outcome (list addr) :=
    four_directions h node grid.

Definition reconstructPath (fuel : nat) (h : Heap) (endNode : addr)
    : outcome (list addr) :=
    reconstruct_loop fuel h (Some endNode) [].

Record state : Type := mkState {
    heap : Heap;
    queue : list addr;
    visited : list addr
  }.

  (** [if (neighbor.type !== 'wall' && !neighbor.isVisited) { ... }] *)
Definition enqueue (currentNode : addr) (hq : Heap * list addr)
    (neighbor : addr) : Heap * list addr :=
    let '(h, q) := hq in
    if negb (is_wall h neighbor) && negb (isVisited (h neighbor))
    then (upd (upd h neighbor (set_isVisited true)) neighbor
              (set_previousNode (Some currentNode)),
          q ++ [neighbor])
    else (h, q).

  (** One pass through [while (queue.length > 0)]. *)
Definition step (pfuel : nat) (grid : Grid) (endNode : addr) (st : state)
    : step_result state (Heap * Result) :=
    match queue st with
    | [] => Return (heap st, mkResult (visited st) [])
    | currentNode :: queue =>
        let visitedNodes := visited st ++ [currentNode] in
        if same_cell (heap st) currentNode endNode
        then match reconstructPath pfuel (heap st) currentNode with
             | Ok p => Return (heap st, mkResult visitedNodes p)
             | TypeError => Throw
             | OutOfFuel => Starve
             end
        else match getUnvisitedNeighbors (heap st) currentNode grid with
             | Ok neighbors =>
                 let '(h, q) :=
                   fold_left (enqueue currentNode) neighbors (heap st, queue) in
                 Continue (mkState h q visitedNodes)
             | TypeError => Throw
             | OutOfFuel => Starve
             end
    end.

Definition reset (_ : Heap) (n : Node) : Node :=
    set_isVisited false (set_previousNode None n).

Definition init (h : Heap) (grid : Grid) (startNode : addr) : outcome state :=
    h ← init_nodes reset grid h;
    Ok (mkState (upd h startNode (set_isVisited true)) [startNode] []).

Definition bfs (fuel : nat) (h : Heap) (grid : Grid) (startNode endNode : addr)
    : outcome (Heap * Result) :=
    st ← init h grid startNode;
    while_loop (step fuel grid endNode) fuel st.

End Bfs.

(** ** dijkstra.ts

    [pushed] is a ghost field: the log of the [queue.push] calls, in the
    order they happen.  The source has no such variable and nothing reads
    it. *)

Module Dijkstra.

Definition getValidNeighbors (h : Heap) (node : addr) (grid : Grid)
    : outcome (list addr) :=
    neighbors ← four_directions h node grid;
    Ok (filter (λ neighbor, isVisited (h neighbor) = false) neighbors).

Definition reconstructPath (fuel : nat) (h : Heap) (endNode : addr)
    : outcome (list addr) :=
    p ← reconstruct_loop fuel h (Some endNode) [];
    match p with
    | first :: _ => if decide (distance (h first) = Fin 0) then Ok p else Ok []
    | [] => Ok []
    end.

Record state : Type := mkState {
    heap : Heap;
    queue : list addr;
    visited : list addr;
    pushed : list addr
  }.

  (** The body of the [for] loop of [updateUnvisitedNeighbors]. *)
Definition relax (node : addr) (acc : Heap * list addr * list addr)
    (neighbor : addr) : Heap * list addr * list addr :=
    let '(h, q, log) := acc in
    if is_wall h neighbor then acc
    else
      let tentativeDistance := num_add (distance (h node)) (Fin 1) in
      if num_lt tentativeDistance (distance (h neighbor))
      then
        let h' := upd (upd h neighbor (set_distance tentativeDistance))
                      neighbor (set_previousNode (Some node)) in
        if includes q neighbor then (h', q, log)
        else (h', q ++ [neighbor], log ++ [neighbor])
      else acc.

Definition updateUnvisitedNeighbors (node : addr) (grid : Grid)
    (acc : Heap * list addr * list addr)
    : outcome (Heap * list addr * list addr) :=
    neighbors ← getValidNeighbors acc.1.1 node grid;
    Ok (fold_left (relax node) neighbors acc).

Definition by_distance (h : Heap) (a b : addr) : bool :=
    num_gt (distance (h a)) (distance (h b)).

Definition step (pfuel : nat) (grid : Grid) (endNode : addr) (st : state)
    : step_result state (Heap * Result) :=
    match stable_sort (by_distance (heap st)) (queue st) with
    | [] => Return (heap st, mkResult (visited st) [])
    | currentNode :: queue =>
        if isVisited (heap st currentNode) || is_wall (heap st) currentNode
        then Continue (mkState (heap st) queue (visited st) (pushed st))
        else
          let h := upd (heap st) currentNode (set_isVisited true) in
          let visitedNodes := visited st ++ [currentNode] in
          if same_cell h currentNode endNode
          then match reconstructPath pfuel h currentNode with
               | Ok p => Return (h, mkResult visitedNodes p)
               | TypeError => Throw
               | OutOfFuel => Starve
               end
          else match updateUnvisitedNeighbors currentNode grid
                       (h, queue, pushed st) with
               | Ok (h', q, log) => Continue (mkState h' q visitedNodes log)
               | TypeError => Throw
               | OutOfFuel => Starve
               end
    end.

Definition reset (_ : Heap) (n : Node) : Node :=
    set_isVisited false (set_previousNode None (set_distance Inf n)).

Definition init (h : Heap) (grid : Grid) (startNode : addr) : outcome state :=
    h ← init_nodes reset grid h;
    Ok (mkState (upd h startNode (set_distance (Fin 0)))
                [startNode] [] [startNode]).

Definition dijkstra (fuel : nat) (h : Heap) (grid : Grid)
    (startNode endNode : addr) : outcome (Heap * Result) :=
    st ← init h grid startNode;
    while_loop (step fuel grid endNode) fuel st.

End Dijkstra.

(** ** astar.ts *)

Module Astar.

Definition manhattanDistance (nodeA nodeB : Node) : num :=
    Fin (Z.abs (row nodeA - row nodeB) + Z.abs (col nodeA - col nodeB)).

Definition getValidNeighbors (h : Heap) (node : addr) (grid : Grid)
    : outcome (list addr) :=
    neighbors ← four_directions h node grid;
    Ok (filter (λ neighbor, isVisited (h neighbor) = false) neighbors).

Definition reconstructPath (fuel : nat) (h : Heap) (endNode : addr)
    : outcome (list addr) :=
    p ← reconstruct_loop fuel h (Some endNode) [];
    match p with
    | first :: _ => if decide (gScore (h first) = Fin 0) then Ok p else Ok []
    | [] => Ok []
    end.

Record state : Type := mkState {
    heap : Heap;
    openSet : list addr;
    closedSet : gset addr;
    visited : list addr;
    pushed : list addr
  }.

  (** The body of [for (const neighbor of neighbors)]. *)
Definition relax (closedSet : gset addr) (currentNode : addr)
    (acc : Heap * list addr * list addr) (neighbor : addr)
    : Heap * list addr * list addr :=
    let '(h, q, log) := acc in
    if bool_decide (neighbor ∈ closedSet) || is_wall h neighbor then acc
    else
      let tentativeGScore := num_add (gScore (h currentNode)) (Fin 1) in
      if num_lt tentativeGScore (gScore (h neighbor))
      then
        let h1 := upd h neighbor (set_previousNode (Some currentNode)) in
        let h2 := upd h1 neighbor (set_gScore tentativeGScore) in
        let h3 := upd h2 neighbor
                    (set_fScore (num_add (gScore (h2 neighbor))
                                         (hScore (h2 neighbor)))) in
        if includes q neighbor then (h3, q, log)
        else (h3, q ++ [neighbor], log ++ [neighbor])
      else acc.

Definition by_fScore (h : Heap) (a b : addr) : bool :=
    num_gt (fScore (h a)) (fScore (h b)).

Definition step (pfuel : nat) (grid : Grid) (endNode : addr) (st : state)
    : step_result state (Heap * Result) :=
    match stable_sort (by_fScore (heap st)) (openSet st) with
    | [] => Return (heap st, mkResult (visited st) [])
    | currentNode :: openSet =>
        if bool_decide (currentNode ∈ closedSet st)
           || is_wall (heap st) currentNode
        then Continue (mkState (heap st) openSet (closedSet st) (visited st)
                               (pushed st))
        else
          let h := upd (heap st) currentNode (set_isVisited true) in
          let visitedNodes := visited st ++ [currentNode] in
          let closedSet := closedSet st ∪ {[currentNode]} in
          if same_cell h currentNode endNode
          then match reconstructPath pfuel h currentNode with
               | Ok p => Return (h, mkResult visitedNodes p)
               | TypeError => Throw
               | OutOfFuel => Starve
               end
          else match getValidNeighbors h currentNode grid with
               | Ok neighbors =>
                   let '(h', q, log) :=
                     fold_left (relax closedSet currentNode) neighbors
                               (h, openSet, pushed st) in
                   Continue (mkState h' q closedSet visitedNodes log)
               | TypeError => Throw
               | OutOfFuel => Starve
               end
    end.

Definition reset (endNode : addr) (h : Heap) (n : Node) : Node :=
    set_isVisited false
      (set_previousNode None
         (set_hScore (manhattanDistance n (h endNode))
            (set_fScore Inf (set_gScore Inf n)))).

Definition init (h : Heap) (grid : Grid) (startNode endNode : addr)
    : outcome state :=
    h ← init_nodes (reset endNode) grid h;
    let h1 := upd h startNode (set_gScore (Fin 0)) in
    let h2 := upd h1 startNode (set_fScore (hScore (h1 startNode))) in
    Ok (mkState h2 [startNode] ∅ [] [startNode]).

Definition astar (fuel : nat) (h : Heap) (grid : Grid)
    (startNode endNode : addr) : outcome (Heap * Result) :=
    st ← init h grid startNode endNode;
    while_loop (step fuel grid endNode) fuel st.

End Astar.

(** ** App.tsx

    [visualizeAlgorithm] from its guard to the point where the results go
    to the animation, in the two versions of the component.  The state of
    the component is a record.  A node that [{ ...node, ... }] creates is a
    new object: it is allocated at [next], the first reference that is not
    in use.  The calls of [setGrid], [setIsRunning] and [setError] before
    the animation show in the state that is returned; the timers, the
    animation and the metrics are left out.  [TypeError] is an exception
    that reaches the [catch] clause. *)

Definition alloc (h : Heap) (next : addr) (n : Node) : Heap :=
  fun x => if decide (x = next) then n else h x.

(** [rowl.map(node => f(node))] *)
Definition map_row (f : Node -> Node) (h : Heap) (next : addr)
  (rowl : list addr) : Heap * addr * list addr :=
  fold_left (fun (acc : Heap * addr * list addr) (a : addr) =>
               let '(h, next, out) := acc in
               (alloc h next (f (h a)), S next, out ++ [next]))
            rowl (h, next, []).

(** [grid.map(row => row.map(node => f(node)))] *)
Definition map_grid (f : Node -> Node) (h : Heap) (next : addr) (g : Grid)
  : Heap * addr * Grid :=
  fold_left (fun (acc : Heap * addr * Grid) (rowl : list addr) =>
               let '(h, next, out) := acc in
               let '(h', next', rowl') := map_row f h next rowl in
               (h', next', out ++ [rowl']))
            g (h, next, []).

(** ['Please set both start and end points'] *)
Inductive ErrorMessage : Type :=
  | SetBothPoints.

(** The version with Dijkstra, A* and the comparison of the two. *)
Module App4.

Inductive AlgorithmType : Type :=
  | A_dijkstra
  | A_astar
  | A_compare.

Record State : Type := mkState {
  algorithm : AlgorithmType;
  grid : Grid;
  isRunning : bool;
  startNode : option addr;
  endNode : option addr;
  error : option ErrorMessage;
  store : Heap;
  next : addr
}.

(** What [visualizeAlgorithm] has done when it returns at the guard (the
    [finally] clause has run then) or reaches the first [await]. *)
Inductive Outcome : Type :=
  | Rejected (st : State)
  | Results (st : State) (results : list Result).

(** The node of [newGrid] for [node]. *)
Definition reset_node (node : Node) : Node :=
  mkNode (row node) (col node)
         (if bool_decide (type node ∈ [T_visited; T_path; T_visited_dijkstra;
                                      T_visited_astar; T_path_dijkstra;
                                      T_path_astar])
          then T_empty else type node)
         Inf Inf (Fin 0) Inf false None.

(** [type === 'dijkstra' ? dijkstra(...) : astar(...)] *)
Definition runAlgorithm (fuel : nat) (startNode endNode : addr)
  (type : AlgorithmType) (h : Heap) (grid : Grid) : outcome (Heap * Result) :=
  match type with
  | A_dijkstra => Dijkstra.dijkstra fuel h grid startNode endNode
  | _ => Astar.astar fuel h grid startNode endNode
  end.

Definition visualizeAlgorithm (fuel : nat) (st : State) : outcome Outcome :=
  match startNode st, endNode st with
  | Some s, Some e =>
      let '(h1, next1, newGrid) :=
        map_grid reset_node (store st) (next st) (grid st) in
      match algorithm st with
      | A_compare =>
          let '(h2, next2, gridCopy1) := map_grid id h1 next1 newGrid in
          let '(h3, next3, gridCopy2) := map_grid id h2 next2 newGrid in
          '(h4, dijkstraResult) ← runAlgorithm fuel s e A_dijkstra h3 gridCopy1;
          '(h5, astarResult) ← runAlgorithm fuel s e A_astar h4 gridCopy2;
          Ok (Results (mkState (algorithm st) newGrid true (Some s) (Some e)
                               None h5 next3)
                      [dijkstraResult; astarResult])
      | _ =>
          '(h2, result) ← runAlgorithm fuel s e (algorithm st) h1 newGrid;
          Ok (Results (mkState (algorithm st) newGrid true (Some s) (Some e)
                               None h2 next1)
                      [result])
      end
  | _, _ =>
      Ok (Rejected (mkState (algorithm st) (grid st) false
                            (startNode st) (endNode st) (Some SetBothPoints)
                            (store st) (next st)))
  end.

End App4.

(** The version with Dijkstra, A*, BFS and DFS, one at a time or one after
    the other.  dfs.ts is not among the sources: [dfs] is a parameter. *)
Module App3.

Inductive AlgorithmType : Type :=
  | A_dijkstra
  | A_astar
  | A_bfs
  | A_dfs.

Record State : Type := mkState {
  algorithm : AlgorithmType;
  grid : Grid;
  isRunning : bool;
  startNode : option addr;
  endNode : option addr;
  error : option ErrorMessage;
  single : bool;
  selectedAlgorithms : AlgorithmType -> bool;
  store : Heap;
  next : addr
}.

Inductive Outcome : Type :=
  | Rejected (st : State)
  | Results (st : State) (results : list Result).

Definition reset_node (node : Node) : Node :=
  mkNode (row node) (col node)
         (if bool_decide (type node ∈ [T_visited; T_path])
          then T_empty else type node)
         Inf (gScore node) (hScore node) (fScore node) false None.

Section with_dfs.
Variable dfs : nat -> Heap -> Grid -> addr -> addr -> outcome (Heap * Result).

(** The [switch] over the algorithm. *)
Definition dispatch (fuel : nat) (startNode endNode : addr)
  (algo : AlgorithmType) (h : Heap) (newGrid : Grid)
  : outcome (Heap * Result) :=
  match algo with
  | A_dijkstra => Dijkstra.dijkstra fuel h newGrid startNode endNode
  | A_astar => Astar.astar fuel h newGrid startNode endNode
  | A_bfs => Bfs.bfs fuel h newGrid startNode endNode
  | A_dfs => dfs fuel h newGrid startNode endNode
  end.

(** The body of [for (const algo of selectedAlgos)]. *)
Definition compare_one (fuel : nat) (g : Grid) (s e : addr)
  (acc : Heap * addr * Grid * list Result) (algo : AlgorithmType)
  : outcome (Heap * addr * Grid * list Result) :=
  let '(h, next, _, results) := acc in
  let '(h1, next1, newGrid) := map_grid reset_node h next g in
  '(h2, result) ← dispatch fuel s e algo h1 newGrid;
  Ok (h2, next1, newGrid, results ++ [result]).

Definition visualizeAlgorithm (fuel : nat) (st : State) : outcome Outcome :=
  match startNode st, endNode st with
  | Some s, Some e =>
      if isRunning st then Ok (Rejected st)
      else if single st then
        let '(h1, next1, newGrid) :=
          map_grid reset_node (store st) (next st) (grid st) in
        '(h2, result) ← dispatch fuel s e (algorithm st) h1 newGrid;
        Ok (Results (mkState (algorithm st) newGrid true (Some s) (Some e)
                             None (single st) (selectedAlgorithms st)
                             h2 next1)
                    [result])
      else
        let selectedAlgos :=
          filter (fun algo => selectedAlgorithms st algo = true)
                 [A_dijkstra; A_astar; A_bfs; A_dfs] in
        '(h', next', g', results) ←
          foldM (compare_one fuel (grid st) s e)
                (store st, next st, grid st, []) selectedAlgos;
        Ok (Results (mkState (algorithm st) g' true (Some s) (Some e)
                             None (single st) (selectedAlgorithms st)
                             h' next')
                    results)
  | _, _ => Ok (Rejected st)
  end.

End with_dfs.
End App3.

(** ** Concrete grids

    [build_heap cols types] is a store in which reference [r * cols + c]
    is the node of row [r], column [c], with the display tag that [types]
    lists for it (row-major) and with the scratch values of
    [createInitialGrid]; [build_grid rows cols] is the matching array of
    rows. *)

Definition fresh_node (r c : Z) (t : NodeType) : Node :=
  mkNode r c t Inf Inf Inf Inf false None.

Definition build_heap (cols : nat) (types : list NodeType) : Heap :=
  fun a => fresh_node (Z.of_nat (a / cols)%nat) (Z.of_nat (a mod cols)%nat)
                      (nth a types T_empty).

Definition build_grid (rows cols : nat) : Grid :=
  map (fun r => map (fun c => (r * cols + c)%nat) (seq 0 cols)) (seq 0 rows).

(** The position of a node. *)
Definition pos (h : Heap) (a : addr) : Z * Z := (row (h a), col (h a)).

(** ** App.tsx: the handlers that edit the grid

    [createInitialGrid], [resetGrid], [handleNodeClick] and the three
    mouse handlers, as they stand in the version with the comparison of
    Dijkstra and A* and, with the same text, in the version with one
    algorithm at a time.  A handler is the state of the component after
    React has processed the event: the updater that the handler passes to
    [setGrid] has run on the grid of the state, and the values that the
    handler reads from its closure are those of the state.  An exception
    that the updater throws is [TypeError]. *)

Module Editor.

Record GridSize : Type := mkGridSize {
  rows : nat;
  cols : nat
}.

Definition GRID_SIZE : GridSize := mkGridSize 20 35.

Inductive Tool : Type :=
  | Tool_wall
  | Tool_start
  | Tool_end.

#[global] Instance Tool_eq_dec : EqDecision Tool.
Proof. solve_decision. Defined.

Record State : Type := mkState {
  app : App4.State;
  currentTool : Tool;
  isMousePressed : bool
}.

(** The inner [for] loop of [createInitialGrid]: [currentRow.push({ row,
    col, type: 'empty', distance: Infinity, isVisited: false,
    previousNode: null })].  The object literal has no [gScore], [hScore]
    and [fScore]; the record gives them the value [Infinity]. *)
Definition create_row (size : GridSize) (h : Heap) (next : addr) (r : nat)
  : Heap * addr * list addr :=
  fold_left (fun (acc : Heap * addr * list addr) (c : nat) =>
               let '(h, next, currentRow) := acc in
               (alloc h next (fresh_node (Z.of_nat r) (Z.of_nat c) T_empty),
                S next, currentRow ++ [next]))
            (seq 0 (cols size)) (h, next, []).

Definition create_grid (size : GridSize) (h : Heap) (next : addr)
  : Heap * addr * Grid :=
  fold_left (fun (acc : Heap * addr * Grid) (r : nat) =>
               let '(h, next, newGrid) := acc in
               let '(h', next', currentRow) := create_row size h next r in
               (h', next', newGrid ++ [currentRow]))
            (seq 0 (rows size)) (h, next, []).

Definition createInitialGrid (h : Heap) (next : addr) : Heap * addr * Grid :=
  create_grid GRID_SIZE h next.

Definition resetGrid (ed : State) : State :=
  let st := app ed in
  let '(h, next, g) := createInitialGrid (App4.store st) (App4.next st) in
  mkState (App4.mkState (App4.algorithm st) g false None None None h next)
          (currentTool ed) (isMousePressed ed).

(** [newGrid[row]] *)
Definition grid_row (g : Grid) (r : Z) : option (list addr) :=
  if 0 <=? r then g !! Z.to_nat r else None.

(** [newGrid[r][c].type = t] *)
Definition set_cell_type (h : Heap) (g : Grid) (r c : Z) (t : NodeType)
  : outcome Heap :=
  a ← defined (cell g r c); Ok (upd h a (set_type t)).

(** [if (node) { newGrid[node.row][node.col].type = 'empty'; }] *)
Definition clear_cell_of (h : Heap) (g : Grid) (node : option addr)
  : outcome Heap :=
  match node with
  | Some n => set_cell_type h g (row (h n)) (col (h n)) T_empty
  | None => Ok h
  end.

Definition handleNodeClick (r c : Z) (ed : State) : outcome State :=
  let st := app ed in
  if App4.isRunning st then Ok ed
  else
    let '(h1, next1, newGrid) :=
      map_grid id (App4.store st) (App4.next st) (App4.grid st) in
    _ ← defined (grid_row newGrid r);
    let clickedNode := cell newGrid r c in
    let done (h : Heap) (s e : option addr) : State :=
      mkState (App4.mkState (App4.algorithm st) newGrid (App4.isRunning st)
                            s e (App4.error st) h next1)
              (currentTool ed) (isMousePressed ed) in
    match currentTool ed with
    | Tool_start =>
        h2 ← clear_cell_of h1 newGrid (App4.startNode st);
        n ← defined clickedNode;
        Ok (done (upd h2 n (set_type T_start)) (Some n) (App4.endNode st))
    | Tool_end =>
        h2 ← clear_cell_of h1 newGrid (App4.endNode st);
        n ← defined clickedNode;
        Ok (done (upd h2 n (set_type T_end)) (App4.startNode st) (Some n))
    | Tool_wall =>
        n ← defined clickedNode;
        if bool_decide (type (h1 n) ≠ T_start)
           && bool_decide (type (h1 n) ≠ T_end)
        then Ok (done (upd h1 n (set_type (if bool_decide (type (h1 n) = T_wall)
                                           then T_empty else T_wall)))
                      (App4.startNode st) (App4.endNode st))
        else Ok (done h1 (App4.startNode st) (App4.endNode st))
    end.

Definition handleMouseDown (r c : Z) (ed : State) : outcome State :=
  if App4.isRunning (app ed) || negb (bool_decide (currentTool ed = Tool_wall))
  then Ok ed
  else handleNodeClick r c (mkState (app ed) (currentTool ed) true).

Definition handleMouseEnter (r c : Z) (ed : State) : outcome State :=
  if negb (isMousePressed ed) || App4.isRunning (app ed)
     || negb (bool_decide (currentTool ed = Tool_wall))
  then Ok ed
  else handleNodeClick r c ed.

Definition handleMouseUp (ed : State) : State :=
  mkState (app ed) (currentTool ed) false.

(** [setCurrentTool(tool)] *)
Definition setCurrentTool (tool : Tool) (ed : State) : State :=
  mkState (app ed) tool (isMousePressed ed).

End Editor.

(** ** App.tsx: the animation of a result

    The two loops of [visualizeAlgorithm] that show the result of one
    algorithm, in the version with the comparison of Dijkstra and A*.
    Every pass waits for a timer and then passes an updater to [setGrid];
    the updaters run one after the other, each on the grid that the one
    before has returned. *)

Module Animation.

(** ['No path found!'] *)
Inductive RunError : Type :=
  | NoPathFound.

(** The updater of the first loop:
    [const newG = g.map(row => row.map(node => ({ ...node })));
     const node = result.visitedNodes[i];
     if (newG[node.row][node.col].type === 'empty')
       newG[node.row][node.col].type = 'visited';
     return newG;] *)
Definition mark_visited (acc : Heap * addr * Grid) (node : addr)
  : outcome (Heap * addr * Grid) :=
  let '(h, next, g) := acc in
  let '(h1, next1, newG) := map_grid id h next g in
  n ← defined (cell newG (row (h1 node)) (col (h1 node)));
  if bool_decide (type (h1 n) = T_empty)
  then Ok (upd h1 n (set_type T_visited), next1, newG)
  else Ok (h1, next1, newG).

(** The updater of the second loop:
    [if (newG[node.row][node.col].type !== 'start' &&
         newG[node.row][node.col].type !== 'end')
       newG[node.row][node.col].type = 'path';] *)
Definition mark_path (acc : Heap * addr * Grid) (node : addr)
  : outcome (Heap * addr * Grid) :=
  let '(h, next, g) := acc in
  let '(h1, next1, newG) := map_grid id h next g in
  n ← defined (cell newG (row (h1 node)) (col (h1 node)));
  if bool_decide (type (h1 n) ≠ T_start) && bool_decide (type (h1 n) ≠ T_end)
  then Ok (upd h1 n (set_type T_path), next1, newG)
  else Ok (h1, next1, newG).

(** The loop over [result.visitedNodes], then the loop over
    [result.path] or, when the path is empty, [setError('No path
    found!')]. *)
Definition animate (acc : Heap * addr * Grid) (result : Result)
  : outcome (Heap * addr * Grid * option RunError) :=
  acc1 ← foldM mark_visited acc (visitedNodes result);
  match path result with
  | [] => Ok (acc1, Some NoPathFound)
  | _ :: _ => acc2 ← foldM mark_path acc1 (path result); Ok (acc2, None)
  end.

End Animation.

(** ** Well-formed grids

    The grid of the data model: a non-empty rectangle in which the node
    stored at [(r, c)] carries the position [(r, c)]. *)

Definition grid_cols (g : Grid) : Z :=
  match g with
  | [] => 0
  | r0 :: _ => Z.of_nat (length r0)
  end.

Definition positions_okb (h : Heap) (g : Grid) : bool :=
  forallb (fun '(r, rowl) =>
    forallb (fun '(c, a) => (row (h a) =? Z.of_nat r) && (col (h a) =? Z.of_nat c))
            (imap pair rowl))
    (imap pair g).

Definition wf_gridb (h : Heap) (g : Grid) : bool :=
  (0 <? grid_length g) && (0 <? grid_cols g)
  && forallb (fun rowl => Z.of_nat (length rowl) =? grid_cols g) g
  && positions_okb h g.

Record wf_grid (h : Heap) (g : Grid) : Prop := {
  wf_rows : 0 < grid_length g;
  wf_cols : 0 < grid_cols g;
  wf_rect : ∀ r rowl, g !! r = Some rowl → Z.of_nat (length rowl) = grid_cols g;
  wf_pos : ∀ r c a, cell g r c = Some a → pos h a = (r, c)
}.

Definition in_bounds (g : Grid) (p : Z * Z) : bool :=
  (0 <=? p.1) && (p.1 <? grid_length g) && (0 <=? p.2) && (p.2 <? grid_cols g).

Definition in_grid (g : Grid) (a : addr) : Prop :=
  ∃ r c, cell g r c = Some a.

(** The candidate positions, in the order of the source. *)
Definition around (p : Z * Z) : list (Z * Z) :=
  [(p.1 - 1, p.2); (p.1 + 1, p.2); (p.1, p.2 - 1); (p.1, p.2 + 1)].

Definition cells (g : Grid) (ps : list (Z * Z)) : list addr :=
  omap (fun p => cell g p.1 p.2) ps.


(** ** A reference search on positions

    The three functions are compared with one best-first search that
    works on positions instead of node objects: the frontier is a list of
    positions, the scratch fields are functions of the position, and the
    key of the frontier is [g + heuristic].  With the heuristic [0] this
    is what dijkstra.ts does on the positions, with the Manhattan distance
    to the goal it is what astar.ts does.  Nothing of the source is
    modelled here; the section on simulation proves that the functions of
    the source compute what this search computes. *)

Abbreviation P := (Z * Z)%type.

Definition fupd {A} (f : P → A) (p : P) (v : A) : P → A :=
  fun x => if decide (x = p) then v else f x.

Definition manhattan (p q : P) : Z := Z.abs (p.1 - q.1) + Z.abs (p.2 - q.2).

Module Search.
Section search.
Variables (rows cols : Z) (wallf : P → bool) (hfun : P → Z) (goal : P).

Definition inb (p : P) : bool :=
    (0 <=? p.1) && (p.1 <? rows) && (0 <=? p.2) && (p.2 <? cols).

Definition nbrs (p : P) : list P := filter (λ q, inb q = true) (around p).

Record state : Type := mkState {
    open : list P;
    closed : list P;
    g : P → num;
    prev : P → option P;
    log : list P
  }.

Definition key (gs : P → num) (p : P) : num := num_add (gs p) (Fin (hfun p)).

Definition by_key (gs : P → num) (a b : P) : bool :=
    num_gt (key gs a) (key gs b).

Definition relax (cl : list P) (cur : P)
    (acc : (P → num) * (P → option P) * list P * list P) (n : P)
    : (P → num) * (P → option P) * list P * list P :=
    let '(gs, pv, q, lg) := acc in
    if bool_decide (n ∈ cl) || wallf n then acc
    else
      let t := num_add (gs cur) (Fin 1) in
      if num_lt t (gs n)
      then if bool_decide (n ∈ q)
           then (fupd gs n t, fupd pv n (Some cur), q, lg)
           else (fupd gs n t, fupd pv n (Some cur), q ++ [n], lg ++ [n])
      else acc.

Fixpoint reconstruct_loop (fuel : nat) (pv : P → option P) (cur : option P)
    (path : list P) : outcome (list P) :=
    match cur with
    | None => Ok path
    | Some c =>
        match fuel with
        | O => OutOfFuel
        | S fuel => reconstruct_loop fuel pv (pv c) (c :: path)
        end
    end.

Definition reconstruct (fuel : nat) (gs : P → num) (pv : P → option P)
    (p : P) : outcome (list P) :=
    path ← reconstruct_loop fuel pv (Some p) [];
    match path with
    | first :: _ => if decide (gs first = Fin 0) then Ok path else Ok []
    | [] => Ok []
    end.

Definition step (pfuel : nat) (st : state)
    : step_result state (list P * list P) :=
    match stable_sort (by_key (g st)) (open st) with
    | [] => Return (closed st, [])
    | cur :: rest =>
        if bool_decide (cur ∈ closed st) || wallf cur
        then Continue (mkState rest (closed st) (g st) (prev st) (log st))
        else
          let cl := closed st ++ [cur] in
          if bool_decide (cur = goal)
          then match reconstruct pfuel (g st) (prev st) cur with
               | Ok p => Return (cl, p)
               | TypeError => Throw
               | OutOfFuel => Starve
               end
          else
            let '(gs, pv, q, lg) :=
              fold_left (relax cl cur) (nbrs cur)
                        (g st, prev st, rest, log st) in
            Continue (mkState q cl gs pv lg)
    end.

Definition init (s : P) : state :=
    mkState [s] [] (fupd (λ _, Inf) s (Fin 0)) (λ _, None) [s].

Definition run (fuel : nat) (s : P) : outcome (list P * list P) :=
    while_loop (step fuel) fuel (init s).

  (** Walks from [s] through passable cells: [reach s n p] is a walk of
      [n] moves that ends in [p]. *)
Definition passable (p : P) : Prop := inb p = true ∧ wallf p = false.

Definition adjacent (p q : P) : Prop := q ∈ around p.

Inductive reach (s : P) : nat → P → Prop :=
    | reach_start : reach s 0 s
    | reach_move n p q :
        reach s n p → adjacent p q → passable q → reach s (S n) q.

End search.
End Search.

(** ** The invariant of the reference search

    [ex] are the closed positions whose neighbours have been relaxed, [cl]
    the closed positions and [q] the frontier; between two passes of the
    loop [ex = cl]. *)

Section invariant.
Variables (rows cols : Z) (wallf : P → bool) (hfun : P → Z) (goal s : P).

Local Abbreviation passable := (Search.passable rows cols wallf).
Local Abbreviation reach := (Search.reach rows cols wallf s).

Record Inv (ex cl q : list P) (gs : P → num) (pv : P → option P) : Prop := {
    inv_nodup : NoDup (cl ++ q);
    inv_pass : ∀ p, p ∈ cl ++ q → passable p;
    inv_disc : ∀ p, gs p ≠ Inf ↔ p ∈ cl ++ q;
    inv_start : gs s = Fin 0 ∧ s ∈ cl ++ q;
    inv_start_prev : pv s = None;
    inv_range : ∀ p n, gs p = Fin n → 0 <= n <= Z.of_nat (length cl);
    inv_prev : ∀ p n, gs p = Fin n → p ≠ s →
      ∃ q', pv p = Some q' ∧ gs q' = Fin (n - 1)
            ∧ Search.adjacent q' p ∧ q' ∈ cl;
    inv_opt : ∀ p n, p ∈ cl → reach n p →
      ∃ m, gs p = Fin m ∧ m <= Z.of_nat n;
    inv_exp : ∀ p t, p ∈ ex → Search.adjacent p t → passable t → t ∉ cl →
      ∃ m m', gs p = Fin m ∧ gs t = Fin m' ∧ m' <= m + 1;
    inv_sub : ∀ p, p ∈ ex → p ∈ cl;
    inv_goal : goal ∉ cl;
    inv_bound : ∀ x k, x ∈ cl → reach k goal →
      ∃ m, gs x = Fin m ∧ m + hfun x <= Z.of_nat k
  }.

Definition state_inv (st : Search.state) : Prop :=
    Inv (Search.closed st) (Search.closed st) (Search.open st)
        (Search.g st) (Search.prev st).

  (** The frontier of the search with heuristic [0] is a queue: sorted,
      its keys at most one apart, and in the order of insertion. *)
Record InvF (cl q : list P) (gs : P → num) (lg : list P) : Prop := {
    invf_sorted : StronglySorted (λ a b, num_gt (gs a) (gs b) = false) q;
    invf_band : ∀ x y m, x ∈ q → y ∈ q → gs x = Fin m →
      ∃ m', gs y = Fin m' ∧ m' <= m + 1;
    invf_log : lg = cl ++ q
  }.

Definition state_invF (st : Search.state) : Prop :=
    InvF (Search.closed st) (Search.open st) (Search.g st) (Search.log st).
End invariant.

Arguments inv_nodup {rows cols wallf hfun goal s ex cl q gs pv} _.
Arguments inv_pass {rows cols wallf hfun goal s ex cl q gs pv} _.
Arguments inv_disc {rows cols wallf hfun goal s ex cl q gs pv} _.
Arguments inv_start {rows cols wallf hfun goal s ex cl q gs pv} _.
Arguments inv_start_prev {rows cols wallf hfun goal s ex cl q gs pv} _.
Arguments inv_range {rows cols wallf hfun goal s ex cl q gs pv} _.
Arguments inv_prev {rows cols wallf hfun goal s ex cl q gs pv} _.
Arguments inv_opt {rows cols wallf hfun goal s ex cl q gs pv} _.
Arguments inv_exp {rows cols wallf hfun goal s ex cl q gs pv} _.
Arguments inv_sub {rows cols wallf hfun goal s ex cl q gs pv} _.
Arguments inv_goal {rows cols wallf hfun goal s ex cl q gs pv} _.
Arguments inv_bound {rows cols wallf hfun goal s ex cl q gs pv} _.
Arguments invf_sorted {cl q gs lg} _.
Arguments invf_band {cl q gs lg} _.
Arguments invf_log {cl q gs lg} _.

(** Walks as lists of positions, and the positions of a grid. *)
Section walks.
Variables (rows cols : Z) (wallf : P → bool).

Fixpoint is_walk (l : list P) : Prop :=
    match l with
    | [] => True
    | p :: l' =>
        match l' with
        | [] => True
        | q :: _ => Search.adjacent p q ∧ Search.passable rows cols wallf q
                    ∧ is_walk l'
        end
    end.

Definition all_positions : list P :=
    r ← seq 0 (Z.to_nat rows);
    (λ c, (Z.of_nat r, Z.of_nat c)) <$> seq 0 (Z.to_nat cols).

Definition n_cells : nat := (Z.to_nat rows * Z.to_nat cols)%nat.
End walks.

(** How the loop of the reference search ends: it pops the goal, or the
    frontier is empty. *)
Section endings.
Variables (rows cols : Z) (wallf : P → bool) (hfun : P → Z) (goal s : P).

Definition found (st : Search.state) (vs p : list P) : Prop :=
    ∃ rest m,
      stable_sort (Search.by_key hfun (Search.g st)) (Search.open st)
        = goal :: rest
      ∧ vs = Search.closed st ++ [goal]
      ∧ Search.g st goal = Fin m
      ∧ head p = Some s ∧ last p = Some goal ∧ is_walk rows cols wallf p
      ∧ length p = S (Z.to_nat m).

Definition exhausted (st : Search.state) (vs p : list P) : Prop :=
    Search.open st = [] ∧ vs = Search.closed st ∧ p = [].
End endings.

(** The frontier of the search with heuristic [0] while the neighbours of
    a position with [g = m] are relaxed: sorted, with keys between [m] and
    [m + 1]. *)
Definition InvR (m : Z) (cl q : list P) (gs : P → num) (lg : list P) : Prop :=
  StronglySorted (λ a b, num_gt (gs a) (gs b) = false) q
  ∧ (∀ y, y ∈ q → ∃ m', gs y = Fin m' ∧ m <= m' <= m + 1)
  ∧ lg = cl ++ q.

(** ** Relating the functions of the source to the reference search *)

(** A store that differs from [h] in scratch fields only. *)
Definition frame (h h' : Heap) : Prop :=
  ∀ a, row (h' a) = row (h a) ∧ col (h' a) = col (h a)
       ∧ type (h' a) = type (h a).

(** A field assignment that leaves position and display tag alone. *)
Definition scratch_only (f : Node → Node) : Prop :=
  ∀ n, row (f n) = row n ∧ col (f n) = col n ∧ type (f n) = type n.

(** The layout that a store and a grid describe. *)
Definition wall_at (h : Heap) (g : Grid) (p : P) : bool :=
  match cell g p.1 p.2 with
  | Some a => is_wall h a
  | None => false
  end.

Definition osim {A B} (R : A → B → Prop) (x : outcome A) (y : outcome B)
  : Prop :=
  match x, y with
  | Ok a, Ok b => R a b
  | TypeError, TypeError => True
  | OutOfFuel, OutOfFuel => True
  | _, _ => False
  end.

Definition ssim {S1 S2 R1 R2} (RS : S1 → S2 → Prop) (RR : R1 → R2 → Prop)
  (x : step_result S1 R1) (y : step_result S2 R2) : Prop :=
  match x, y with
  | Continue a, Continue b => RS a b
  | Return a, Return b => RR a b
  | Throw, Throw => True
  | Starve, Starve => True
  | _, _ => False
  end.

Section relations.
Variables (h0 : Heap) (g : Grid).

  (** Lists of nodes of the grid and the positions they stand for. *)
Definition nodes_rel (l : list addr) (lp : list P) : Prop :=
    Forall (in_grid g) l ∧ pos h0 <$> l = lp.

Definition prev_rel (h : Heap) (pv : P → option P) : Prop :=
    ∀ a, in_grid g a →
      match previousNode (h a) with
      | Some b => in_grid g b ∧ pv (pos h0 a) = Some (pos h0 b)
      | None => pv (pos h0 a) = None
      end.

Definition result_rel (hr : Heap * Result) (r : list P * list P) : Prop :=
    frame h0 hr.1
    ∧ nodes_rel (visitedNodes hr.2) r.1 ∧ nodes_rel (path hr.2) r.2.

  (** The loop states that the accumulators of the relaxation loops stand
      for. *)
Definition search_acc (cl : list P)
    (acc : (P → num) * (P → option P) * list P * list P) : Search.state :=
    Search.mkState acc.1.2 cl acc.1.1.1 acc.1.1.2 acc.2.

Definition dijkstra_acc (vis : list addr)
    (acc : Heap * list addr * list addr) : Dijkstra.state :=
    Dijkstra.mkState acc.1.1 acc.1.2 vis acc.2.

Record rel_dijkstra (st : Dijkstra.state) (ast : Search.state) : Prop := {
    rd_frame : frame h0 (Dijkstra.heap st);
    rd_queue : nodes_rel (Dijkstra.queue st) (Search.open ast);
    rd_visited : nodes_rel (Dijkstra.visited st) (Search.closed ast);
    rd_pushed : nodes_rel (Dijkstra.pushed st) (Search.log ast);
    rd_distance : ∀ a, in_grid g a →
      distance (Dijkstra.heap st a) = Search.g ast (pos h0 a);
    rd_isVisited : ∀ a, in_grid g a →
      isVisited (Dijkstra.heap st a)
      = bool_decide (pos h0 a ∈ Search.closed ast);
    rd_prev : prev_rel (Dijkstra.heap st) (Search.prev ast)
  }.

Definition astar_acc (cs : gset addr) (vis : list addr)
    (acc : Heap * list addr * list addr) : Astar.state :=
    Astar.mkState acc.1.1 acc.1.2 cs vis acc.2.

Record rel_astar (goal : P) (st : Astar.state) (ast : Search.state)
    : Prop := {
    ra_frame : frame h0 (Astar.heap st);
    ra_open : nodes_rel (Astar.openSet st) (Search.open ast);
    ra_visited : nodes_rel (Astar.visited st) (Search.closed ast);
    ra_pushed : nodes_rel (Astar.pushed st) (Search.log ast);
    ra_closed : ∀ a, a ∈ Astar.closedSet st ↔ a ∈ Astar.visited st;
    ra_gScore : ∀ a, in_grid g a →
      gScore (Astar.heap st a) = Search.g ast (pos h0 a);
    ra_hScore : ∀ a, in_grid g a →
      hScore (Astar.heap st a) = Fin (manhattan (pos h0 a) goal);
    ra_fScore : ∀ a, in_grid g a →
      fScore (Astar.heap st a)
      = Search.key (λ p, manhattan p goal) (Search.g ast) (pos h0 a);
    ra_isVisited : ∀ a, in_grid g a →
      isVisited (Astar.heap st a)
      = bool_decide (pos h0 a ∈ Search.closed ast);
    ra_prev : prev_rel (Astar.heap st) (Search.prev ast)
  }.

Record rel_bfs (goal s : P) (st : Bfs.state) (ast : Search.state)
    : Prop := {
    rb_frame : frame h0 (Bfs.heap st);
    rb_queue : nodes_rel (Bfs.queue st) (Search.open ast);
    rb_visited : nodes_rel (Bfs.visited st) (Search.closed ast);
    rb_isVisited : ∀ a, in_grid g a →
      isVisited (Bfs.heap st a)
      = bool_decide (Search.g ast (pos h0 a) ≠ Inf);
    rb_prev : prev_rel (Bfs.heap st) (Search.prev ast);
    rb_inv : state_inv (grid_length g) (grid_cols g) (wall_at h0 g)
                       (λ _, 0) goal s ast;
    rb_invF : state_invF ast
  }.

  (** bfs.ts and the reference search while the neighbours of the
      position [cur], with [g = m], are handled. *)
Record rel_bfs_fold (goal s : P) (ex cl : list P) (cur : P) (m : Z)
    (acc : Heap * list addr)
    (aacc : (P → num) * (P → option P) * list P * list P) : Prop := {
    rf_frame : frame h0 acc.1;
    rf_queue : nodes_rel acc.2 aacc.1.2;
    rf_isVisited : ∀ a, in_grid g a →
      isVisited (acc.1 a) = bool_decide (aacc.1.1.1 (pos h0 a) ≠ Inf);
    rf_prev : prev_rel acc.1 aacc.1.1.2;
    rf_inv : Inv (grid_length g) (grid_cols g) (wall_at h0 g) (λ _, 0) goal s
                 ex cl aacc.1.2 aacc.1.1.1 aacc.1.1.2;
    rf_invR : InvR m cl aacc.1.2 aacc.1.1.1 aacc.2;
    rf_cur : aacc.1.1.1 cur = Fin m
  }.
End relations.

(** ** Predicates of the claims, as checks that compute *)

(** [a] is the node that the grid holds at the position of [a]. *)
Definition in_gridb (h : Heap) (g : Grid) (a : addr) : bool :=
  bool_decide (cell g (row (h a)) (col (h a)) = Some a).

Definition grid_size (g : Grid) : nat := n_cells (grid_length g) (grid_cols g).

(** One 4-directional move. *)
Definition moveb (h : Heap) (a b : addr) : bool :=
  Z.abs (row (h a) - row (h b)) + Z.abs (col (h a) - col (h b)) =? 1.

Fixpoint movesb (h : Heap) (l : list addr) : bool :=
  match l with
  | [] => true
  | a :: l' =>
      match l' with
      | [] => true
      | b :: _ => moveb h a b && movesb h l'
      end
  end.

(** A 4-directional path through non-wall cells of the grid from [s] to
    [e]. *)
Definition valid_pathb (h : Heap) (g : Grid) (s e : addr) (p : list addr)
  : bool :=
  bool_decide (head p = Some s) && bool_decide (last p = Some e)
  && forallb (λ a, in_gridb h g a && negb (is_wall h a)) p
  && movesb h p.

(** Two grids with the same dimensions and the same walls. *)
Definition same_layoutb (h1 : Heap) (g1 : Grid) (h2 : Heap) (g2 : Grid)
  : bool :=
  (grid_length g1 =? grid_length g2) && (grid_cols g1 =? grid_cols g2)
  && forallb (λ p, bool_decide (wall_at h1 g1 p = wall_at h2 g2 p))
             (all_positions (grid_length g1) (grid_cols g1)).

(** In the log of pushes, the first push of [x] comes before the first
    push of [y]. *)
Fixpoint pushed_beforeb (log : list addr) (x y : addr) : bool :=
  match log with
  | [] => false
  | z :: log' =>
      if decide (z = y) then false
      else if decide (z = x) then bool_decide (y ∈ log')
      else pushed_beforeb log' x y
  end.

(** ** A grid to run the functions on

    Three rows of three cells, the start in the upper left corner, the
    end in the lower right corner and a wall in the middle. *)
Definition ex_types : list NodeType :=
  [T_start; T_empty; T_empty;
   T_empty; T_wall; T_empty;
   T_empty; T_empty; T_end].
Definition ex_heap : Heap := build_heap 3 ex_types.
Definition ex_grid : Grid := build_grid 3 3.

(** The grid [ex_grid] with a start node that is not the grid's node at
    [(0, 0)] but a copy of it, made after a run: reference 9, outside the
    grid, with the visited flag of that run. *)
Definition copy_heap : Heap :=
  upd ex_heap 9%nat (λ _, set_isVisited true (fresh_node 0 0 T_start)).

(** The same layout in a store that a run has used before: display tags
    of a finished animation, and a stale visited flag. *)
Definition ex_types2 : list NodeType :=
  [T_start; T_visited; T_path;
   T_visited; T_wall; T_path;
   T_empty; T_empty; T_end].
Definition ex_heap2 : Heap :=
  upd (build_heap 3 ex_types2) 1%nat (set_isVisited true).

(** ** The frontier between two passes of the loops

    The loop state after [n] passes of the [while] loop, [None] when the
    function has returned before. *)
Definition dijkstra_after (fuel : nat) (h : Heap) (g : Grid) (s e : addr)
  (n : nat) : option Dijkstra.state :=
  match Dijkstra.init h g s with
  | Ok st0 => iterate (Dijkstra.step fuel g e) n st0
  | _ => None
  end.

Definition astar_after (fuel : nat) (h : Heap) (g : Grid) (s e : addr)
  (n : nat) : option Astar.state :=
  match Astar.init h g s e with
  | Ok st0 => iterate (Astar.step fuel g e) n st0
  | _ => None
  end.

(** The tie-break by insertion order, for the sorted frontier of one
    pass: no entry that stays behind with the key of the popped entry was
    pushed before the popped entry. *)
Definition ties_by_insertion (log : list addr) (key : addr → num)
  (sorted : list addr) : Prop :=
  match sorted with
  | [] => True
  | cur :: rest =>
      ∀ x, x ∈ rest → key x = key cur → pushed_beforeb log x cur = false
  end.

Definition dijkstra_ties (fuel : nat) (h : Heap) (g : Grid) (s e : addr)
  : Prop :=
  ∀ n, match dijkstra_after fuel h g s e n with
       | Some st =>
           ties_by_insertion (Dijkstra.pushed st)
             (λ a, distance (Dijkstra.heap st a))
             (stable_sort (Dijkstra.by_distance (Dijkstra.heap st))
                          (Dijkstra.queue st))
       | None => True
       end.

Definition astar_ties (fuel : nat) (h : Heap) (g : Grid) (s e : addr)
  : Prop :=
  ∀ n, match astar_after fuel h g s e n with
       | Some st =>
           ties_by_insertion (Astar.pushed st)
             (λ a, fScore (Astar.heap st a))
             (stable_sort (Astar.by_fScore (Astar.heap st))
                          (Astar.openSet st))
       | None => True
       end.

(** Three rows of five cells: start at [(1, 4)], end at [(2, 0)], walls
    at [(1, 3)] and [(2, 1)]. *)
Definition tie_types : list NodeType :=
  [T_empty; T_empty; T_empty; T_empty; T_empty;
   T_empty; T_empty; T_empty; T_wall; T_start;
   T_end; T_wall; T_empty; T_empty; T_empty].
Definition tie_heap : Heap := build_heap 5 tie_types.
Definition tie_grid : Grid := build_grid 3 5.

(** ** Path reconstruction in the words of the specification

    Starting at the goal node, follow the predecessor links backward,
    collecting nodes, until a node without predecessor is reached; reverse
    the collected sequence; return it when its first node has accumulated
    cost zero, and the empty path otherwise. *)
Fixpoint follow_links (fuel : nat) (h : Heap) (cur : option addr)
  : outcome (list addr) :=
  match cur with
  | None => Ok []
  | Some c =>
      match fuel with
      | O => OutOfFuel
      | S fuel =>
          collected ← follow_links fuel h (previousNode (h c));
          Ok (c :: collected)
      end
  end.

Definition reconstruct_validated (cost : Node → num) (fuel : nat) (h : Heap)
  (goal : addr) : outcome (list addr) :=
  collected ← follow_links fuel h (Some goal);
  match reverse collected with
  | first :: rest =>
      if decide (cost (h first) = Fin 0) then Ok (first :: rest) else Ok []
  | [] => Ok []
  end.

(** What a validated reconstruction returns in a run, in its weakest
    reading: no path, or a path whose first node is the start node or has
    accumulated cost zero. *)
Definition path_validated (cost : Node → num) (s : addr) (hr : Heap * Result)
  : Prop :=
  path hr.2 = []
  ∨ ∃ first, head (path hr.2) = Some first
             ∧ (first = s ∨ cost (hr.1 first) = Fin 0).

Definition bfs_validates : Prop :=
  ∀ fuel h g s e hr, Bfs.bfs fuel h g s e = Ok hr → path_validated distance s hr.

(** A [reconstructPath] that does what the specification describes, with
    [cost] as the accumulated cost. *)
Definition reconstruction_validates
  (reconstructPath : nat → Heap → addr → outcome (list addr))
  (cost : Node → num) : Prop :=
  ∀ fuel h goal,
    reconstructPath fuel h goal = reconstruct_validated cost fuel h goal.

(** The store that the run of bfs on the grid [ex_grid] leaves. *)
Definition ex_bfs_heap : Heap :=
  match Bfs.bfs 10 ex_heap ex_grid 0%nat 8%nat with
  | Ok (h', _) => h'
  | _ => ex_heap
  end.

(** One row of two cells, and a start node that is not the grid's node at
    its position but a copy made earlier, which still carries a
    predecessor link to another earlier node. *)
Definition stale_grid : Grid := build_grid 1 2.
Definition stale_heap : Heap :=
  upd (upd (build_heap 2 [T_empty; T_end])
           2%nat (λ _, mkNode 0 0 T_start Inf Inf Inf Inf false (Some 3%nat)))
      3%nat (λ _, fresh_node 0 1 T_empty).

(** ** The guard of visualizeAlgorithm *)

(** Every node of the grid is an object that exists: its reference is
    below [next]. *)
Definition allocatedb (next : addr) (g : Grid) : bool :=
  forallb (forallb (λ a, (a <? next)%nat)) g.

Definition rejected4 (o : outcome App4.Outcome) : bool :=
  match o with
  | Ok (App4.Rejected _) => true
  | _ => false
  end.

Definition rejected3 (o : outcome App3.Outcome) : bool :=
  match o with
  | Ok (App3.Rejected _) => true
  | _ => false
  end.

(** A call with start and end on one cell is rejected. *)
Definition rejects_same_cell4 : Prop :=
  ∀ fuel st s e,
    App4.startNode st = Some s → App4.endNode st = Some e →
    same_cell (App4.store st) s e = true →
    rejected4 (App4.visualizeAlgorithm fuel st) = true.

Definition rejects_same_cell3 : Prop :=
  ∀ dfs fuel st s e,
    App3.startNode st = Some s → App3.endNode st = Some e →
    same_cell (App3.store st) s e = true →
    rejected3 (App3.visualizeAlgorithm dfs fuel st) = true.

(** The state after a click on the cell [(0, 0)] with the start tool and
    a click on the same cell with the end tool: the grid's node 0 is the
    end node, and the start node is the copy 9 that the first click
    made. *)
Definition click_types : list NodeType :=
  [T_end; T_empty; T_empty;
   T_empty; T_wall; T_empty;
   T_empty; T_empty; T_empty].
Definition click_store : Heap :=
  upd (build_heap 3 click_types) 9%nat (λ _, fresh_node 0 0 T_start).
Definition click_state4 (algorithm : App4.AlgorithmType) : App4.State :=
  App4.mkState algorithm ex_grid false (Some 9%nat) (Some 0%nat) None
               click_store 10%nat.
Definition click_state3 (algorithm : App3.AlgorithmType) : App3.State :=
  App3.mkState algorithm ex_grid false (Some 9%nat) (Some 0%nat) None
               true (λ _, false) click_store 10%nat.


(** [n'] is a copy of [n] with the scratch fields cleared. *)
Definition cleared_copy_of (n n' : Node) : Prop :=
  row n' = row n ∧ col n' = col n ∧ (type n' = T_wall ↔ type n = T_wall)
  ∧ distance n' = Inf ∧ isVisited n' = false ∧ previousNode n' = None.

(** [newGrid], in the store [h1], is a copy of the grid [g] of the store
    [h] with cleared scratch fields: its nodes are objects that did not
    exist before [next], and the objects that existed are as they were. *)
Definition reset_copy (h : Heap) (next : addr) (g : Grid) (h1 : Heap)
  (newGrid : Grid) : Prop :=
  (∀ a, (a < next)%nat → h1 a = h a)
  ∧ ∀ r c,
      match cell g r c with
      | Some a => ∃ a', cell newGrid r c = Some a' ∧ (next <= a')%nat
                        ∧ cleared_copy_of (h a) (h1 a')
      | None => cell newGrid r c = None
      end.

(** A state in which no start node is set. *)
Definition unset_state4 : App4.State :=
  App4.mkState App4.A_dijkstra ex_grid false None (Some 8%nat) None
               ex_heap 9%nat.
Definition unset_state3 : App3.State :=
  App3.mkState App3.A_bfs ex_grid false None (Some 8%nat) None
               true (λ _, false) ex_heap 9%nat.


(** ** What a result says about the paths of the grid

    The path is empty exactly when the end cannot be reached; the
    recorded nodes can be reached; and every node that can be reached is
    recorded when the end cannot. *)
Definition explored (h : Heap) (g : Grid) (s e : addr) (r : Result) : Prop :=
  (path r = [] ↔ ∀ q, valid_pathb h g s e q = false)
  ∧ (∀ x, x ∈ visitedNodes r → ∃ q, valid_pathb h g s x q = true)
  ∧ (path r = [] → ∀ x q, valid_pathb h g s x q = true → x ∈ visitedNodes r).

(** ** The nodes that a run touches

    The nodes a run may write to are the nodes of the grid and the start
    node; [kept h g s h'] is a store that differs from [h] in the scratch
    fields of these nodes only. *)
Definition own (g : Grid) (s : addr) (x : addr) : Prop := in_grid g x ∨ x = s.

Definition kept (h : Heap) (g : Grid) (s : addr) (h' : Heap) : Prop :=
  frame h h' ∧ ∀ a, ¬ own g s a → h' a = h a.

Definition clear_of_walls (h : Heap) (g : Grid) (s : addr) (l : list addr)
  : Prop :=
  Forall (λ x, own g s x ∧ is_wall h x = false) l.

(** The start node [s] is discarded when dijkstra pops it: it carries the
    visited flag or is a wall. *)
Definition marked (h : Heap) (s : addr) : Prop :=
  isVisited (h s) = true ∨ is_wall h s = true.


(** ** Copies of the grid *)

(** [g'], in the store [h'], is a copy of the grid [g] of the store [h]
    in which the node at [p] is the image under [f p] of the node it is
    copied from: the same shape, every node an object that did not exist
    before [next], and the objects that existed as they were. *)
Definition copy_with (f : Z * Z → Node → Node) (h : Heap) (next : addr)
  (g : Grid) (h' : Heap) (next' : addr) (g' : Grid) : Prop :=
  (next <= next')%nat
  ∧ (∀ a, (a < next)%nat → h' a = h a)
  ∧ grid_length g' = grid_length g ∧ grid_cols g' = grid_cols g
  ∧ (∀ r c a, cell g r c = Some a →
       ∃ a', cell g' r c = Some a' ∧ (next <= a' < next')%nat
             ∧ h' a' = f (r, c) (h a))
  ∧ (∀ r c, cell g r c = None → cell g' r c = None).


(** ** The states of the editor *)

(** A start or end node that is set is an object that exists and lies
    within the grid. *)
Definition placedb (h : Heap) (next : addr) (g : Grid) (n : option addr)
  : bool :=
  match n with
  | Some a => (a <? next)%nat && in_bounds g (pos h a)
  | None => true
  end.

(** The states of the editor that the handlers keep to: a well-formed
    grid of objects that exist, start and end within it. *)
Definition editor_okb (ed : Editor.State) : bool :=
  let st := Editor.app ed in
  wf_gridb (App4.store st) (App4.grid st)
  && allocatedb (App4.next st) (App4.grid st)
  && placedb (App4.store st) (App4.next st) (App4.grid st) (App4.startNode st)
  && placedb (App4.store st) (App4.next st) (App4.grid st) (App4.endNode st).

(** The display tag of the cell at [p] after a click on the cell at
    [target], when it was [t] before and the start and end nodes were at
    [s] and [e]. *)
Definition clicked_type (tool : Editor.Tool) (target : Z * Z)
  (s e : option (Z * Z)) (p : Z * Z) (t : NodeType) : NodeType :=
  match tool with
  | Editor.Tool_start =>
      if decide (p = target) then T_start
      else if decide (s = Some p) then T_empty else t
  | Editor.Tool_end =>
      if decide (p = target) then T_end
      else if decide (e = Some p) then T_empty else t
  | Editor.Tool_wall =>
      if decide (p = target)
      then match t with
           | T_start => T_start
           | T_end => T_end
           | T_wall => T_empty
           | _ => T_wall
           end
      else t
  end.


(** [h'] is [h] with other display tags. *)
Definition retagged (h h' : Heap) : Prop :=
  ∀ a, h' a = set_type (type (h' a)) (h a).


(** The node [n] with the display tag that [F] gives for the cell at [p]. *)
Definition retag (F : Z * Z → NodeType → NodeType) (p : Z * Z) (n : Node)
  : Node :=
  set_type (F p (type n)) n.

(** Every cell of the grid with the display tag [start] lies where the
    start node is, and every cell with the tag [end] where the end node
    is. *)
Definition tags_matchb (ed : Editor.State) : bool :=
  let st := Editor.app ed in
  let h := App4.store st in
  forallb (forallb (λ a,
    (negb (bool_decide (type (h a) = T_start))
     || bool_decide (pos h <$> App4.startNode st = Some (pos h a)))
    && (negb (bool_decide (type (h a) = T_end))
        || bool_decide (pos h <$> App4.endNode st = Some (pos h a)))))
    (App4.grid st).

(** The display tag of the cell at [p] after two clicks with the wall
    tool on the cell at [target], when it was [t] before. *)
Definition twice_clicked_type (target p : Z * Z) (t : NodeType) : NodeType :=
  if decide (p = target)
  then match t with
       | T_start => T_start
       | T_end => T_end
       | T_wall => T_wall
       | _ => T_empty
       end
  else t.

(** The editor state with the grid [ex_grid], start and end in two
    corners. *)
Definition ex_editor (tool : Editor.Tool) : Editor.State :=
  Editor.mkState
    (App4.mkState App4.A_dijkstra ex_grid false (Some 0%nat) (Some 8%nat) None
                  ex_heap 9%nat)
    tool false.


(** The grid of [rows] rows of [cols] consecutive references from
    [next]. *)
Definition rows_from (next : addr) (cols : nat) (r0 k : nat) : Grid :=
  (λ i, seq (next + i * cols)%nat cols) <$> seq r0 k.


(** ** The animation *)

(** The display tag of the cell at [p] after the animation of a result
    whose visited nodes lie at [vis] and whose path nodes lie at [pth],
    when it was [t] before. *)
Definition shown_type (vis pth : list (Z * Z)) (p : Z * Z) (t : NodeType)
  : NodeType :=
  if bool_decide (p ∈ pth) && bool_decide (t ≠ T_start)
     && bool_decide (t ≠ T_end)
  then T_path
  else if bool_decide (p ∈ vis) && bool_decide (t = T_empty) then T_visited
  else t.

(** The nodes of [l] are objects that exist and lie within the grid. *)
Definition shownb (h : Heap) (next : addr) (g : Grid) (l : list addr) : bool :=
  forallb (λ a, (a <? next)%nat && in_bounds g (pos h a)) l.

(** One pass of the first loop, and one of the second, for a node at
    [q]. *)
Definition visit_type (q p : Z * Z) (t : NodeType) : NodeType :=
  if decide (p = q) then (if bool_decide (t = T_empty) then T_visited else t)
  else t.

Definition path_type (q p : Z * Z) (t : NodeType) : NodeType :=
  if decide (p = q)
  then (if bool_decide (t ≠ T_start) && bool_decide (t ≠ T_end)
        then T_path else t)
  else t.


(** The grid [g'] of the store [h'] has the shape of the grid [g] of the
    store [h], and its node at [p] is the image under [f p] of the node
    of [g] at [p]. *)
Definition cells_with (f : Z * Z → Node → Node) (h : Heap) (g : Grid)
  (h' : Heap) (g' : Grid) : Prop :=
  grid_length g' = grid_length g ∧ grid_cols g' = grid_cols g
  ∧ (∀ r c a, cell g r c = Some a →
       ∃ a', cell g' r c = Some a' ∧ h' a' = f (r, c) (h a))
  ∧ (∀ r c, cell g r c = None → cell g' r c = None).


(** ** Grids and stores for the edge cases *)

(** The grid [ex_grid] with a start node that is a wall. *)
Definition wall_start_heap : Heap := upd ex_heap 0%nat (set_type T_wall).

(** Two rows, the second shorter than the first. *)
Definition short_grid : Grid := [[0; 1; 2]; [3; 4]]%nat.

(** ** The queue of dijkstra between two passes

    The log of pushes is the visited nodes followed by the queue; the
    visited nodes carry the visited flag, the entries of the queue do not
    and are no walls; the distances of the entries lie in a band of width
    one and the queue is sorted by them. *)
Definition queue_inv (st : Dijkstra.state) : Prop :=
  let h := Dijkstra.heap st in
  Dijkstra.pushed st = Dijkstra.visited st ++ Dijkstra.queue st
  ∧ NoDup (Dijkstra.pushed st)
  ∧ Forall (λ x, isVisited (h x) = true) (Dijkstra.visited st)
  ∧ Forall (λ x, isVisited (h x) = false ∧ is_wall h x = false)
           (Dijkstra.queue st)
  ∧ (∃ d, Forall (λ x, ∃ k, distance (h x) = Fin k ∧ d <= k <= d + 1)
                 (Dijkstra.queue st))
  ∧ StronglySorted (λ a b, Dijkstra.by_distance h a b = false)
                   (Dijkstra.queue st).

(** The first pass has popped the start node [s] and discarded it,
    because it carries the visited flag or is a wall: nothing is visited
    and nothing is left in the queue. *)
Definition start_discarded (s : addr) (st : Dijkstra.state) : Prop :=
  Dijkstra.visited st = [] ∧ Dijkstra.queue st = []
  ∧ Dijkstra.pushed st = [s]
  ∧ (isVisited (Dijkstra.heap st s) = true
     ∨ is_wall (Dijkstra.heap st) s = true).

(** The loop over the neighbours of the node [cur], which the pass has
    just finalized at distance [dc]; [vis] are the visited nodes, [cur]
    among them. *)
Definition neighbours_inv (cur : addr) (dc : Z) (vis : list addr)
  (acc : Heap * list addr * list addr) : Prop :=
  let '(h, q, lg) := acc in
  lg = vis ++ q
  ∧ NoDup lg
  ∧ Forall (λ x, isVisited (h x) = true) vis
  ∧ Forall (λ x, isVisited (h x) = false ∧ is_wall h x = false) q
  ∧ distance (h cur) = Fin dc ∧ cur ∈ vis
  ∧ Forall (λ x, ∃ k, distance (h x) = Fin k ∧ dc <= k <= dc + 1) q
  ∧ StronglySorted (λ a b, Dijkstra.by_distance h a b = false) q.

(** ** A start node that earlier clicks and runs have left behind

    The state after a click with the start tool on the cell [(0, 0)] and
    a click with the end tool on the cell [(2, 2)]: the second click has
    copied the grid, so that the end node 8 is a node of the grid, and the
    start node is the object 9 that the first click has made, not the
    grid's node at [(0, 0)]. *)
Definition detached_store : Heap :=
  upd ex_heap 9%nat (λ _, fresh_node 0 0 T_start).
Definition detached_state4 (algorithm : App4.AlgorithmType) : App4.State :=
  App4.mkState algorithm ex_grid false (Some 9%nat) (Some 8%nat) None
               detached_store 10%nat.

(** The state when a run and its animation are over: the grid [g] that
    the animation has left, in the store [h], and [isRunning] false
    again. *)
Definition settled_state4 (algorithm : App4.AlgorithmType) (h : Heap)
  (next : addr) (g : Grid) (s e : addr) : App4.State :=
  App4.mkState algorithm g false (Some s) (Some e) None h next.

(** * Proofs *)

(** ** Grid geometry *)

Lemma forallb_imap_lookup {A} (f : nat * A → bool) (l : list A) :
  forallb f (imap pair l) = true ↔ ∀ i x, l !! i = Some x → f (i, x) = true.
Proof.
  rewrite forallb_forall. split.
  - intros H i x Hl. apply H. apply list_elem_of_In.
    apply list_elem_of_lookup. exists i. rewrite list_lookup_imap, Hl. done.
  - intros H [i x] Hin. apply list_elem_of_In, list_elem_of_lookup in Hin.
    destruct Hin as [j Hj]. rewrite list_lookup_imap in Hj.
    destruct (l !! j) eqn:E; simplify_eq/=. by apply H.
Qed.

Lemma cell_lookup (g : Grid) (r c : Z) (a : addr) :
  cell g r c = Some a ↔
  0 <= r ∧ 0 <= c ∧ ∃ rowl, g !! Z.to_nat r = Some rowl ∧ rowl !! Z.to_nat c = Some a.
Proof.
  unfold cell. split.
  - destruct (0 <=? r) eqn:Hr, (0 <=? c) eqn:Hc; simpl; try done.
    intros H. apply Z.leb_le in Hr, Hc.
    destruct (g !! Z.to_nat r) as [rowl|] eqn:E; simpl in H; [|done]. eauto.
  - intros (Hr & Hc & rowl & H1 & H2).
    apply Z.leb_le in Hr, Hc. rewrite Hr, Hc. simpl. rewrite H1. simpl. done.
Qed.

Lemma wf_gridb_wf (h : Heap) (g : Grid) : wf_gridb h g = true → wf_grid h g.
Proof.
  unfold wf_gridb. rewrite !andb_true_iff. intros [[[H1 H2] H3] H4].
  apply Z.ltb_lt in H1, H2. rewrite forallb_forall in H3.
  unfold positions_okb in H4. rewrite forallb_imap_lookup in H4.
  split; try done.
  - intros r rowl Hl. apply Z.eqb_eq, H3, list_elem_of_In.
    eapply list_elem_of_lookup_2; eauto.
  - intros r c a (Hr & Hc & rowl & Hl1 & Hl2)%cell_lookup.
    specialize (H4 _ _ Hl1). simpl in H4. rewrite forallb_imap_lookup in H4.
    specialize (H4 _ _ Hl2). simpl in H4.
    apply andb_true_iff in H4 as [?%Z.eqb_eq ?%Z.eqb_eq].
    unfold pos. f_equal; lia.
Qed.

Lemma cell_in_bounds (h : Heap) (g : Grid) (r c : Z) :
  wf_grid h g → (is_Some (cell g r c) ↔ in_bounds g (r, c) = true).
Proof.
  intros Hwf. unfold in_bounds. simpl. rewrite !andb_true_iff.
  rewrite !Z.leb_le, !Z.ltb_lt. split.
  - intros [a (Hr & Hc & rowl & Hl1 & Hl2)%cell_lookup].
    pose proof (wf_rect _ _ Hwf _ _ Hl1) as Hlen.
    apply lookup_lt_Some in Hl1, Hl2. unfold grid_length. lia.
  - intros [[[Hr Hr'] Hc] Hc']. unfold grid_length in Hr'.
    destruct (lookup_lt_is_Some_2 g (Z.to_nat r)) as [rowl Hl1]; [lia|].
    pose proof (wf_rect _ _ Hwf _ _ Hl1) as Hlen.
    destruct (lookup_lt_is_Some_2 rowl (Z.to_nat c)) as [a Hl2]; [lia|].
    exists a. apply cell_lookup. eauto 6.
Qed.

Lemma cell_None_out (h : Heap) (g : Grid) (r c : Z) :
  wf_grid h g → in_bounds g (r, c) = false → cell g r c = None.
Proof.
  intros Hwf Hb. destruct (cell g r c) eqn:E; [|done].
  assert (in_bounds g (r, c) = true) by (eapply cell_in_bounds; [done|eauto]).
  congruence.
Qed.

Lemma cell_inj (h : Heap) (g : Grid) r c r' c' a :
  wf_grid h g → cell g r c = Some a → cell g r' c' = Some a → r = r' ∧ c = c'.
Proof.
  intros Hwf H1 H2. apply (wf_pos _ _ Hwf) in H1, H2. split; congruence.
Qed.

Lemma in_grid_cell (h : Heap) (g : Grid) a :
  wf_grid h g → in_grid g a → cell g (row (h a)) (col (h a)) = Some a.
Proof.
  intros Hwf (r & c & Hc). pose proof (wf_pos _ _ Hwf _ _ _ Hc) as Hp.
  unfold pos in Hp. by simplify_eq.
Qed.

Lemma row0_length_cols (g : Grid) :
  0 < grid_length g → row0_length g = Ok (grid_cols g).
Proof. destruct g; [unfold grid_length; simpl; lia | done]. Qed.

Lemma push_cell_cond (g : Grid) (r c : Z) (b : bool) (acc : list addr) :
  (if b then is_Some (cell g r c) else cell g r c = None) →
  (if b then push_cell g r c acc else Ok acc) = Ok (acc ++ cells g [(r, c)]).
Proof.
  unfold push_cell, cells. simpl. destruct b.
  - intros [x ->]. done.
  - intros ->. by rewrite app_nil_r.
Qed.

Lemma cond_in_bounds (h : Heap) (g : Grid) (b : bool) (r c : Z) :
  wf_grid h g → in_bounds g (r, c) = b →
  if b then is_Some (cell g r c) else cell g r c = None.
Proof.
  intros Hwf <-. destruct (in_bounds g (r, c)) eqn:E.
  - eapply cell_in_bounds; [done|eauto].
  - eapply cell_None_out; [done|eauto].
Qed.

Lemma four_directions_bounds (h : Heap) (g : Grid) (a : addr) :
  wf_grid h g → in_bounds g (pos h a) = true →
  four_directions h a g = Ok (cells g (around (pos h a))).
Proof.
  intros Hwf Hb. unfold pos in Hb.
  unfold in_bounds in Hb. simpl in Hb. rewrite !andb_true_iff in Hb.
  rewrite !Z.leb_le, !Z.ltb_lt in Hb. destruct Hb as [[[Hr Hr'] Hc0] Hc'].
  unfold four_directions, pos. simpl.
  set (r := row (h a)) in *. set (c := col (h a)) in *.
  rewrite (push_cell_cond g (r - 1) c (0 <? r) []); cycle 1.
  { apply (cond_in_bounds h); [done|]. unfold in_bounds. simpl.
    destruct (0 <? r) eqn:E; [apply Z.ltb_lt in E | apply Z.ltb_ge in E];
      [rewrite !andb_true_iff | rewrite !andb_false_iff];
      rewrite ?Z.leb_le, ?Z.ltb_lt, ?Z.leb_gt, ?Z.ltb_ge; lia. }
  simpl.
  rewrite (push_cell_cond g (r + 1) c (r <? grid_length g - 1)); cycle 1.
  { apply (cond_in_bounds h); [done|]. unfold in_bounds. simpl.
    destruct (r <? grid_length g - 1) eqn:E;
      [apply Z.ltb_lt in E | apply Z.ltb_ge in E];
      [rewrite !andb_true_iff | rewrite !andb_false_iff];
      rewrite ?Z.leb_le, ?Z.ltb_lt, ?Z.leb_gt, ?Z.ltb_ge; lia. }
  simpl.
  rewrite (push_cell_cond g r (c - 1) (0 <? c)); cycle 1.
  { apply (cond_in_bounds h); [done|]. unfold in_bounds. simpl.
    destruct (0 <? c) eqn:E; [apply Z.ltb_lt in E | apply Z.ltb_ge in E];
      [rewrite !andb_true_iff | rewrite !andb_false_iff];
      rewrite ?Z.leb_le, ?Z.ltb_lt, ?Z.leb_gt, ?Z.ltb_ge; lia. }
  simpl. rewrite (row0_length_cols g) by (apply (wf_rows _ _ Hwf)). simpl.
  rewrite (push_cell_cond g r (c + 1) (c <? grid_cols g - 1)); cycle 1.
  { apply (cond_in_bounds h); [done|]. unfold in_bounds. simpl.
    destruct (c <? grid_cols g - 1) eqn:E;
      [apply Z.ltb_lt in E | apply Z.ltb_ge in E];
      [rewrite !andb_true_iff | rewrite !andb_false_iff];
      rewrite ?Z.leb_le, ?Z.ltb_lt, ?Z.leb_gt, ?Z.ltb_ge; lia. }
  unfold cells, around. simpl.
  destruct (cell g (r - 1) c), (cell g (r + 1) c), (cell g r (c - 1)),
    (cell g r (c + 1)); done.
Qed.

Lemma four_directions_wf (h : Heap) (g : Grid) (a : addr) :
  wf_grid h g → in_grid g a →
  four_directions h a g = Ok (cells g (around (pos h a))).
Proof.
  intros Hwf Hin. apply four_directions_bounds; [done|].
  pose proof (in_grid_cell _ _ _ Hwf Hin) as Hc.
  eapply cell_in_bounds; [done|]. unfold pos. simpl. eauto.
Qed.

Lemma cells_cons (g : Grid) (p : Z * Z) (ps : list (Z * Z)) :
  cells g (p :: ps) =
  match cell g p.1 p.2 with
  | Some a => a :: cells g ps
  | None => cells g ps
  end.
Proof. done. Qed.

(** The nodes returned are those of the candidate positions that lie in
    the grid, in the same order. *)
Lemma cells_pos (h : Heap) (g : Grid) (ps : list (Z * Z)) :
  wf_grid h g → pos h <$> cells g ps = filter (λ p, in_bounds g p = true) ps.
Proof.
  intros Hwf. induction ps as [|[r c] ps IH]; [done|].
  rewrite cells_cons, filter_cons. simpl.
  destruct (cell g r c) as [a|] eqn:E.
  - assert (in_bounds g (r, c) = true) by (eapply cell_in_bounds; [done|eauto]).
    rewrite decide_True by done. rewrite fmap_cons, IH.
    by rewrite (wf_pos _ _ Hwf _ _ _ E).
  - destruct (in_bounds g (r, c)) eqn:Hb.
    + assert (is_Some (cell g r c)) as [? ?] by (eapply cell_in_bounds; [done|eauto]).
      congruence.
    + rewrite decide_False by done. done.
Qed.

(** ** Numbers and the stable sort *)

Lemma num_gt_irrefl (x : num) : num_gt x x = false.
Proof. destruct x; simpl; [apply Z.ltb_irrefl | done]. Qed.

Lemma num_gt_asym (x y : num) : num_gt x y = true → num_gt y x = false.
Proof.
  destruct x, y; simpl; try done.
  intros ?%Z.ltb_lt. apply Z.ltb_ge. lia.
Qed.

Lemma num_le_trans (x y z : num) :
  num_gt x y = false → num_gt y z = false → num_gt x z = false.
Proof.
  destruct x, y, z; simpl; try done.
  intros ?%Z.ltb_ge ?%Z.ltb_ge. apply Z.ltb_ge. lia.
Qed.

Lemma num_gt_Fin (a b : Z) : num_gt (Fin a) (Fin b) = false ↔ a <= b.
Proof. simpl. apply Z.ltb_ge. Qed.

Lemma num_add_0 (x : num) : num_add x (Fin 0) = x.
Proof. destruct x; simpl; [f_equal; lia | done]. Qed.

Lemma sort_insert_perm {A} (gt : A → A → bool) (x : A) (l : list A) :
  sort_insert gt x l ≡ₚ x :: l.
Proof.
  induction l as [|y l IH]; simpl; [done|].
  destruct (gt x y); [|done]. rewrite IH. apply Permutation_swap.
Qed.

Lemma stable_sort_perm {A} (gt : A → A → bool) (l : list A) :
  stable_sort gt l ≡ₚ l.
Proof.
  induction l as [|x l IH]; simpl; [done|].
  by rewrite sort_insert_perm, IH.
Qed.

Lemma stable_sort_nil {A} (gt : A → A → bool) (l : list A) :
  stable_sort gt l = [] → l = [].
Proof.
  intros H. apply Permutation_nil. by rewrite <- (stable_sort_perm gt l), H.
Qed.

Section sorting.
Context {A : Type} (gt : A → A → bool).
Hypothesis gt_asym : ∀ a b, gt a b = true → gt b a = false.
Hypothesis le_trans : ∀ a b c, gt a b = false → gt b c = false → gt a c = false.

  (** The head of the sorted array is the first entry of the array whose
      key is minimal: what stands before it is strictly greater, what
      stands behind it is not smaller. *)
Lemma stable_sort_head (l : list A) (x : A) (rest : list A) :
    stable_sort gt l = x :: rest →
    ∃ l1 l2, l = l1 ++ x :: l2
             ∧ (∀ z, z ∈ l1 → gt z x = true)
             ∧ (∀ z, z ∈ l2 → gt x z = false).
  Proof.
    revert x rest. induction l as [|a l IH]; intros x rest; simpl; [done|].
    destruct (stable_sort gt l) as [|x' r'] eqn:E.
    - simpl. intros [= <- <-].
      assert (l = []) as ->.
      { apply Permutation_nil. by rewrite <- (stable_sort_perm gt l), E. }
      exists [], []. split_and!; [done| |]; intros z Hz; by apply elem_of_nil in Hz.
    - destruct (IH _ _ eq_refl) as (l1 & l2 & -> & H1 & H2). simpl.
      destruct (gt a x') eqn:Hg; intros [= <- <-].
      + exists (a :: l1), l2. split_and!; [done| |done].
        intros z [->|Hz]%elem_of_cons; auto.
      + exists [], (l1 ++ x' :: l2). split_and!; [done| |].
        { intros z Hz. by apply elem_of_nil in Hz. }
        intros z Hz. apply elem_of_app in Hz as [Hz|Hz].
        * apply (le_trans _ x'); [done|]. by apply gt_asym, H1.
        * apply elem_of_cons in Hz as [->|Hz]; [done|].
          apply (le_trans _ x'); [done|]. by apply H2.
  Qed.

Lemma stable_sort_head_min (l : list A) (x : A) (rest : list A) :
    (∀ a, gt a a = false) →
    stable_sort gt l = x :: rest → ∀ z, z ∈ l → gt x z = false.
  Proof.
    intros Hirr Hs z Hz.
    destruct (stable_sort_head _ _ _ Hs) as (l1 & l2 & -> & H1 & H2).
    apply elem_of_app in Hz as [Hz|Hz]; [by apply gt_asym, H1|].
    apply elem_of_cons in Hz as [->|Hz]; [apply Hirr | by apply H2].
  Qed.

  (** A sorted array is left as it is. *)
Lemma stable_sort_sorted (l : list A) :
    StronglySorted (λ a b, gt a b = false) l → stable_sort gt l = l.
  Proof.
    induction 1 as [|x l Hs IH Hx]; simpl; [done|].
    rewrite IH. destruct l as [|y l]; simpl; [done|].
    apply Forall_cons in Hx as [-> _]. done.
  Qed.
End sorting.

Lemma sort_insert_fmap {A B} (f : A → B) (gtA : A → A → bool)
  (gtB : B → B → bool) (x : A) (l : list A) :
  (∀ b, b ∈ l → gtB (f x) (f b) = gtA x b) →
  f <$> sort_insert gtA x l = sort_insert gtB (f x) (f <$> l).
Proof.
  induction l as [|y l IH]; intros H; [done|].
  cbn [sort_insert]. rewrite fmap_cons. cbn [sort_insert].
  rewrite H by (by left). destruct (gtA x y); [|done].
  rewrite fmap_cons, IH; [done|]. intros b Hb. apply H. by right.
Qed.

Lemma stable_sort_fmap {A B} (f : A → B) (gtA : A → A → bool)
  (gtB : B → B → bool) (l : list A) :
  (∀ a b, a ∈ l → b ∈ l → gtB (f a) (f b) = gtA a b) →
  f <$> stable_sort gtA l = stable_sort gtB (f <$> l).
Proof.
  induction l as [|x l IH]; intros H; [done|].
  cbn [stable_sort]. rewrite fmap_cons. cbn [stable_sort].
  rewrite <- IH by (intros; apply H; by right).
  apply sort_insert_fmap. intros b Hb. apply H; [by left|right].
  by rewrite <- (stable_sort_perm gtA l).
Qed.

(** ** The reference search keeps its invariant *)

Lemma fupd_eq {A} (f : P → A) (p : P) (v : A) : fupd f p v p = v.
Proof. unfold fupd. by rewrite decide_True. Qed.

Lemma fupd_ne {A} (f : P → A) (p q : P) (v : A) : q ≠ p → fupd f p v q = f q.
Proof. intros. unfold fupd. by rewrite decide_False. Qed.

Section search_facts.
Variables (rows cols : Z) (wallf : P → bool) (hfun : P → Z) (goal s : P).
Hypothesis Hs : Search.passable rows cols wallf s.
Hypothesis h_cons : ∀ p q, Search.adjacent p q → hfun p <= hfun q + 1.
Hypothesis h_goal : hfun goal = 0.
Local Set Default Proof Using "Hs h_cons h_goal".

Local Abbreviation passable := (Search.passable rows cols wallf).
Local Abbreviation reach := (Search.reach rows cols wallf s).
Local Abbreviation Inv := (Inv rows cols wallf hfun goal s).
Local Abbreviation by_key := (Search.by_key hfun).
Local Abbreviation relax := (Search.relax wallf).
Local Abbreviation nbrs := (Search.nbrs rows cols).

Lemma by_key_irrefl gs a : by_key gs a a = false.
  Proof. apply num_gt_irrefl. Qed.

Lemma by_key_asym gs a b : by_key gs a b = true → by_key gs b a = false.
  Proof. apply num_gt_asym. Qed.

Lemma by_key_trans gs a b c :
    by_key gs a b = false → by_key gs b c = false → by_key gs a c = false.
  Proof. apply num_le_trans. Qed.

Lemma by_key_le gs x y a b :
    by_key gs x y = false → gs x = Fin a → gs y = Fin b →
    a + hfun x <= b + hfun y.
  Proof.
    unfold Search.by_key, Search.key. intros H Hx Hy. rewrite Hx, Hy in H.
    simpl in H. by apply Z.ltb_ge in H.
  Qed.

Lemma elem_of_nbrs p n :
    n ∈ nbrs p ↔ Search.adjacent p n ∧ Search.inb rows cols n = true.
  Proof. unfold Search.nbrs. rewrite list_elem_of_filter. tauto. Qed.

Lemma reach_passable n p : reach n p → passable p.
  Proof. destruct 1; done. Qed.

  (** While a reachable position is not closed, the frontier holds a
      position on a walk to it whose key does not exceed the length of
      the walk plus the heuristic of its end. *)
Lemma inv_front cl q gs pv n t :
    Inv cl cl q gs pv → reach n t → t ∉ cl →
    ∃ y m, y ∈ q ∧ gs y = Fin m ∧ m + hfun y <= Z.of_nat n + hfun t.
  Proof.
    intros HI Hr. induction Hr as [|n p t Hr IH Hadj Hpass]; intros Hncl.
    - destruct (inv_start HI) as [H0 Hin].
      apply elem_of_app in Hin as [?|Hin]; [done|].
      exists s, 0. split_and!; [done|done|lia].
    - destruct (decide (p ∈ cl)) as [Hp|Hp].
      + destruct (inv_opt HI _ _ Hp Hr) as (m & Hm & Hle).
        destruct (inv_exp HI _ _ Hp Hadj Hpass Hncl)
          as (m1 & m' & Hm1 & Hm' & Hle').
        assert (m1 = m) as -> by congruence.
        assert (Hin : t ∈ cl ++ q).
        { apply (inv_disc HI). by rewrite Hm'. }
        apply elem_of_app in Hin as [?|Hin]; [done|].
        exists t, m'. split_and!; [done|done|lia].
      + destruct (IH Hp) as (y & m & Hy & Hm & Hle).
        exists y, m. split_and!; [done|done|].
        pose proof (h_cons _ _ Hadj). lia.
  Qed.

Lemma pop_inv cl q gs pv cur rest :
    Inv cl cl q gs pv → stable_sort (by_key gs) q = cur :: rest →
    cur ≠ goal →
    Inv cl (cl ++ [cur]) rest gs pv ∧ (cur ∉ cl) ∧ passable cur
    ∧ ∃ m, gs cur = Fin m ∧ (0 <= m <= Z.of_nat (length cl)).
  Proof.
    intros HI Hsort Hng.
    assert (Hp : cur :: rest ≡ₚ q).
    { rewrite <- Hsort. apply stable_sort_perm. }
    assert (Hmem : ∀ p, p ∈ (cl ++ [cur]) ++ rest ↔ p ∈ cl ++ q).
    { intros p. rewrite <- app_assoc. simpl. by rewrite Hp. }
    assert (Hcq : cur ∈ q) by (rewrite <- Hp; by left).
    assert (Hmin : ∀ z, z ∈ q → by_key gs cur z = false).
    { eapply stable_sort_head_min;
        eauto using by_key_asym, by_key_trans, by_key_irrefl. }
    pose proof (inv_nodup HI) as Hnd.
    assert (Hncl : cur ∉ cl).
    { apply NoDup_app in Hnd as (_ & Hd & _). intros ?. by eapply Hd. }
    assert (Hfin : ∃ m, gs cur = Fin m) .
    { destruct (gs cur) eqn:E; [eauto|].
      exfalso. eapply (inv_disc HI cur); [|done].
      apply elem_of_app. by right. }
    destruct Hfin as [m Hm].
    pose proof (inv_range HI _ _ Hm) as Hrange.
    split_and!; [|done| |eauto].
    2:{ apply (inv_pass HI). apply elem_of_app. by right. }
    split.
    - rewrite <- app_assoc. simpl. by rewrite Hp.
    - intros p Hin. apply (inv_pass HI). by apply Hmem.
    - intros p. rewrite Hmem. apply (inv_disc HI).
    - destruct (inv_start HI). split; [done|]. by apply Hmem.
    - apply (inv_start_prev HI).
    - intros p n Hn. rewrite length_app. simpl.
      pose proof (inv_range HI _ _ Hn). lia.
    - intros p n Hn Hne.
      destruct (inv_prev HI _ _ Hn Hne)
        as (q' & ? & ? & ? & ?).
      exists q'. split_and!; try done. apply elem_of_app. by left.
    - intros p n Hin Hr. apply elem_of_app in Hin as [Hin|Hin].
      + by apply (inv_opt HI).
      + apply list_elem_of_singleton in Hin as ->.
        destruct (inv_front _ _ _ _ _ _ HI Hr Hncl) as (y & my & Hy & Hmy & Hle).
        exists m. split; [done|].
        pose proof (by_key_le _ _ _ _ _ (Hmin _ Hy) Hm Hmy). lia.
    - intros p t Hin Hadj Hpass Hnt.
      apply (inv_exp HI); try done.
      intros ?. apply Hnt, elem_of_app. by left.
    - intros p Hin. apply elem_of_app. by left.
    - intros [?| ->%list_elem_of_singleton]%elem_of_app; [|done].
      by apply (inv_goal HI).
    - intros x k Hin Hr. apply elem_of_app in Hin as [Hin|Hin].
      + by apply (inv_bound HI).
      + apply list_elem_of_singleton in Hin as ->.
        destruct (inv_front _ _ _ _ _ _ HI Hr
                    (inv_goal HI))
          as (y & my & Hy & Hmy & Hle).
        exists m. split; [done|].
        pose proof (by_key_le _ _ _ _ _ (Hmin _ Hy) Hm Hmy). lia.
  Qed.

Lemma relax_inv ex cl q gs pv lg cur m n :
    Inv ex cl q gs pv → cur ∈ cl → gs cur = Fin m →
    m + 1 <= Z.of_nat (length cl) →
    Search.adjacent cur n → Search.inb rows cols n = true →
    ∃ gs' pv' q' lg',
      relax cl cur (gs, pv, q, lg) n = (gs', pv', q', lg')
      ∧ Inv ex cl q' gs' pv' ∧ gs' cur = Fin m
      ∧ (∀ p a, gs p = Fin a → ∃ b, gs' p = Fin b ∧ b <= a)
      ∧ (passable n → n ∉ cl → ∃ b, gs' n = Fin b ∧ b <= m + 1).
  Proof.
    intros HI Hcur Hm Hlen Hadj Hinb. unfold Search.relax.
    destruct (bool_decide (n ∈ cl) || wallf n) eqn:Hskip.
    { exists gs, pv, q, lg. split_and!; try done; [eauto with lia|].
      intros [_ Hw] Hn. rewrite Hw, orb_false_r in Hskip.
      by apply bool_decide_eq_true in Hskip. }
    apply orb_false_iff in Hskip as [Hncl%bool_decide_eq_false Hw].
    rewrite Hm. change (num_add (Fin m) (Fin 1)) with (Fin (m + 1)).
    destruct (num_lt (Fin (m + 1)) (gs n)) eqn:Hlt.
    2:{ exists gs, pv, q, lg. split_and!; try done; [eauto with lia|].
        intros _ _. destruct (gs n) as [b|]; [|done]. simpl in Hlt.
        apply Z.ltb_ge in Hlt. eauto. }
    assert (Hpn : passable n) by done.
    assert (Hnc : n ≠ cur) by (intros ->; done).
    pose proof (inv_range HI _ _ Hm) as Hmr.
    assert (Hns : n ≠ s).
    { intros ->. destruct (inv_start HI) as [H0 _]. rewrite H0 in Hlt.
      simpl in Hlt. apply Z.ltb_lt in Hlt. lia. }
    assert (Hdecr : ∀ p a, gs p = Fin a →
              ∃ b, fupd gs n (Fin (m + 1)) p = Fin b ∧ b <= a).
    { intros p a Ha. destruct (decide (p = n)) as [->|Hne].
      - rewrite fupd_eq. rewrite Ha in Hlt. simpl in Hlt.
        apply Z.ltb_lt in Hlt. exists (m + 1). split; [done|lia].
      - rewrite fupd_ne by done. eauto with lia. }
    assert (Hgen : ∀ q', (∀ p, p ∈ cl ++ q' ↔ p ∈ cl ++ q ∨ p = n) →
              NoDup (cl ++ q') →
              Inv ex cl q' (fupd gs n (Fin (m + 1))) (fupd pv n (Some cur))).
    { intros q' Hq' Hnd. split.
      - done.
      - intros p [Hp| ->]%Hq'; [by apply (inv_pass HI)|done].
      - intros p. rewrite Hq'. destruct (decide (p = n)) as [->|Hne].
        + rewrite fupd_eq. split; [by right|done].
        + rewrite fupd_ne by done. rewrite (inv_disc HI).
          split; [by left|]. by intros [?|?].
      - destruct (inv_start HI) as [H0 Hin]. rewrite fupd_ne by done.
        split; [done|]. apply Hq'. by left.
      - rewrite fupd_ne by done. apply (inv_start_prev HI).
      - intros p a. destruct (decide (p = n)) as [->|Hne].
        + rewrite fupd_eq. intros [= <-]. lia.
        + rewrite fupd_ne by done. apply (inv_range HI).
      - intros p a Ha Hps. destruct (decide (p = n)) as [->|Hne].
        + rewrite fupd_eq in Ha. injection Ha as <-.
          exists cur. rewrite fupd_eq, fupd_ne by done.
          split_and!; try done. rewrite Hm. f_equal. lia.
        + rewrite fupd_ne in Ha by done.
          destruct (inv_prev HI _ _ Ha Hps) as (q0 & ? & ? & ? & Hq0).
          exists q0. rewrite !fupd_ne; [done|(by intros ->)|done].
      - intros p k Hp Hr. rewrite fupd_ne by (by intros ->).
        by apply (inv_opt HI).
      - intros p t Hp Hadj' Hpass Hnt.
        destruct (inv_exp HI _ _ Hp Hadj' Hpass Hnt) as (a & b & Ha & Hb & Hle).
        pose proof (inv_sub HI _ Hp) as Hpc.
        rewrite (fupd_ne _ _ p) by (by intros ->).
        destruct (Hdecr _ _ Hb) as (b' & Hb' & Hle').
        exists a, b'. split_and!; [done|done|lia].
      - apply (inv_sub HI).
      - apply (inv_goal HI).
      - intros x k Hx Hr. rewrite fupd_ne by (by intros ->).
        by apply (inv_bound HI). }
    pose proof (inv_nodup HI) as Hnd.
    destruct (bool_decide (n ∈ q)) eqn:Hq.
    - apply bool_decide_eq_true in Hq.
      exists (fupd gs n (Fin (m + 1))), (fupd pv n (Some cur)), q, lg.
      split_and!; [done| | |done|].
      + apply Hgen; [|done]. intros p. split; [by left|].
        intros [?| ->]; [done|]. apply elem_of_app. by right.
      + by rewrite fupd_ne.
      + intros _ _. rewrite fupd_eq. eauto with lia.
    - apply bool_decide_eq_false in Hq.
      exists (fupd gs n (Fin (m + 1))), (fupd pv n (Some cur)), (q ++ [n]),
        (lg ++ [n]).
      split_and!; [done| | |done|].
      + apply Hgen.
        * intros p. rewrite app_assoc, elem_of_app, list_elem_of_singleton. done.
        * rewrite app_assoc. apply NoDup_app. split_and!; [done| |apply NoDup_singleton].
          intros x Hx ->%list_elem_of_singleton.
          apply elem_of_app in Hx as [?|?]; done.
      + by rewrite fupd_ne.
      + intros _ _. rewrite fupd_eq. eauto with lia.
  Qed.

Lemma fold_relax_inv ex cl cur m l : ∀ q gs pv lg,
    Inv ex cl q gs pv → cur ∈ cl → gs cur = Fin m →
    m + 1 <= Z.of_nat (length cl) →
    (∀ n, n ∈ l → Search.adjacent cur n ∧ Search.inb rows cols n = true) →
    ∃ gs' pv' q' lg',
      fold_left (relax cl cur) l (gs, pv, q, lg) = (gs', pv', q', lg')
      ∧ Inv ex cl q' gs' pv' ∧ gs' cur = Fin m
      ∧ (∀ p a, gs p = Fin a → ∃ b, gs' p = Fin b ∧ b <= a)
      ∧ (∀ t, t ∈ l → passable t → t ∉ cl → ∃ b, gs' t = Fin b ∧ b <= m + 1).
  Proof.
    induction l as [|n l IH]; intros q gs pv lg HI Hcur Hm Hlen Hl.
    { exists gs, pv, q, lg. split_and!; try done; [eauto with lia|].
      intros t Ht. by apply elem_of_nil in Ht. }
    destruct (Hl n) as [Hadj Hinb]; [by left|].
    destruct (relax_inv _ _ _ _ _ lg _ _ _ HI Hcur Hm Hlen Hadj Hinb)
      as (gs1 & pv1 & q1 & lg1 & Hr & HI1 & Hm1 & Hd1 & Hn1).
    destruct (IH q1 gs1 pv1 lg1 HI1 Hcur Hm1 Hlen)
      as (gs2 & pv2 & q2 & lg2 & Hr2 & HI2 & Hm2 & Hd2 & Hn2).
    { intros n' Hn'. apply Hl. by right. }
    exists gs2, pv2, q2, lg2. cbn [fold_left]. rewrite Hr. split_and!; try done.
    - intros p a Ha. destruct (Hd1 _ _ Ha) as (b & Hb & ?).
      destruct (Hd2 _ _ Hb) as (c & Hc & ?). exists c. split; [done|lia].
    - intros t [->|Ht]%elem_of_cons Hp Hnt; [|by apply Hn2].
      destruct (Hn1 Hp Hnt) as (b & Hb & ?).
      destruct (Hd2 _ _ Hb) as (c & Hc & ?). exists c. split; [done|lia].
  Qed.

Lemma expand_inv ex cur q gs pv :
    Inv ex (ex ++ [cur]) q gs pv →
    (∀ t, Search.adjacent cur t → passable t → t ∉ ex ++ [cur] →
          ∃ m m', gs cur = Fin m ∧ gs t = Fin m' ∧ m' <= m + 1) →
    Inv (ex ++ [cur]) (ex ++ [cur]) q gs pv.
  Proof.
    intros HI Hcur. split; try apply HI.
    - intros p t [Hp| ->%list_elem_of_singleton]%elem_of_app; [|apply Hcur].
      by apply (inv_exp HI).
    - done.
  Qed.

  (** One pass of the loop keeps the invariant and closes one more
      position. *)
Lemma step_inv pfuel st st' :
    state_inv rows cols wallf hfun goal s st →
    Search.step rows cols wallf hfun goal pfuel st = Continue st' →
    state_inv rows cols wallf hfun goal s st'
    ∧ ∃ cur rest,
        stable_sort (by_key (Search.g st)) (Search.open st) = cur :: rest
        ∧ Search.closed st' = Search.closed st ++ [cur]
        ∧ cur ≠ goal ∧ cur ∉ Search.closed st.
  Proof.
    unfold state_inv, Search.step. intros HI.
    destruct (stable_sort _ _) as [|cur rest] eqn:Hsort; [done|].
    assert (Hp : cur :: rest ≡ₚ Search.open st).
    { rewrite <- Hsort. apply stable_sort_perm. }
    assert (Hcq : cur ∈ Search.open st) by (rewrite <- Hp; by left).
    assert (Hncl : cur ∉ Search.closed st).
    { pose proof (inv_nodup HI) as Hnd.
      apply NoDup_app in Hnd as (_ & Hd & _). intros ?. by eapply Hd. }
    assert (Hpass : passable cur).
    { apply (inv_pass HI). apply elem_of_app. by right. }
    rewrite bool_decide_eq_false_2 by done.
    destruct Hpass as [Hinb Hw]. rewrite Hw. simpl.
    destruct (bool_decide (cur = goal)) eqn:Hg.
    { by destruct (Search.reconstruct _ _ _ _). }
    apply bool_decide_eq_false in Hg.
    destruct (pop_inv _ _ _ _ _ _ HI Hsort Hg)
      as (HI1 & _ & _ & m & Hm & Hmr).
    destruct (fold_relax_inv _ _ cur m (nbrs cur) rest _ _ (Search.log st) HI1)
      as (gs' & pv' & q' & lg' & Hr & HI2 & Hm2 & Hd2 & Hn2).
    { apply elem_of_app. right. by left. }
    { done. }
    { rewrite length_app. simpl. lia. }
    { intros n. apply elem_of_nbrs. }
    rewrite Hr. intros [= <-]. simpl. split; [|by eauto 10].
    apply expand_inv; [done|].
    intros t Hadj Hpt Hnt. destruct (Hn2 t) as (b & Hb & ?); try done.
    { apply elem_of_nbrs. split; [done|apply Hpt]. }
    eauto.
  Qed.

Lemma init_inv : state_inv rows cols wallf hfun goal s (Search.init s).
  Proof.
    unfold state_inv, Search.init. simpl. split; simpl.
    - apply NoDup_singleton.
    - by intros p ->%list_elem_of_singleton.
    - intros p. rewrite list_elem_of_singleton. destruct (decide (p = s)) as [->|Hne].
      + by rewrite fupd_eq.
      + rewrite fupd_ne by done. split; [done|]. by intros ->.
    - rewrite fupd_eq. split; [done|]. by left.
    - done.
    - intros p n. destruct (decide (p = s)) as [->|Hne].
      + rewrite fupd_eq. intros [= <-]. lia.
      + by rewrite fupd_ne.
    - intros p n Hn Hne. by rewrite fupd_ne in Hn.
    - intros p n Hp. by apply elem_of_nil in Hp.
    - intros p t Hp. by apply elem_of_nil in Hp.
    - done.
    - apply not_elem_of_nil.
    - intros x k Hx. by apply elem_of_nil in Hx.
  Qed.
  (** *** Path reconstruction in the reference search *)

Local Abbreviation is_walk := (is_walk rows cols wallf).

Lemma is_walk_snoc2 l p q :
    is_walk (l ++ [p; q]) ↔
    is_walk (l ++ [p]) ∧ Search.adjacent p q ∧ passable q.
  Proof.
    induction l as [|x l IH].
    - simpl. tauto.
    - destruct l as [|y l].
      + simpl. tauto.
      + change (is_walk ((x :: y :: l) ++ [p; q]))
          with (Search.adjacent x y ∧ passable y ∧ is_walk ((y :: l) ++ [p; q])).
        change (is_walk ((x :: y :: l) ++ [p]))
          with (Search.adjacent x y ∧ passable y ∧ is_walk ((y :: l) ++ [p])).
        rewrite IH. tauto.
  Qed.

Lemma walk_reach l p :
    is_walk (s :: l) → last (s :: l) = Some p → reach (length l) p.
  Proof.
    revert p. induction l as [|x l IH] using rev_ind; intros p Hw Hl.
    - simpl in Hl. injection Hl as <-. constructor.
    - rewrite app_comm_cons, last_snoc in Hl. injection Hl as <-.
      rewrite length_app. simpl. rewrite Nat.add_1_r.
      destruct (last (s :: l)) as [p|] eqn:Hp; [|by apply last_None in Hp].
      apply last_Some in Hp as [l0 Hl0].
      rewrite app_comm_cons, Hl0, <- app_assoc in Hw. simpl in Hw.
      apply is_walk_snoc2 in Hw as (Hw & Hadj & Hpx).
      rewrite <- Hl0 in Hw.
      apply (Search.reach_move _ _ _ _ _ p); [|done|done].
      by apply IH.
  Qed.

  (** The chain of predecessors of a discovered position is a walk from
      the start, as long as its [g]; the loop collects it when the fuel
      suffices and starves otherwise. *)
Lemma reconstruct_chain cl q gs pv k : ∀ p m acc fuel,
    Inv cl cl q gs pv → gs p = Fin m → Z.to_nat m = k →
    if decide (k < fuel)%nat
    then ∃ ch, Search.reconstruct_loop fuel pv (Some p) acc = Ok (ch ++ acc)
               ∧ head ch = Some s ∧ last ch = Some p ∧ is_walk ch
               ∧ length ch = S k
    else Search.reconstruct_loop fuel pv (Some p) acc = OutOfFuel.
  Proof.
    induction k as [|k IH]; intros p m acc fuel HI Hm Hk.
    - pose proof (inv_range HI _ _ Hm) as Hr.
      assert (m = 0) as -> by lia.
      assert (p = s) as ->.
      { destruct (decide (p = s)) as [|Hne]; [done|].
        destruct (inv_prev HI _ _ Hm Hne) as (q' & _ & Hq' & _).
        pose proof (inv_range HI _ _ Hq'). lia. }
      destruct (decide (0 < fuel)%nat) as [Hlt|Hge];
        (destruct fuel as [|fuel]; [try done; lia|]); [|lia].
      simpl. rewrite (inv_start_prev HI).
      destruct fuel; exists [s]; done.
    - pose proof (inv_range HI _ _ Hm) as Hr.
      assert (Hne : p ≠ s).
      { intros ->. destruct (inv_start HI) as [H0 _]. rewrite H0 in Hm.
        injection Hm as <-. done. }
      destruct (inv_prev HI _ _ Hm Hne) as (q' & Hpv & Hq' & Hadj & Hcl).
      assert (Hpp : passable p).
      { apply (inv_pass HI), (inv_disc HI). by rewrite Hm. }
      destruct fuel as [|fuel].
      { rewrite decide_False by lia. done. }
      cbn [Search.reconstruct_loop]. rewrite Hpv.
      specialize (IH q' (m - 1) (p :: acc) fuel HI Hq').
      destruct (decide (k < fuel)%nat) as [Hlt|Hge].
      + rewrite decide_True by lia.
        destruct IH as (ch & Hrec & Hhd & Hlast & Hw & Hlen); [lia|].
        rewrite Hrec.
        exists (ch ++ [p]). rewrite <- app_assoc. simpl.
        split_and!; [done| |apply last_snoc| |].
        * destruct ch; [done|]. done.
        * apply last_Some in Hlast as [l0 ->]. rewrite <- app_assoc. simpl.
          apply is_walk_snoc2. done.
        * rewrite length_app. simpl. lia.
      + rewrite decide_False by lia. apply IH. lia.
  Qed.

  (** *** Counting positions *)

Lemma inb_all_positions p :
    Search.inb rows cols p = true → p ∈ all_positions rows cols.
  Proof.
    unfold Search.inb, all_positions. rewrite !andb_true_iff.
    rewrite !Z.leb_le, !Z.ltb_lt. intros [[[? ?] ?] ?].
    apply list_elem_of_bind. exists (Z.to_nat p.1). split.
    - apply list_elem_of_fmap. exists (Z.to_nat p.2). split.
      + destruct p as [r c]. simpl in *. f_equal; lia.
      + apply elem_of_seq. lia.
    - apply elem_of_seq. lia.
  Qed.


Lemma length_bind_const {A B} (f : A → list B) (l : list A) (c : nat) :
    (∀ y, length (f y) = c) → length (l ≫= f) = (length l * c)%nat.
  Proof.
    intros Hf. induction l as [|x l IH]; [done|].
    rewrite bind_cons, length_app, IH, Hf. simpl. lia.
  Qed.

Lemma length_all_positions :
    length (all_positions rows cols) = n_cells rows cols.
  Proof.
    unfold all_positions, n_cells.
    rewrite (length_bind_const _ _ (Z.to_nat cols)).
    - by rewrite length_seq.
    - intros y. by rewrite length_fmap, length_seq.
  Qed.

Lemma card_bound l :
    NoDup l → (∀ p, p ∈ l → passable p) → (length l <= n_cells rows cols)%nat.
  Proof.
    intros Hnd Hp. rewrite <- length_all_positions.
    apply submseteq_length, NoDup_submseteq; [done|].
    intros p Hin. apply inb_all_positions, Hp, Hin.
  Qed.

Lemma inv_card ex cl q gs pv :
    Inv ex cl q gs pv → (length cl + length q <= n_cells rows cols)%nat.
  Proof.
    intros HI. rewrite <- length_app.
    apply card_bound; [apply (inv_nodup HI) | apply (inv_pass HI)].
  Qed.

  (** *** What the head of the sorted frontier satisfies *)

Lemma head_facts cl q gs pv cur rest :
    Inv cl cl q gs pv → stable_sort (by_key gs) q = cur :: rest →
    cur ∈ q ∧ (cur ∉ cl) ∧ passable cur
    ∧ ∃ m, gs cur = Fin m ∧ (0 <= m <= Z.of_nat (length cl))
           ∧ (∀ n, reach n cur → m <= Z.of_nat n)
           ∧ (∀ k, reach k goal → goal ∉ cl → m + hfun cur <= Z.of_nat k)
           ∧ (∀ t n, reach n t → Z.of_nat n + hfun t < m + hfun cur → t ∈ cl).
  Proof.
    intros HI Hsort.
    assert (Hp : cur :: rest ≡ₚ q).
    { rewrite <- Hsort. apply stable_sort_perm. }
    assert (Hcq : cur ∈ q) by (rewrite <- Hp; by left).
    assert (Hmin : ∀ z, z ∈ q → by_key gs cur z = false).
    { eapply stable_sort_head_min;
        eauto using by_key_asym, by_key_trans, by_key_irrefl. }
    pose proof (inv_nodup HI) as Hnd.
    assert (Hncl : cur ∉ cl).
    { apply NoDup_app in Hnd as (_ & Hd & _). intros ?. by eapply Hd. }
    assert (Hfin : ∃ m, gs cur = Fin m) .
    { destruct (gs cur) eqn:E; [eauto|].
      exfalso. eapply (inv_disc HI cur); [|done].
      apply elem_of_app. by right. }
    destruct Hfin as [m Hm].
    split_and!; [done|done| |].
    { apply (inv_pass HI). apply elem_of_app. by right. }
    exists m. split_and!; [done|apply (inv_range HI _ _ Hm)..| | |].
    - intros n Hr.
      destruct (inv_front _ _ _ _ _ _ HI Hr Hncl) as (y & my & Hy & Hmy & Hle).
      pose proof (by_key_le _ _ _ _ _ (Hmin _ Hy) Hm Hmy). lia.
    - intros k Hr Hg.
      destruct (inv_front _ _ _ _ _ _ HI Hr Hg) as (y & my & Hy & Hmy & Hle).
      pose proof (by_key_le _ _ _ _ _ (Hmin _ Hy) Hm Hmy). lia.
    - intros t n Hr Hlt. destruct (decide (t ∈ cl)) as [|Hnt]; [done|].
      destruct (inv_front _ _ _ _ _ _ HI Hr Hnt) as (y & my & Hy & Hmy & Hle).
      pose proof (by_key_le _ _ _ _ _ (Hmin _ Hy) Hm Hmy). lia.
  Qed.

Lemma g_reach cl q gs pv p m :
    Inv cl cl q gs pv → gs p = Fin m → reach (Z.to_nat m) p.
  Proof.
    intros HI Hm.
    pose proof (reconstruct_chain _ _ _ _ (Z.to_nat m) p m []
                  (S (Z.to_nat m)) HI Hm eq_refl) as H.
    rewrite decide_True in H by lia.
    destruct H as (ch & _ & Hhd & Hlast & Hw & Hlen).
    destruct ch as [|x l]; [done|]. simpl in Hhd. injection Hhd as ->.
    simpl in Hlen. injection Hlen as <-. by apply walk_reach.
  Qed.

  (** *** The loop returns, and what it returns *)

Local Abbreviation found := (found rows cols wallf hfun goal s).

Lemma step_return pfuel st vs p :
    state_inv rows cols wallf hfun goal s st →
    Search.step rows cols wallf hfun goal pfuel st = Return (vs, p) →
    found st vs p ∨ exhausted st vs p.
  Proof.
    unfold state_inv, Search.step. intros HI.
    destruct (stable_sort _ _) as [|cur rest] eqn:Hsort.
    { intros [= <- <-]. right. split_and!; try done.
      by apply stable_sort_nil in Hsort. }
    destruct (head_facts _ _ _ _ _ _ HI Hsort)
      as (Hcq & Hncl & [Hinb Hw] & m & Hm & Hmr & _).
    rewrite bool_decide_eq_false_2 by done. rewrite Hw. simpl.
    destruct (bool_decide (cur = goal)) eqn:Hg.
    2:{ by destruct (fold_left _ _ _) as [[[? ?] ?] ?]. }
    apply bool_decide_eq_true in Hg as ->.
    unfold Search.reconstruct.
    pose proof (reconstruct_chain _ _ _ _ (Z.to_nat m) goal m [] pfuel HI Hm
                  eq_refl) as Hch.
    destruct (decide (Z.to_nat m < pfuel)%nat) as [Hlt|Hge].
    2:{ by rewrite Hch. }
    destruct Hch as (ch & -> & Hhd & Hlast & Hwk & Hlen).
    rewrite app_nil_r. simpl. destruct ch as [|x l]; [done|].
    simpl in Hhd. injection Hhd as ->.
    destruct (inv_start HI) as [H0 _]. rewrite decide_True by done.
    intros [= <- <-]. left. exists rest, m. done.
  Qed.

Lemma step_no_throw pfuel st :
    Search.step rows cols wallf hfun goal pfuel st ≠ Throw.
  Proof.
    unfold Search.step. destruct (stable_sort _ _) as [|cur rest]; [done|].
    destruct (_ || _); [done|]. destruct (bool_decide _).
    - unfold Search.reconstruct.
      assert (H : ∀ fuel c acc,
                Search.reconstruct_loop fuel (Search.prev st) c acc ≠ TypeError).
      { induction fuel as [|fuel IH]; intros [c|] acc; simpl; try done. }
      specialize (H pfuel (Some cur) []).
      destruct (Search.reconstruct_loop _ _ _ _) as [[|x l]| |]; simpl; try done.
      by destruct (decide _).
    - by destruct (fold_left _ _ _) as [[[? ?] ?] ?].
  Qed.

Lemma step_no_starve pfuel st :
    state_inv rows cols wallf hfun goal s st →
    (n_cells rows cols <= pfuel)%nat →
    Search.step rows cols wallf hfun goal pfuel st ≠ Starve.
  Proof.
    unfold state_inv, Search.step. intros HI Hpf.
    destruct (stable_sort _ _) as [|cur rest] eqn:Hsort; [done|].
    destruct (head_facts _ _ _ _ _ _ HI Hsort)
      as (Hcq & Hncl & [Hinb Hw] & m & Hm & Hmr & _).
    rewrite bool_decide_eq_false_2 by done. rewrite Hw. simpl.
    destruct (bool_decide (cur = goal)) eqn:Hg.
    2:{ by destruct (fold_left _ _ _) as [[[? ?] ?] ?]. }
    unfold Search.reconstruct.
    pose proof (reconstruct_chain _ _ _ _ (Z.to_nat m) cur m [] pfuel HI Hm
                  eq_refl) as Hch.
    pose proof (inv_card _ _ _ _ _ HI) as Hcard.
    assert (1 <= length (Search.open st))%nat.
    { destruct (Search.open st); [by apply elem_of_nil in Hcq|simpl; lia]. }
    rewrite decide_True in Hch by lia.
    destruct Hch as (ch & -> & _). simpl.
    destruct (ch ++ []); [done|]. by destruct (decide _).
  Qed.

Lemma run_total pfuel :
    (n_cells rows cols <= pfuel)%nat → ∀ fuel st,
    state_inv rows cols wallf hfun goal s st →
    (n_cells rows cols < length (Search.closed st) + fuel)%nat →
    ∃ r, while_loop (Search.step rows cols wallf hfun goal pfuel) fuel st = Ok r.
  Proof.
    intros Hpf. induction fuel as [|fuel IH]; intros st HI Hlen.
    { pose proof (inv_card _ _ _ _ _ HI). lia. }
    simpl.
    destruct (Search.step rows cols wallf hfun goal pfuel st) as [st'|r| |] eqn:Hst.
    - destruct (step_inv _ _ _ HI Hst) as (HI' & cur & rest & _ & Hcl & _).
      apply IH; [done|]. rewrite Hcl, length_app. simpl. lia.
    - eauto.
    - by apply step_no_throw in Hst.
    - by apply step_no_starve in Hst.
  Qed.

Lemma run_final pfuel : ∀ fuel st r,
    state_inv rows cols wallf hfun goal s st →
    while_loop (Search.step rows cols wallf hfun goal pfuel) fuel st = Ok r →
    ∃ st', state_inv rows cols wallf hfun goal s st'
           ∧ Search.step rows cols wallf hfun goal pfuel st' = Return r.
  Proof.
    induction fuel as [|fuel IH]; intros st r HI; simpl; [done|].
    destruct (Search.step rows cols wallf hfun goal pfuel st) as [st'|r'| |] eqn:Hst;
      try done.
    - destruct (step_inv _ _ _ HI Hst) as (HI' & _). by apply IH.
    - intros [= ->]. eauto.
  Qed.
End search_facts.

(** ** With the heuristic [0] the frontier is a queue *)

Lemma StronglySorted_snoc {A} (R : A → A → Prop) (l : list A) (x : A) :
  StronglySorted R l → Forall (λ y, R y x) l → StronglySorted R (l ++ [x]).
Proof.
  induction 1 as [|y l Hs IH Hy]; intros Hx; simpl.
  - repeat constructor.
  - apply Forall_cons in Hx as [Hyx Hx]. constructor; [by apply IH|].
    apply Forall_app. split; [done|]. by constructor.
Qed.

Lemma StronglySorted_ext {A} (R R' : A → A → Prop) (l : list A) :
  (∀ a b, a ∈ l → b ∈ l → R a b → R' a b) →
  StronglySorted R l → StronglySorted R' l.
Proof.
  intros HR. induction 1 as [|y l Hs IH Hy]; constructor.
  - apply IH. intros a b Ha Hb. apply HR; by right.
  - rewrite Forall_forall in *. intros x Hx. apply HR; [by left|by right|].
    by apply Hy.
Qed.

Lemma by_key_zero (gs : P → num) (a b : P) :
  Search.by_key (λ _, 0) gs a b = num_gt (gs a) (gs b).
Proof. unfold Search.by_key, Search.key. by rewrite !num_add_0. Qed.

Lemma hz_cons (p q : P) : Search.adjacent p q → (λ _ : P, 0) p <= (λ _ : P, 0) q + 1.
Proof. intros _. simpl. lia. Qed.

Lemma hz_goal (goal : P) : (λ _ : P, 0) goal = 0.
Proof. done. Qed.

Section queue_discipline.
Variables (rows cols : Z) (wallf : P → bool) (goal s : P).
Hypothesis Hs : Search.passable rows cols wallf s.

Local Abbreviation hz := (λ _ : P, 0).
Local Abbreviation sinv := (state_inv rows cols wallf hz goal s).
Local Abbreviation step := (Search.step rows cols wallf hz goal).
Local Abbreviation relax := (Search.relax wallf).

Lemma sorted_frontier cl q gs lg :
    InvF cl q gs lg → stable_sort (Search.by_key hz gs) q = q.
  Proof.
    intros HF. apply stable_sort_sorted.
    eapply StronglySorted_ext; [|apply (invf_sorted HF)].
    intros a b _ _ H. by rewrite by_key_zero.
  Qed.

Lemma relax_fifo cl cur m q gs pv lg n :
    InvR m cl q gs lg → gs cur = Fin m →
    ∃ gs' pv' q' lg',
      relax cl cur (gs, pv, q, lg) n = (gs', pv', q', lg')
      ∧ InvR m cl q' gs' lg' ∧ gs' cur = Fin m.
  Proof.
    intros HR Hm. pose proof HR as (Hsort & Hband & Hlog). unfold Search.relax.
    destruct (_ || _) eqn:Hskip; [by eauto 10|].
    apply orb_false_iff in Hskip as [Hncl%bool_decide_eq_false Hw].
    rewrite Hm. change (num_add (Fin m) (Fin 1)) with (Fin (m + 1)).
    destruct (num_lt (Fin (m + 1)) (gs n)) eqn:Hlt; [|by eauto 10].
    assert (Hnq : n ∉ q).
    { intros Hin. destruct (Hband _ Hin) as (m' & Hm' & ?).
      rewrite Hm' in Hlt. simpl in Hlt. apply Z.ltb_lt in Hlt. lia. }
    assert (Hnc : n ≠ cur).
    { intros ->. rewrite Hm in Hlt. simpl in Hlt. apply Z.ltb_lt in Hlt. lia. }
    rewrite bool_decide_eq_false_2 by done.
    eexists _, _, _, _. split; [done|]. split; [|by rewrite fupd_ne].
    split_and!.
    - apply StronglySorted_snoc.
      + eapply StronglySorted_ext; [|done]. intros a b Ha Hb.
        rewrite !fupd_ne; [done|by intros ->|by intros ->].
      + apply Forall_forall. intros y Hy. rewrite fupd_eq.
        rewrite fupd_ne by (by intros ->).
        destruct (Hband _ Hy) as (m' & -> & ?). simpl. apply Z.ltb_ge. lia.
    - intros y [Hy| ->%list_elem_of_singleton]%elem_of_app.
      + rewrite fupd_ne by (by intros ->). by apply Hband.
      + rewrite fupd_eq. exists (m + 1). split; [done|lia].
    - by rewrite Hlog, app_assoc.
  Qed.

Lemma fold_relax_fifo cl cur m l : ∀ q gs pv lg,
    InvR m cl q gs lg → gs cur = Fin m →
    ∃ gs' pv' q' lg',
      fold_left (relax cl cur) l (gs, pv, q, lg) = (gs', pv', q', lg')
      ∧ InvR m cl q' gs' lg'.
  Proof.
    induction l as [|n l IH]; intros q gs pv lg HR Hm; [by eauto 10|].
    destruct (relax_fifo _ _ _ _ _ pv _ n HR Hm)
      as (gs1 & pv1 & q1 & lg1 & Hr & HR1 & Hm1).
    cbn [fold_left]. rewrite Hr. by apply IH.
  Qed.

Lemma pop_fifo cl cur rest gs lg m :
    InvF cl (cur :: rest) gs lg → gs cur = Fin m →
    InvR m (cl ++ [cur]) rest gs lg.
  Proof.
    intros [Hsorted Hband Hlog] Hm.
    apply StronglySorted_inv in Hsorted as [Hsr Hhd].
    split_and!; [done| |].
    - intros y Hy. destruct (Hband cur y m) as (m' & Hm' & ?);
        [by left|by right|done|].
      exists m'. split; [done|]. rewrite Forall_forall in Hhd.
      specialize (Hhd _ Hy). rewrite Hm, Hm' in Hhd. simpl in Hhd.
      apply Z.ltb_ge in Hhd. lia.
    - rewrite Hlog, <- app_assoc. done.
  Qed.

Lemma step_fifo pfuel st st' :
    sinv st → state_invF st → step pfuel st = Continue st' →
    state_invF st'.
  Proof.
    unfold state_inv, state_invF, Search.step. intros HI HF.
    rewrite (sorted_frontier _ _ _ _ HF).
    destruct (Search.open st) as [|cur rest] eqn:Hopen; [done|].
    assert (Hsort : stable_sort (Search.by_key hz (Search.g st)) (cur :: rest)
                    = cur :: rest).
    { apply (sorted_frontier _ _ _ _ HF). }
    destruct (head_facts rows cols wallf hz goal s Hs hz_cons (hz_goal goal)
                _ _ _ _ _ _ HI Hsort)
      as (Hcq & Hncl & [Hinb Hw] & m & Hm & Hmr & _).
    rewrite bool_decide_eq_false_2 by done. rewrite Hw. simpl.
    destruct (bool_decide (cur = goal)).
    { by destruct (Search.reconstruct _ _ _ _). }
    destruct HF as [Hsorted Hband Hlog].
    apply StronglySorted_inv in Hsorted as [Hsr Hhd].
    destruct (fold_relax_fifo (Search.closed st ++ [cur]) cur m
                (Search.nbrs rows cols cur) rest (Search.g st)
                (Search.prev st) (Search.log st))
      as (gs' & pv' & q' & lg' & Hr & Hsort' & Hband' & Hlog'); [|done|].
    { split_and!; [done| |].
      - intros y Hy. destruct (Hband cur y m) as (m' & Hm' & ?);
          [by left|by right|done|].
        exists m'. split; [done|]. rewrite Forall_forall in Hhd.
        specialize (Hhd _ Hy). rewrite Hm, Hm' in Hhd. simpl in Hhd.
        apply Z.ltb_ge in Hhd. lia.
      - rewrite Hlog, <- app_assoc. done. }
    rewrite Hr. intros [= <-]. simpl. split; [done| |done].
    intros x y mx Hx Hy Hmx.
    destruct (Hband' _ Hx) as (m1 & Hm1 & ?).
    destruct (Hband' _ Hy) as (m2 & Hm2 & ?).
    exists m2. split; [done|]. assert (mx = m1) by congruence. lia.
  Qed.

Lemma init_fifo : state_invF (Search.init s).
  Proof.
    unfold state_invF, Search.init. simpl. split.
    - repeat constructor.
    - intros x y m ->%list_elem_of_singleton ->%list_elem_of_singleton.
      rewrite fupd_eq. intros [= <-]. exists 0. split; [done|lia].
    - done.
  Qed.
End queue_discipline.

(** ** Stores, frames and the initialisation loops *)

Lemma upd_eq (h : Heap) (a : addr) (f : Node → Node) : upd h a f a = f (h a).
Proof. unfold upd. by rewrite decide_True. Qed.

Lemma upd_ne (h : Heap) (a b : addr) (f : Node → Node) :
  b ≠ a → upd h a f b = h b.
Proof. intros. unfold upd. by rewrite decide_False. Qed.

Lemma frame_refl (h : Heap) : frame h h.
Proof. by intros a. Qed.

Lemma frame_trans (h1 h2 h3 : Heap) : frame h1 h2 → frame h2 h3 → frame h1 h3.
Proof.
  intros H12 H23 a. destruct (H12 a) as (? & ? & ?), (H23 a) as (? & ? & ?).
  split_and!; congruence.
Qed.

Lemma frame_upd (h0 h : Heap) (a : addr) (f : Node → Node) :
  scratch_only f → frame h0 h → frame h0 (upd h a f).
Proof.
  intros Hf Hfr b. unfold upd. destruct (decide (b = a)) as [->|]; [|apply Hfr].
  destruct (Hf (h a)) as (-> & -> & ->). apply Hfr.
Qed.

Lemma scratch_isVisited b : scratch_only (set_isVisited b).
Proof. done. Qed.
Lemma scratch_previousNode p : scratch_only (set_previousNode p).
Proof. done. Qed.
Lemma scratch_distance d : scratch_only (set_distance d).
Proof. done. Qed.
Lemma scratch_gScore d : scratch_only (set_gScore d).
Proof. done. Qed.
Lemma scratch_fScore d : scratch_only (set_fScore d).
Proof. done. Qed.
Lemma scratch_hScore d : scratch_only (set_hScore d).
Proof. done. Qed.

Lemma pos_frame (h h' : Heap) (a : addr) : frame h h' → pos h' a = pos h a.
Proof. intros H. destruct (H a) as (? & ? & _). unfold pos. congruence. Qed.

Lemma is_wall_frame (h h' : Heap) (a : addr) :
  frame h h' → is_wall h' a = is_wall h a.
Proof. intros H. destruct (H a) as (_ & _ & Ht). unfold is_wall. by rewrite Ht. Qed.

Lemma wf_grid_frame (h h' : Heap) (g : Grid) :
  wf_grid h g → frame h h' → wf_grid h' g.
Proof.
  intros [H1 H2 H3 H4] Hf. split; try done.
  intros r c a Hc. rewrite (pos_frame _ _ _ Hf). by apply H4.
Qed.

Lemma pos_inj (h : Heap) (g : Grid) (a b : addr) :
  wf_grid h g → in_grid g a → in_grid g b → pos h a = pos h b → a = b.
Proof.
  intros Hwf Ha Hb Hp.
  pose proof (in_grid_cell _ _ _ Hwf Ha) as Hca.
  pose proof (in_grid_cell _ _ _ Hwf Hb) as Hcb.
  unfold pos in Hp. injection Hp as Hr Hc. rewrite Hr, Hc in Hca. congruence.
Qed.

Lemma wall_at_pos (h : Heap) (g : Grid) (a : addr) :
  wf_grid h g → in_grid g a → wall_at h g (pos h a) = is_wall h a.
Proof.
  intros Hwf Ha. unfold wall_at. simpl.
  by rewrite (in_grid_cell _ _ _ Hwf Ha).
Qed.

Lemma cells_in_grid (g : Grid) (ps : list (Z * Z)) :
  Forall (in_grid g) (cells g ps).
Proof.
  induction ps as [|[r c] ps IH]; [constructor|].
  rewrite cells_cons. simpl. destruct (cell g r c) eqn:E; [|done].
  constructor; [|done]. by exists r, c.
Qed.

(** The nested loops assign [f] once to every node of the grid. *)
Lemma foldM_upd_spec (f : Heap → Node → Node) (l : list addr) : ∀ h hi,
  (∀ h1 h2 n, frame h1 h2 → f h1 n = f h2 n) →
  (∀ h1, scratch_only (f h1)) →
  NoDup l → frame hi h →
  ∃ h', foldM (λ h a, Ok (upd h a (f h))) h l = Ok h'
        ∧ frame hi h'
        ∧ (∀ a, a ∈ l → h' a = f hi (h a))
        ∧ (∀ a, a ∉ l → h' a = h a).
Proof.
  induction l as [|x l IH]; intros h hi Hf Hs Hnd Hfr.
  { exists h. split_and!; try done. intros a Ha. by apply elem_of_nil in Ha. }
  apply NoDup_cons in Hnd as [Hx Hnd]. simpl.
  destruct (IH (upd h x (f h)) hi Hf Hs Hnd) as (h' & Hfold & Hfr' & Hin & Hout).
  { by apply frame_upd. }
  exists h'. split_and!; try done.
  - intros a [->|Ha]%elem_of_cons.
    + rewrite (Hout _ Hx), upd_eq. symmetry. by apply Hf.
    + rewrite (Hin _ Ha). f_equal. apply upd_ne. by intros ->.
  - intros a Ha. apply not_elem_of_cons in Ha as [Hne Ha].
    rewrite (Hout _ Ha). by apply upd_ne.
Qed.

Lemma foldM_app {A B} (f : A → B → outcome A) (l1 l2 : list B) (a : A) :
  foldM f a (l1 ++ l2) = a' ← foldM f a l1; foldM f a' l2.
Proof.
  revert a. induction l1 as [|x l1 IH]; intros a; simpl; [done|].
  destruct (f a x); simpl; [apply IH|done|done].
Qed.

Lemma init_row_foldM (f : Heap → Node → Node) (rowl : list addr) (h : Heap) :
  init_row f rowl (length rowl) h = foldM (λ h a, Ok (upd h a (f h))) h rowl.
Proof.
  unfold init_row.
  assert (H : ∀ pre l h,
    foldM (λ h c, a ← defined ((pre ++ l) !! c); Ok (upd h a (f h))) h
          (seq (length pre) (length l))
    = foldM (λ h a, Ok (upd h a (f h))) h l).
  { intros pre l. revert pre. induction l as [|x l IH]; intros pre h'; [done|].
    simpl. rewrite list_lookup_middle by done. simpl.
    specialize (IH (pre ++ [x])). rewrite length_app in IH. simpl in IH.
    rewrite Nat.add_1_r, <- app_assoc in IH. apply IH. }
  apply (H [] rowl h).
Qed.

Lemma init_rows_foldM (f : Heap → Node → Node) (n : nat) (l : Grid) : ∀ h,
  (∀ rowl, rowl ∈ l → length rowl = n) →
  foldM (λ h rowl, init_row f rowl n h) h l
  = foldM (λ h a, Ok (upd h a (f h))) h (mjoin l).
Proof.
  induction l as [|rowl l IH]; intros h Hlen; [done|].
  simpl. rewrite foldM_app.
  rewrite <- (Hlen rowl) by (by left). rewrite init_row_foldM.
  destruct (foldM _ h rowl); simpl; try done.
  rewrite (Hlen rowl) by (by left).
  apply IH. intros ? ?. apply Hlen. by right.
Qed.

Lemma init_nodes_foldM (f : Heap → Node → Node) (h0 : Heap) (g : Grid) (h : Heap) :
  wf_grid h0 g →
  init_nodes f g h = foldM (λ h a, Ok (upd h a (f h))) h (mjoin g).
Proof.
  intros Hwf.
  assert (Hlen : ∀ rowl, rowl ∈ g → Z.of_nat (length rowl) = grid_cols g).
  { intros rowl [i Hi]%list_elem_of_lookup. apply (wf_rect _ _ Hwf _ _ Hi). }
  unfold init_nodes. destruct g as [|r0 g']; [done|].
  apply init_rows_foldM. intros rowl Hr. specialize (Hlen _ Hr).
  simpl in Hlen. lia.
Qed.

Lemma elem_of_concat_grid (g : Grid) (a : addr) : a ∈ mjoin g ↔ in_grid g a.
Proof.
  unfold in_grid. rewrite list_elem_of_join. split.
  - intros (rowl & Ha & Hr).
    apply list_elem_of_lookup in Hr as [r Hr], Ha as [c Hc].
    exists (Z.of_nat r), (Z.of_nat c). apply cell_lookup.
    split_and!; [lia|lia|]. exists rowl. by rewrite !Nat2Z.id.
  - intros (r & c & (_ & _ & rowl & Hr & Hc)%cell_lookup).
    exists rowl. split; eapply list_elem_of_lookup_2; eauto.
Qed.

Lemma NoDup_concat_grid (h : Heap) (g : Grid) : wf_grid h g → NoDup (mjoin g).
Proof.
  intros Hwf. apply NoDup_alt. intros i j a Hi Hj.
  apply join_lookup_Some in Hi as (r1 & l1 & c1 & Hr1 & Hc1 & ->).
  apply join_lookup_Some in Hj as (r2 & l2 & c2 & Hr2 & Hc2 & ->).
  assert (H1 : cell g (Z.of_nat r1) (Z.of_nat c1) = Some a).
  { apply cell_lookup. split_and!; [lia|lia|]. exists l1. by rewrite !Nat2Z.id. }
  assert (H2 : cell g (Z.of_nat r2) (Z.of_nat c2) = Some a).
  { apply cell_lookup. split_and!; [lia|lia|]. exists l2. by rewrite !Nat2Z.id. }
  destruct (cell_inj _ _ _ _ _ _ _ Hwf H1 H2) as [Hr Hc].
  assert (r1 = r2) by lia. assert (c1 = c2) by lia. by subst.
Qed.

Lemma init_nodes_spec (f : Heap → Node → Node) (h : Heap) (g : Grid) :
  wf_grid h g →
  (∀ h1 h2 n, frame h1 h2 → f h1 n = f h2 n) →
  (∀ h1, scratch_only (f h1)) →
  ∃ h', init_nodes f g h = Ok h' ∧ frame h h'
        ∧ (∀ a, in_grid g a → h' a = f h (h a))
        ∧ (∀ a, ¬ in_grid g a → h' a = h a).
Proof.
  intros Hwf Hf Hs. rewrite (init_nodes_foldM f h g h Hwf).
  destruct (foldM_upd_spec f (mjoin g) h h Hf Hs
              (NoDup_concat_grid _ _ Hwf) (frame_refl h))
    as (h' & -> & Hfr & Hin & Hout).
  exists h'. split_and!; try done.
  - intros a Ha. by apply Hin, elem_of_concat_grid.
  - intros a Ha. apply Hout. by rewrite elem_of_concat_grid.
Qed.

(** ** Simulation: shared steps *)

Lemma while_loop_sim {S1 S2 R1 R2} (RS : S1 → S2 → Prop) (RR : R1 → R2 → Prop)
  (f1 : S1 → step_result S1 R1) (f2 : S2 → step_result S2 R2) :
  (∀ a b, RS a b → ssim RS RR (f1 a) (f2 b)) →
  ∀ fuel a b, RS a b → osim RR (while_loop f1 fuel a) (while_loop f2 fuel b).
Proof.
  intros Hstep. induction fuel as [|fuel IH]; intros a b Hab; simpl; [done|].
  specialize (Hstep _ _ Hab).
  destruct (f1 a), (f2 b); simpl in *; try done. by apply IH.
Qed.

Lemma iterate_sim {S1 S2 R1 R2} (RS : S1 → S2 → Prop) (RR : R1 → R2 → Prop)
  (f1 : S1 → step_result S1 R1) (f2 : S2 → step_result S2 R2) :
  (∀ a b, RS a b → ssim RS RR (f1 a) (f2 b)) →
  ∀ n a b a', RS a b → iterate f1 n a = Some a' →
  ∃ b', iterate f2 n b = Some b' ∧ RS a' b'.
Proof.
  intros Hstep. induction n as [|n IH]; intros a b a' Hab; simpl.
  { intros [= <-]. eauto. }
  specialize (Hstep _ _ Hab).
  destruct (f1 a), (f2 b); simpl in *; try done. by apply IH.
Qed.

Lemma fold_left_filter_skip {A B} (f : A → B → A) (P : B → Prop)
  `{∀ x, Decision (P x)} (l : list B) : ∀ a,
  (∀ a x, ¬ P x → f a x = a) →
  fold_left f (filter P l) a = fold_left f l a.
Proof.
  induction l as [|x l IH]; intros a Hskip; [done|].
  rewrite filter_cons. destruct (decide (P x)); simpl.
  - by apply IH.
  - rewrite Hskip by done. by apply IH.
Qed.

Lemma filter_fmap_comm {A B} (f : A → B) (P : B → Prop) (Q : A → Prop)
  `{∀ y, Decision (P y)} `{∀ x, Decision (Q x)} (l : list A) :
  (∀ x, x ∈ l → P (f x) ↔ Q x) →
  filter P (f <$> l) = f <$> filter Q l.
Proof.
  induction l as [|x l IH]; intros HPQ; [done|].
  rewrite fmap_cons, !filter_cons.
  rewrite IH by (intros; apply HPQ; by right).
  destruct (decide (P (f x))) as [HP|HP], (decide (Q x)) as [HQ|HQ]; try done.
  - destruct HQ. apply HPQ; [by left|done].
  - destruct HP. apply HPQ; [by left|done].
Qed.

Section sim.
Variables (h0 : Heap) (g : Grid) (e : addr).
Hypothesis Hwf : wf_grid h0 g.
Local Set Default Proof Using "Hwf".

Local Abbreviation ps := (pos h0).
Local Abbreviation rows := (grid_length g).
Local Abbreviation cols := (grid_cols g).
Local Abbreviation wallf := (wall_at h0 g).
Local Abbreviation goal := (pos h0 e).
Local Abbreviation nodes_rel := (nodes_rel h0 g).
Local Abbreviation prev_rel := (prev_rel h0 g).

Lemma nodes_rel_nil : nodes_rel [] [].
  Proof. split; [constructor|done]. Qed.

Lemma nodes_rel_snoc l lp a :
    nodes_rel l lp → in_grid g a → nodes_rel (l ++ [a]) (lp ++ [ps a]).
  Proof.
    intros [Hf <-] Ha. split.
    - apply Forall_app. split; [done|]. by constructor.
    - by rewrite fmap_app.
  Qed.

Lemma nodes_rel_cons l lp a :
    nodes_rel l lp → in_grid g a → nodes_rel (a :: l) (ps a :: lp).
  Proof. intros [Hf <-] Ha. split; [by constructor|done]. Qed.

Lemma nodes_rel_elem l lp a :
    nodes_rel l lp → in_grid g a → ps a ∈ lp ↔ a ∈ l.
  Proof.
    intros [Hf <-] Ha. rewrite list_elem_of_fmap. split.
    - intros (b & Hb & Hin). rewrite Forall_forall in Hf.
      by rewrite (pos_inj _ _ _ _ Hwf Ha (Hf _ Hin) Hb).
    - intros Hin. by exists a.
  Qed.

Lemma nodes_rel_in l lp a : nodes_rel l lp → a ∈ l → in_grid g a.
  Proof. intros [Hf _] Ha. rewrite Forall_forall in Hf. by apply Hf. Qed.

Lemma same_cell_goal h a :
    frame h0 h → same_cell h a e = bool_decide (ps a = goal).
  Proof.
    intros Hfr. unfold same_cell.
    pose proof (pos_frame _ _ a Hfr) as Ha.
    pose proof (pos_frame _ _ e Hfr) as He.
    unfold pos in *. injection Ha as -> ->. injection He as -> ->.
    destruct (bool_decide _) eqn:E.
    - apply bool_decide_eq_true in E. injection E as -> ->.
      by rewrite !Z.eqb_refl.
    - apply bool_decide_eq_false in E. apply andb_false_iff.
      destruct (Z.eqb_spec (row (h0 a)) (row (h0 e))); [|by left].
      destruct (Z.eqb_spec (col (h0 a)) (col (h0 e))); [|by right].
      exfalso. apply E. congruence.
  Qed.

Lemma neighbours_rel h a :
    frame h0 h → in_grid g a →
    four_directions h a g = Ok (cells g (around (ps a)))
    ∧ nodes_rel (cells g (around (ps a))) (Search.nbrs rows cols (ps a)).
  Proof.
    intros Hfr Ha. pose proof (wf_grid_frame _ _ _ Hwf Hfr) as Hwf'.
    rewrite (four_directions_wf _ _ _ Hwf' Ha), (pos_frame _ _ _ Hfr).
    split; [done|]. split; [apply cells_in_grid|].
    apply (cells_pos _ _ _ Hwf).
  Qed.

Lemma wall_rel h a :
    frame h0 h → in_grid g a → is_wall h a = wallf (ps a).
  Proof.
    intros Hfr Ha. by rewrite (wall_at_pos _ _ _ Hwf Ha), (is_wall_frame _ _ _ Hfr).
  Qed.

  (** The loop of [reconstructPath] follows the same links. *)
Lemma reconstruct_sim h pv : prev_rel h pv → ∀ fuel c acc accp,
    (∀ x, c = Some x → in_grid g x) → nodes_rel acc accp →
    osim nodes_rel (reconstruct_loop fuel h c acc)
         (Search.reconstruct_loop fuel pv (ps <$> c) accp).
  Proof.
    intros Hpv. induction fuel as [|fuel IH]; intros [c|] acc accp Hc Hacc;
      simpl; try done.
    assert (Hin : in_grid g c) by (by apply Hc).
    specialize (Hpv c Hin).
    destruct (previousNode (h c)) as [b|] eqn:Hb.
    - destruct Hpv as [Hbin ->].
      apply (IH (Some b)); [by intros ? [= <-]|by apply nodes_rel_cons].
    - rewrite Hpv. apply (IH None); [done|by apply nodes_rel_cons].
  Qed.
End sim.

(** ** dijkstra.ts computes the reference search with heuristic [0] *)

Section sim_dijkstra.
Variables (h0 : Heap) (g : Grid) (e : addr).
Hypothesis Hwf : wf_grid h0 g.
Local Set Default Proof Using "Hwf".

Local Abbreviation ps := (pos h0).
Local Abbreviation rows := (grid_length g).
Local Abbreviation cols := (grid_cols g).
Local Abbreviation wallf := (wall_at h0 g).
Local Abbreviation goal := (pos h0 e).
Local Abbreviation hz := (λ _ : P, 0).
Local Abbreviation nodes_rel := (nodes_rel h0 g).
Local Abbreviation rel := (rel_dijkstra h0 g).

Lemma relax_sim_d cur n vis cl acc aacc :
    rel (dijkstra_acc vis acc) (search_acc cl aacc) →
    in_grid g cur → in_grid g n → isVisited (acc.1.1 n) = false →
    rel (dijkstra_acc vis (Dijkstra.relax cur acc n))
        (search_acc cl (Search.relax wallf cl (ps cur) aacc (ps n))).
  Proof.
    destruct acc as [[h q] lg], aacc as [[[gs pv] qa] lga].
    intros HR Hcur Hn Hvis. pose proof HR as [Hfr Hq Hv Hl Hd Hi Hp].
    simpl in *. unfold Dijkstra.relax, Search.relax.
    rewrite <- (Hi n Hn), Hvis, (wall_rel _ _ Hwf _ _ Hfr Hn). simpl.
    destruct (wallf (ps n)); [done|].
    rewrite (Hd cur Hcur), (Hd n Hn).
    destruct (num_lt _ _); [|done].
    unfold includes.
    rewrite <- (bool_decide_ext _ _ (nodes_rel_elem _ _ Hwf _ _ _ Hq Hn)).
    set (t := num_add (gs (ps cur)) (Fin 1)).
    set (h' := upd (upd h n (set_distance t)) n (set_previousNode (Some cur))).
    assert (HR' : ∀ q' lg' qa' lga', nodes_rel q' qa' → nodes_rel lg' lga' →
              rel (Dijkstra.mkState h' q' vis lg')
                  (Search.mkState qa' cl (fupd gs (ps n) t)
                                  (fupd pv (ps n) (Some (ps cur))) lga')).
    { intros q' lg' qa' lga' Hq' Hl'. split; simpl; try done.
      - by repeat apply frame_upd.
      - intros a Ha. unfold h'. destruct (decide (a = n)) as [->|Hne].
        + by rewrite !upd_eq, fupd_eq.
        + rewrite !upd_ne by done. rewrite fupd_ne; [by apply Hd|].
          intros Heq. by apply Hne, (pos_inj _ _ _ _ Hwf Ha Hn).
      - intros a Ha. unfold h'. destruct (decide (a = n)) as [->|Hne].
        + rewrite !upd_eq. simpl. by apply Hi.
        + rewrite !upd_ne by done. by apply Hi.
      - intros a Ha. unfold h'. destruct (decide (a = n)) as [->|Hne].
        + rewrite !upd_eq, fupd_eq. done.
        + rewrite !upd_ne by done. specialize (Hp a Ha).
          rewrite fupd_ne; [done|].
          intros Heq. by apply Hne, (pos_inj _ _ _ _ Hwf Ha Hn). }
    destruct (bool_decide (ps n ∈ qa)); apply HR'; try done;
      by apply nodes_rel_snoc.
  Qed.

Lemma fold_sim_d cur vis cl l : ∀ acc aacc,
    rel (dijkstra_acc vis acc) (search_acc cl aacc) →
    in_grid g cur → Forall (in_grid g) l →
    Forall (λ n, isVisited (acc.1.1 n) = false) l →
    rel (dijkstra_acc vis (fold_left (Dijkstra.relax cur) l acc))
        (search_acc cl (fold_left (Search.relax wallf cl (ps cur))
                                  (ps <$> l) aacc)).
  Proof.
    induction l as [|n l IH]; intros acc aacc HR Hcur Hl Hv; [done|].
    apply Forall_cons in Hl as [Hn Hl]. apply Forall_cons in Hv as [Hvn Hv].
    pose proof (relax_sim_d cur n _ _ _ _ HR Hcur Hn Hvn) as HR1.
    rewrite fmap_cons. cbn [fold_left]. apply IH; try done.
    rewrite Forall_forall in *. intros x Hx.
    pose proof (rd_isVisited _ _ _ _ HR1 x (Hl _ Hx)) as H1.
    pose proof (rd_isVisited _ _ _ _ HR x (Hl _ Hx)) as H2.
    simpl in H1, H2. rewrite H1, <- H2. by apply Hv.
  Qed.

Lemma step_sim_d pfuel st ast :
    rel st ast →
    ssim rel (result_rel h0 g) (Dijkstra.step pfuel g e st)
         (Search.step rows cols wallf hz goal pfuel ast).
  Proof.
    intros HR. pose proof HR as [Hfr Hq Hv Hl Hd Hi Hp].
    unfold Dijkstra.step, Search.step.
    assert (Hsort : ps <$> stable_sort (Dijkstra.by_distance (Dijkstra.heap st))
                           (Dijkstra.queue st)
                    = stable_sort (Search.by_key hz (Search.g ast))
                                  (Search.open ast)).
    { destruct Hq as [Hqf <-]. apply stable_sort_fmap. intros a b Ha Hb.
      rewrite Forall_forall in Hqf. rewrite by_key_zero.
      unfold Dijkstra.by_distance. by rewrite !Hd by (by apply Hqf). }
    assert (Hsf : Forall (in_grid g)
                    (stable_sort (Dijkstra.by_distance (Dijkstra.heap st))
                                 (Dijkstra.queue st))).
    { destruct Hq as [Hqf _]. by rewrite stable_sort_perm. }
    destruct (stable_sort (Dijkstra.by_distance _) _) as [|cur rest] eqn:Hs;
      rewrite <- Hsort; simpl.
    { split_and!; [done|done|apply nodes_rel_nil; done]. }
    apply Forall_cons in Hsf as [Hcur Hrest].
    rewrite (Hi cur Hcur), (wall_rel _ _ Hwf _ _ Hfr Hcur).
    destruct (_ || _).
    { split; simpl; done. }
    set (h1 := upd (Dijkstra.heap st) cur (set_isVisited true)).
    assert (Hfr1 : frame h0 h1) by (by apply frame_upd).
    rewrite (same_cell_goal h0 g e Hwf h1 cur Hfr1).
    assert (HR1 : rel (Dijkstra.mkState h1 rest (Dijkstra.visited st ++ [cur])
                                        (Dijkstra.pushed st))
                      (Search.mkState (ps <$> rest)
                         (Search.closed ast ++ [ps cur]) (Search.g ast)
                         (Search.prev ast) (Search.log ast))).
    { split; simpl; try done.
      - by apply nodes_rel_snoc.
      - intros a Ha. unfold h1. destruct (decide (a = cur)) as [->|Hne].
        + rewrite upd_eq. simpl. by apply Hd.
        + rewrite upd_ne by done. by apply Hd.
      - intros a Ha. unfold h1. destruct (decide (a = cur)) as [->|Hne].
        + rewrite upd_eq. simpl. symmetry. apply bool_decide_eq_true.
          apply elem_of_app. right. by left.
        + rewrite upd_ne by done. rewrite (Hi a Ha).
          apply bool_decide_ext. rewrite elem_of_app, list_elem_of_singleton.
          split; [by left|]. intros [?|Heq]; [done|].
          by destruct Hne, (pos_inj _ _ _ _ Hwf Ha Hcur).
      - intros a Ha. unfold h1. destruct (decide (a = cur)) as [->|Hne].
        + rewrite upd_eq. simpl. by apply Hp.
        + rewrite upd_ne by done. by apply Hp. }
    destruct (bool_decide (ps cur = goal)).
    - unfold Dijkstra.reconstructPath, Search.reconstruct.
      pose proof (reconstruct_sim _ _ Hwf _ _ (rd_prev _ _ _ _ HR1) pfuel
                    (Some cur) [] [] ltac:(by intros ? [= <-])
                    (nodes_rel_nil _ _ Hwf)) as Hrec.
      simpl in Hrec.
      destruct (reconstruct_loop _ _ _ _) as [p| |],
        (Search.reconstruct_loop _ _ _ _) as [pp| |]; simpl in *; try done.
      destruct Hrec as [Hpf <-]. destruct p as [|first p]; simpl.
      { split_and!; simpl; try done. by apply nodes_rel_snoc. }
      apply Forall_cons in Hpf as [Hfirst Hpf].
      pose proof (rd_distance _ _ _ _ HR1 first Hfirst) as Hdf. simpl in Hdf.
      rewrite Hdf.
      destruct (decide _); simpl;
        (split_and!; simpl; [done|by apply nodes_rel_snoc|]).
      + split; [by constructor|done].
      + by apply nodes_rel_nil.
    - unfold Dijkstra.updateUnvisitedNeighbors, Dijkstra.getValidNeighbors.
      simpl. destruct (neighbours_rel _ _ Hwf h1 cur Hfr1 Hcur) as [-> [Hnf Hnp]].
      simpl.
      pose proof (fold_sim_d cur _ _
                    (filter (λ n, isVisited (h1 n) = false)
                            (cells g (around (ps cur))))
                    (h1, rest, Dijkstra.pushed st)
                    (Search.g ast, Search.prev ast, ps <$> rest, Search.log ast)
                    HR1 Hcur) as HR2.
      assert (Hf3 : fold_left (Search.relax wallf (Search.closed ast ++ [ps cur])
                                 (ps cur))
                      (ps <$> filter (λ n, isVisited (h1 n) = false)
                                     (cells g (around (ps cur))))
                      (Search.g ast, Search.prev ast, ps <$> rest, Search.log ast)
                    = fold_left (Search.relax wallf (Search.closed ast ++ [ps cur])
                                 (ps cur)) (Search.nbrs rows cols (ps cur))
                      (Search.g ast, Search.prev ast, ps <$> rest, Search.log ast)).
      { rewrite <- Hnp.
        rewrite <- (fold_left_filter_skip _
                      (λ p, p ∉ Search.closed ast ++ [ps cur])
                      (ps <$> cells g (around (ps cur)))).
        2:{ intros [[[? ?] ?] ?] x Hx. unfold Search.relax.
            apply dec_stable in Hx. by rewrite bool_decide_eq_true_2. }
        f_equal. symmetry. apply filter_fmap_comm. intros n Hn.
        rewrite Forall_forall in Hnf.
        pose proof (rd_isVisited _ _ _ _ HR1 n (Hnf _ Hn)) as Hvn.
        simpl in Hvn. rewrite Hvn. by rewrite bool_decide_eq_false. }
      rewrite Hf3 in HR2.
      destruct (fold_left (Dijkstra.relax cur) _ _) as [[h' q'] lg'].
      destruct (fold_left (Search.relax _ _ _) _ _) as [[[gs' pv'] qa'] lga'].
      simpl. apply HR2.
      { rewrite Forall_forall in *. intros n [_ ?]%list_elem_of_filter. auto. }
      { apply Forall_forall. by intros n [? _]%list_elem_of_filter. }
  Qed.

Lemma init_sim_d s :
    in_grid g s →
    ∃ st, Dijkstra.init h0 g s = Ok st ∧ rel st (Search.init (ps s)).
  Proof.
    intros Hs. unfold Dijkstra.init.
    destruct (init_nodes_spec Dijkstra.reset h0 g Hwf)
      as (h' & -> & Hfr & Hin & Hout); [done|done|].
    eexists. split; [done|]. split; simpl.
    - by apply frame_upd.
    - split; [by constructor|done].
    - by apply nodes_rel_nil.
    - split; [by constructor|done].
    - intros a Ha. destruct (decide (a = s)) as [->|Hne].
      + by rewrite upd_eq, fupd_eq.
      + rewrite upd_ne by done. rewrite (Hin a Ha), fupd_ne; [done|].
        intros Heq. by apply Hne, (pos_inj _ _ _ _ Hwf Ha Hs).
    - intros a Ha. destruct (decide (a = s)) as [->|Hne].
      + rewrite upd_eq. simpl. by rewrite (Hin s Hs).
      + rewrite upd_ne by done. by rewrite (Hin a Ha).
    - intros a Ha. destruct (decide (a = s)) as [->|Hne].
      + rewrite upd_eq. simpl. by rewrite (Hin s Hs).
      + rewrite upd_ne by done. by rewrite (Hin a Ha).
  Qed.

  (** dijkstra.ts and the reference search with heuristic [0] return the
      same visited sequence and the same path, position by position, and
      run out of fuel together. *)
Lemma dijkstra_sim fuel s :
    in_grid g s →
    osim (result_rel h0 g) (Dijkstra.dijkstra fuel h0 g s e)
         (Search.run rows cols wallf hz goal fuel (ps s)).
  Proof.
    intros Hs. unfold Dijkstra.dijkstra, Search.run.
    destruct (init_sim_d s Hs) as (st & -> & HR). simpl.
    apply (while_loop_sim rel (result_rel h0 g)); [|done].
    intros a b. apply step_sim_d.
  Qed.

Lemma dijkstra_iterate_sim pfuel n s st st' :
    in_grid g s → Dijkstra.init h0 g s = Ok st →
    iterate (Dijkstra.step pfuel g e) n st = Some st' →
    ∃ ast', iterate (Search.step rows cols wallf hz goal pfuel) n
                    (Search.init (ps s)) = Some ast'
            ∧ rel st' ast'.
  Proof.
    intros Hs Hinit. destruct (init_sim_d s Hs) as (st0 & Hst0 & HR).
    assert (st0 = st) as -> by congruence.
    apply (iterate_sim rel (result_rel h0 g)); [|done].
    intros a b. apply step_sim_d.
  Qed.
End sim_dijkstra.

(** ** astar.ts computes the reference search with the Manhattan heuristic *)

Lemma manhattan_consistent (goal p q : P) :
  Search.adjacent p q → manhattan p goal <= manhattan q goal + 1.
Proof.
  unfold Search.adjacent, around, manhattan. destruct p as [r c].
  rewrite !elem_of_cons, elem_of_nil. simpl.
  intros [->|[->|[->|[->|[]]]]]; simpl; lia.
Qed.

Lemma manhattan_goal (goal : P) : manhattan goal goal = 0.
Proof. unfold manhattan. lia. Qed.

Lemma manhattan_zero (goal p : P) : manhattan p goal = 0 → p = goal.
Proof.
  unfold manhattan. destruct p as [r c], goal as [r' c']. simpl.
  intros H. f_equal; lia.
Qed.

Section sim_astar.
Variables (h0 : Heap) (g : Grid) (e : addr).
Hypothesis Hwf : wf_grid h0 g.
Local Set Default Proof Using "Hwf".

Local Abbreviation ps := (pos h0).
Local Abbreviation rows := (grid_length g).
Local Abbreviation cols := (grid_cols g).
Local Abbreviation wallf := (wall_at h0 g).
Local Abbreviation goal := (pos h0 e).
Local Abbreviation hman := (λ p : P, manhattan p (pos h0 e)).
Local Abbreviation nodes_rel := (nodes_rel h0 g).
Local Abbreviation rel := (rel_astar h0 g (pos h0 e)).

Lemma relax_sim_a cur n cs vis cl acc aacc :
    rel (astar_acc cs vis acc) (search_acc cl aacc) →
    in_grid g cur → in_grid g n → isVisited (acc.1.1 n) = false →
    rel (astar_acc cs vis (Astar.relax cs cur acc n))
        (search_acc cl (Search.relax wallf cl (ps cur) aacc (ps n))).
  Proof.
    destruct acc as [[h q] lg], aacc as [[[gs pv] qa] lga].
    intros HR Hcur Hn Hvis.
    pose proof HR as [Hfr Hq Hv Hl Hcs Hg Hh Hf Hi Hp].
    simpl in *. unfold Astar.relax, Search.relax.
    assert (Hncs : bool_decide (n ∈ cs) = bool_decide (ps n ∈ cl)).
    { apply bool_decide_ext. rewrite Hcs. symmetry.
      by apply (nodes_rel_elem _ _ Hwf). }
    rewrite Hncs, <- (Hi n Hn), Hvis, (wall_rel _ _ Hwf _ _ Hfr Hn). simpl.
    destruct (wallf (ps n)); [done|].
    rewrite (Hg cur Hcur), (Hg n Hn).
    destruct (num_lt _ _); [|done].
    unfold includes.
    rewrite <- (bool_decide_ext _ _ (nodes_rel_elem _ _ Hwf _ _ _ Hq Hn)).
    set (t := num_add (gs (ps cur)) (Fin 1)).
    set (h1 := upd h n (set_previousNode (Some cur))).
    set (h2 := upd h1 n (set_gScore t)).
    set (h3 := upd h2 n (set_fScore (num_add (gScore (h2 n)) (hScore (h2 n))))).
    assert (Hh3n : h3 n = set_fScore (num_add t (hScore (h n)))
                            (set_gScore t (set_previousNode (Some cur) (h n)))).
    { unfold h3, h2, h1. by rewrite !upd_eq. }
    assert (Hh3 : ∀ a, a ≠ n → h3 a = h a).
    { intros a Hne. unfold h3, h2, h1. by rewrite !upd_ne. }
    assert (HR' : ∀ q' lg' qa' lga', nodes_rel q' qa' → nodes_rel lg' lga' →
              rel (Astar.mkState h3 q' cs vis lg')
                  (Search.mkState qa' cl (fupd gs (ps n) t)
                                  (fupd pv (ps n) (Some (ps cur))) lga')).
    { intros q' lg' qa' lga' Hq' Hl'.
      assert (Hpn : ∀ a, in_grid g a → a ≠ n → ps a ≠ ps n).
      { intros a Ha Hne Heq. by apply Hne, (pos_inj _ _ _ _ Hwf Ha Hn). }
      split; simpl; try done.
      - by repeat apply frame_upd.
      - intros a Ha. destruct (decide (a = n)) as [->|Hne].
        + by rewrite Hh3n, fupd_eq.
        + rewrite Hh3, fupd_ne by auto. by apply Hg.
      - intros a Ha. destruct (decide (a = n)) as [->|Hne].
        + rewrite Hh3n. simpl. by apply Hh.
        + rewrite Hh3 by done. by apply Hh.
      - intros a Ha. unfold Search.key. destruct (decide (a = n)) as [->|Hne].
        + rewrite Hh3n, fupd_eq. simpl. by rewrite (Hh n Hn).
        + rewrite Hh3, fupd_ne by auto. by apply Hf.
      - intros a Ha. destruct (decide (a = n)) as [->|Hne].
        + rewrite Hh3n. simpl. by apply Hi.
        + rewrite Hh3 by done. by apply Hi.
      - intros a Ha. destruct (decide (a = n)) as [->|Hne].
        + rewrite Hh3n, fupd_eq. done.
        + rewrite Hh3 by done. specialize (Hp a Ha). rewrite fupd_ne by auto.
          done. }
    destruct (bool_decide (ps n ∈ qa)); apply HR'; try done;
      by apply nodes_rel_snoc.
  Qed.

Lemma fold_sim_a cur cs vis cl l : ∀ acc aacc,
    rel (astar_acc cs vis acc) (search_acc cl aacc) →
    in_grid g cur → Forall (in_grid g) l →
    Forall (λ n, isVisited (acc.1.1 n) = false) l →
    rel (astar_acc cs vis (fold_left (Astar.relax cs cur) l acc))
        (search_acc cl (fold_left (Search.relax wallf cl (ps cur))
                                  (ps <$> l) aacc)).
  Proof.
    induction l as [|n l IH]; intros acc aacc HR Hcur Hl Hv; [done|].
    apply Forall_cons in Hl as [Hn Hl]. apply Forall_cons in Hv as [Hvn Hv].
    pose proof (relax_sim_a cur n _ _ _ _ _ HR Hcur Hn Hvn) as HR1.
    rewrite fmap_cons. cbn [fold_left]. apply IH; try done.
    rewrite Forall_forall in *. intros x Hx.
    pose proof (ra_isVisited _ _ _ _ _ HR1 x (Hl _ Hx)) as H1.
    pose proof (ra_isVisited _ _ _ _ _ HR x (Hl _ Hx)) as H2.
    simpl in H1, H2. rewrite H1, <- H2. by apply Hv.
  Qed.

Lemma step_sim_a pfuel st ast :
    rel st ast →
    ssim rel (result_rel h0 g) (Astar.step pfuel g e st)
         (Search.step rows cols wallf hman goal pfuel ast).
  Proof.
    intros HR. pose proof HR as [Hfr Hq Hv Hl Hcs Hg Hh Hf Hi Hp].
    unfold Astar.step, Search.step.
    assert (Hsort : ps <$> stable_sort (Astar.by_fScore (Astar.heap st))
                           (Astar.openSet st)
                    = stable_sort (Search.by_key hman (Search.g ast))
                                  (Search.open ast)).
    { destruct Hq as [Hqf <-]. apply stable_sort_fmap. intros a b Ha Hb.
      rewrite Forall_forall in Hqf. unfold Astar.by_fScore, Search.by_key.
      by rewrite !Hf by (by apply Hqf). }
    assert (Hsf : Forall (in_grid g)
                    (stable_sort (Astar.by_fScore (Astar.heap st))
                                 (Astar.openSet st))).
    { destruct Hq as [Hqf _]. by rewrite stable_sort_perm. }
    destruct (stable_sort (Astar.by_fScore _) _) as [|cur rest] eqn:Hs;
      rewrite <- Hsort; simpl.
    { split_and!; [done|done|apply nodes_rel_nil; done]. }
    apply Forall_cons in Hsf as [Hcur Hrest].
    assert (Hccs : bool_decide (cur ∈ Astar.closedSet st)
                   = bool_decide (ps cur ∈ Search.closed ast)).
    { apply bool_decide_ext. rewrite Hcs. symmetry.
      by apply (nodes_rel_elem _ _ Hwf). }
    rewrite Hccs, (wall_rel _ _ Hwf _ _ Hfr Hcur).
    destruct (_ || _).
    { split; simpl; done. }
    set (h1 := upd (Astar.heap st) cur (set_isVisited true)).
    assert (Hfr1 : frame h0 h1) by (by apply frame_upd).
    rewrite (same_cell_goal h0 g e Hwf h1 cur Hfr1).
    assert (HR1 : rel (Astar.mkState h1 rest (Astar.closedSet st ∪ {[cur]})
                                     (Astar.visited st ++ [cur])
                                     (Astar.pushed st))
                      (Search.mkState (ps <$> rest)
                         (Search.closed ast ++ [ps cur]) (Search.g ast)
                         (Search.prev ast) (Search.log ast))).
    { split; simpl; try done.
      - by apply nodes_rel_snoc.
      - intros a. rewrite elem_of_union, elem_of_singleton, elem_of_app,
          list_elem_of_singleton, Hcs. done.
      - intros a Ha. unfold h1. destruct (decide (a = cur)) as [->|Hne].
        + rewrite upd_eq. simpl. by apply Hg.
        + rewrite upd_ne by done. by apply Hg.
      - intros a Ha. unfold h1. destruct (decide (a = cur)) as [->|Hne].
        + rewrite upd_eq. simpl. by apply Hh.
        + rewrite upd_ne by done. by apply Hh.
      - intros a Ha. unfold h1. destruct (decide (a = cur)) as [->|Hne].
        + rewrite upd_eq. simpl. by apply Hf.
        + rewrite upd_ne by done. by apply Hf.
      - intros a Ha. unfold h1. destruct (decide (a = cur)) as [->|Hne].
        + rewrite upd_eq. simpl. symmetry. apply bool_decide_eq_true.
          apply elem_of_app. right. by left.
        + rewrite upd_ne by done. rewrite (Hi a Ha).
          apply bool_decide_ext. rewrite elem_of_app, list_elem_of_singleton.
          split; [by left|]. intros [?|Heq]; [done|].
          by destruct Hne, (pos_inj _ _ _ _ Hwf Ha Hcur).
      - intros a Ha. unfold h1. destruct (decide (a = cur)) as [->|Hne].
        + rewrite upd_eq. simpl. by apply Hp.
        + rewrite upd_ne by done. by apply Hp. }
    destruct (bool_decide (ps cur = goal)).
    - unfold Astar.reconstructPath, Search.reconstruct.
      pose proof (reconstruct_sim _ _ Hwf _ _ (ra_prev _ _ _ _ _ HR1) pfuel
                    (Some cur) [] [] ltac:(by intros ? [= <-])
                    (nodes_rel_nil _ _ Hwf)) as Hrec.
      simpl in Hrec.
      destruct (reconstruct_loop _ _ _ _) as [p| |],
        (Search.reconstruct_loop _ _ _ _) as [pp| |]; simpl in *; try done.
      destruct Hrec as [Hpf <-]. destruct p as [|first p]; simpl.
      { split_and!; simpl; try done. by apply nodes_rel_snoc. }
      apply Forall_cons in Hpf as [Hfirst Hpf].
      pose proof (ra_gScore _ _ _ _ _ HR1 first Hfirst) as Hdf. simpl in Hdf.
      rewrite Hdf.
      destruct (decide _); simpl;
        (split_and!; simpl; [done|by apply nodes_rel_snoc|]).
      + split; [by constructor|done].
      + by apply nodes_rel_nil.
    - unfold Astar.getValidNeighbors.
      destruct (neighbours_rel _ _ Hwf h1 cur Hfr1 Hcur) as [-> [Hnf Hnp]].
      simpl.
      pose proof (fold_sim_a cur (Astar.closedSet st ∪ {[cur]}) _ _
                    (filter (λ n, isVisited (h1 n) = false)
                            (cells g (around (ps cur))))
                    (h1, rest, Astar.pushed st)
                    (Search.g ast, Search.prev ast, ps <$> rest, Search.log ast)
                    HR1 Hcur) as HR2.
      assert (Hf3 : fold_left (Search.relax wallf (Search.closed ast ++ [ps cur])
                                 (ps cur))
                      (ps <$> filter (λ n, isVisited (h1 n) = false)
                                     (cells g (around (ps cur))))
                      (Search.g ast, Search.prev ast, ps <$> rest, Search.log ast)
                    = fold_left (Search.relax wallf (Search.closed ast ++ [ps cur])
                                 (ps cur)) (Search.nbrs rows cols (ps cur))
                      (Search.g ast, Search.prev ast, ps <$> rest, Search.log ast)).
      { rewrite <- Hnp.
        rewrite <- (fold_left_filter_skip _
                      (λ p, p ∉ Search.closed ast ++ [ps cur])
                      (ps <$> cells g (around (ps cur)))).
        2:{ intros [[[? ?] ?] ?] x Hx. unfold Search.relax.
            apply dec_stable in Hx. by rewrite bool_decide_eq_true_2. }
        f_equal. symmetry. apply filter_fmap_comm. intros n Hn.
        rewrite Forall_forall in Hnf.
        pose proof (ra_isVisited _ _ _ _ _ HR1 n (Hnf _ Hn)) as Hvn.
        simpl in Hvn. rewrite Hvn. by rewrite bool_decide_eq_false. }
      rewrite Hf3 in HR2.
      destruct (fold_left (Astar.relax _ cur) _ _) as [[h' q'] lg'].
      destruct (fold_left (Search.relax _ _ _) _ _) as [[[gs' pv'] qa'] lga'].
      simpl. apply HR2.
      { rewrite Forall_forall in *. intros n [_ ?]%list_elem_of_filter. auto. }
      { apply Forall_forall. by intros n [? _]%list_elem_of_filter. }
  Qed.

Lemma init_sim_a s :
    in_grid g s →
    ∃ st, Astar.init h0 g s e = Ok st ∧ rel st (Search.init (ps s)).
  Proof.
    intros Hs. unfold Astar.init.
    destruct (init_nodes_spec (Astar.reset e) h0 g Hwf)
      as (h' & -> & Hfr & Hin & Hout).
    { intros h1 h2 n Hf. unfold Astar.reset, Astar.manhattanDistance.
      destruct (Hf e) as (-> & -> & _). done. }
    { done. }
    cbv zeta. simpl.
    set (h1 := upd h' s (set_gScore (Fin 0))).
    set (h2 := upd h1 s (set_fScore (hScore (h1 s)))).
    assert (Hh2s : h2 s = set_fScore (hScore (h' s))
                            (set_gScore (Fin 0) (h' s))).
    { unfold h2, h1. by rewrite !upd_eq. }
    assert (Hh2 : ∀ a, a ≠ s → h2 a = h' a).
    { intros a Hne. unfold h2, h1. by rewrite !upd_ne. }
    assert (Hpn : ∀ a, in_grid g a → a ≠ s → ps a ≠ ps s).
    { intros a Ha Hne Heq. by apply Hne, (pos_inj _ _ _ _ Hwf Ha Hs). }
    assert (Hhs : ∀ a, in_grid g a → hScore (h' a) = Fin (hman (ps a))).
    { intros a Ha. rewrite (Hin a Ha). done. }
    assert (Hfr2 : frame h0 h2) by (by repeat apply frame_upd).
    clearbody h2. clear h1.
    eexists. split; [done|]. split; simpl.
    - done.
    - split; [by constructor|done].
    - by apply nodes_rel_nil.
    - split; [by constructor|done].
    - intros a. by rewrite elem_of_empty, elem_of_nil.
    - intros a Ha. destruct (decide (a = s)) as [->|Hne].
      + by rewrite Hh2s, fupd_eq.
      + rewrite Hh2, fupd_ne by auto. by rewrite (Hin a Ha).
    - intros a Ha. destruct (decide (a = s)) as [->|Hne].
      + rewrite Hh2s. simpl. by apply Hhs.
      + rewrite Hh2 by done. by apply Hhs.
    - intros a Ha. unfold Search.key. destruct (decide (a = s)) as [->|Hne].
      + rewrite Hh2s, fupd_eq. simpl. by rewrite (Hhs s Hs).
      + rewrite Hh2, fupd_ne by auto. by rewrite (Hin a Ha).
    - intros a Ha. destruct (decide (a = s)) as [->|Hne].
      + rewrite Hh2s. simpl. by rewrite (Hin s Hs).
      + rewrite Hh2 by done. by rewrite (Hin a Ha).
    - intros a Ha. destruct (decide (a = s)) as [->|Hne].
      + rewrite Hh2s. simpl. by rewrite (Hin s Hs).
      + rewrite Hh2 by done. by rewrite (Hin a Ha).
  Qed.

  (** astar.ts and the reference search with the Manhattan heuristic
      return the same visited sequence and the same path, position by
      position, and run out of fuel together. *)
Lemma astar_sim fuel s :
    in_grid g s →
    osim (result_rel h0 g) (Astar.astar fuel h0 g s e)
         (Search.run rows cols wallf hman goal fuel (ps s)).
  Proof.
    intros Hs. unfold Astar.astar, Search.run.
    destruct (init_sim_a s Hs) as (st & -> & HR). simpl.
    apply (while_loop_sim rel (result_rel h0 g)); [|done].
    intros a b. apply step_sim_a.
  Qed.
End sim_astar.

(** ** bfs.ts computes the reference search with heuristic [0] *)

Lemma in_grid_passable (h0 : Heap) (g : Grid) (a : addr) :
  wf_grid h0 g → in_grid g a → is_wall h0 a = false →
  Search.passable (grid_length g) (grid_cols g) (wall_at h0 g) (pos h0 a).
Proof.
  intros Hwf Ha Hw. split.
  - change (in_bounds g (pos h0 a) = true).
    apply (cell_in_bounds h0); [done|]. unfold pos. simpl.
    by rewrite (in_grid_cell _ _ _ Hwf Ha).
  - by rewrite (wall_at_pos _ _ _ Hwf Ha).
Qed.

Section sim_bfs.
Variables (h0 : Heap) (g : Grid) (e s : addr).
Hypothesis Hwf : wf_grid h0 g.
Hypothesis Hs : in_grid g s.
Hypothesis Hsw : is_wall h0 s = false.
Local Set Default Proof Using "Hwf Hs Hsw".

Local Abbreviation ps := (pos h0).
Local Abbreviation rows := (grid_length g).
Local Abbreviation cols := (grid_cols g).
Local Abbreviation wallf := (wall_at h0 g).
Local Abbreviation goal := (pos h0 e).
Local Abbreviation hz := (λ _ : P, 0).
Local Abbreviation nodes_rel := (nodes_rel h0 g).
Local Abbreviation rel := (rel_bfs h0 g (pos h0 e) (pos h0 s)).
Local Abbreviation frel := (rel_bfs_fold h0 g (pos h0 e) (pos h0 s)).

Lemma start_passable : Search.passable rows cols wallf (ps s).
  Proof. by apply in_grid_passable. Qed.

Lemma enqueue_sim cur n ex cl m acc aacc :
    frel ex cl (ps cur) m acc aacc →
    ps cur ∈ cl → m + 1 <= Z.of_nat (length cl) →
    in_grid g cur → in_grid g n →
    Search.adjacent (ps cur) (ps n) → Search.inb rows cols (ps n) = true →
    frel ex cl (ps cur) m (Bfs.enqueue cur acc n)
         (Search.relax wallf cl (ps cur) aacc (ps n)).
  Proof.
    destruct acc as [h q], aacc as [[[gs pv] qa] lga].
    intros HR Hccl Hlen Hcur Hn Hadj Hinb.
    pose proof HR as [Hfr Hq Hi Hp HI HIR Hm].
    simpl in Hfr, Hq, Hi, Hp, HI, HIR, Hm.
    destruct (relax_inv rows cols wallf hz goal (ps s) start_passable hz_cons
                (hz_goal goal) ex cl qa gs pv lga (ps cur) m (ps n)
                HI Hccl Hm Hlen Hadj Hinb)
      as (gs' & pv' & qa' & lga' & Hrel & HI' & Hm' & _).
    destruct (relax_fifo wallf cl (ps cur) m qa gs pv lga (ps n) HIR Hm)
      as (gs2 & pv2 & qa2 & lga2 & Hrel2 & HIR' & _).
    rewrite Hrel in Hrel2. injection Hrel2 as <- <- <- <-.
    rewrite Hrel. unfold Bfs.enqueue. rewrite (wall_rel _ _ Hwf _ _ Hfr Hn), (Hi n Hn).
    unfold Search.relax in Hrel. rewrite Hm in Hrel.
    change (num_add (Fin m) (Fin 1)) with (Fin (m + 1)) in Hrel.
    destruct (wallf (ps n)) eqn:Hw.
    { rewrite orb_true_r in Hrel. injection Hrel as <- <- <- <-. simpl.
      exact HR. }
    rewrite orb_false_r in Hrel. simpl.
    destruct (gs (ps n)) as [b|] eqn:Hb.
    - (* already discovered: neither side changes anything *)
      rewrite bool_decide_eq_true_2 by done. simpl.
      assert (Hskip : (gs', pv', qa', lga') = (gs, pv, qa, lga)).
      { rewrite <- Hrel. destruct (bool_decide (ps n ∈ cl)) eqn:Hncl; [done|].
        apply bool_decide_eq_false in Hncl.
        assert (Hin : ps n ∈ cl ++ qa).
        { apply (inv_disc HI). by rewrite Hb. }
        apply elem_of_app in Hin as [?|Hin]; [done|].
        destruct HIR as (_ & Hband & _).
        destruct (Hband _ Hin) as (b' & Hb' & ?).
        assert (b' = b) as -> by congruence.
        simpl. rewrite (proj2 (Z.ltb_ge _ _)) by lia. done. }
      injection Hskip as -> -> -> ->. exact HR.
    - (* undiscovered: both sides enqueue *)
      rewrite bool_decide_eq_false_2 by (by intros H; apply H).
      simpl.
      assert (Hnin : ps n ∉ cl ++ qa).
      { rewrite <- (inv_disc HI). rewrite Hb. by intros H; apply H. }
      apply not_elem_of_app in Hnin as [Hncl Hnq].
      rewrite !bool_decide_eq_false_2 in Hrel by done. simpl in Hrel.
      injection Hrel as <- <- <- <-.
      assert (Hpn : ∀ a, in_grid g a → a ≠ n → ps a ≠ ps n).
      { intros a Ha Hne Heq. by apply Hne, (pos_inj _ _ _ _ Hwf Ha Hn). }
      split; simpl; try done.
      + by repeat apply frame_upd.
      + by apply nodes_rel_snoc.
      + intros a Ha. destruct (decide (a = n)) as [->|Hne].
        * rewrite !upd_eq, fupd_eq. done.
        * rewrite !upd_ne by done. rewrite fupd_ne by auto. by apply Hi.
      + intros a Ha. destruct (decide (a = n)) as [->|Hne].
        * rewrite !upd_eq, fupd_eq. done.
        * rewrite !upd_ne by done. specialize (Hp a Ha).
          rewrite fupd_ne by auto. done.
  Qed.

Lemma fold_enqueue_sim cur ex cl m l : ∀ acc aacc,
    frel ex cl (ps cur) m acc aacc →
    ps cur ∈ cl → m + 1 <= Z.of_nat (length cl) →
    in_grid g cur →
    Forall (λ n, in_grid g n ∧ Search.adjacent (ps cur) (ps n)
                 ∧ Search.inb rows cols (ps n) = true) l →
    frel ex cl (ps cur) m (fold_left (Bfs.enqueue cur) l acc)
         (fold_left (Search.relax wallf cl (ps cur)) (ps <$> l) aacc).
  Proof.
    induction l as [|n l IH]; intros acc aacc HR Hccl Hlen Hcur Hl; [done|].
    apply Forall_cons in Hl as [(Hn & Hadj & Hinb) Hl].
    rewrite fmap_cons. cbn [fold_left]. apply IH; try done.
    by apply enqueue_sim.
  Qed.

Lemma step_sim_b pfuel st ast :
    rel st ast →
    ssim rel (result_rel h0 g) (Bfs.step pfuel g e st)
         (Search.step rows cols wallf hz goal pfuel ast).
  Proof.
    intros HR. pose proof HR as [Hfr Hq Hv Hi Hp HI HF].
    pose proof (step_inv rows cols wallf hz goal (ps s) start_passable hz_cons
                  (hz_goal goal) pfuel ast) as Hsi.
    pose proof (step_fifo rows cols wallf goal (ps s) start_passable pfuel ast)
      as Hsf.
    unfold Bfs.step. unfold Search.step in *.
    rewrite (sorted_frontier _ _ _ _ HF) in *.
    destruct Hq as [Hqf Hqo]. rewrite <- Hqo in *.
    destruct (Bfs.queue st) as [|cur rest] eqn:Hq0; simpl.
    { split_and!; [done|done|]. by apply nodes_rel_nil. }
    apply Forall_cons in Hqf as [Hcur Hrest].
    assert (Hsort : stable_sort (Search.by_key hz (Search.g ast))
                      (Search.open ast) = ps cur :: (ps <$> rest)).
    { rewrite (sorted_frontier _ _ _ _ HF). by rewrite <- Hqo. }
    destruct (head_facts rows cols wallf hz goal (ps s) start_passable hz_cons
                (hz_goal goal) _ _ _ _ _ _ HI Hsort)
      as (Hcq & Hncl & [Hinb Hw] & m & Hm & Hmr & _).
    rewrite fmap_cons in Hsi, Hsf. cbn [fmap list_fmap] in *.
    rewrite bool_decide_eq_false_2 in * by done. rewrite Hw in *.
    cbn [orb] in *.
    rewrite (same_cell_goal h0 g e Hwf _ cur Hfr).
    destruct (bool_decide (ps cur = goal)) eqn:Hgoal.
    - clear Hsi Hsf. unfold Bfs.reconstructPath, Search.reconstruct.
      pose proof (reconstruct_sim _ _ Hwf _ _ Hp pfuel
                    (Some cur) [] [] ltac:(by intros ? [= <-])
                    (nodes_rel_nil _ _ Hwf)) as Hrec.
      pose proof (reconstruct_chain rows cols wallf hz goal (ps s)
                    start_passable hz_cons (hz_goal goal) _ _ _ _
                    (Z.to_nat m) (ps cur) m [] pfuel HI Hm eq_refl) as Hch.
      simpl in Hrec.
      destruct (reconstruct_loop _ _ _ _) as [p| |],
        (Search.reconstruct_loop _ _ _ _) as [pp| |]; simpl in *; try done.
      destruct (decide (Z.to_nat m < pfuel)%nat); [|done].
      destruct Hch as (ch & [= ->] & Hhd & _). rewrite app_nil_r in *.
      destruct ch as [|first ch]; [done|]. simpl in Hhd. injection Hhd as ->.
      destruct (inv_start HI) as [H0 _]. rewrite decide_True by done. simpl.
      split_and!; simpl; [done| |done]. by apply nodes_rel_snoc.
    - apply bool_decide_eq_false in Hgoal.
      unfold Bfs.getUnvisitedNeighbors.
      destruct (neighbours_rel _ _ Hwf _ cur Hfr Hcur) as [-> [Hnf Hnp]].
      pose proof (pop_inv rows cols wallf hz goal (ps s) start_passable hz_cons
                    (hz_goal goal) _ _ _ _ _ _ HI Hsort Hgoal)
        as (HI1 & _).
      assert (HF1 : InvR m (Search.closed ast ++ [ps cur]) (ps <$> rest)
                      (Search.g ast) (Search.log ast)).
      { apply pop_fifo; [|done]. unfold state_invF in HF.
        by rewrite <- Hqo in HF. }
      pose proof (fold_enqueue_sim cur (Search.closed ast)
                    (Search.closed ast ++ [ps cur]) m
                    (cells g (around (ps cur)))
                    (Bfs.heap st, rest)
                    (Search.g ast, Search.prev ast, ps <$> rest, Search.log ast))
        as Hfold.
      rewrite Hnp in Hfold.
      destruct (fold_left (Bfs.enqueue cur) _ _) as [h' q'].
      destruct (fold_left (Search.relax _ _ _) _ _) as [[[gs' pv'] qa'] lga'].
      destruct Hfold as [Hfr' Hq' Hi' Hp' _ _ _].
      { by split. }
      { apply elem_of_app. right. by left. }
      { rewrite length_app. simpl. lia. }
      { done. }
      { apply Forall_forall. intros n Hn.
        assert (Hng : in_grid g n).
        { pose proof (cells_in_grid g (around (ps cur))) as Hc.
          rewrite Forall_forall in Hc. by apply Hc. }
        split; [done|].
        assert (Hpn : ps n ∈ Search.nbrs rows cols (ps cur)).
        { rewrite <- Hnp. apply list_elem_of_fmap. by exists n. }
        unfold Search.nbrs in Hpn. apply list_elem_of_filter in Hpn as [? ?].
        done. }
      simpl in *.
      destruct (Hsi _ HI eq_refl) as [HI' _]. specialize (Hsf _ HI HF eq_refl).
      split; simpl; try done. by apply nodes_rel_snoc.
  Qed.

Lemma init_sim_b :
    ∃ st, Bfs.init h0 g s = Ok st ∧ rel st (Search.init (ps s)).
  Proof.
    unfold Bfs.init.
    destruct (init_nodes_spec Bfs.reset h0 g Hwf)
      as (h' & -> & Hfr & Hin & Hout); [done|done|].
    eexists. split; [done|]. split; simpl.
    - by apply frame_upd.
    - split; [by constructor|done].
    - by apply nodes_rel_nil.
    - intros a Ha. destruct (decide (a = s)) as [->|Hne].
      + by rewrite upd_eq, fupd_eq.
      + rewrite upd_ne by done. rewrite (Hin a Ha), fupd_ne; [done|].
        intros Heq. by apply Hne, (pos_inj _ _ _ _ Hwf Ha Hs).
    - intros a Ha. destruct (decide (a = s)) as [->|Hne].
      + rewrite upd_eq. simpl. by rewrite (Hin s Hs).
      + rewrite upd_ne by done. by rewrite (Hin a Ha).
    - apply init_inv; [apply start_passable|apply hz_cons|done].
    - apply init_fifo.
  Qed.

  (** bfs.ts and the reference search with heuristic [0] return the same
      visited sequence and the same path, position by position, and run
      out of fuel together. *)
Lemma bfs_sim fuel :
    osim (result_rel h0 g) (Bfs.bfs fuel h0 g s e)
         (Search.run rows cols wallf hz goal fuel (ps s)).
  Proof.
    unfold Bfs.bfs, Search.run.
    destruct init_sim_b as (st & -> & HR). simpl.
    apply (while_loop_sim rel (result_rel h0 g)); [|done].
    intros a b. apply step_sim_b.
  Qed.
End sim_bfs.

(** ** What the reference search returns *)

Section search_results.
Variables (rows cols : Z) (wallf : P → bool) (hfun : P → Z) (goal s : P).
Hypothesis Hs : Search.passable rows cols wallf s.
Hypothesis h_cons : ∀ p q, Search.adjacent p q → hfun p <= hfun q + 1.
Hypothesis h_goal : hfun goal = 0.
Local Set Default Proof Using "Hs h_cons h_goal".

Local Abbreviation passable := (Search.passable rows cols wallf).
Local Abbreviation reach := (Search.reach rows cols wallf s).
Local Abbreviation sinv := (state_inv rows cols wallf hfun goal s).
Local Abbreviation found := (found rows cols wallf hfun goal s).
Local Abbreviation run := (Search.run rows cols wallf hfun goal).

Lemma run_spec fuel :
    (n_cells rows cols < fuel)%nat →
    ∃ vs p st, run fuel s = Ok (vs, p) ∧ sinv st
               ∧ (found st vs p ∨ exhausted st vs p).
  Proof.
    intros Hfuel. unfold Search.run.
    pose proof (init_inv rows cols wallf hfun goal s Hs h_cons h_goal) as HI0.
    destruct (run_total rows cols wallf hfun goal s Hs h_cons h_goal fuel
                ltac:(lia) fuel _ HI0) as [[vs p] Hrun].
    { simpl. lia. }
    destruct (run_final rows cols wallf hfun goal s Hs h_cons h_goal _ _ _ _
                HI0 Hrun) as (st & HI & Hret).
    exists vs, p, st. split_and!; [done|done|].
    by eapply step_return.
  Qed.

Lemma found_facts st vs p :
    sinv st → found st vs p →
    NoDup vs ∧ (∀ x, x ∈ vs → passable x)
    ∧ last vs = Some goal
    ∧ head p = Some s ∧ last p = Some goal ∧ is_walk rows cols wallf p
    ∧ (∀ n, reach n goal → (length p <= S n)%nat)
    ∧ reach (length p - 1) goal
    ∧ (∀ x, x ∈ vs → x = goal ∨
         ∃ m, reach m x ∧ Z.of_nat m + hfun x <= Z.of_nat (length p - 1))
    ∧ (∀ t n, reach n t → Z.of_nat n + hfun t < Z.of_nat (length p - 1) →
         t ∈ vs).
  Proof.
    intros HI (rest & m & Hsort & -> & Hm & Hhd & Hlast & Hwalk & Hlen).
    destruct (head_facts rows cols wallf hfun goal s Hs h_cons h_goal
                _ _ _ _ _ _ HI Hsort)
      as (Hcq & Hncl & Hpass & m' & Hm' & Hmr & Hopt & Hbound & Hcompl).
    assert (m' = m) as -> by congruence.
    pose proof (g_reach rows cols wallf hfun goal s Hs h_cons h_goal
                  _ _ _ _ _ _ HI Hm) as Hreach.
    assert (Hlen1 : (length p - 1)%nat = Z.to_nat m) by lia.
    split_and!; try done.
    - apply NoDup_app. split_and!.
      + pose proof (inv_nodup HI) as Hnd. by apply NoDup_app in Hnd as (? & _).
      + by intros x Hx ->%list_elem_of_singleton.
      + apply NoDup_singleton.
    - intros x [Hx| ->%list_elem_of_singleton]%elem_of_app; [|done].
      apply (inv_pass HI), elem_of_app. by left.
    - apply last_snoc.
    - intros n Hn. specialize (Hopt n Hn). lia.
    - by rewrite Hlen1.
    - intros x [Hx| ->%list_elem_of_singleton]%elem_of_app; [|by left].
      right. destruct (inv_bound HI x _ Hx Hreach) as (mx & Hmx & Hle).
      pose proof (inv_range HI _ _ Hmx).
      exists (Z.to_nat mx). split; [|lia].
      by eapply g_reach.
    - intros t n Hr Hlt. apply elem_of_app. left.
      apply (Hcompl t n Hr). rewrite h_goal. lia.
  Qed.

Lemma exhausted_facts st vs p :
    sinv st → exhausted st vs p →
    NoDup vs ∧ (∀ x, x ∈ vs → passable x) ∧ p = []
    ∧ (∀ n, ¬ reach n goal)
    ∧ (∀ x, x ∈ vs → ∃ m, reach m x)
    ∧ (∀ t n, reach n t → t ∈ vs).
  Proof.
    intros HI (Hopen & -> & ->). unfold state_inv in HI.
    rewrite Hopen in HI.
    assert (Hall : ∀ t n, reach n t → t ∈ Search.closed st).
    { intros t n Hr. destruct (decide (t ∈ Search.closed st)) as [|Hnt]; [done|].
      destruct (inv_front rows cols wallf hfun goal s Hs h_cons h_goal
                  _ _ _ _ _ _ HI Hr Hnt) as (y & _ & Hy & _).
      by apply elem_of_nil in Hy. }
    split_and!; try done.
    - pose proof (inv_nodup HI) as Hnd. by rewrite app_nil_r in Hnd.
    - intros x Hx. apply (inv_pass HI). by rewrite app_nil_r.
    - intros n Hr. apply (inv_goal HI). by eapply Hall.
    - intros x Hx. assert (Hin : x ∈ Search.closed st ++ []) by (by rewrite app_nil_r).
      apply (inv_disc HI) in Hin. destruct (Search.g st x) as [m|] eqn:Hm; [|done].
      exists (Z.to_nat m). by eapply g_reach.
  Qed.

Lemma found_reachable st vs p x :
    sinv st → found st vs p → x ∈ vs → ∃ m, reach m x.
  Proof.
    intros HI Hf Hx.
    destruct (found_facts _ _ _ HI Hf) as (_ & _ & _ & _ & _ & _ & _ & Hg & Hb & _).
    destruct (Hb x Hx) as [->|(m & ? & _)]; eauto.
  Qed.
End search_results.

(** The Manhattan search never closes more positions than the search
    with heuristic [0]. *)
Lemma manhattan_le_zero (rows cols : Z) (wallf : P → bool) (goal s : P)
  (fuel : nat) (vsA pA vsD pD : list P) :
  Search.passable rows cols wallf s →
  (n_cells rows cols < fuel)%nat →
  Search.run rows cols wallf (λ p, manhattan p goal) goal fuel s = Ok (vsA, pA) →
  Search.run rows cols wallf (λ _, 0) goal fuel s = Ok (vsD, pD) →
  (length vsA <= length vsD)%nat.
Proof.
  intros Hs Hfuel HA HD.
  destruct (run_spec rows cols wallf (λ p, manhattan p goal) goal s Hs
              (manhattan_consistent goal) (manhattan_goal goal) fuel Hfuel)
    as (vsA' & pA' & stA & HA' & HIA & HcA).
  destruct (run_spec rows cols wallf (λ _, 0) goal s Hs
              hz_cons (hz_goal goal) fuel Hfuel)
    as (vsD' & pD' & stD & HD' & HID & HcD).
  rewrite HA in HA'. rewrite HD in HD'.
  injection HA' as <- <-. injection HD' as <- <-.
  assert (Hsub : ∀ x, x ∈ vsA → x ∈ vsD).
  { destruct HcA as [HfA|HeA], HcD as [HfD|HeD].
    - destruct (found_facts _ _ _ _ _ _ Hs (manhattan_consistent goal)
                  (manhattan_goal goal) _ _ _ HIA HfA)
        as (_ & _ & _ & _ & _ & _ & HoptA & HrA & HbA & _).
      destruct (found_facts _ _ _ _ _ _ Hs hz_cons (hz_goal goal) _ _ _ HID HfD)
        as (_ & _ & HlastD & _ & _ & _ & HoptD & HrD & _ & HcD).
      pose proof (HoptA _ HrD). pose proof (HoptD _ HrA).
      intros x Hx. destruct (decide (x = goal)) as [->|Hne].
      { apply last_Some in HlastD as [l ->]. apply elem_of_app. right. by left. }
      destruct (HbA x Hx) as [->|(m & Hm & Hle)]; [done|].
      apply (HcD x m Hm).
      assert (manhattan x goal ≠ 0) by (intros ?%manhattan_zero; done).
      assert (0 <= manhattan x goal) by (unfold manhattan; lia).
      lia.
    - destruct (found_facts _ _ _ _ _ _ Hs (manhattan_consistent goal)
                  (manhattan_goal goal) _ _ _ HIA HfA)
        as (_ & _ & _ & _ & _ & _ & _ & HrA & _).
      destruct (exhausted_facts _ _ _ _ _ _ Hs hz_cons (hz_goal goal)
                  _ _ _ HID HeD) as (_ & _ & _ & Hno & _).
      by destruct (Hno _ HrA).
    - destruct (found_facts _ _ _ _ _ _ Hs hz_cons (hz_goal goal) _ _ _ HID HfD)
        as (_ & _ & _ & _ & _ & _ & _ & HrD & _).
      destruct (exhausted_facts _ _ _ _ _ _ Hs (manhattan_consistent goal)
                  (manhattan_goal goal) _ _ _ HIA HeA) as (_ & _ & _ & Hno & _).
      by destruct (Hno _ HrD).
    - destruct (exhausted_facts _ _ _ _ _ _ Hs (manhattan_consistent goal)
                  (manhattan_goal goal) _ _ _ HIA HeA)
        as (_ & _ & _ & _ & HrA & _).
      destruct (exhausted_facts _ _ _ _ _ _ Hs hz_cons (hz_goal goal)
                  _ _ _ HID HeD) as (_ & _ & _ & _ & _ & HcD).
      intros x Hx. destruct (HrA x Hx) as [m Hm]. by eapply HcD. }
  apply submseteq_length, NoDup_submseteq; [|done].
  destruct HcA as [HfA|HeA].
  - by destruct (found_facts _ _ _ _ _ _ Hs (manhattan_consistent goal)
                   (manhattan_goal goal) _ _ _ HIA HfA) as (? & _).
  - by destruct (exhausted_facts _ _ _ _ _ _ Hs (manhattan_consistent goal)
                   (manhattan_goal goal) _ _ _ HIA HeA) as (? & _).
Qed.

(** ** The three functions on a well-formed grid *)

Lemma in_gridb_in_grid (h : Heap) (g : Grid) (a : addr) :
  in_gridb h g a = true → in_grid g a.
Proof. intros ?%bool_decide_eq_true. by eexists _, _. Qed.

Lemma in_grid_in_gridb (h : Heap) (g : Grid) (a : addr) :
  wf_grid h g → in_grid g a → in_gridb h g a = true.
Proof. intros Hwf Ha. apply bool_decide_eq_true. by apply in_grid_cell. Qed.

Lemma osim_Ok_r {A B} (R : A → B → Prop) (x : outcome A) (b : B) :
  osim R x (Ok b) → ∃ a, x = Ok a ∧ R a b.
Proof. destruct x; simpl; [eauto|done|done]. Qed.


Lemma result_ends (h : Heap) (g : Grid) (s e : addr) (h' : Heap) (r : Result)
  (vs p : list P) :
  wf_grid h g → in_grid g s → in_grid g e →
  result_rel h g (h', r) (vs, p) →
  head p = Some (pos h s) → last p = Some (pos h e) →
  head (path r) = Some s ∧ last (path r) = Some e.
Proof.
  intros Hwf Hs He (_ & _ & [Hpf Hp]) Hhd Hlast. simpl in *. subst p.
  rewrite Forall_forall in Hpf. split.
  - destruct (path r) as [|a l]; [done|].
    assert (Ha : pos h a = pos h s) by (simpl in Hhd; congruence).
    simpl. f_equal.
    apply (pos_inj _ _ _ _ Hwf); [apply Hpf; by left|done|done].
  - rewrite fmap_last in Hlast.
    destruct (last (path r)) as [a|] eqn:Hl; [|done].
    assert (Ha : pos h a = pos h e) by (simpl in Hlast; congruence).
    f_equal. apply (pos_inj _ _ _ _ Hwf); [|done|done].
    apply Hpf. apply last_Some in Hl as [l' ->]. apply elem_of_app.
    right. by left.
Qed.

Lemma result_ends_cell (h : Heap) (g : Grid) (s e : addr) (h' : Heap)
  (r : Result) (vs p : list P) :
  wf_grid h g → in_grid g s →
  result_rel h g (h', r) (vs, p) →
  head p = Some (pos h s) → last p = Some (pos h e) →
  head (path r) = Some s
  ∧ ∃ l, last (path r) = Some l ∧ same_cell h l e = true
         ∧ (in_gridb h g e = true → l = e).
Proof.
  intros Hwf Hs (_ & _ & [Hpf Hp]) Hhd Hlast. simpl in *. subst p.
  rewrite Forall_forall in Hpf. split.
  - destruct (path r) as [|a l]; [done|].
    assert (Ha : pos h a = pos h s) by (simpl in Hhd; congruence).
    simpl. f_equal.
    apply (pos_inj _ _ _ _ Hwf); [apply Hpf; by left|done|done].
  - rewrite fmap_last in Hlast.
    destruct (last (path r)) as [a|] eqn:Hl; [|done].
    assert (Ha : pos h a = pos h e) by (simpl in Hlast; congruence).
    exists a. split_and!; [done| |].
    + unfold pos in Ha. unfold same_cell.
      assert (row (h a) = row (h e)) as -> by congruence.
      assert (col (h a) = col (h e)) as -> by congruence.
      by rewrite !Z.eqb_refl.
    + intros He%in_gridb_in_grid. apply (pos_inj _ _ _ _ Hwf); [|done|done].
      apply Hpf. apply last_Some in Hl as [l' ->]. apply elem_of_app.
      right. by left.
Qed.

Lemma nodes_rel_nil_inv (h : Heap) (g : Grid) (l : list addr) :
  nodes_rel h g l [] → l = [].
Proof. intros [_ Hl]. by apply fmap_nil_inv in Hl. Qed.

Lemma nodes_rel_length (h : Heap) (g : Grid) (l : list addr) (lp : list P) :
  nodes_rel h g l lp → length l = length lp.
Proof. intros [_ <-]. by rewrite length_fmap. Qed.

Section well_formed_runs.
Variables (h : Heap) (g : Grid) (s e : addr) (fuel : nat).
Hypothesis Hwf : wf_grid h g.
Hypothesis Hs : in_grid g s.
Hypothesis Hsw : is_wall h s = false.
Hypothesis Hfuel : (grid_size g < fuel)%nat.
Local Set Default Proof Using "Hwf Hs Hsw Hfuel".

Local Abbreviation ps := (pos h).
Local Abbreviation rows := (grid_length g).
Local Abbreviation cols := (grid_cols g).
Local Abbreviation wallf := (wall_at h g).
Local Abbreviation goal := (pos h e).
Local Abbreviation hz := (λ _ : P, 0).
Local Abbreviation hman := (λ p : P, manhattan p (pos h e)).

Lemma dijkstra_run :
    ∃ h' r vs p st,
      Dijkstra.dijkstra fuel h g s e = Ok (h', r)
      ∧ result_rel h g (h', r) (vs, p)
      ∧ Search.run rows cols wallf hz goal fuel (ps s) = Ok (vs, p)
      ∧ state_inv rows cols wallf hz goal (ps s) st
      ∧ (found rows cols wallf hz goal (ps s) st vs p ∨ exhausted st vs p).
  Proof.
    pose proof (in_grid_passable _ _ _ Hwf Hs Hsw) as Hp.
    destruct (run_spec rows cols wallf hz goal (ps s) Hp hz_cons (hz_goal goal)
                fuel Hfuel) as (vs & p & st & Hrun & HI & Hc).
    pose proof (dijkstra_sim h g e Hwf fuel s Hs) as Hsim.
    rewrite Hrun in Hsim. apply osim_Ok_r in Hsim as ([h' r] & Hd & HR).
    by exists h', r, vs, p, st.
  Qed.

Lemma astar_run :
    ∃ h' r vs p st,
      Astar.astar fuel h g s e = Ok (h', r)
      ∧ result_rel h g (h', r) (vs, p)
      ∧ Search.run rows cols wallf hman goal fuel (ps s) = Ok (vs, p)
      ∧ state_inv rows cols wallf hman goal (ps s) st
      ∧ (found rows cols wallf hman goal (ps s) st vs p ∨ exhausted st vs p).
  Proof.
    pose proof (in_grid_passable _ _ _ Hwf Hs Hsw) as Hp.
    destruct (run_spec rows cols wallf hman goal (ps s) Hp
                (manhattan_consistent goal) (manhattan_goal goal)
                fuel Hfuel) as (vs & p & st & Hrun & HI & Hc).
    pose proof (astar_sim h g e Hwf fuel s Hs) as Hsim.
    rewrite Hrun in Hsim. apply osim_Ok_r in Hsim as ([h' r] & Hd & HR).
    by exists h', r, vs, p, st.
  Qed.

Lemma bfs_run :
    ∃ h' r vs p st,
      Bfs.bfs fuel h g s e = Ok (h', r)
      ∧ result_rel h g (h', r) (vs, p)
      ∧ Search.run rows cols wallf hz goal fuel (ps s) = Ok (vs, p)
      ∧ state_inv rows cols wallf hz goal (ps s) st
      ∧ (found rows cols wallf hz goal (ps s) st vs p ∨ exhausted st vs p).
  Proof.
    pose proof (in_grid_passable _ _ _ Hwf Hs Hsw) as Hp.
    destruct (run_spec rows cols wallf hz goal (ps s) Hp hz_cons (hz_goal goal)
                fuel Hfuel) as (vs & p & st & Hrun & HI & Hc).
    pose proof (bfs_sim h g e s Hwf Hs Hsw fuel) as Hsim.
    rewrite Hrun in Hsim. apply osim_Ok_r in Hsim as ([h' r] & Hd & HR).
    by exists h', r, vs, p, st.
  Qed.

End well_formed_runs.

(** ** Invariants of the three loops on any store and any grid *)

Lemma while_loop_inv {St R} (I : St → Prop) (Q : R → Prop)
  (body : St → step_result St R) :
  (∀ s s', I s → body s = Continue s' → I s') →
  (∀ s r, I s → body s = Return r → Q r) →
  ∀ fuel s r, I s → while_loop body fuel s = Ok r → Q r.
Proof.
  intros Hc Hr fuel. induction fuel as [|fuel IH]; intros s r HI; [done|].
  simpl. destruct (body s) as [s'|r'| |] eqn:Hb; try done.
  - apply IH. by eapply Hc.
  - intros [= <-]. by eapply Hr.
Qed.

Lemma fold_left_pres {A B} (I : A → Prop) (f : A → B → A) (l : list B) :
  (∀ a b, I a → I (f a b)) → ∀ a, I a → I (fold_left f l a).
Proof. intros Hf. induction l as [|b l IH]; intros a Ha; simpl; auto. Qed.

Lemma foldM_pres {A B} (I : A → Prop) (f : A → B → outcome A) (l : list B) :
  (∀ a b a', I a → f a b = Ok a' → I a') →
  ∀ a a', I a → foldM f a l = Ok a' → I a'.
Proof.
  intros Hf. induction l as [|b l IH]; intros a a' Ha; simpl.
  - by intros [= <-].
  - destruct (f a b) as [a1| |] eqn:Hfb; simpl; [|done|done].
    apply IH. by eapply Hf.
Qed.

Lemma init_nodes_frame (f : Heap → Node → Node) (g : Grid) (h0 h h' : Heap) :
  (∀ h1, scratch_only (f h1)) →
  frame h0 h → init_nodes f g h = Ok h' → frame h0 h'.
Proof.
  intros Hf Hfr. unfold init_nodes. destruct g as [|r0 g']; [by intros [= <-]|].
  apply (foldM_pres (frame h0)); [|done].
  intros h1 rowl h2 H1. unfold init_row.
  apply (foldM_pres (frame h0)); [|done].
  intros h3 c h4 H3. destruct (rowl !! c) as [a|]; simpl; [|done].
  intros [= <-]. by apply frame_upd.
Qed.

Lemma init_nodes_other (f : Heap → Node → Node) (g : Grid) (h h' : Heap)
  (a : addr) :
  ¬ in_grid g a → init_nodes f g h = Ok h' → h' a = h a.
Proof.
  intros Ha. unfold init_nodes. destruct g as [|r0 g'] eqn:Hg; [by intros [= <-]|].
  rewrite <- Hg in *. clear Hg.
  assert (∀ l, (∀ x, x ∈ l → x ∈ g) → ∀ h1 h2, h1 a = h a →
    foldM (λ h rowl, init_row f rowl (length r0) h) h1 l = Ok h2 → h2 a = h a)
    as Hgen; [|by apply (Hgen g)].
  intros l Hl h1 h2 H1.
  revert h1 h2 H1. induction l as [|rowl l IH]; intros h1 h2 H1; simpl.
  { by intros [= <-]. }
  destruct (init_row f rowl (length r0) h1) as [h3| |] eqn:Hrow; simpl;
    [|done|done].
  apply IH; [intros x Hx; apply Hl; by right|].
  revert Hrow. unfold init_row.
  apply (foldM_pres (λ hx, hx a = h a)); [|done].
  intros h4 c h5 H4. destruct (rowl !! c) as [b|] eqn:Hc; simpl; [|done].
  intros [= <-]. rewrite upd_ne; [done|]. intros ->. apply Ha.
  apply elem_of_concat_grid, list_elem_of_join. exists rowl. split.
  - by eapply list_elem_of_lookup_2.
  - apply Hl. by left.
Qed.

(** *** Position and display tag are left alone *)


Lemma relax_frame_d (h0 : Heap) (node : addr)
  (acc : Heap * list addr * list addr) (n : addr) :
  frame h0 acc.1.1 → frame h0 (Dijkstra.relax node acc n).1.1.
Proof.
  destruct acc as [[h q] lg]. simpl. intros Hf. unfold Dijkstra.relax.
  destruct (is_wall h n); [done|].
  destruct (num_lt _ _); [|done].
  assert (frame h0 (upd (upd h n (set_distance (num_add (distance (h node)) (Fin 1))))
                        n (set_previousNode (Some node)))).
  { apply frame_upd; [done|]. by apply frame_upd. }
  by destruct (includes q n).
Qed.

Lemma dijkstra_frame (fuel : nat) (h : Heap) (g : Grid) (s e : addr)
  (h' : Heap) (r : Result) :
  Dijkstra.dijkstra fuel h g s e = Ok (h', r) → frame h h'.
Proof.
  unfold Dijkstra.dijkstra, Dijkstra.init.
  destruct (init_nodes Dijkstra.reset g h) as [h1| |] eqn:Hinit; simpl;
    [|done|done].
  apply (while_loop_inv (λ st, frame h (Dijkstra.heap st)) (λ hr, frame h hr.1)).
  - intros st st' HI. unfold Dijkstra.step.
    destruct (stable_sort _ _) as [|cur q]; [done|].
    destruct (_ || _); [by intros [= <-]|].
    destruct (same_cell _ _ _).
    { by destruct (Dijkstra.reconstructPath _ _ _). }
    unfold Dijkstra.updateUnvisitedNeighbors.
    destruct (Dijkstra.getValidNeighbors _ _ _) as [ns| |]; simpl; [|done|done].
    destruct (fold_left _ _ _) as [[h2 q2] l2] eqn:Hfold. intros [= <-]. simpl.
    change h2 with (h2, q2, l2).1.1. rewrite <- Hfold.
    apply (fold_left_pres (λ acc, frame h acc.1.1)).
    + intros acc n. apply relax_frame_d.
    + simpl. by apply frame_upd.
  - intros st hr HI. unfold Dijkstra.step.
    destruct (stable_sort _ _) as [|cur q]; [by intros [= <-]|].
    destruct (_ || _); [done|].
    destruct (same_cell _ _ _).
    { destruct (Dijkstra.reconstructPath _ _ _); [|done|done]. intros [= <-].
      simpl. by apply frame_upd. }
    destruct (Dijkstra.updateUnvisitedNeighbors _ _ _) as [[[? ?] ?]| |]; done.
  - simpl. apply frame_upd; [done|].
    by apply (init_nodes_frame Dijkstra.reset g h h h1); [|apply frame_refl|].
Qed.



(** *** No node is recorded twice *)

Lemma NoDup_snoc {A} (l : list A) (x : A) : NoDup l → x ∉ l → NoDup (l ++ [x]).
Proof.
  intros Hl Hx. apply NoDup_app. split_and!; [done| |apply NoDup_singleton].
  by intros y Hy ->%list_elem_of_singleton.
Qed.


Lemma relax_isVisited_d (node : addr) (acc : Heap * list addr * list addr)
  (n a : addr) :
  isVisited ((Dijkstra.relax node acc n).1.1 a) = isVisited (acc.1.1 a).
Proof.
  destruct acc as [[h q] lg]. simpl. unfold Dijkstra.relax.
  destruct (is_wall h n); [done|]. destruct (num_lt _ _); [|done].
  assert (E : isVisited (upd (upd h n (set_distance
              (num_add (distance (h node)) (Fin 1)))) n
              (set_previousNode (Some node)) a) = isVisited (h a)).
  { unfold upd. by destruct (decide (a = n)) as [->|]. }
  by destruct (includes q n).
Qed.



(** ** Paths of nodes and walks of positions *)

Lemma moveb_adjacent (h : Heap) (a b : addr) :
  moveb h a b = true ↔ Search.adjacent (pos h a) (pos h b).
Proof.
  unfold moveb, Search.adjacent, around, pos. simpl.
  rewrite Z.eqb_eq, !elem_of_cons, elem_of_nil. split.
  - intros H.
    assert ((row (h b) = row (h a) - 1 ∧ col (h b) = col (h a))
            ∨ (row (h b) = row (h a) + 1 ∧ col (h b) = col (h a))
            ∨ (row (h b) = row (h a) ∧ col (h b) = col (h a) - 1)
            ∨ (row (h b) = row (h a) ∧ col (h b) = col (h a) + 1))
      as [[-> ->]|[[-> ->]|[[-> ->]|[-> ->]]]] by lia; auto.
  - intros [H|[H|[H|[H|[]]]]]; injection H as -> ->; lia.
Qed.

Lemma passable_not_wall (h : Heap) (g : Grid) (a : addr) :
  wf_grid h g → in_grid g a →
  Search.passable (grid_length g) (grid_cols g) (wall_at h g) (pos h a) →
  is_wall h a = false.
Proof. intros Hwf Ha [_ Hw]. by rewrite (wall_at_pos _ _ _ Hwf Ha) in Hw. Qed.

Lemma movesb_walk (h : Heap) (g : Grid) (l : list addr) :
  wf_grid h g →
  Forall (λ a, in_grid g a ∧ is_wall h a = false) l → movesb h l = true →
  is_walk (grid_length g) (grid_cols g) (wall_at h g) (pos h <$> l).
Proof.
  intros Hwf. induction l as [|a l IH]; [done|].
  intros Hall Hm. apply Forall_cons in Hall as [_ Hall].
  destruct l as [|b l]; [done|].
  change (movesb h (a :: b :: l)) with (moveb h a b && movesb h (b :: l)) in Hm.
  apply andb_true_iff in Hm as [Hab Hm].
  change (Search.adjacent (pos h a) (pos h b)
          ∧ Search.passable (grid_length g) (grid_cols g) (wall_at h g) (pos h b)
          ∧ is_walk (grid_length g) (grid_cols g) (wall_at h g)
                    (pos h <$> b :: l)).
  split_and!.
  - by apply moveb_adjacent.
  - pose proof (Forall_inv Hall) as [Hb Hw]. by apply in_grid_passable.
  - by apply IH.
Qed.

Lemma walk_movesb (h : Heap) (g : Grid) (l : list addr) :
  wf_grid h g → Forall (in_grid g) l →
  is_walk (grid_length g) (grid_cols g) (wall_at h g) (pos h <$> l) →
  movesb h l = true
  ∧ Forall (λ a, is_wall h a = false) (tail l).
Proof.
  intros Hwf. induction l as [|a l IH]; [done|].
  intros Hall Hw. apply Forall_cons in Hall as [_ Hall].
  destruct l as [|b l]; [done|].
  change (Search.adjacent (pos h a) (pos h b)
          ∧ Search.passable (grid_length g) (grid_cols g) (wall_at h g) (pos h b)
          ∧ is_walk (grid_length g) (grid_cols g) (wall_at h g)
                    (pos h <$> b :: l)) in Hw.
  destruct Hw as (Hadj & Hp & Hw). destruct (IH Hall Hw) as [Hm Ht].
  split.
  - change (movesb h (a :: b :: l)) with (moveb h a b && movesb h (b :: l)).
    apply andb_true_iff. split; [by apply moveb_adjacent|done].
  - simpl. constructor; [|done].
    apply (passable_not_wall h g); [done| |done]. by apply (Forall_inv Hall).
Qed.

Lemma valid_pathb_spec (h : Heap) (g : Grid) (s e : addr) (p : list addr) :
  wf_grid h g →
  valid_pathb h g s e p = true ↔
    head p = Some s ∧ last p = Some e
    ∧ Forall (λ a, in_grid g a ∧ is_wall h a = false) p
    ∧ movesb h p = true.
Proof.
  intros Hwf. unfold valid_pathb. rewrite !andb_true_iff, !bool_decide_eq_true.
  rewrite forallb_forall, Forall_forall.
  split.
  - intros [[[Hh Hl] Hall] Hm]. split_and!; try done.
    intros a Ha%list_elem_of_In. specialize (Hall a Ha).
    apply andb_true_iff in Hall as [Hg Hw%negb_true_iff].
    split; [by apply (in_gridb_in_grid h)|done].
  - intros (Hh & Hl & Hall & Hm). split_and!; try done.
    intros a Ha%list_elem_of_In. destruct (Hall a Ha) as [Hg Hw].
    apply andb_true_iff. split; [by apply in_grid_in_gridb|by rewrite Hw].
Qed.

Lemma valid_path_reach (h : Heap) (g : Grid) (s e : addr) (q : list addr) :
  wf_grid h g → valid_pathb h g s e q = true →
  in_grid g s ∧ is_wall h s = false ∧ in_grid g e
  ∧ ∃ n, length q = S n
         ∧ Search.reach (grid_length g) (grid_cols g) (wall_at h g) (pos h s)
                        n (pos h e).
Proof.
  intros Hwf (Hh & Hl & Hall & Hm)%valid_pathb_spec; [|done].
  destruct q as [|a q]; [done|]. simpl in Hh. injection Hh as ->.
  pose proof (Forall_inv Hall) as [Hs Hsw].
  assert (He : in_grid g e).
  { rewrite Forall_forall in Hall. apply (Hall e).
    apply last_Some in Hl as [l' ->]. apply elem_of_app. right. by left. }
  split_and!; try done. exists (length q). split; [done|].
  pose proof (movesb_walk h g _ Hwf Hall Hm) as Hw.
  rewrite fmap_cons in Hw.
  rewrite <- (length_fmap (pos h) q).
  apply (walk_reach _ _ _ (λ _, 0) (pos h e) (pos h s));
    [by apply in_grid_passable|apply hz_cons|apply (hz_goal (pos h e))|done|].
  change (pos h s :: (pos h <$> q)) with (pos h <$> s :: q).
  by rewrite fmap_last, Hl.
Qed.


(** ** The reference search reads the layout inside the grid only *)

Section layout.
Variables (rows cols : Z) (w1 w2 : P → bool) (hfun : P → Z) (goal : P).
Hypothesis Hagree : ∀ p, Search.inb rows cols p = true → w1 p = w2 p.

Lemma relax_agree cl cur acc n :
  Search.inb rows cols n = true →
  Search.relax w1 cl cur acc n = Search.relax w2 cl cur acc n.
Proof.
  intros Hn. destruct acc as [[[gs pv] q] lg]. unfold Search.relax.
  by rewrite (Hagree n Hn).
Qed.

Lemma relax_open_inb cl cur acc n :
  Search.inb rows cols n = true →
  Forall (λ p, Search.inb rows cols p = true) acc.1.2 →
  Forall (λ p, Search.inb rows cols p = true) (Search.relax w2 cl cur acc n).1.2.
Proof.
  intros Hn. destruct acc as [[[gs pv] q] lg]. simpl. intros Hq.
  unfold Search.relax. destruct (_ || _); [done|].
  destruct (num_lt _ _); [|done].
  destruct (bool_decide _); simpl; [done|].
  apply Forall_app. split; [done|]. by constructor.
Qed.

Lemma fold_relax_agree cl cur ns : ∀ acc,
  Forall (λ p, Search.inb rows cols p = true) ns →
  Forall (λ p, Search.inb rows cols p = true) acc.1.2 →
  fold_left (Search.relax w1 cl cur) ns acc
  = fold_left (Search.relax w2 cl cur) ns acc
  ∧ Forall (λ p, Search.inb rows cols p = true)
           (fold_left (Search.relax w2 cl cur) ns acc).1.2.
Proof.
  induction ns as [|n ns IH]; intros acc Hns Hacc; simpl; [done|].
  apply Forall_cons in Hns as [Hn Hns].
  rewrite (relax_agree _ _ _ _ Hn). apply IH; [done|].
  by apply relax_open_inb.
Qed.

Lemma step_agree pfuel st :
  Forall (λ p, Search.inb rows cols p = true) (Search.open st) →
  Search.step rows cols w1 hfun goal pfuel st
  = Search.step rows cols w2 hfun goal pfuel st
  ∧ ∀ st', Search.step rows cols w2 hfun goal pfuel st = Continue st' →
           Forall (λ p, Search.inb rows cols p = true) (Search.open st').
Proof.
  intros Hopen. unfold Search.step.
  assert (Hsorted : Forall (λ p, Search.inb rows cols p = true)
            (stable_sort (Search.by_key hfun (Search.g st)) (Search.open st))).
  { by rewrite stable_sort_perm. }
  destruct (stable_sort _ _) as [|cur rest]; [done|].
  apply Forall_cons in Hsorted as [Hcur Hrest].
  rewrite (Hagree cur Hcur).
  destruct (_ || _).
  { split; [done|]. intros st' H. simplify_eq/=. exact Hrest. }
  destruct (bool_decide (cur = goal)).
  { split; [done|]. by destruct (Search.reconstruct _ _ _ _). }
  destruct (fold_relax_agree (Search.closed st ++ [cur]) cur
              (Search.nbrs rows cols cur)
              (Search.g st, Search.prev st, rest, Search.log st))
    as [Heq Hq]; [|done|].
  { unfold Search.nbrs. apply Forall_forall. by intros x [? _]%list_elem_of_filter. }
  rewrite Heq. clear Heq. split; [done|].
  destruct (fold_left _ _ _) as [[[gs pv] q] lg]. intros st' H. simplify_eq/=.
  exact Hq.
Qed.

Lemma loop_agree pfuel : ∀ fuel st,
  Forall (λ p, Search.inb rows cols p = true) (Search.open st) →
  while_loop (Search.step rows cols w1 hfun goal pfuel) fuel st
  = while_loop (Search.step rows cols w2 hfun goal pfuel) fuel st.
Proof.
  induction fuel as [|fuel IH]; intros st Hopen; [done|]. simpl.
  destruct (step_agree pfuel st Hopen) as [-> Hnext].
  destruct (Search.step rows cols w2 hfun goal pfuel st) as [st'| | |]; try done.
  apply IH. by apply Hnext.
Qed.

Lemma run_agree fuel s :
  Search.inb rows cols s = true →
  Search.run rows cols w1 hfun goal fuel s
  = Search.run rows cols w2 hfun goal fuel s.
Proof.
  intros Hs. unfold Search.run. apply loop_agree. simpl. by constructor.
Qed.
End layout.

Lemma same_layout_spec (h1 : Heap) (g1 : Grid) (h2 : Heap) (g2 : Grid) :
  same_layoutb h1 g1 h2 g2 = true →
  grid_length g1 = grid_length g2 ∧ grid_cols g1 = grid_cols g2
  ∧ ∀ p, p ∈ all_positions (grid_length g1) (grid_cols g1) →
         wall_at h1 g1 p = wall_at h2 g2 p.
Proof.
  unfold same_layoutb. rewrite !andb_true_iff, !Z.eqb_eq, forallb_forall.
  intros [[Hr Hc] Hall]. split_and!; [done|done|].
  intros p Hp%list_elem_of_In. by apply Hall, bool_decide_eq_true in Hp.
Qed.

Lemma search_agree (h1 : Heap) (g1 : Grid) (s1 e1 : addr)
  (h2 : Heap) (g2 : Grid) (s2 e2 : addr) (hfun : P → P → Z) (fuel : nat) :
  wf_grid h1 g1 → wf_grid h2 g2 → same_layoutb h1 g1 h2 g2 = true →
  in_grid g1 s1 → in_grid g2 s2 →
  pos h1 s1 = pos h2 s2 → pos h1 e1 = pos h2 e2 →
  is_wall h1 s1 = false →
  is_wall h2 s2 = false
  ∧ grid_size g2 = grid_size g1
  ∧ Search.run (grid_length g1) (grid_cols g1) (wall_at h1 g1)
               (hfun (pos h1 e1)) (pos h1 e1) fuel (pos h1 s1)
    = Search.run (grid_length g2) (grid_cols g2) (wall_at h2 g2)
                 (hfun (pos h2 e2)) (pos h2 e2) fuel (pos h2 s2).
Proof.
  intros Hwf1 Hwf2 (Hr & Hc & Hw)%same_layout_spec Hs1 Hs2 Hps Hpe Hsw.
  pose proof (in_grid_passable _ _ _ Hwf1 Hs1 Hsw) as Hp.
  assert (Hagree : ∀ p, Search.inb (grid_length g1) (grid_cols g1) p = true →
                        wall_at h1 g1 p = wall_at h2 g2 p).
  { intros p Hin. apply Hw.
    by apply (inb_all_positions _ _ _ _ _ _ Hp hz_cons (hz_goal (pos h1 e1))). }
  split_and!.
  - rewrite <- (wall_at_pos h2 g2 s2 Hwf2 Hs2), <- Hps, <- Hagree by apply Hp.
    by rewrite (wall_at_pos h1 g1 s1 Hwf1 Hs1).
  - unfold grid_size. by rewrite Hr, Hc.
  - rewrite <- Hr, <- Hc, <- Hps, <- Hpe. apply run_agree; [done|apply Hp].
Qed.


(** ** The order in which the frontier is popped *)

Lemma iterate_pres {St R} (I : St → Prop) (body : St → step_result St R) :
  (∀ s s', I s → body s = Continue s' → I s') →
  ∀ n s s', I s → iterate body n s = Some s' → I s'.
Proof.
  intros Hc. induction n as [|n IH]; intros s s' HI; simpl.
  { by intros [= <-]. }
  destruct (body s) as [s1| | |] eqn:Hb; try done. apply IH. by eapply Hc.
Qed.

Lemma search_iterate_inv (rows cols : Z) (wallf : P → bool) (goal s : P)
  (pfuel n : nat) (st : Search.state) :
  Search.passable rows cols wallf s →
  iterate (Search.step rows cols wallf (λ _, 0) goal pfuel) n (Search.init s)
    = Some st →
  state_inv rows cols wallf (λ _, 0) goal s st ∧ state_invF st.
Proof.
  intros Hs.
  apply (iterate_pres
           (λ st, state_inv rows cols wallf (λ _, 0) goal s st ∧ state_invF st)).
  - intros st1 st2 [HI HF] Hstep. split.
    + by destruct (step_inv _ _ _ _ _ _ Hs hz_cons (hz_goal goal) _ _ _ HI Hstep).
    + by apply (step_fifo _ _ _ _ _ Hs _ _ _ HI HF Hstep).
  - split; [by apply init_inv; [|apply hz_cons|]|apply init_fifo].
Qed.

Lemma fmap_pos_inj (h : Heap) (g : Grid) (l1 l2 : list addr) :
  wf_grid h g → Forall (in_grid g) l1 → Forall (in_grid g) l2 →
  pos h <$> l1 = pos h <$> l2 → l1 = l2.
Proof.
  intros Hwf. revert l2. induction l1 as [|a l1 IH]; intros [|b l2] H1 H2 Heq;
    try done.
  apply Forall_cons in H1 as [Ha H1]. apply Forall_cons in H2 as [Hb H2].
  rewrite !fmap_cons in Heq.
  assert (pos h a = pos h b) by congruence.
  assert (pos h <$> l1 = pos h <$> l2) by congruence.
  f_equal; [by apply (pos_inj h g)|by apply IH].
Qed.

Lemma pushed_beforeb_later (pre : list addr) (cur : addr) (rest : list addr)
  (x : addr) :
  NoDup (pre ++ cur :: rest) → x ∈ rest →
  pushed_beforeb (pre ++ cur :: rest) cur x = true
  ∧ pushed_beforeb (pre ++ cur :: rest) x cur = false.
Proof.
  intros Hnd Hx. induction pre as [|z pre IH]; simpl.
  - apply NoDup_cons in Hnd as [Hcur _].
    rewrite decide_False by (by intros ->). rewrite !decide_True by done.
    split; [by apply bool_decide_eq_true|done].
  - simpl in Hnd. apply NoDup_cons in Hnd as [Hz Hnd].
    assert (z ≠ x).
    { intros Hzx. apply Hz. rewrite Hzx. apply elem_of_app. right. by right. }
    assert (z ≠ cur).
    { intros Hzc. apply Hz. rewrite Hzc. apply elem_of_app. right. by left. }
    rewrite !decide_False by done. by apply IH.
Qed.

(** The queue of dijkstra.ts is always sorted, and it is the tail of the
    log of pushes. *)
Lemma dijkstra_fifo (h : Heap) (g : Grid) (s e : addr) (fuel n : nat)
  (st : Dijkstra.state) :
  wf_grid h g → in_grid g s → is_wall h s = false →
  dijkstra_after fuel h g s e n = Some st →
  stable_sort (Dijkstra.by_distance (Dijkstra.heap st)) (Dijkstra.queue st)
    = Dijkstra.queue st
  ∧ Dijkstra.pushed st = Dijkstra.visited st ++ Dijkstra.queue st
  ∧ NoDup (Dijkstra.pushed st).
Proof.
  intros Hwf Hs Hsw. unfold dijkstra_after.
  destruct (Dijkstra.init h g s) as [st0| |] eqn:Hinit; [|done|done].
  intros Hit.
  destruct (dijkstra_iterate_sim h g e Hwf fuel n s st0 st Hs Hinit Hit)
    as (ast & Hait & HR).
  pose proof (in_grid_passable _ _ _ Hwf Hs Hsw) as Hp.
  destruct (search_iterate_inv _ _ _ _ _ _ _ _ Hp Hait) as [HI HF].
  destruct HR as [Hfr [Hqg Hq] [Hvg Hv] [Hlg Hl] Hd _ _].
  assert (Hsorted : Forall (in_grid g)
            (stable_sort (Dijkstra.by_distance (Dijkstra.heap st))
                         (Dijkstra.queue st))).
  { by rewrite stable_sort_perm. }
  assert (Hpq : Dijkstra.pushed st = Dijkstra.visited st ++ Dijkstra.queue st).
  { apply (fmap_pos_inj h g); [done|done|by apply Forall_app|].
    by rewrite fmap_app, Hl, Hv, Hq, (invf_log HF). }
  split_and!.
  - apply (fmap_pos_inj h g); [done|done|done|].
    rewrite (stable_sort_fmap (pos h) _
               (Search.by_key (λ _, 0) (Search.g ast))).
    + rewrite Hq. apply (sorted_frontier _ _ _ _ HF).
    + intros a b Ha Hb. rewrite Forall_forall in Hqg. rewrite by_key_zero.
      unfold Dijkstra.by_distance. by rewrite !Hd by (by apply Hqg).
  - done.
  - apply (NoDup_fmap_1 (pos h)). rewrite Hl, (invf_log HF).
    apply (inv_nodup HI).
Qed.

Lemma by_fScore_asym (h : Heap) (a b : addr) :
  Astar.by_fScore h a b = true → Astar.by_fScore h b a = false.
Proof. apply num_gt_asym. Qed.

Lemma by_fScore_trans (h : Heap) (a b c : addr) :
  Astar.by_fScore h a b = false → Astar.by_fScore h b c = false →
  Astar.by_fScore h a c = false.
Proof. apply num_le_trans. Qed.

(** ** The queue of dijkstra.ts in every run *)

(** The fields of the nodes after [neighbor.distance = t;
    neighbor.previousNode = p]. *)
Lemma relaxed_fields (h : Heap) (n : addr) (t : num) (p : option addr) :
  let h' := upd (upd h n (set_distance t)) n (set_previousNode p) in
  (∀ x, isVisited (h' x) = isVisited (h x))
  ∧ (∀ x, is_wall h' x = is_wall h x)
  ∧ distance (h' n) = t
  ∧ ∀ x, x ≠ n → h' x = h x.
Proof.
  simpl. split_and!.
  - intros x. unfold upd. by destruct (decide (x = n)).
  - intros x. unfold is_wall, upd. by destruct (decide (x = n)).
  - by rewrite !upd_eq.
  - intros x Hx. by rewrite !upd_ne.
Qed.

Lemma relax_neighbours_inv (cur : addr) (dc : Z) (vis : list addr)
  (acc : Heap * list addr * list addr) (n : addr) :
  neighbours_inv cur dc vis acc → isVisited (acc.1.1 n) = false →
  neighbours_inv cur dc vis (Dijkstra.relax cur acc n).
Proof.
  destruct acc as [[h q] lg]. simpl.
  intros (Hlg & Hnd & Hvis & Hq & Hdc & Hcur & Hband & Hsort) Hn.
  unfold Dijkstra.relax.
  destruct (is_wall h n) eqn:Hw; [done|].
  rewrite Hdc. change (num_add (Fin dc) (Fin 1)) with (Fin (dc + 1)).
  destruct (num_lt (Fin (dc + 1)) (distance (h n))) eqn:Hlt; [|done].
  assert (Hnq : n ∉ q).
  { intros Hin. rewrite Forall_forall in Hband.
    destruct (Hband n Hin) as (k & Hk & Hle). rewrite Hk in Hlt. simpl in Hlt.
    apply Z.ltb_lt in Hlt. lia. }
  assert (Hnv : n ∉ vis).
  { intros Hin. rewrite Forall_forall in Hvis. specialize (Hvis n Hin).
    congruence. }
  assert (Hnc : cur ≠ n) by (by intros ->).
  destruct (relaxed_fields h n (Fin (dc + 1)) (Some cur))
    as (Hv' & Hw' & Hd' & Ho').
  set (h' := upd (upd h n (set_distance (Fin (dc + 1)))) n
                 (set_previousNode (Some cur))) in *.
  unfold includes. rewrite bool_decide_eq_false_2 by done.
  unfold neighbours_inv. split_and!.
  - by rewrite Hlg, app_assoc.
  - apply NoDup_snoc; [done|]. rewrite Hlg. by intros [?|?]%elem_of_app.
  - eapply Forall_impl; [exact Hvis|]. intros x Hx. simpl. by rewrite Hv'.
  - apply Forall_app. split.
    + eapply Forall_impl; [exact Hq|]. intros x [Hx1 Hx2]. simpl.
      by rewrite Hv', Hw'.
    + constructor; [|done]. by rewrite Hv', Hw'.
  - by rewrite Ho'.
  - done.
  - apply Forall_app. split.
    + apply Forall_forall. intros x Hx. rewrite Forall_forall in Hband.
      rewrite Ho' by (by intros ->). by apply Hband.
    + constructor; [|done]. exists (dc + 1). split; [done|lia].
  - apply StronglySorted_snoc.
    + eapply StronglySorted_ext; [|exact Hsort].
      intros a b Ha Hb. unfold Dijkstra.by_distance.
      by rewrite !Ho' by (by intros ->).
    + apply Forall_forall. intros x Hx. rewrite Forall_forall in Hband.
      destruct (Hband x Hx) as (k & Hk & Hle).
      unfold Dijkstra.by_distance. rewrite Hd', Ho' by (by intros ->).
      rewrite Hk. apply num_gt_Fin. lia.
Qed.

Lemma fold_relax_neighbours_inv (cur : addr) (dc : Z) (vis ns : list addr) :
  ∀ acc, neighbours_inv cur dc vis acc →
         Forall (λ n, isVisited (acc.1.1 n) = false) ns →
         neighbours_inv cur dc vis (fold_left (Dijkstra.relax cur) ns acc).
Proof.
  induction ns as [|n ns IH]; intros acc HI Hns; simpl; [done|].
  apply Forall_cons in Hns as [Hn Hns]. apply IH.
  - by apply relax_neighbours_inv.
  - eapply Forall_impl; [exact Hns|]. intros x Hx. simpl.
    by rewrite relax_isVisited_d.
Qed.

(** A pass of the loop keeps the queue as it should be. *)
Lemma step_queue_inv (fuel : nat) (g : Grid) (e : addr)
  (st st' : Dijkstra.state) :
  queue_inv st → Dijkstra.step fuel g e st = Continue st' → queue_inv st'.
Proof.
  intros (Hlg & Hnd & Hvis & Hq & [d Hband] & Hsort). unfold Dijkstra.step.
  rewrite (stable_sort_sorted _ _ Hsort).
  destruct (Dijkstra.queue st) as [|cur rest] eqn:Hqueue; [done|].
  apply Forall_cons in Hq as [[Hcv Hcw] Hq]. rewrite Hcv, Hcw. simpl.
  apply Forall_cons in Hband as [(dc & Hdc & Hle) Hband].
  apply StronglySorted_inv in Hsort as [Hsort Hmin].
  set (h := Dijkstra.heap st) in *.
  set (h1 := upd h cur (set_isVisited true)).
  destruct (same_cell h1 cur e).
  { by destruct (Dijkstra.reconstructPath _ _ _). }
  unfold Dijkstra.updateUnvisitedNeighbors, Dijkstra.getValidNeighbors. simpl.
  destruct (four_directions h1 cur g) as [ns| |]; simpl; [|done|done].
  assert (Hcr : cur ∉ rest).
  { rewrite Hlg in Hnd. apply NoDup_app in Hnd as (_ & _ & Hnd).
    by apply NoDup_cons in Hnd as [? _]. }
  assert (Ho : ∀ x, x ≠ cur → h1 x = h x).
  { intros x Hx. unfold h1. by rewrite upd_ne. }
  assert (HI : neighbours_inv cur dc (Dijkstra.visited st ++ [cur])
                 (h1, rest, Dijkstra.pushed st)).
  { unfold neighbours_inv. split_and!.
    - by rewrite Hlg, <- app_assoc.
    - done.
    - apply Forall_app. split.
      + eapply Forall_impl; [exact Hvis|]. intros x Hx. simpl.
        unfold h1, upd. by destruct (decide (x = cur)).
      + constructor; [|done]. unfold h1. by rewrite upd_eq.
    - apply Forall_forall. intros x Hx. rewrite Forall_forall in Hq.
      unfold is_wall. rewrite Ho by (by intros ->). by apply Hq.
    - unfold h1. by rewrite upd_eq.
    - apply elem_of_app. right. by left.
    - apply Forall_forall. intros x Hx. rewrite Forall_forall in Hband, Hmin.
      rewrite Ho by (by intros ->).
      destruct (Hband x Hx) as (k & Hk & Hkle). exists k. split; [done|].
      specialize (Hmin x Hx). unfold Dijkstra.by_distance in Hmin.
      rewrite Hdc, Hk in Hmin. apply num_gt_Fin in Hmin. lia.
    - eapply StronglySorted_ext; [|exact Hsort].
      intros a b Ha Hb. unfold Dijkstra.by_distance.
      by rewrite !Ho by (by intros ->). }
  pose proof (fold_relax_neighbours_inv cur dc _
                (filter (λ n, isVisited (h1 n) = false) ns) _ HI) as HF.
  destruct (fold_left _ _ _) as [[h' q'] lg'].
  intros [= <-].
  destruct HF as (Hlg' & Hnd' & Hvis' & Hq' & _ & _ & Hband' & Hsort').
  { apply Forall_forall. by intros x [Hx _]%list_elem_of_filter. }
  unfold queue_inv. simpl. split_and!; try done. by exists dc.
Qed.

(** The first pass: the start node is finalized, or it is discarded and
    the loop is over. *)
Lemma first_step_queue_inv (fuel : nat) (h : Heap) (g : Grid) (s e : addr)
  (st0 st1 : Dijkstra.state) :
  Dijkstra.init h g s = Ok st0 →
  Dijkstra.step fuel g e st0 = Continue st1 →
  queue_inv st1 ∨ start_discarded s st1.
Proof.
  unfold Dijkstra.init.
  destruct (init_nodes Dijkstra.reset g h) as [h0| |]; simpl; [|done|done].
  intros [= <-]. unfold Dijkstra.step. simpl.
  set (h1 := upd h0 s (set_distance (Fin 0))).
  destruct (isVisited (h1 s) || is_wall h1 s) eqn:Hskip.
  { intros [= <-]. right. unfold start_discarded. simpl.
    split_and!; [done|done|done|]. by apply orb_true_iff in Hskip. }
  apply orb_false_iff in Hskip as [Hv Hw].
  intros Hstep. left.
  apply (step_queue_inv fuel g e (Dijkstra.mkState h1 [s] [] [s])).
  - unfold queue_inv. simpl. split_and!.
    + done.
    + apply NoDup_singleton.
    + done.
    + by repeat constructor.
    + exists 0. constructor; [|done]. exists 0. unfold h1.
      rewrite upd_eq. split; [done|lia].
    + repeat constructor.
  - unfold Dijkstra.step. simpl. fold h1. by rewrite Hv, Hw.
Qed.

(** In every run of dijkstra, after any number of passes: the sort leaves
    the queue as it is; the log of pushes is the visited nodes followed by
    the queue, unless the first pass has discarded the start node; and no
    node is pushed twice. *)
Lemma dijkstra_queue (h : Heap) (g : Grid) (s e : addr) (fuel n : nat)
  (st : Dijkstra.state) :
  dijkstra_after fuel h g s e n = Some st →
  stable_sort (Dijkstra.by_distance (Dijkstra.heap st)) (Dijkstra.queue st)
    = Dijkstra.queue st
  ∧ (Dijkstra.pushed st = Dijkstra.visited st ++ Dijkstra.queue st
     ∨ start_discarded s st)
  ∧ NoDup (Dijkstra.pushed st).
Proof.
  unfold dijkstra_after.
  destruct (Dijkstra.init h g s) as [st0| |] eqn:Hinit; [|done|done].
  destruct n as [|n]; simpl.
  { intros [= <-]. unfold Dijkstra.init in Hinit.
    destruct (init_nodes Dijkstra.reset g h) as [h0| |]; simpl in Hinit;
      [|done|done].
    injection Hinit as <-. simpl. split_and!; [done|by left|].
    apply NoDup_singleton. }
  destruct (Dijkstra.step fuel g e st0) as [st1| | |] eqn:Hstep;
    [|done|done|done].
  destruct (first_step_queue_inv fuel h g s e st0 st1 Hinit Hstep)
    as [HI|HD].
  - intros Hit.
    pose proof (iterate_pres queue_inv _ (step_queue_inv fuel g e)
                  n st1 st HI Hit)
      as (Hlg & Hnd & _ & _ & _ & Hsort).
    split_and!; [by apply stable_sort_sorted|by left|done].
  - destruct n as [|n]; simpl.
    + intros [= <-]. pose proof HD as (Hv & Hq & Hp & _).
      rewrite Hq, Hp. split_and!; [done|by right|apply NoDup_singleton].
    + unfold Dijkstra.step at 1. destruct HD as (_ & -> & _). done.
Qed.

(** ** The loop of reconstructPath *)

Lemma reconstruct_loop_follow (fuel : nat) (h : Heap) : ∀ cur acc,
  reconstruct_loop fuel h cur acc
  = (collected ← follow_links fuel h cur; Ok (reverse collected ++ acc)).
Proof.
  induction fuel as [|fuel IH]; intros [c|] acc; simpl; try done.
  rewrite IH. destruct (follow_links fuel h (previousNode (h c))) as [l| |];
    simpl; [|done|done].
  by rewrite reverse_cons, <- app_assoc.
Qed.


(** ** The copy of the grid that visualizeAlgorithm makes *)

Lemma alloc_eq (h : Heap) (n : addr) (x : Node) : alloc h n x n = x.
Proof. unfold alloc. by rewrite decide_True. Qed.

Lemma alloc_ne (h : Heap) (n a : addr) (x : Node) : a ≠ n → alloc h n x a = h a.
Proof. intros. unfold alloc. by rewrite decide_False. Qed.

Lemma map_row_acc (f : Node → Node) (rowl : list addr) :
  ∀ (h0 : Heap) (n0 : addr) (out0 : list addr),
  ∃ h',
    fold_left (λ (acc : Heap * addr * list addr) (a : addr),
                 let '(h, next, out) := acc in
                 (alloc h next (f (h a)), S next, out ++ [next]))
              rowl (h0, n0, out0)
    = (h', (n0 + length rowl)%nat, out0 ++ seq n0 (length rowl))
    ∧ (∀ a, (a < n0)%nat → h' a = h0 a)
    ∧ (∀ c a, rowl !! c = Some a → (a < n0)%nat →
              h' (n0 + c)%nat = f (h0 a)).
Proof.
  induction rowl as [|a rowl IH]; intros h0 n0 out0; simpl.
  { exists h0. rewrite Nat.add_0_r, app_nil_r. split_and!; [done|done|].
    intros c a Hc. by rewrite lookup_nil in Hc. }
  destruct (IH (alloc h0 n0 (f (h0 a))) (S n0) (out0 ++ [n0]))
    as (h' & Heq & Hold & Hnew).
  exists h'. split_and!.
  - etrans; [apply Heq|]. f_equal; [f_equal; lia|]. by rewrite <- app_assoc.
  - intros b Hb. rewrite Hold by lia. apply alloc_ne. lia.
  - intros [|c] b Hc Hb; simpl in Hc.
    + injection Hc as ->. rewrite Nat.add_0_r, Hold by lia. apply alloc_eq.
    + replace (n0 + S c)%nat with (S n0 + c)%nat by lia.
      rewrite (Hnew c b Hc) by lia. f_equal. apply alloc_ne. lia.
Qed.

Lemma map_row_spec (f : Node → Node) (h : Heap) (next : addr)
  (rowl : list addr) :
  ∃ h',
    map_row f h next rowl
    = (h', (next + length rowl)%nat, seq next (length rowl))
    ∧ (∀ a, (a < next)%nat → h' a = h a)
    ∧ (∀ c a, rowl !! c = Some a → (a < next)%nat →
              h' (next + c)%nat = f (h a)).
Proof. unfold map_row. apply (map_row_acc f rowl h next []). Qed.

(** The copy has the shape of the grid; its nodes are new objects, the
    images of the nodes they are copied from; the objects that existed
    are not written. *)
Lemma map_grid_acc (f : Node → Node) (g : Grid) :
  ∀ (h0 : Heap) (n0 : addr) (out0 : Grid),
  allocatedb n0 g = true →
  ∃ h' n' new,
    fold_left (λ (acc : Heap * addr * Grid) (rowl : list addr),
                 let '(h, next, out) := acc in
                 let '(h', next', rowl') := map_row f h next rowl in
                 (h', next', out ++ [rowl']))
              g (h0, n0, out0)
    = (h', n', out0 ++ new)
    ∧ (n0 <= n')%nat
    ∧ (∀ a, (a < n0)%nat → h' a = h0 a)
    ∧ length new = length g
    ∧ (∀ r rowl, g !! r = Some rowl →
         ∃ rowl', new !! r = Some rowl' ∧ length rowl' = length rowl
           ∧ ∀ c a, rowl !! c = Some a →
               ∃ a', rowl' !! c = Some a' ∧ (n0 <= a' < n')%nat
                     ∧ h' a' = f (h0 a)).
Proof.
  induction g as [|rowl g IH]; intros h0 n0 out0 Hal; simpl.
  { exists h0, n0, []. rewrite app_nil_r. split_and!; done. }
  simpl in Hal. apply andb_true_iff in Hal as [Hrow Hal].
  destruct (map_row_spec f h0 n0 rowl) as (h1 & -> & Hold1 & Hnew1).
  assert (Hal1 : allocatedb (n0 + length rowl)%nat g = true).
  { unfold allocatedb in *. rewrite forallb_forall in Hal |- *.
    intros l Hl. specialize (Hal l Hl). rewrite forallb_forall in Hal |- *.
    intros a Ha. specialize (Hal a Ha). apply Nat.ltb_lt in Hal.
    apply Nat.ltb_lt. lia. }
  destruct (IH h1 (n0 + length rowl)%nat (out0 ++ [seq n0 (length rowl)]) Hal1)
    as (h' & n' & new & Heq & Hle & Hold & Hlen & Hrows).
  exists h', n', (seq n0 (length rowl) :: new). split_and!.
  - etrans; [apply Heq|]. by rewrite <- app_assoc.
  - lia.
  - intros a Ha. rewrite Hold by lia. by apply Hold1.
  - simpl. by rewrite Hlen.
  - intros [|r] l Hl; simpl in Hl.
    + injection Hl as <-. exists (seq n0 (length rowl)).
      split_and!; [done|by rewrite length_seq|].
      intros c a Hc. exists (n0 + c)%nat.
      pose proof (lookup_lt_Some _ _ _ Hc) as Hlt.
      assert (Ha : (a < n0)%nat).
      { rewrite forallb_forall in Hrow. apply Nat.ltb_lt, Hrow.
        apply list_elem_of_In. by eapply list_elem_of_lookup_2. }
      split_and!; [by apply lookup_seq|lia|lia|].
      rewrite Hold by lia. by apply Hnew1.
    + destruct (Hrows r l Hl) as (l' & Hl' & Hlen' & Hcells).
      exists l'. split_and!; [done|done|].
      intros c a Hc. destruct (Hcells c a Hc) as (a' & Ha' & Hrange & Hh).
      exists a'. split_and!; [done|lia|lia|].
      rewrite Hh. f_equal. apply Hold1.
      unfold allocatedb in Hal. rewrite forallb_forall in Hal.
      assert (Hin : In l g).
      { apply list_elem_of_In. by eapply list_elem_of_lookup_2. }
      specialize (Hal l Hin). rewrite forallb_forall in Hal.
      apply Nat.ltb_lt, Hal, list_elem_of_In. by eapply list_elem_of_lookup_2.
Qed.

Lemma cell_Some (g : Grid) (r c : Z) (a : addr) :
  cell g r c = Some a ↔
  0 <= r ∧ 0 <= c ∧ ∃ rowl, g !! Z.to_nat r = Some rowl
                            ∧ rowl !! Z.to_nat c = Some a.
Proof.
  unfold cell. destruct (0 <=? r) eqn:Hr; simpl.
  2:{ apply Z.leb_gt in Hr. split; [done|]. intros (? & _). lia. }
  destruct (0 <=? c) eqn:Hc; simpl.
  2:{ apply Z.leb_gt in Hc. split; [done|]. intros (_ & ? & _). lia. }
  apply Z.leb_le in Hr, Hc.
  destruct (g !! Z.to_nat r) as [rowl|]; simpl.
  - split; [intros H; split_and!; eauto|].
    intros (_ & _ & l & [= <-] & Hl). done.
  - split; [done|]. intros (_ & _ & l & Hl & _). done.
Qed.

Lemma map_grid_spec (f : Node → Node) (h : Heap) (next : addr) (g : Grid) :
  allocatedb next g = true →
  ∃ h' next' newGrid,
    map_grid f h next g = (h', next', newGrid)
    ∧ (∀ a, (a < next)%nat → h' a = h a)
    ∧ length newGrid = length g
    ∧ (∀ r c a, cell g r c = Some a →
         ∃ a', cell newGrid r c = Some a' ∧ (next <= a')%nat
               ∧ h' a' = f (h a))
    ∧ (∀ r c, cell g r c = None → cell newGrid r c = None).
Proof.
  intros Hal. unfold map_grid.
  destruct (map_grid_acc f g h next [] Hal)
    as (h' & n' & new & Heq & Hle & Hold & Hlen & Hrows).
  exists h', n', new. simpl in Heq. split_and!; try done.
  - intros r c a (Hr & Hc & rowl & Hrow & Ha)%cell_Some.
    destruct (Hrows _ _ Hrow) as (rowl' & Hrow' & _ & Hcells).
    destruct (Hcells _ _ Ha) as (a' & Ha' & Hrange & Hh).
    exists a'. split_and!; [|lia|done].
    apply cell_Some. split_and!; [done|done|]. by exists rowl'.
  - intros r c Hnone. destruct (cell new r c) as [a'|] eqn:Hc'; [|done].
    apply cell_Some in Hc' as (Hr & Hc & rowl' & Hrow' & Ha').
    pose proof (lookup_lt_Some _ _ _ Hrow') as Hlt. rewrite Hlen in Hlt.
    destruct (lookup_lt_is_Some_2 g _ Hlt) as [rowl Hrow].
    destruct (Hrows _ _ Hrow) as (rowl2 & Hrow2 & Hlen2 & _).
    pose proof (eq_trans (eq_sym Hrow2) Hrow') as Heq2. injection Heq2 as ->.
    pose proof (lookup_lt_Some _ _ _ Ha') as Hlt'. rewrite Hlen2 in Hlt'.
    destruct (lookup_lt_is_Some_2 rowl _ Hlt') as [a Ha].
    assert (cell g r c = Some a) as Hsome.
    { apply cell_Some. split_and!; [done|done|]. by exists rowl. }
    congruence.
Qed.

Lemma reset_copy_map (f : Node → Node) (h : Heap) (next : addr) (g : Grid) :
  (∀ n, cleared_copy_of n (f n)) → allocatedb next g = true →
  ∃ h1 next1 newGrid,
    map_grid f h next g = (h1, next1, newGrid) ∧ reset_copy h next g h1 newGrid.
Proof.
  intros Hf Hal.
  destruct (map_grid_spec f h next g Hal)
    as (h1 & next1 & newGrid & Heq & Hold & _ & Hsome & Hnone).
  exists h1, next1, newGrid. split; [done|]. split; [done|].
  intros r c. destruct (cell g r c) as [a|] eqn:Hc.
  - destruct (Hsome r c a Hc) as (a' & Ha' & Hge & Hh).
    exists a'. split_and!; [done|done|]. rewrite Hh. apply Hf.
  - by apply Hnone.
Qed.

Lemma reset_node4_cleared (n : Node) : cleared_copy_of n (App4.reset_node n).
Proof.
  unfold cleared_copy_of, App4.reset_node. simpl. split_and!; try done.
  destruct (bool_decide _) eqn:Hb; [|done].
  apply bool_decide_eq_true in Hb. split; [done|]. intros Hw.
  rewrite Hw in Hb.
  repeat (apply elem_of_cons in Hb as [Hb|Hb]; [discriminate Hb|]).
  by apply elem_of_nil in Hb.
Qed.

Lemma reset_node3_cleared (n : Node) : cleared_copy_of n (App3.reset_node n).
Proof.
  unfold cleared_copy_of, App3.reset_node. simpl. split_and!; try done.
  destruct (bool_decide _) eqn:Hb; [|done].
  apply bool_decide_eq_true in Hb. split; [done|]. intros Hw.
  rewrite Hw in Hb.
  repeat (apply elem_of_cons in Hb as [Hb|Hb]; [discriminate Hb|]).
  by apply elem_of_nil in Hb.
Qed.


(** ** A start node that is a wall *)

Lemma grid_size_pos (h : Heap) (g : Grid) : wf_grid h g → (0 < grid_size g)%nat.
Proof.
  intros [Hr Hc _ _]. unfold grid_size, n_cells.
  apply Nat.mul_pos_pos; lia.
Qed.

(** dijkstra and astar pop a start node that is a wall without
    finalizing it, and return with nothing visited. *)
Lemma dijkstra_wall_start (h : Heap) (g : Grid) (s e : addr) (fuel : nat) :
  wf_grid h g → is_wall h s = true → (2 <= fuel)%nat →
  ∃ h', Dijkstra.dijkstra fuel h g s e = Ok (h', mkResult [] []).
Proof.
  intros Hwf Hw Hfuel. unfold Dijkstra.dijkstra, Dijkstra.init.
  destruct (init_nodes_spec Dijkstra.reset h g Hwf)
    as (h1 & -> & Hfr & _ & _); [done|done|].
  simpl. set (h2 := upd h1 s (set_distance (Fin 0))).
  assert (Hw2 : is_wall h2 s = true).
  { rewrite (is_wall_frame h h2); [done|]. by apply frame_upd. }
  destruct fuel as [|[|fuel]]; [lia|lia|].
  exists h2. cbn [while_loop]. unfold Dijkstra.step at 1. simpl.
  rewrite Hw2, orb_true_r. done.
Qed.

Lemma astar_wall_start (h : Heap) (g : Grid) (s e : addr) (fuel : nat) :
  wf_grid h g → is_wall h s = true → (2 <= fuel)%nat →
  ∃ h', Astar.astar fuel h g s e = Ok (h', mkResult [] []).
Proof.
  intros Hwf Hw Hfuel. unfold Astar.astar, Astar.init.
  destruct (init_nodes_spec (Astar.reset e) h g Hwf)
    as (h1 & -> & Hfr & _ & _).
  { intros h3 h4 n Hf. unfold Astar.reset, Astar.manhattanDistance.
    destruct (Hf e) as (-> & -> & _). done. }
  { done. }
  cbv zeta. simpl.
  set (h2 := upd (upd h1 s (set_gScore (Fin 0))) s _).
  assert (Hw2 : is_wall h2 s = true).
  { rewrite (is_wall_frame h h2); [done|]. by repeat apply frame_upd. }
  destruct fuel as [|[|fuel]]; [lia|lia|].
  exists h2. cbn [while_loop]. unfold Astar.step at 1. simpl.
  rewrite Hw2, orb_true_r. done.
Qed.

(** ** A start node outside the grid

    The loops that initialise the nodes reach the nodes of the grid only.
    A start node that is a copy outside the grid keeps its scratch fields:
    dijkstra then discards it as visited and returns with nothing visited,
    astar, which asks its closed set, visits eight nodes.  The results on
    runs below therefore ask for a start node that is a node of the
    grid. *)
Lemma start_outside_grid :
  match Dijkstra.dijkstra 12 copy_heap ex_grid 9%nat 8%nat with
  | Ok (_, r) => Some (visitedNodes r)
  | _ => None
  end = Some []
  ∧ match Astar.astar 12 copy_heap ex_grid 9%nat 8%nat with
    | Ok (_, r) => Some (visitedNodes r)
    | _ => None
    end = Some [9; 3; 1; 6; 2; 7; 5; 8]%nat.
Proof. split; vm_compute; reflexivity. Qed.

(** * The claims *)

(** C1, as stated, fails for bfs.  On the grid [ex_grid] bfs reconstructs
    the path [0; 3; 6; 7; 8] from the store it has built, where a
    reconstruction that validates the cost of the first node returns the
    empty path, bfs.ts keeping no cost.  And with a start node that is a
    copy outside the grid and carries an old predecessor link, bfs returns
    the path [3; 2; 1], whose first node is neither the start node 2 nor a
    node of cost zero. *)
Lemma C1_bfs_counterexample :
  ¬ reconstruction_validates Bfs.reconstructPath distance ∧ ¬ bfs_validates.
Proof.
  split.
  - intros H. specialize (H 10%nat ex_bfs_heap 8%nat).
    assert (Hl : Bfs.reconstructPath 10 ex_bfs_heap 8%nat
                 = Ok [0; 3; 6; 7; 8]%nat) by (vm_compute; reflexivity).
    assert (Hr : reconstruct_validated distance 10 ex_bfs_heap 8%nat = Ok [])
      by (vm_compute; reflexivity).
    rewrite Hl, Hr in H. discriminate H.
  - intros H.
    assert (Hobs :
      match Bfs.bfs 5 stale_heap stale_grid 2%nat 1%nat with
      | Ok hr => Some (path hr.2, distance (hr.1 3%nat))
      | _ => None
      end = Some ([3; 2; 1]%nat, Inf)) by (vm_compute; reflexivity).
    specialize (H 5%nat stale_heap stale_grid 2%nat 1%nat).
    destruct (Bfs.bfs 5 stale_heap stale_grid 2%nat 1%nat) as [hr| |];
      [|discriminate Hobs|discriminate Hobs].
    injection Hobs as Hp Hd.
    destruct (H hr eq_refl) as [Hnil|(first & Hhd & [Hs|Hc])].
    + rewrite Hp in Hnil. discriminate Hnil.
    + rewrite Hp in Hhd. simpl in Hhd. congruence.
    + rewrite Hp in Hhd. simpl in Hhd. congruence.
Qed.

(** C1, amended: the path reconstruction of dijkstra and of astar starts
    at the goal node, follows the predecessor links backward until a node
    without predecessor, reverses the collected sequence and returns it
    when its first node has cost zero ([distance] in dijkstra, [gScore] in
    astar), the empty path otherwise; the path reconstruction of bfs does
    the same without the validation and returns the reversed sequence as
    it is. *)
Theorem C1_reconstruction :
  reconstruction_validates Dijkstra.reconstructPath distance
  ∧ reconstruction_validates Astar.reconstructPath gScore
  ∧ ∀ fuel h goal,
      Bfs.reconstructPath fuel h goal
      = (collected ← follow_links fuel h (Some goal); Ok (reverse collected)).
Proof.
  unfold reconstruction_validates, Dijkstra.reconstructPath,
    Astar.reconstructPath, Bfs.reconstructPath, reconstruct_validated.
  split_and!; intros fuel h goal; rewrite reconstruct_loop_follow;
    (destruct (follow_links fuel h (Some goal)) as [l| |]; simpl;
     [|done|done]); rewrite app_nil_r; by destruct (reverse l).
Qed.

(** C2, as stated, fails: with the start node and the end node on the
    cell [(0, 0)], visualizeAlgorithm of either version runs the algorithm
    instead of rejecting the call. *)
Lemma C2_same_cell_counterexample :
  ¬ rejects_same_cell4 ∧ ¬ rejects_same_cell3.
Proof.
  split.
  - intros H.
    specialize (H 20%nat (click_state4 App4.A_dijkstra) 9%nat 0%nat
                  eq_refl eq_refl eq_refl).
    vm_compute in H. discriminate H.
  - intros H.
    specialize (H (λ _ _ _ _ _, TypeError) 20%nat (click_state3 App3.A_bfs)
                  9%nat 0%nat eq_refl eq_refl eq_refl).
    vm_compute in H. discriminate H.
Qed.

(** C2, amended: visualizeAlgorithm returns without running an algorithm,
    with the grid and every node as they were, when the start node or the
    end node is not set (in the version with four algorithms also while a
    run is in progress).  Otherwise, whether or not start and end are on
    one cell, and when one algorithm is selected and not a comparison, it
    makes a copy of the grid with cleared scratch fields, calls the
    selected algorithm with the copy, the start node and the end node, and
    hands on the result of that call. *)
Theorem C2_run_guard
  (dfs : nat → Heap → Grid → addr → addr → outcome (Heap * Result))
  (fuel : nat) (st4 : App4.State) (st3 : App3.State) :
  allocatedb (App4.next st4) (App4.grid st4) = true →
  allocatedb (App3.next st3) (App3.grid st3) = true →
  match App4.startNode st4, App4.endNode st4 with
  | Some s, Some e =>
      App4.algorithm st4 = App4.A_compare
      ∨ ∃ h1 next1 newGrid,
          reset_copy (App4.store st4) (App4.next st4) (App4.grid st4)
                     h1 newGrid
          ∧ App4.visualizeAlgorithm fuel st4
            = ('(h2, result) ←
                 match App4.algorithm st4 with
                 | App4.A_dijkstra => Dijkstra.dijkstra fuel h1 newGrid s e
                 | _ => Astar.astar fuel h1 newGrid s e
                 end;
               Ok (App4.Results
                     (App4.mkState (App4.algorithm st4) newGrid true
                                   (Some s) (Some e) None h2 next1)
                     [result]))
  | _, _ =>
      ∃ st', App4.visualizeAlgorithm fuel st4 = Ok (App4.Rejected st')
             ∧ App4.grid st' = App4.grid st4
             ∧ App4.store st' = App4.store st4
  end
  ∧ match App3.startNode st3, App3.endNode st3 with
    | Some s, Some e =>
        if App3.isRunning st3
        then App3.visualizeAlgorithm dfs fuel st3 = Ok (App3.Rejected st3)
        else
          App3.single st3 = false
          ∨ ∃ h1 next1 newGrid,
              reset_copy (App3.store st3) (App3.next st3) (App3.grid st3)
                         h1 newGrid
              ∧ App3.visualizeAlgorithm dfs fuel st3
                = ('(h2, result) ←
                     match App3.algorithm st3 with
                     | App3.A_dijkstra => Dijkstra.dijkstra fuel h1 newGrid s e
                     | App3.A_astar => Astar.astar fuel h1 newGrid s e
                     | App3.A_bfs => Bfs.bfs fuel h1 newGrid s e
                     | App3.A_dfs => dfs fuel h1 newGrid s e
                     end;
                   Ok (App3.Results
                         (App3.mkState (App3.algorithm st3) newGrid true
                                       (Some s) (Some e) None
                                       (App3.single st3)
                                       (App3.selectedAlgorithms st3)
                                       h2 next1)
                         [result]))
    | _, _ => App3.visualizeAlgorithm dfs fuel st3 = Ok (App3.Rejected st3)
    end.
Proof.
  intros Hal4 Hal3. split.
  - unfold App4.visualizeAlgorithm.
    destruct (App4.startNode st4) as [s|], (App4.endNode st4) as [e|];
      try (eexists; split_and!; [reflexivity|done|done]).
    destruct (App4.algorithm st4) eqn:Halg; [right|right|by left].
    + destruct (reset_copy_map App4.reset_node (App4.store st4) (App4.next st4)
                  (App4.grid st4) reset_node4_cleared Hal4)
        as (h1 & next1 & newGrid & -> & Hcopy).
      by exists h1, next1, newGrid.
    + destruct (reset_copy_map App4.reset_node (App4.store st4) (App4.next st4)
                  (App4.grid st4) reset_node4_cleared Hal4)
        as (h1 & next1 & newGrid & -> & Hcopy).
      by exists h1, next1, newGrid.
  - unfold App3.visualizeAlgorithm.
    destruct (App3.startNode st3) as [s|], (App3.endNode st3) as [e|];
      try done.
    destruct (App3.isRunning st3); [done|].
    destruct (App3.single st3) eqn:Hsingle; [right|by left].
    destruct (reset_copy_map App3.reset_node (App3.store st3) (App3.next st3)
                (App3.grid st3) reset_node3_cleared Hal3)
      as (h1 & next1 & newGrid & -> & Hcopy).
    exists h1, next1, newGrid. split; [done|].
    unfold App3.dispatch. by destruct (App3.algorithm st3).
Qed.

Lemma C2_run_guard_witness :
  (∃ h1 next1 newGrid,
     reset_copy click_store 10%nat ex_grid h1 newGrid
     ∧ App4.visualizeAlgorithm 20 (click_state4 App4.A_dijkstra)
       = ('(h2, result) ← Dijkstra.dijkstra 20 h1 newGrid 9%nat 0%nat;
          Ok (App4.Results
                (App4.mkState App4.A_dijkstra newGrid true (Some 9%nat)
                              (Some 0%nat) None h2 next1)
                [result])))
  ∧ (∃ st', App4.visualizeAlgorithm 20 unset_state4 = Ok (App4.Rejected st')
            ∧ App4.grid st' = ex_grid ∧ App4.store st' = ex_heap)
  ∧ App3.visualizeAlgorithm (λ _ _ _ _ _, TypeError) 20 unset_state3
    = Ok (App3.Rejected unset_state3).
Proof.
  split_and!.
  - destruct (C2_run_guard (λ _ _ _ _ _, TypeError) 20
                (click_state4 App4.A_dijkstra) unset_state3 eq_refl eq_refl)
      as [[Hc|H4] _]; [discriminate Hc|exact H4].
  - destruct (C2_run_guard (λ _ _ _ _ _, TypeError) 20
                unset_state4 unset_state3 eq_refl eq_refl) as [H4 _].
    exact H4.
  - destruct (C2_run_guard (λ _ _ _ _ _, TypeError) 20
                unset_state4 unset_state3 eq_refl eq_refl) as [_ H3].
    exact H3.
Defined.

(** C3 fails on the code: bfs does not reset the start node when it is not
    a node of the grid.  On the grid [stale_grid], with a start node that
    still carries a predecessor link, bfs stops when it dequeues the end
    node and returns the three nodes [3; 2; 1], although the two nodes
    [2; 1] are a path from the start to the end. *)
Theorem C3_bfs_stale_start :
  ∃ h',
    Bfs.bfs 5 stale_heap stale_grid 2%nat 1%nat
    = Ok (h', mkResult [2; 1]%nat [3; 2; 1]%nat)
    ∧ wf_gridb stale_heap stale_grid = true
    ∧ in_gridb stale_heap stale_grid 2%nat = false
    ∧ previousNode (stale_heap 2%nat) = Some 3%nat
    ∧ movesb stale_heap [2; 1]%nat = true
    ∧ forallb (λ a, negb (is_wall stale_heap a)) [2; 1]%nat = true.
Proof.
  assert (Hobs : match Bfs.bfs 5 stale_heap stale_grid 2%nat 1%nat with
                 | Ok (_, r) => Some (visitedNodes r, path r)
                 | _ => None
                 end = Some ([2; 1]%nat, [3; 2; 1]%nat))
    by (vm_compute; reflexivity).
  destruct (Bfs.bfs 5 stale_heap stale_grid 2%nat 1%nat)
    as [[h' [vs p]]| |]; [|discriminate Hobs|discriminate Hobs].
  simpl in Hobs. injection Hobs as -> ->.
  exists h'. split; [reflexivity|]. repeat split; vm_compute; reflexivity.
Qed.

(** C4: for a node whose position lies in a well-formed grid, the
    enumeration of bfs.ts returns the grid nodes at the in-bounds
    positions among up, down, left, right, in this order; the enumerations
    of dijkstra.ts and astar.ts return the same list without the nodes
    whose isVisited flag is set. *)
Theorem C4_neighbors (h : Heap) (g : Grid) (a : addr) :
  wf_gridb h g = true → in_bounds g (row (h a), col (h a)) = true →
  let r := row (h a) in
  let c := col (h a) in
  ∃ ns,
    Bfs.getUnvisitedNeighbors h a g = Ok ns
    ∧ ns = cells g [(r - 1, c); (r + 1, c); (r, c - 1); (r, c + 1)]
    ∧ pos h <$> ns
      = filter (λ p, in_bounds g p = true)
               [(r - 1, c); (r + 1, c); (r, c - 1); (r, c + 1)]
    ∧ Dijkstra.getValidNeighbors h a g
      = Ok (filter (λ n, isVisited (h n) = false) ns)
    ∧ Astar.getValidNeighbors h a g
      = Ok (filter (λ n, isVisited (h n) = false) ns).
Proof.
  intros Hwf%wf_gridb_wf Ha r c.
  pose proof (four_directions_bounds h g a Hwf Ha) as Hfd.
  change (around (pos h a)) with [(r - 1, c); (r + 1, c); (r, c - 1); (r, c + 1)]
    in Hfd.
  eexists. split_and!.
  - unfold Bfs.getUnvisitedNeighbors. exact Hfd.
  - done.
  - by apply cells_pos.
  - unfold Dijkstra.getValidNeighbors. by rewrite Hfd.
  - unfold Astar.getValidNeighbors. by rewrite Hfd.
Qed.

Lemma C4_neighbors_witness :
  ∃ ns,
    Bfs.getUnvisitedNeighbors ex_heap 3%nat ex_grid = Ok ns
    ∧ ns = cells ex_grid [(1 - 1, 0); (1 + 1, 0); (1, 0 - 1); (1, 0 + 1)]
    ∧ pos ex_heap <$> ns
      = filter (λ p, in_bounds ex_grid p = true)
               [(1 - 1, 0); (1 + 1, 0); (1, 0 - 1); (1, 0 + 1)]
    ∧ Dijkstra.getValidNeighbors ex_heap 3%nat ex_grid
      = Ok (filter (λ n, isVisited (ex_heap n) = false) ns)
    ∧ Astar.getValidNeighbors ex_heap 3%nat ex_grid
      = Ok (filter (λ n, isVisited (ex_heap n) = false) ns).
Proof.
  apply (C4_neighbors ex_heap ex_grid 3%nat); reflexivity.
Defined.

(** C5, as stated, fails for astar: on the grid [tie_grid] the eighth pass
    pops node 6 while node 2, pushed before node 6 and with the same
    fScore 7, stays in the open set. *)
Lemma C5_astar_ties_counterexample :
  ¬ (dijkstra_ties 20 tie_heap tie_grid 9%nat 10%nat
     ∧ astar_ties 20 tie_heap tie_grid 9%nat 10%nat).
Proof.
  intros [_ H]. specialize (H 7%nat).
  assert (Hobs :
    (λ st, (stable_sort (Astar.by_fScore (Astar.heap st)) (Astar.openSet st),
            fScore (Astar.heap st 2%nat), fScore (Astar.heap st 6%nat),
            Astar.pushed st))
      <$> astar_after 20 tie_heap tie_grid 9%nat 10%nat 7
    = Some ([6; 2]%nat, Fin 7, Fin 7, [9; 4; 14; 13; 12; 7; 3; 2; 6]%nat))
    by (vm_compute; reflexivity).
  destruct (astar_after 20 tie_heap tie_grid 9%nat 10%nat 7) as [st|];
    [|discriminate Hobs].
  simpl in Hobs. injection Hobs as Hsort Hf2 Hf6 Hpushed.
  rewrite Hsort, Hpushed in H. simpl in H.
  specialize (H 2%nat). rewrite Hf2, Hf6 in H.
  assert (pushed_beforeb [9; 4; 14; 13; 12; 7; 3; 2; 6]%nat 2%nat 6%nat = false)
    as Hb by (apply H; [by left|done]).
  vm_compute in Hb. discriminate.
Qed.

(** C5, amended: in every run of dijkstra the queue is sorted before
    every pass and is the rest of the log of pushes, so that entries are
    popped in insertion order, ties included (the log is the visited nodes
    followed by the queue, unless the first pass has discarded a start
    node that is a wall or carries the visited flag); in every run of
    astar the entry that a pass pops has the least fScore, and among the
    entries with this fScore it is the one that stands first in the
    openSet array, whose order the earlier sorts have fixed. *)
Theorem C5_tie_break (h : Heap) (g : Grid) (s e : addr) (fuel n : nat) :
  match dijkstra_after fuel h g s e n with
  | Some st =>
      stable_sort (Dijkstra.by_distance (Dijkstra.heap st)) (Dijkstra.queue st)
        = Dijkstra.queue st
      ∧ (Dijkstra.pushed st = Dijkstra.visited st ++ Dijkstra.queue st
         ∨ start_discarded s st)
      ∧ NoDup (Dijkstra.pushed st)
      ∧ ties_by_insertion (Dijkstra.pushed st)
          (λ a, distance (Dijkstra.heap st a))
          (stable_sort (Dijkstra.by_distance (Dijkstra.heap st))
                       (Dijkstra.queue st))
  | None => True
  end
  ∧ match astar_after fuel h g s e n with
    | Some st =>
        match stable_sort (Astar.by_fScore (Astar.heap st)) (Astar.openSet st)
        with
        | cur :: _ =>
            ∃ pre post,
              Astar.openSet st = pre ++ cur :: post
              ∧ Forall (λ x, num_gt (fScore (Astar.heap st x))
                                    (fScore (Astar.heap st cur)) = true) pre
              ∧ Forall (λ x, num_gt (fScore (Astar.heap st cur))
                                    (fScore (Astar.heap st x)) = false) post
        | [] => True
        end
    | None => True
    end.
Proof.
  split.
  - destruct (dijkstra_after fuel h g s e n) as [st|] eqn:Hst; [|done].
    destruct (dijkstra_queue h g s e fuel n st Hst) as (Hsort & Hpq & Hnd).
    split_and!; try done.
    rewrite Hsort. destruct (Dijkstra.queue st) as [|cur rest] eqn:Hq; [done|].
    simpl. intros x Hx _.
    destruct Hpq as [Hpq|(_ & Hq' & _)]; [|by rewrite Hq in Hq'].
    rewrite Hpq in Hnd |- *.
    by destruct (pushed_beforeb_later _ _ _ _ Hnd Hx).
  - destruct (astar_after fuel h g s e n) as [st|]; [|done].
    destruct (stable_sort _ _) as [|cur rest] eqn:Hsort; [done|].
    destruct (stable_sort_head _ (by_fScore_asym (Astar.heap st))
                (by_fScore_trans (Astar.heap st)) _ _ _ Hsort)
      as (pre & post & Hopen & Hpre & Hpost).
    exists pre, post. split_and!; [done| |]; apply Forall_forall; auto.
Qed.

Lemma C5_tie_break_witness :
  (∃ st, dijkstra_after 20 tie_heap tie_grid 9%nat 10%nat 7 = Some st
         ∧ Dijkstra.pushed st = Dijkstra.visited st ++ Dijkstra.queue st
         ∧ ties_by_insertion (Dijkstra.pushed st)
             (λ a, distance (Dijkstra.heap st a))
             (stable_sort (Dijkstra.by_distance (Dijkstra.heap st))
                          (Dijkstra.queue st)))
  ∧ (∃ st pre post,
       astar_after 20 tie_heap tie_grid 9%nat 10%nat 7 = Some st
       ∧ Astar.openSet st = pre ++ 6%nat :: post
       ∧ Forall (λ x, num_gt (fScore (Astar.heap st x))
                             (fScore (Astar.heap st 6%nat)) = true) pre
       ∧ Forall (λ x, num_gt (fScore (Astar.heap st 6%nat))
                             (fScore (Astar.heap st x)) = false) post).
Proof.
  destruct (C5_tie_break tie_heap tie_grid 9%nat 10%nat 20 7) as [HD HA].
  split.
  - clear HA.
    assert (HsD : match dijkstra_after 20 tie_heap tie_grid 9%nat 10%nat 7 with
                  | Some st => negb (bool_decide (Dijkstra.visited st = []))
                  | None => false
                  end = true) by (vm_compute; reflexivity).
    destruct (dijkstra_after 20 tie_heap tie_grid 9%nat 10%nat 7) as [st|];
      [|discriminate HsD].
    exists st. destruct HD as (_ & Hpq & _ & Hties).
    split; [reflexivity|]. split; [|exact Hties].
    destruct Hpq as [Hpq|(Hv & _)]; [exact Hpq|].
    rewrite Hv in HsD. discriminate HsD.
  - clear HD.
    assert (Hobs :
      (λ st, stable_sort (Astar.by_fScore (Astar.heap st)) (Astar.openSet st))
        <$> astar_after 20 tie_heap tie_grid 9%nat 10%nat 7
      = Some [6; 2]%nat) by (vm_compute; reflexivity).
    destruct (astar_after 20 tie_heap tie_grid 9%nat 10%nat 7) as [st|];
      [|discriminate Hobs].
    simpl in Hobs. injection Hobs as Hsort. rewrite Hsort in HA.
    destruct HA as (pre & post & Hopen & Hpre & Hpost). exists st, pre, post.
    split_and!; [reflexivity|exact Hopen|exact Hpre|exact Hpost].
Defined.

(** C6 fails on the code: dijkstra does not reset the visited flag of a
    start node that is not a node of the grid.  In the comparison, the
    button pressed twice: the first time dijkstra visits nine nodes and
    astar eight; the second time dijkstra discards the start node, which
    carries the visited flag of the first run, and visits nothing, while
    astar visits eight nodes again and finds the path of five nodes.  (The
    animation between the two runs writes display tags to copies of the
    grid, and the second run starts from a copy with these tags
    cleared.) *)
Theorem C6_second_comparison :
  ∃ st1 rD1 rA1 st2 rD2 rA2,
    App4.visualizeAlgorithm 30 (detached_state4 App4.A_compare)
    = Ok (App4.Results st1 [rD1; rA1])
    ∧ App4.visualizeAlgorithm 30
        (settled_state4 App4.A_compare (App4.store st1) (App4.next st1)
           (App4.grid st1) 9%nat 8%nat)
      = Ok (App4.Results st2 [rD2; rA2])
    ∧ length (visitedNodes rD1) = 9%nat ∧ length (visitedNodes rA1) = 8%nat
    ∧ rD2 = mkResult [] []
    ∧ length (visitedNodes rA2) = 8%nat ∧ length (path rA2) = 5%nat.
Proof.
  assert (Hobs :
    match App4.visualizeAlgorithm 30 (detached_state4 App4.A_compare) with
    | Ok (App4.Results st1 [rD1; rA1]) =>
        match App4.visualizeAlgorithm 30
                (settled_state4 App4.A_compare (App4.store st1) (App4.next st1)
                   (App4.grid st1) 9%nat 8%nat) with
        | Ok (App4.Results st2 [rD2; rA2]) =>
            Some (length (visitedNodes rD1), length (visitedNodes rA1),
                  visitedNodes rD2, path rD2,
                  length (visitedNodes rA2), length (path rA2))
        | _ => None
        end
    | _ => None
    end = Some (9%nat, 8%nat, [], [], 8%nat, 5%nat))
    by (vm_compute; reflexivity).
  destruct (App4.visualizeAlgorithm 30 (detached_state4 App4.A_compare))
    as [[st1|st1 [|rD1 [|rA1 [|? ?]]]]| |]; try discriminate Hobs.
  destruct (App4.visualizeAlgorithm 30 _)
    as [[st2|st2 [|[vD pD] [|rA2 [|? ?]]]]| |] eqn:E2; try discriminate Hobs.
  simpl in Hobs. injection Hobs as H1 H2 -> -> H5 H6.
  exists st1, rD1, rA1, st2, (mkResult [] []), rA2.
  split; [reflexivity|]. split; [exact E2|]. done.
Qed.

(** C7 fails on the code: two calls on grids with the same walls, the
    same start node and the same end node give different results.  The
    button pressed twice with dijkstra selected: the first run visits nine
    nodes and returns the path of five nodes; after its animation the grid
    has the same walls, and the second run, whose start node carries the
    visited flag of the first, returns no visited node and no path. *)
Theorem C7_second_run :
  ∃ st1 r1 h2 next2 g2 st3 r2,
    App4.visualizeAlgorithm 30 (detached_state4 App4.A_dijkstra)
    = Ok (App4.Results st1 [r1])
    ∧ Animation.animate (App4.store st1, App4.next st1, App4.grid st1) r1
      = Ok (h2, next2, g2, None)
    ∧ App4.visualizeAlgorithm 30
        (settled_state4 App4.A_dijkstra h2 next2 g2 9%nat 8%nat)
      = Ok (App4.Results st3 [r2])
    ∧ same_layoutb detached_store ex_grid h2 g2 = true
    ∧ length (visitedNodes r1) = 9%nat
    ∧ pos h2 <$> path r1 = [(0, 0); (1, 0); (2, 0); (2, 1); (2, 2)]
    ∧ r2 = mkResult [] [].
Proof.
  assert (Hobs :
    match App4.visualizeAlgorithm 30 (detached_state4 App4.A_dijkstra) with
    | Ok (App4.Results st1 [r1]) =>
        match Animation.animate
                (App4.store st1, App4.next st1, App4.grid st1) r1 with
        | Ok (h2, next2, g2, None) =>
            match App4.visualizeAlgorithm 30
                    (settled_state4 App4.A_dijkstra h2 next2 g2 9%nat 8%nat)
            with
            | Ok (App4.Results st3 [r2]) =>
                Some (same_layoutb detached_store ex_grid h2 g2,
                      length (visitedNodes r1), pos h2 <$> path r1,
                      visitedNodes r2, path r2)
            | _ => None
            end
        | _ => None
        end
    | _ => None
    end = Some (true, 9%nat, [(0, 0); (1, 0); (2, 0); (2, 1); (2, 2)], [], []))
    by (vm_compute; reflexivity).
  destruct (App4.visualizeAlgorithm 30 (detached_state4 App4.A_dijkstra))
    as [[st1|st1 [|r1 [|? ?]]]| |]; try discriminate Hobs.
  destruct (Animation.animate _ r1) as [[[[h2 next2] g2] [err|]]| |] eqn:E2;
    try discriminate Hobs.
  destruct (App4.visualizeAlgorithm 30 _)
    as [[st3|st3 [|[v2 p2] [|? ?]]]| |] eqn:E3; try discriminate Hobs.
  simpl in Hobs. injection Hobs as H1 H2 H3 -> ->.
  exists st1, r1, h2, next2, g2, st3, (mkResult [] []).
  split; [reflexivity|]. split; [exact E2|]. split; [exact E3|]. done.
Qed.



(** C9 fails on the code: the path need not begin with the start node,
    because no function resets the predecessor link of a start node that
    is not a node of the grid, and the check of dijkstra and astar asks
    for a first node of cost zero only.  bfs on the grid [stale_grid]
    returns the path [3; 2; 1] for the start node 2.  With astar selected:
    a run from the start node 9, its animation, a click with the start
    tool on the cell [(1, 0)], which the run has visited, and a second
    run: the path of the second run begins with the node 9, the start
    node of the first run, and not with its own start node. *)
Theorem C9_path_head_stale :
  (∃ h' r, Bfs.bfs 5 stale_heap stale_grid 2%nat 1%nat = Ok (h', r)
           ∧ head (path r) = Some 3%nat)
  ∧ ∃ st1 r1 h2 next2 g2 ed3 s st4 r2,
      App4.visualizeAlgorithm 30 (detached_state4 App4.A_astar)
      = Ok (App4.Results st1 [r1])
      ∧ Animation.animate (App4.store st1, App4.next st1, App4.grid st1) r1
        = Ok (h2, next2, g2, None)
      ∧ Editor.handleNodeClick 1 0
          (Editor.mkState
             (settled_state4 App4.A_astar h2 next2 g2 9%nat 8%nat)
             Editor.Tool_start false)
        = Ok ed3
      ∧ App4.startNode (Editor.app ed3) = Some s
      ∧ App4.visualizeAlgorithm 30 (Editor.app ed3)
        = Ok (App4.Results st4 [r2])
      ∧ s ≠ 9%nat
      ∧ pos (App4.store st4) s = (1, 0)
      ∧ head (path r2) = Some 9%nat
      ∧ pos (App4.store st4) <$> path r2
        = [(0, 0); (1, 0); (2, 0); (2, 1); (2, 2)].
Proof.
  split.
  { assert (Hobs : match Bfs.bfs 5 stale_heap stale_grid 2%nat 1%nat with
                   | Ok (_, r) => head (path r)
                   | _ => None
                   end = Some 3%nat) by (vm_compute; reflexivity).
    destruct (Bfs.bfs 5 stale_heap stale_grid 2%nat 1%nat)
      as [[h' r]| |]; [|discriminate Hobs|discriminate Hobs].
    by exists h', r. }
  assert (Hobs :
    match App4.visualizeAlgorithm 30 (detached_state4 App4.A_astar) with
    | Ok (App4.Results st1 [r1]) =>
        match Animation.animate
                (App4.store st1, App4.next st1, App4.grid st1) r1 with
        | Ok (h2, next2, g2, None) =>
            match Editor.handleNodeClick 1 0
                    (Editor.mkState
                       (settled_state4 App4.A_astar h2 next2 g2 9%nat 8%nat)
                       Editor.Tool_start false) with
            | Ok ed3 =>
                match App4.startNode (Editor.app ed3),
                      App4.visualizeAlgorithm 30 (Editor.app ed3) with
                | Some s, Ok (App4.Results st4 [r2]) =>
                    Some (bool_decide (s ≠ 9%nat), pos (App4.store st4) s,
                          head (path r2), pos (App4.store st4) <$> path r2)
                | _, _ => None
                end
            | _ => None
            end
        | _ => None
        end
    | _ => None
    end = Some (true, (1, 0), Some 9%nat,
                [(0, 0); (1, 0); (2, 0); (2, 1); (2, 2)]))
    by (vm_compute; reflexivity).
  destruct (App4.visualizeAlgorithm 30 (detached_state4 App4.A_astar))
    as [[st1|st1 [|r1 [|? ?]]]| |]; try discriminate Hobs.
  destruct (Animation.animate _ r1) as [[[[h2 next2] g2] [err|]]| |] eqn:E2;
    try discriminate Hobs.
  destruct (Editor.handleNodeClick 1 0 _) as [ed3| |] eqn:E3;
    try discriminate Hobs.
  destruct (App4.startNode (Editor.app ed3)) as [s|] eqn:E4;
    try discriminate Hobs.
  destruct (App4.visualizeAlgorithm 30 (Editor.app ed3))
    as [[st4|st4 [|r2 [|? ?]]]| |] eqn:E5; try discriminate Hobs.
  injection Hobs as H1%bool_decide_eq_true H2 H3 H4 H5.
  exists st1, r1, h2, next2, g2, ed3, s, st4, r2.
  split; [reflexivity|]. split; [exact E2|]. split; [exact E3|].
  split; [exact E4|]. split; [exact E5|].
  split; [exact H1|]. split; [|by split].
  unfold pos. by rewrite H2, H3.
Qed.



(** ** Shortest paths and explored cells *)

Lemma nodes_rel_inj (h : Heap) (g : Grid) (l l' : list addr) (lp : list P) :
  wf_grid h g → nodes_rel h g l lp → nodes_rel h g l' lp → l = l'.
Proof.
  intros Hwf [Hl <-]. revert l'.
  induction l as [|a l IH]; intros l' [Hl' Heq].
  { by apply fmap_nil_inv in Heq. }
  destruct l' as [|a' l']; [done|].
  apply Forall_cons in Hl as [Ha Hl]. apply Forall_cons in Hl' as [Ha' Hl'].
  rewrite !fmap_cons in Heq.
  assert (Hp : pos h a = pos h a') by congruence.
  assert (Ht : pos h <$> l' = pos h <$> l) by congruence.
  f_equal.
  - by apply (pos_inj h g).
  - by apply IH.
Qed.

Lemma nodes_rel_elem_of (h : Heap) (g : Grid) (l : list addr) (lp : list P)
  (a : addr) :
  wf_grid h g → nodes_rel h g l lp → in_grid g a → a ∈ l ↔ pos h a ∈ lp.
Proof.
  intros Hwf [Hl <-] Ha. rewrite list_elem_of_fmap. split.
  - intros Hin. by exists a.
  - intros (b & Hp & Hb). rewrite Forall_forall in Hl.
    by rewrite (pos_inj h g a b Hwf Ha (Hl _ Hb) Hp).
Qed.

(** A walk of [n] moves from the start gives a path of [S n] nodes. *)
Lemma reach_valid_path (h : Heap) (g : Grid) (s : addr) (n : nat) (p : P) :
  wf_grid h g → in_grid g s → is_wall h s = false →
  Search.reach (grid_length g) (grid_cols g) (wall_at h g) (pos h s) n p →
  ∃ x q, pos h x = p ∧ valid_pathb h g s x q = true ∧ length q = S n.
Proof.
  intros Hwf Hs Hsw. induction 1 as [|n p p' Hr IH Hadj Hpass].
  - exists s, [s]. split_and!; [done| |done].
    apply valid_pathb_spec; [done|]. split_and!; try done.
    by constructor.
  - destruct IH as (x & q & Hx & Hq & Hlen).
    apply valid_pathb_spec in Hq as (Hh & Hl & Hall & Hm); [|done].
    destruct Hpass as [Hinb Hw].
    destruct (cell g p'.1 p'.2) as [y|] eqn:Hcell.
    2:{ exfalso. unfold Search.inb in Hinb.
        assert (Hsome : is_Some (cell g p'.1 p'.2))
          by (by apply (cell_in_bounds h)).
        rewrite Hcell in Hsome. by destruct Hsome. }
    assert (Hy : in_grid g y) by (by eexists _, _).
    assert (Hpy : pos h y = p').
    { rewrite (wf_pos _ _ Hwf _ _ _ Hcell). by destruct p'. }
    exists y, (q ++ [y]). split_and!; [done| |rewrite length_app; simpl; lia].
    apply valid_pathb_spec; [done|]. split_and!.
    + destruct q; [done|]. done.
    + by rewrite last_snoc.
    + apply Forall_app. split; [done|]. constructor; [|done].
      split; [done|]. unfold wall_at in Hw. by rewrite Hcell in Hw.
    + apply last_Some in Hl as [q' ->].
      clear Hh Hall Hlen. revert Hm. induction q' as [|a q' IHq].
      * intros _. simpl. rewrite andb_true_r. apply moveb_adjacent.
        by rewrite Hx, Hpy.
      * intros Hm. destruct q' as [|b q'].
        -- simpl in *. apply andb_true_iff in Hm as [Hab _].
           rewrite Hab. simpl. rewrite andb_true_r. apply moveb_adjacent.
           by rewrite Hx, Hpy.
        -- change (moveb h a b && movesb h ((b :: q') ++ [x]) = true) in Hm.
           apply andb_true_iff in Hm as [Hab Hm].
           change (moveb h a b && movesb h (((b :: q') ++ [x]) ++ [y]) = true).
           apply andb_true_iff. split; [done|]. by apply IHq.
Qed.

Section found_paths.
Variables (h : Heap) (g : Grid) (s e : addr) (hfun : P → Z).
Hypothesis Hwf : wf_grid h g.
Hypothesis Hs : in_grid g s.
Hypothesis Hsw : is_wall h s = false.
Hypothesis h_cons : ∀ p q, Search.adjacent p q → hfun p <= hfun q + 1.
Hypothesis h_goal : hfun (pos h e) = 0.
Local Set Default Proof Using "Hwf Hs Hsw h_cons h_goal".

Local Abbreviation rows := (grid_length g).
Local Abbreviation cols := (grid_cols g).
Local Abbreviation wallf := (wall_at h g).
Local Abbreviation sinv := (state_inv rows cols wallf hfun (pos h e) (pos h s)).
Local Abbreviation found := (found rows cols wallf hfun (pos h e) (pos h s)).

Lemma found_valid_shortest (h' : Heap) (r : Result) (vs p : list P)
  (st : Search.state) :
  in_grid g e → result_rel h g (h', r) (vs, p) → sinv st → found st vs p →
  (∃ l, visitedNodes r = l ++ [e] ∧ e ∉ l)
  ∧ valid_pathb h g s e (path r) = true
  ∧ ∀ q, valid_pathb h g s e q = true → (length (path r) <= length q)%nat.
Proof.
  intros He HR HI Hf.
  pose proof (in_grid_passable _ _ _ Hwf Hs Hsw) as Hp.
  destruct (found_facts _ _ _ _ _ _ Hp h_cons h_goal _ _ _ HI Hf)
    as (Hnd & _ & Hlast & Hhd & Hpl & Hwalk & Hopt & _).
  destruct (result_ends h g s e h' r vs p Hwf Hs He HR Hhd Hpl) as [Hrh Hrl].
  destruct HR as (_ & [Hvg Hv] & [Hpg Hpp]). simpl in *.
  split_and!.
  - apply last_Some in Hlast as [lv Hlv]. rewrite Hlv in Hv.
    apply fmap_app_inv in Hv as (l1 & l2 & -> & Hl2 & Hvis).
    destruct l2 as [|e' [|? ?]]; try done.
    assert (He' : pos h e' = pos h e) by (simpl in Hl2; congruence).
    assert (e' = e) as ->.
    { apply (pos_inj h g); [done| |done|done].
      rewrite Forall_forall in Hvg. apply Hvg. rewrite Hvis.
      apply elem_of_app. right. by left. }
    exists l1. split; [done|]. intros Hin.
    rewrite Hlv in Hnd. apply NoDup_app in Hnd as (_ & Hnd & _).
    apply (Hnd (pos h e)); [|by left].
    apply list_elem_of_fmap. by exists e.
  - apply valid_pathb_spec; [done|]. subst p.
    destruct (walk_movesb h g (path r) Hwf Hpg Hwalk) as [Hm Ht].
    split_and!; try done.
    destruct (path r) as [|a t]; [done|]. simpl in Hrh. injection Hrh as ->.
    apply Forall_cons in Hpg as [_ Hpg]. simpl in Ht.
    constructor; [done|].
    apply Forall_forall. intros x Hx. rewrite Forall_forall in Hpg, Ht. auto.
  - intros q Hq.
    destruct (valid_path_reach h g s e q Hwf Hq) as (_ & _ & _ & n & Hn & Hr).
    specialize (Hopt n Hr). rewrite <- Hpp, length_fmap in Hopt. lia.
Qed.

(** Whatever way the search ends, the nodes it has recorded are nodes
    that a path leads to. *)
Lemma visited_reachable (h' : Heap) (r : Result) (vs p : list P)
  (st : Search.state) (x : addr) :
  result_rel h g (h', r) (vs, p) → sinv st →
  found st vs p ∨ exhausted st vs p →
  x ∈ visitedNodes r → ∃ q, valid_pathb h g s x q = true.
Proof.
  intros HR HI Hc Hx.
  pose proof (in_grid_passable _ _ _ Hwf Hs Hsw) as Hp.
  destruct HR as (_ & [Hvg Hv] & _). simpl in *.
  assert (Hxg : in_grid g x) by (rewrite Forall_forall in Hvg; auto).
  assert (Hxp : pos h x ∈ vs).
  { rewrite <- Hv. apply list_elem_of_fmap. by exists x. }
  assert (∃ m, Search.reach rows cols wallf (pos h s) m (pos h x)) as [m Hm].
  { destruct Hc as [Hf|Hx'].
    - by eapply found_reachable.
    - destruct (exhausted_facts _ _ _ _ _ _ Hp h_cons h_goal _ _ _ HI Hx')
        as (_ & _ & _ & _ & Hr & _). auto. }
  destruct (reach_valid_path h g s m _ Hwf Hs Hsw Hm) as (y & q & Hy & Hq & _).
  exists q. assert (y = x) as <-; [|done].
  apply (pos_inj h g); [done| |done|done].
  apply valid_pathb_spec in Hq as (_ & Hl & Hall & _); [|done].
  rewrite Forall_forall in Hall. apply Hall.
  apply last_Some in Hl as [l' ->]. apply elem_of_app. right. by left.
Qed.

Lemma exhausted_explored (h' : Heap) (r : Result) (vs p : list P)
  (st : Search.state) :
  result_rel h g (h', r) (vs, p) → sinv st → exhausted st vs p →
  path r = []
  ∧ (∀ q, valid_pathb h g s e q = false)
  ∧ ∀ x q, valid_pathb h g s x q = true → x ∈ visitedNodes r.
Proof.
  intros HR HI Hx.
  pose proof (in_grid_passable _ _ _ Hwf Hs Hsw) as Hp.
  destruct (exhausted_facts _ _ _ _ _ _ Hp h_cons h_goal _ _ _ HI Hx)
    as (_ & _ & -> & Hno & _ & Hall).
  destruct HR as (_ & Hv & [_ Hpp]). simpl in *.
  split_and!.
  - by apply fmap_nil_inv in Hpp.
  - intros q. destruct (valid_pathb h g s e q) eqn:Hq; [|done].
    destruct (valid_path_reach h g s e q Hwf Hq) as (_ & _ & _ & n & _ & Hr).
    by destruct (Hno n).
  - intros x q Hq.
    destruct (valid_path_reach h g s x q Hwf Hq) as (_ & _ & Hxg & n & _ & Hr).
    apply (nodes_rel_elem_of h g _ vs); [done|done|done|]. by eapply Hall.
Qed.
End found_paths.

Section runs_on_grid.
Variables (h : Heap) (g : Grid) (s e : addr) (fuel : nat).
Hypothesis Hwf : wf_grid h g.
Hypothesis Hs : in_grid g s.
Hypothesis Hsw : is_wall h s = false.
Hypothesis He : in_grid g e.
Hypothesis Hfuel : (grid_size g < fuel)%nat.
Local Set Default Proof Using "Hwf Hs Hsw He Hfuel".

Local Abbreviation explored := (explored h g s e).

Lemma search_explored (hfun : P → Z) (h' : Heap) (r : Result) (vs p : list P)
  (st : Search.state) :
  (∀ p q, Search.adjacent p q → hfun p <= hfun q + 1) →
  hfun (pos h e) = 0 →
  result_rel h g (h', r) (vs, p) →
  state_inv (grid_length g) (grid_cols g) (wall_at h g) hfun (pos h e)
            (pos h s) st →
  found (grid_length g) (grid_cols g) (wall_at h g) hfun (pos h e) (pos h s)
        st vs p ∨ exhausted st vs p →
  explored r.
Proof.
  intros Hc Hg HR HI Hcase. split_and!.
  - destruct Hcase as [Hf|Hx].
    + pose proof (in_grid_passable _ _ _ Hwf Hs Hsw) as Hp.
      destruct (found_facts _ _ _ _ _ _ Hp Hc Hg _ _ _ HI Hf)
        as (_ & _ & _ & Hhd & Hpl & _ & _ & Hr & _).
      destruct HR as (_ & _ & [Hpg Hpp]). simpl in *.
      assert (Hne : path r ≠ []).
      { intros Hnil. rewrite Hnil in Hpp. simpl in Hpp. by subst p. }
      split; [done|]. intros Hno. exfalso.
      destruct (reach_valid_path h g s _ _ Hwf Hs Hsw Hr)
        as (y & q & Hy & Hq & _).
      apply valid_pathb_spec in Hq as Hq'; [|done].
      destruct Hq' as (_ & Hl & Hall & _).
      assert (Hyg : in_grid g y).
      { rewrite Forall_forall in Hall. apply Hall.
        apply last_Some in Hl as [l' ->]. apply elem_of_app. right. by left. }
      assert (y = e) as -> by (by apply (pos_inj h g)).
      by rewrite Hno in Hq.
    + destruct (exhausted_explored h g s e hfun Hwf Hs Hsw Hc Hg _ _ _ _ _
                  HR HI Hx) as (Hnil & Hno & _). done.
  - intros x Hx.
    by eapply (visited_reachable h g s e hfun Hwf Hs Hsw Hc Hg).
  - intros Hnil x q Hq. destruct Hcase as [Hf|Hx].
    + exfalso.
      pose proof (in_grid_passable _ _ _ Hwf Hs Hsw) as Hp.
      destruct (found_facts _ _ _ _ _ _ Hp Hc Hg _ _ _ HI Hf)
        as (_ & _ & _ & Hhd & _).
      destruct HR as (_ & _ & [Hpg Hpp]). simpl in *.
      rewrite Hnil in Hpp. simpl in Hpp. by subst p.
    + destruct (exhausted_explored h g s e hfun Hwf Hs Hsw Hc Hg _ _ _ _ _
                  HR HI Hx) as (_ & _ & Hall). eauto.
Qed.

Lemma dijkstra_explored :
  ∃ h' r, Dijkstra.dijkstra fuel h g s e = Ok (h', r) ∧ explored r.
Proof.
  destruct (dijkstra_run h g s e fuel Hwf Hs Hsw Hfuel)
    as (h' & r & vs & p & st & Hrun & HR & _ & HI & Hc).
  exists h', r. split; [done|].
  by apply (search_explored (λ _, 0) h' r vs p st hz_cons (hz_goal _)).
Qed.

Lemma astar_explored :
  ∃ h' r, Astar.astar fuel h g s e = Ok (h', r) ∧ explored r.
Proof.
  destruct (astar_run h g s e fuel Hwf Hs Hsw Hfuel)
    as (h' & r & vs & p & st & Hrun & HR & _ & HI & Hc).
  exists h', r. split; [done|].
  by apply (search_explored (λ p, manhattan p (pos h e)) h' r vs p st
              (manhattan_consistent _) (manhattan_goal _)).
Qed.

Lemma bfs_explored :
  ∃ h' r, Bfs.bfs fuel h g s e = Ok (h', r) ∧ explored r.
Proof.
  destruct (bfs_run h g s e fuel Hwf Hs Hsw Hfuel)
    as (h' & r & vs & p & st & Hrun & HR & _ & HI & Hc).
  exists h', r. split; [done|].
  by apply (search_explored (λ _, 0) h' r vs p st hz_cons (hz_goal _)).
Qed.

(** bfs.ts and dijkstra.ts compute the same lists. *)
Lemma bfs_dijkstra_same :
  ∃ hB hD r,
    Bfs.bfs fuel h g s e = Ok (hB, r)
    ∧ Dijkstra.dijkstra fuel h g s e = Ok (hD, r).
Proof using Hwf Hs Hsw Hfuel.
  destruct (bfs_run h g s e fuel Hwf Hs Hsw Hfuel)
    as (hB & rB & vs & p & st & Hrun & HR & Hsr & _).
  destruct (dijkstra_run h g s e fuel Hwf Hs Hsw Hfuel)
    as (hD & rD & vs' & p' & st' & Hrun' & HR' & Hsr' & _).
  rewrite Hsr in Hsr'. injection Hsr' as <- <-.
  exists hB, hD, rB. split; [done|]. rewrite Hrun'. do 2 f_equal.
  destruct HR as (_ & Hv & Hp), HR' as (_ & Hv' & Hp'). simpl in *.
  destruct rB as [v1 p1], rD as [v2 p2]. simpl in *. f_equal.
  - by apply (nodes_rel_inj h g _ _ vs).
  - by apply (nodes_rel_inj h g _ _ p).
Qed.

(** dijkstra.ts and astar.ts return paths of the same length. *)
Lemma dijkstra_astar_length :
  ∃ hD rD hA rA,
    Dijkstra.dijkstra fuel h g s e = Ok (hD, rD)
    ∧ Astar.astar fuel h g s e = Ok (hA, rA)
    ∧ length (path rD) = length (path rA).
Proof using Hwf Hs Hsw Hfuel.
  pose proof (in_grid_passable _ _ _ Hwf Hs Hsw) as Hp.
  destruct (dijkstra_run h g s e fuel Hwf Hs Hsw Hfuel)
    as (hD & rD & vsD & pD & stD & HrunD & HRD & _ & HID & HcD).
  destruct (astar_run h g s e fuel Hwf Hs Hsw Hfuel)
    as (hA & rA & vsA & pA & stA & HrunA & HRA & _ & HIA & HcA).
  exists hD, rD, hA, rA. split_and!; [done|done|].
  destruct HRD as (_ & _ & HpD), HRA as (_ & _ & HpA). simpl in *.
  rewrite (nodes_rel_length _ _ _ _ HpD), (nodes_rel_length _ _ _ _ HpA).
  destruct HcD as [HfD|HxD], HcA as [HfA|HxA].
  - destruct (found_facts _ _ _ _ _ _ Hp hz_cons (hz_goal _) _ _ _ HID HfD)
      as (_ & _ & _ & HhD & _ & _ & HoD & HrD & _).
    destruct (found_facts _ _ _ _ _ _ Hp (manhattan_consistent _)
                (manhattan_goal _) _ _ _ HIA HfA)
      as (_ & _ & _ & HhA & _ & _ & HoA & HrA & _).
    pose proof (HoD _ HrA). pose proof (HoA _ HrD).
    destruct pD; [done|]. destruct pA; [done|]. simpl in *. lia.
  - destruct (found_facts _ _ _ _ _ _ Hp hz_cons (hz_goal _) _ _ _ HID HfD)
      as (_ & _ & _ & _ & _ & _ & _ & HrD & _).
    destruct (exhausted_facts _ _ _ _ _ _ Hp (manhattan_consistent _)
                (manhattan_goal _) _ _ _ HIA HxA) as (_ & _ & _ & Hno & _).
    by destruct (Hno _ HrD).
  - destruct (found_facts _ _ _ _ _ _ Hp (manhattan_consistent _)
                (manhattan_goal _) _ _ _ HIA HfA)
      as (_ & _ & _ & _ & _ & _ & _ & HrA & _).
    destruct (exhausted_facts _ _ _ _ _ _ Hp hz_cons (hz_goal _) _ _ _ HID HxD)
      as (_ & _ & _ & Hno & _).
    by destruct (Hno _ HrA).
  - destruct HxD as (_ & _ & ->), HxA as (_ & _ & ->). done.
Qed.
End runs_on_grid.

Lemma NoDup_all_eq {A} (l : list A) (x : A) :
  NoDup l → (∀ y, y ∈ l → y = x) → last l = Some x → l = [x].
Proof.
  intros Hnd Hall Hlast. destruct l as [|a [|b l]]; [done| |].
  - simpl in Hlast. by injection Hlast as ->.
  - exfalso. assert (a = x) as -> by (apply Hall; by left).
    assert (b = x) as -> by (apply Hall; right; by left).
    apply NoDup_cons in Hnd as [Hn _]. apply Hn. by left.
Qed.

Lemma reach_zero rows cols wallf s p :
  Search.reach rows cols wallf s 0 p → p = s.
Proof. by inversion 1. Qed.

Lemma manhattan_nonneg (goal p : P) : 0 <= manhattan p goal.
Proof. unfold manhattan. lia. Qed.

Section same_cell_runs.
Variables (h : Heap) (g : Grid) (s e : addr) (fuel : nat).
Hypothesis Hwf : wf_grid h g.
Hypothesis Hs : in_grid g s.
Hypothesis Hsw : is_wall h s = false.
Hypothesis Hse : same_cell h s e = true.
Hypothesis Hfuel : (grid_size g < fuel)%nat.
Local Set Default Proof Using "Hwf Hs Hsw Hse Hfuel".

Lemma same_cell_pos : pos h e = pos h s.
Proof.
  unfold same_cell in Hse. apply andb_true_iff in Hse as [H1 H2].
  apply Z.eqb_eq in H1, H2. unfold pos. congruence.
Qed.

Lemma search_same_cell (hfun : P → Z) (h' : Heap) (r : Result) (vs p : list P)
  (st : Search.state) :
  (∀ p q, Search.adjacent p q → hfun p <= hfun q + 1) →
  hfun (pos h e) = 0 → (∀ p, 0 <= hfun p) →
  result_rel h g (h', r) (vs, p) →
  state_inv (grid_length g) (grid_cols g) (wall_at h g) hfun (pos h e)
            (pos h s) st →
  found (grid_length g) (grid_cols g) (wall_at h g) hfun (pos h e) (pos h s)
        st vs p ∨ exhausted st vs p →
  r = mkResult [s] [s].
Proof.
  intros Hc Hg Hnn HR HI Hcase.
  pose proof (in_grid_passable _ _ _ Hwf Hs Hsw) as Hp.
  pose proof same_cell_pos as Hpe.
  assert (Hr0 : Search.reach (grid_length g) (grid_cols g) (wall_at h g)
                  (pos h s) 0 (pos h e)).
  { rewrite Hpe. constructor. }
  destruct Hcase as [Hf|Hx].
  2:{ destruct (exhausted_facts _ _ _ _ _ _ Hp Hc Hg _ _ _ HI Hx)
        as (_ & _ & _ & Hno & _). by destruct (Hno _ Hr0). }
  destruct (found_facts _ _ _ _ _ _ Hp Hc Hg _ _ _ HI Hf)
    as (Hnd & _ & Hlast & Hhd & Hpl & _ & Hopt & _ & Hb & _).
  specialize (Hopt _ Hr0).
  assert (p = [pos h s]) as ->.
  { destruct p as [|x [|y p]]; simpl in *; [done| |lia]. congruence. }
  assert (vs = [pos h e]) as ->.
  { apply NoDup_all_eq; [done| |done].
    intros x Hx. destruct (Hb x Hx) as [->|(m & Hm & Hle)]; [done|].
    simpl in Hle.
    pose proof (Hnn x).
    assert (m = 0%nat) as -> by lia.
    apply reach_zero in Hm. congruence. }
  destruct HR as (_ & Hv & Hpp). simpl in *.
  destruct r as [v pa]. simpl in *. f_equal.
  - apply (nodes_rel_inj h g _ _ [pos h e]); [done|done|].
    split; [by constructor|]. simpl. by rewrite Hpe.
  - apply (nodes_rel_inj h g _ _ [pos h s]); [done|done|].
    split; [by constructor|done].
Qed.

Lemma same_cell_results :
  (∃ h', Bfs.bfs fuel h g s e = Ok (h', mkResult [s] [s]))
  ∧ (∃ h', Dijkstra.dijkstra fuel h g s e = Ok (h', mkResult [s] [s]))
  ∧ (∃ h', Astar.astar fuel h g s e = Ok (h', mkResult [s] [s])).
Proof.
  split_and!.
  - destruct (bfs_run h g s e fuel Hwf Hs Hsw Hfuel)
      as (h' & r & vs & p & st & Hrun & HR & _ & HI & Hc).
    exists h'. rewrite Hrun. do 2 f_equal.
    by apply (search_same_cell (λ _, 0) h' r vs p st hz_cons (hz_goal _)).
  - destruct (dijkstra_run h g s e fuel Hwf Hs Hsw Hfuel)
      as (h' & r & vs & p & st & Hrun & HR & _ & HI & Hc).
    exists h'. rewrite Hrun. do 2 f_equal.
    by apply (search_same_cell (λ _, 0) h' r vs p st hz_cons (hz_goal _)).
  - destruct (astar_run h g s e fuel Hwf Hs Hsw Hfuel)
      as (h' & r & vs & p & st & Hrun & HR & _ & HI & Hc).
    exists h'. rewrite Hrun. do 2 f_equal.
    apply (search_same_cell (λ p, manhattan p (pos h e)) h' r vs p st
              (manhattan_consistent _) (manhattan_goal _)); try done.
    intros q. apply manhattan_nonneg.
Qed.
End same_cell_runs.

(** ** The nodes that a run touches *)

Lemma fold_left_pres_in {A B} (I : A → Prop) (f : A → B → A) (l : list B) :
  (∀ a b, b ∈ l → I a → I (f a b)) → ∀ a, I a → I (fold_left f l a).
Proof.
  induction l as [|b l IH]; intros Hf a Ha; simpl; [done|].
  apply IH.
  - intros a' b' Hb'. apply Hf. by right.
  - apply Hf; [by left|done].
Qed.

Lemma push_cell_in_grid (g : Grid) (b : bool) (r c : Z) (acc acc' : list addr) :
  (if b then push_cell g r c acc else Ok acc) = Ok acc' →
  Forall (in_grid g) acc → Forall (in_grid g) acc'.
Proof.
  destruct b; [|by intros [= <-]]. unfold push_cell.
  destruct (cell g r c) as [a|] eqn:Hc; simpl; [|done].
  intros [= <-] Hacc. apply Forall_app. split; [done|].
  constructor; [|done]. by exists r, c.
Qed.

Lemma four_directions_in_grid (h : Heap) (a : addr) (g : Grid) (ns : list addr) :
  four_directions h a g = Ok ns → Forall (in_grid g) ns.
Proof.
  unfold four_directions.
  destruct (if 0 <? row (h a) then _ else _) as [n1| |] eqn:H1; simpl; [|done|done].
  destruct (if row (h a) <? _ then _ else _) as [n2| |] eqn:H2; simpl;
    [|done|done].
  destruct (if 0 <? col (h a) then _ else _) as [n3| |] eqn:H3; simpl;
    [|done|done].
  destruct (row0_length g) as [w| |]; simpl; [|done|done].
  intros H4.
  apply push_cell_in_grid in H1; [|done].
  apply push_cell_in_grid in H2; [|done].
  apply push_cell_in_grid in H3; [|done].
  by apply push_cell_in_grid in H4.
Qed.

Section footprint.
Variables (h : Heap) (g : Grid) (s : addr).

Local Abbreviation own := (own g s).
Local Abbreviation kept := (kept h g s).
Local Abbreviation clear_of_walls := (clear_of_walls h g s).

Lemma kept_upd (h' : Heap) (a : addr) (f : Node → Node) :
  scratch_only f → own a → kept h' → kept (upd h' a f).
Proof.
  intros Hf Ha [Hfr Ho]. split; [by apply frame_upd|].
  intros b Hb. rewrite upd_ne; [by apply Ho|]. by intros ->.
Qed.

Lemma kept_init (f : Heap → Node → Node) (h1 : Heap) :
  (∀ h2, scratch_only (f h2)) → init_nodes f g h = Ok h1 → kept h1.
Proof.
  intros Hf Hi. split.
  - by apply (init_nodes_frame f g h h h1); [|apply frame_refl|].
  - intros a Ha. apply (init_nodes_other f g h h1); [|done].
    intros Hg. apply Ha. by left.
Qed.

Lemma bfs_footprint (fuel : nat) (e : addr) (h' : Heap) (r : Result) :
  Bfs.bfs fuel h g s e = Ok (h', r) →
  kept h' ∧ Forall (λ x, own x ∧ (x = s ∨ is_wall h x = false)) (visitedNodes r).
Proof.
  unfold Bfs.bfs, Bfs.init.
  destruct (init_nodes Bfs.reset g h) as [h1| |] eqn:Hinit; simpl; [|done|done].
  set (ok := λ x, own x ∧ (x = s ∨ is_wall h x = false)).
  set (J := λ (hq : Heap * list addr), kept hq.1 ∧ Forall ok hq.2).
  assert (Henq : ∀ cur hq n, in_grid g n → J hq → J (Bfs.enqueue cur hq n)).
  { intros cur [h2 q2] n Hn [Hk Hq]. unfold Bfs.enqueue.
    destruct (negb (is_wall h2 n) && negb (isVisited (h2 n))) eqn:Hc; [|done].
    apply andb_true_iff in Hc as [Hw%negb_true_iff _].
    split; simpl.
    - apply kept_upd; [apply scratch_previousNode|by left|].
      apply kept_upd; [apply scratch_isVisited|by left|done].
    - apply Forall_app. split; [done|]. constructor; [|done].
      split; [by left|]. right. destruct Hk as [Hfr _].
      by rewrite <- (is_wall_frame h h2). }
  apply (while_loop_inv
           (λ st, J (Bfs.heap st, Bfs.queue st) ∧ Forall ok (Bfs.visited st))
           (λ hr, kept hr.1 ∧ Forall ok (visitedNodes hr.2))).
  - intros st st' [[Hk Hq] Hv]. unfold Bfs.step. simpl in *.
    destruct (Bfs.queue st) as [|cur q]; [done|].
    apply Forall_cons in Hq as [Hcur Hq].
    destruct (same_cell _ _ _).
    { by destruct (Bfs.reconstructPath _ _ _). }
    destruct (Bfs.getUnvisitedNeighbors _ _ _) as [ns| |] eqn:Hns; [|done|done].
    apply four_directions_in_grid in Hns. rewrite Forall_forall in Hns.
    destruct (fold_left _ _ _) as [h2 q2] eqn:Hfold. intros [= <-]. simpl.
    split.
    + change (J (h2, q2)). rewrite <- Hfold.
      apply (fold_left_pres_in J); [|done].
      intros hq n Hn. apply Henq. by apply Hns.
    + apply Forall_app. split; [done|]. by constructor.
  - intros st hr [[Hk Hq] Hv]. unfold Bfs.step. simpl in *.
    destruct (Bfs.queue st) as [|cur q]; [by intros [= <-]|].
    apply Forall_cons in Hq as [Hcur Hq].
    destruct (same_cell _ _ _).
    { destruct (Bfs.reconstructPath _ _ _); [|done|done]. intros [= <-]. simpl.
      split; [done|]. apply Forall_app. split; [done|]. by constructor. }
    destruct (Bfs.getUnvisitedNeighbors _ _ _) as [ns| |]; [|done|done].
    by destruct (fold_left _ _ _).
  - split; [|done]. split; simpl.
    + apply kept_upd; [apply scratch_isVisited|by right|].
      by apply (kept_init Bfs.reset).
    + constructor; [|done]. split; [by right|by left].
Qed.

Lemma relax_own_d (node : addr) (acc : Heap * list addr * list addr) (n : addr) :
  in_grid g n → kept acc.1.1 ∧ Forall own acc.1.2 →
  kept (Dijkstra.relax node acc n).1.1
  ∧ Forall own (Dijkstra.relax node acc n).1.2.
Proof.
  destruct acc as [[h2 q] lg]. simpl. intros Hn [Hk Hq]. unfold Dijkstra.relax.
  destruct (is_wall h2 n); [done|].
  destruct (num_lt _ _); [|done].
  assert (kept (upd (upd h2 n (set_distance (num_add (distance (h2 node)) (Fin 1))))
                    n (set_previousNode (Some node)))).
  { apply kept_upd; [apply scratch_previousNode|by left|].
    apply kept_upd; [apply scratch_distance|by left|done]. }
  destruct (includes q n); simpl; [done|].
  split; [done|]. apply Forall_app. split; [done|]. constructor; [by left|done].
Qed.

Lemma dijkstra_footprint (fuel : nat) (e : addr) (h' : Heap) (r : Result) :
  Dijkstra.dijkstra fuel h g s e = Ok (h', r) →
  kept h' ∧ clear_of_walls (visitedNodes r).
Proof.
  unfold Dijkstra.dijkstra, Dijkstra.init.
  destruct (init_nodes Dijkstra.reset g h) as [h1| |] eqn:Hinit; simpl;
    [|done|done].
  apply (while_loop_inv
           (λ st, (kept (Dijkstra.heap st) ∧ Forall own (Dijkstra.queue st))
                  ∧ clear_of_walls (Dijkstra.visited st))
           (λ hr, kept hr.1 ∧ clear_of_walls (visitedNodes hr.2))).
  - intros st st' [[Hk Hq] Hv]. unfold Dijkstra.step.
    pose proof (stable_sort_perm (Dijkstra.by_distance (Dijkstra.heap st))
                  (Dijkstra.queue st)) as Hperm.
    rewrite <- Hperm in Hq.
    destruct (stable_sort _ _) as [|cur q]; [done|].
    apply Forall_cons in Hq as [Hcur Hq].
    destruct (isVisited _); simpl; [by intros [= <-]|].
    destruct (is_wall _ _) eqn:Hw; [by intros [= <-]|].
    destruct (same_cell _ _ _).
    { by destruct (Dijkstra.reconstructPath _ _ _). }
    unfold Dijkstra.updateUnvisitedNeighbors.
    destruct (Dijkstra.getValidNeighbors _ _ _) as [ns| |] eqn:Hns; simpl;
      [|done|done].
    assert (Hng : ∀ n, n ∈ ns → in_grid g n).
    { revert Hns. unfold Dijkstra.getValidNeighbors.
      destruct (four_directions _ _ _) as [ns0| |] eqn:H4; simpl; [|done|done].
      intros [= <-] n [_ Hn]%list_elem_of_filter.
      apply four_directions_in_grid in H4. rewrite Forall_forall in H4. auto. }
    destruct (fold_left _ _ _) as [[h2 q2] l2] eqn:Hfold. intros [= <-]. simpl.
    split.
    + change (kept (h2, q2, l2).1.1 ∧ Forall own (h2, q2, l2).1.2).
      rewrite <- Hfold.
      apply (fold_left_pres_in (λ acc, kept acc.1.1 ∧ Forall own acc.1.2)).
      * intros acc n Hn. apply relax_own_d. by apply Hng.
      * simpl. split; [|done].
        apply kept_upd; [apply scratch_isVisited|done|done].
    + apply Forall_app. split; [done|]. constructor; [|done].
      split; [done|]. destruct Hk as [Hfr _].
      by rewrite <- (is_wall_frame h (Dijkstra.heap st)).
  - intros st hr [[Hk Hq] Hv]. unfold Dijkstra.step.
    pose proof (stable_sort_perm (Dijkstra.by_distance (Dijkstra.heap st))
                  (Dijkstra.queue st)) as Hperm.
    rewrite <- Hperm in Hq.
    destruct (stable_sort _ _) as [|cur q]; [by intros [= <-]|].
    apply Forall_cons in Hq as [Hcur Hq].
    destruct (isVisited _); simpl; [done|].
    destruct (is_wall _ _) eqn:Hw; [done|].
    destruct (same_cell _ _ _).
    { destruct (Dijkstra.reconstructPath _ _ _); [|done|done]. intros [= <-].
      simpl. split.
      - apply kept_upd; [apply scratch_isVisited|done|done].
      - apply Forall_app. split; [done|]. constructor; [|done].
        split; [done|]. destruct Hk as [Hfr _].
        by rewrite <- (is_wall_frame h (Dijkstra.heap st)). }
    destruct (Dijkstra.updateUnvisitedNeighbors _ _ _) as [[[? ?] ?]| |]; done.
  - split; [|by apply Forall_nil_2]. split; simpl.
    + apply kept_upd; [apply scratch_distance|by right|].
      by apply (kept_init Dijkstra.reset).
    + constructor; [by right|done].
Qed.

Lemma relax_own_a (cs : gset addr) (node : addr)
  (acc : Heap * list addr * list addr) (n : addr) :
  in_grid g n → kept acc.1.1 ∧ Forall own acc.1.2 →
  kept (Astar.relax cs node acc n).1.1
  ∧ Forall own (Astar.relax cs node acc n).1.2.
Proof.
  destruct acc as [[h2 q] lg]. simpl. intros Hn [Hk Hq]. unfold Astar.relax.
  destruct (_ || _); [done|].
  destruct (num_lt _ _); [|done]. cbv zeta.
  match goal with |- kept (if _ then (?h3, _, _) else _).1.1 ∧ _ =>
    assert (kept h3) end.
  { apply kept_upd; [apply scratch_fScore|by left|].
    apply kept_upd; [apply scratch_gScore|by left|].
    apply kept_upd; [apply scratch_previousNode|by left|done]. }
  destruct (includes q n); simpl; [done|].
  split; [done|]. apply Forall_app. split; [done|]. constructor; [by left|done].
Qed.

Lemma astar_footprint (fuel : nat) (e : addr) (h' : Heap) (r : Result) :
  Astar.astar fuel h g s e = Ok (h', r) →
  kept h' ∧ clear_of_walls (visitedNodes r).
Proof.
  unfold Astar.astar, Astar.init.
  destruct (init_nodes (Astar.reset e) g h) as [h1| |] eqn:Hinit; simpl;
    [|done|done].
  apply (while_loop_inv
           (λ st, (kept (Astar.heap st) ∧ Forall own (Astar.openSet st))
                  ∧ clear_of_walls (Astar.visited st))
           (λ hr, kept hr.1 ∧ clear_of_walls (visitedNodes hr.2))).
  - intros st st' [[Hk Hq] Hv]. unfold Astar.step.
    pose proof (stable_sort_perm (Astar.by_fScore (Astar.heap st))
                  (Astar.openSet st)) as Hperm.
    rewrite <- Hperm in Hq.
    destruct (stable_sort _ _) as [|cur q]; [done|].
    apply Forall_cons in Hq as [Hcur Hq].
    destruct (bool_decide _); simpl; [by intros [= <-]|].
    destruct (is_wall _ _) eqn:Hw; [by intros [= <-]|].
    destruct (same_cell _ _ _).
    { by destruct (Astar.reconstructPath _ _ _). }
    destruct (Astar.getValidNeighbors _ _ _) as [ns| |] eqn:Hns; simpl;
      [|done|done].
    assert (Hng : ∀ n, n ∈ ns → in_grid g n).
    { revert Hns. unfold Astar.getValidNeighbors.
      destruct (four_directions _ _ _) as [ns0| |] eqn:H4; simpl; [|done|done].
      intros [= <-] n [_ Hn]%list_elem_of_filter.
      apply four_directions_in_grid in H4. rewrite Forall_forall in H4. auto. }
    destruct (fold_left _ _ _) as [[h2 q2] l2] eqn:Hfold. intros [= <-]. simpl.
    split.
    + change (kept (h2, q2, l2).1.1 ∧ Forall own (h2, q2, l2).1.2).
      rewrite <- Hfold.
      apply (fold_left_pres_in (λ acc, kept acc.1.1 ∧ Forall own acc.1.2)).
      * intros acc n Hn. apply relax_own_a. by apply Hng.
      * simpl. split; [|done].
        apply kept_upd; [apply scratch_isVisited|done|done].
    + apply Forall_app. split; [done|]. constructor; [|done].
      split; [done|]. destruct Hk as [Hfr _].
      by rewrite <- (is_wall_frame h (Astar.heap st)).
  - intros st hr [[Hk Hq] Hv]. unfold Astar.step.
    pose proof (stable_sort_perm (Astar.by_fScore (Astar.heap st))
                  (Astar.openSet st)) as Hperm.
    rewrite <- Hperm in Hq.
    destruct (stable_sort _ _) as [|cur q]; [by intros [= <-]|].
    apply Forall_cons in Hq as [Hcur Hq].
    destruct (bool_decide _); simpl; [done|].
    destruct (is_wall _ _) eqn:Hw; [done|].
    destruct (same_cell _ _ _).
    { destruct (Astar.reconstructPath _ _ _); [|done|done]. intros [= <-].
      simpl. split.
      - apply kept_upd; [apply scratch_isVisited|done|done].
      - apply Forall_app. split; [done|]. constructor; [|done].
        split; [done|]. destruct Hk as [Hfr _].
        by rewrite <- (is_wall_frame h (Astar.heap st)). }
    destruct (Astar.getValidNeighbors _ _ _) as [ns| |]; [|done|done].
    by destruct (fold_left _ _ _) as [[? ?] ?].
  - split; [|by apply Forall_nil_2]. split; simpl.
    + apply kept_upd; [apply scratch_fScore|by right|].
      apply kept_upd; [apply scratch_gScore|by right|].
      apply (kept_init (Astar.reset e)); [|done]. by intros h2 n.
    + constructor; [by right|done].
Qed.
End footprint.

(** ** Grids that are not rectangles *)

Lemma foldM_TypeError {A B} (f : A → B → outcome A) (l : list B) (b : B) :
  (∀ a x, f a x ≠ OutOfFuel) → b ∈ l → (∀ a, f a b = TypeError) →
  ∀ a, foldM f a l = TypeError.
Proof.
  intros Hno Hb Hf. induction l as [|x l IH]; intros a.
  { by apply elem_of_nil in Hb. }
  simpl. apply elem_of_cons in Hb as [<-|Hb].
  - by rewrite Hf.
  - destruct (f a x) as [a'| |] eqn:Hx; simpl; [by apply IH|done|].
    by apply Hno in Hx.
Qed.

Lemma foldM_no_starve {A B} (f : A → B → outcome A) (l : list B) :
  (∀ a x, f a x ≠ OutOfFuel) → ∀ a, foldM f a l ≠ OutOfFuel.
Proof.
  intros Hno. induction l as [|x l IH]; intros a; simpl; [done|].
  destruct (f a x) as [a'| |] eqn:Hx; simpl; [apply IH|done|].
  by apply Hno in Hx.
Qed.

Lemma init_row_no_starve (f : Heap → Node → Node) (rowl : list addr) (n : nat)
  (h : Heap) : init_row f rowl n h ≠ OutOfFuel.
Proof.
  unfold init_row. apply foldM_no_starve. intros h1 c.
  by destruct (rowl !! c).
Qed.

Lemma init_row_short (f : Heap → Node → Node) (rowl : list addr) (n : nat)
  (h : Heap) : (length rowl < n)%nat → init_row f rowl n h = TypeError.
Proof.
  intros Hlt. unfold init_row.
  apply (foldM_TypeError _ _ (length rowl)).
  - intros h1 c. by destruct (rowl !! c).
  - apply elem_of_seq. lia.
  - intros h1. by rewrite lookup_ge_None_2.
Qed.

Lemma init_nodes_short (f : Heap → Node → Node) (g : Grid) (r0 rowl : list addr)
  (h : Heap) :
  head g = Some r0 → rowl ∈ g → (length rowl < length r0)%nat →
  init_nodes f g h = TypeError.
Proof.
  intros Hhd Hin Hlt. unfold init_nodes. destruct g as [|r0' g']; [done|].
  simpl in Hhd. injection Hhd as ->.
  apply (foldM_TypeError _ _ rowl); [|done|].
  - intros h1 x. apply init_row_no_starve.
  - intros h1. by apply init_row_short.
Qed.

(** ** The empty grid *)

Lemma push_cell_empty (r c : Z) (acc : list addr) :
  push_cell [] r c acc = TypeError.
Proof. unfold push_cell, cell. by destruct (_ && _). Qed.

Lemma four_directions_empty (h : Heap) (a : addr) :
  four_directions h a [] = TypeError.
Proof.
  unfold four_directions. rewrite !push_cell_empty.
  destruct (0 <? row (h a)); [done|]. simpl.
  destruct (row (h a) <? _); [by rewrite push_cell_empty|]. simpl.
  destruct (0 <? col (h a)); [by rewrite push_cell_empty|]. done.
Qed.

Lemma same_cell_frame (h h' : Heap) (a b : addr) :
  frame h h' → same_cell h' a b = same_cell h a b.
Proof.
  intros Hf. unfold same_cell.
  destruct (Hf a) as (-> & -> & _). by destruct (Hf b) as (-> & -> & _).
Qed.

Lemma empty_grid_run (h : Heap) (s e : addr) (fuel : nat) :
  same_cell h s e = false →
  Bfs.bfs (S fuel) h [] s e = TypeError
  ∧ (isVisited (h s) = false → is_wall h s = false →
     Dijkstra.dijkstra (S fuel) h [] s e = TypeError)
  ∧ (is_wall h s = false → Astar.astar (S fuel) h [] s e = TypeError).
Proof.
  intros Hse. split_and!.
  - unfold Bfs.bfs, Bfs.init. simpl. unfold Bfs.step at 1. simpl.
    rewrite (same_cell_frame h); [|apply frame_upd; [apply scratch_isVisited|apply frame_refl]].
    rewrite Hse. unfold Bfs.getUnvisitedNeighbors.
    by rewrite four_directions_empty.
  - intros Hv Hw. unfold Dijkstra.dijkstra, Dijkstra.init. simpl.
    unfold Dijkstra.step at 1. simpl.
    set (h1 := upd h s (set_distance (Fin 0))).
    assert (Hf1 : frame h h1).
    { apply frame_upd; [apply scratch_distance|apply frame_refl]. }
    assert (isVisited (h1 s) = false) as -> by (unfold h1; by rewrite upd_eq).
    rewrite (is_wall_frame h h1 s Hf1), Hw. simpl.
    rewrite (same_cell_frame h); [|apply frame_upd; [apply scratch_isVisited|done]].
    rewrite Hse. unfold Dijkstra.updateUnvisitedNeighbors, Dijkstra.getValidNeighbors.
    simpl. by rewrite four_directions_empty.
  - intros Hw. unfold Astar.astar, Astar.init. simpl.
    unfold Astar.step at 1. simpl.
    set (h1 := upd (upd h s (set_gScore (Fin 0))) s _).
    assert (Hf1 : frame h h1).
    { apply frame_upd; [apply scratch_fScore|].
      apply frame_upd; [apply scratch_gScore|apply frame_refl]. }
    rewrite (is_wall_frame h h1 s Hf1), Hw.
    rewrite bool_decide_eq_false_2 by set_solver. simpl.
    rewrite (same_cell_frame h); [|apply frame_upd; [apply scratch_isVisited|done]].
    rewrite Hse. unfold Astar.getValidNeighbors.
    by rewrite four_directions_empty.
Qed.

(** ** The visited flag of the start node *)

Lemma fold_relax_isVisited_d (cur : addr) (ns : list addr) (a : addr) :
  ∀ acc, isVisited ((fold_left (Dijkstra.relax cur) ns acc).1.1 a)
         = isVisited (acc.1.1 a).
Proof.
  induction ns as [|n ns IH]; intros acc; simpl; [done|].
  by rewrite IH, relax_isVisited_d.
Qed.

Lemma fold_relax_is_wall_d (cur : addr) (ns : list addr) (a : addr) :
  ∀ acc, is_wall (fold_left (Dijkstra.relax cur) ns acc).1.1 a
         = is_wall acc.1.1 a.
Proof.
  intros acc. apply is_wall_frame.
  apply (fold_left_pres (λ acc', frame acc.1.1 acc'.1.1)).
  - intros acc' n. apply relax_frame_d.
  - apply frame_refl.
Qed.

(** dijkstra leaves the start node with the visited flag set, unless it
    is a wall. *)
Lemma dijkstra_marks_start (fuel : nat) (h : Heap) (g : Grid) (s e : addr)
  (h' : Heap) (r : Result) :
  Dijkstra.dijkstra fuel h g s e = Ok (h', r) → marked h' s.
Proof.
  unfold Dijkstra.dijkstra, Dijkstra.init.
  destruct (init_nodes Dijkstra.reset g h) as [h1| |] eqn:Hinit; simpl;
    [|done|done].
  apply (while_loop_inv
           (λ st, Dijkstra.queue st = [s] ∨ marked (Dijkstra.heap st) s)
           (λ hr, marked hr.1 s)).
  - intros st st' HI. unfold Dijkstra.step.
    destruct (stable_sort _ _) as [|cur q] eqn:Hsort; [done|].
    assert (Hcur : marked (Dijkstra.heap st) s
                   ∨ (cur = s ∧ ¬ marked (Dijkstra.heap st) s)).
    { destruct HI as [Hq|Hm]; [|by left].
      rewrite Hq in Hsort. simpl in Hsort. injection Hsort as <- <-.
      unfold marked.
      destruct (isVisited (Dijkstra.heap st s)); [left; by left|].
      destruct (is_wall (Dijkstra.heap st) s); [left; by right|].
      right. split; [done|]. by intros [?|?]. }
    destruct (_ || _) eqn:Hskip.
    { intros [= <-]. simpl. right. destruct Hcur as [Hm|[-> Hn]]; [done|].
      apply orb_true_iff in Hskip. unfold marked. tauto. }
    set (h2 := upd (Dijkstra.heap st) cur (set_isVisited true)).
    assert (Hm2 : marked h2 s).
    { destruct Hcur as [[Hv|Hw]|[-> _]].
      - left. unfold h2, upd. destruct (decide (s = cur)); [done|done].
      - right. rewrite (is_wall_frame (Dijkstra.heap st)); [done|].
        apply frame_upd; [apply scratch_isVisited|apply frame_refl].
      - left. unfold h2. by rewrite upd_eq. }
    destruct (same_cell _ _ _).
    { by destruct (Dijkstra.reconstructPath _ _ _). }
    unfold Dijkstra.updateUnvisitedNeighbors.
    destruct (Dijkstra.getValidNeighbors _ _ _) as [ns| |]; simpl; [|done|done].
    destruct (fold_left _ _ _) as [[h3 q3] l3] eqn:Hfold. intros [= <-]. simpl.
    right. change h3 with (h3, q3, l3).1.1. rewrite <- Hfold.
    unfold marked. rewrite fold_relax_isVisited_d, fold_relax_is_wall_d. done.
  - intros st hr HI. unfold Dijkstra.step.
    destruct (stable_sort _ _) as [|cur q] eqn:Hsort.
    { intros [= <-]. simpl. destruct HI as [Hq|Hm]; [|done].
      rewrite Hq in Hsort. done. }
    assert (Hcur : marked (Dijkstra.heap st) s ∨ cur = s).
    { destruct HI as [Hq|Hm]; [|by left].
      rewrite Hq in Hsort. simpl in Hsort. injection Hsort as <- <-. by right. }
    destruct (_ || _) eqn:Hskip; [done|].
    set (h2 := upd (Dijkstra.heap st) cur (set_isVisited true)).
    assert (Hm2 : marked h2 s).
    { destruct Hcur as [[Hv|Hw]| ->].
      - left. unfold h2, upd. destruct (decide (s = cur)); [done|done].
      - right. rewrite (is_wall_frame (Dijkstra.heap st)); [done|].
        apply frame_upd; [apply scratch_isVisited|apply frame_refl].
      - left. unfold h2. by rewrite upd_eq. }
    destruct (same_cell _ _ _).
    { destruct (Dijkstra.reconstructPath _ _ _); [|done|done]. by intros [= <-]. }
    destruct (Dijkstra.updateUnvisitedNeighbors _ _ _) as [[[? ?] ?]| |]; done.
  - by left.
Qed.

(** A start node outside the grid that carries the visited flag, or is a
    wall, is discarded at the first pass. *)
Lemma dijkstra_marked_start (h : Heap) (g : Grid) (s e : addr) (fuel : nat) :
  wf_grid h g → ¬ in_grid g s → marked h s → (2 <= fuel)%nat →
  ∃ h', Dijkstra.dijkstra fuel h g s e = Ok (h', mkResult [] []).
Proof.
  intros Hwf Hs Hm Hfuel. unfold Dijkstra.dijkstra, Dijkstra.init.
  destruct (init_nodes_spec Dijkstra.reset h g Hwf)
    as (h1 & -> & Hfr & _ & Hout); [done|done|].
  simpl. set (h2 := upd h1 s (set_distance (Fin 0))).
  assert (Hm2 : isVisited (h2 s) || is_wall h2 s = true).
  { apply orb_true_iff. destruct Hm as [Hv|Hw].
    - left. unfold h2. rewrite upd_eq. simpl. by rewrite (Hout s Hs).
    - right. rewrite (is_wall_frame h h2); [done|]. by apply frame_upd. }
  destruct fuel as [|[|fuel]]; [lia|lia|].
  exists h2. cbn [while_loop]. unfold Dijkstra.step at 1. simpl.
  rewrite Hm2. done.
Qed.

(** ** bfs visits the start node whatever it is *)
Lemma bfs_visits_start (fuel : nat) (h : Heap) (g : Grid) (s e : addr)
  (h' : Heap) (r : Result) :
  Bfs.bfs fuel h g s e = Ok (h', r) → head (visitedNodes r) = Some s.
Proof.
  unfold Bfs.bfs, Bfs.init.
  destruct (init_nodes Bfs.reset g h) as [h1| |] eqn:Hinit; simpl; [|done|done].
  apply (while_loop_inv
           (λ st, (Bfs.visited st = [] ∧ Bfs.queue st = [s])
                  ∨ head (Bfs.visited st) = Some s)
           (λ hr, head (visitedNodes hr.2) = Some s)).
  - intros st st' HI. unfold Bfs.step.
    destruct (Bfs.queue st) as [|cur q] eqn:Hq; [done|].
    assert (Hh : head (Bfs.visited st ++ [cur]) = Some s).
    { destruct HI as [[-> Heq]|Hh]; [by injection Heq as -> ->|].
      by destruct (Bfs.visited st). }
    destruct (same_cell _ _ _).
    { by destruct (Bfs.reconstructPath _ _ _). }
    destruct (Bfs.getUnvisitedNeighbors _ _ _) as [ns| |]; [|done|done].
    destruct (fold_left _ _ _) as [h2 q2]. intros [= <-]. by right.
  - intros st hr HI. unfold Bfs.step.
    destruct (Bfs.queue st) as [|cur q] eqn:Hq.
    { intros [= <-]. simpl. by destruct HI as [[_ ?]|?]. }
    assert (Hh : head (Bfs.visited st ++ [cur]) = Some s).
    { destruct HI as [[-> Heq]|Hh]; [by injection Heq as -> ->|].
      by destruct (Bfs.visited st). }
    destruct (same_cell _ _ _).
    { destruct (Bfs.reconstructPath _ _ _); [|done|done]. by intros [= <-]. }
    destruct (Bfs.getUnvisitedNeighbors _ _ _) as [ns| |]; [|done|done].
    by destruct (fold_left _ _ _).
  - by left.
Qed.

(** ** The heuristic *)

Lemma manhattanDistance_sym (a b : Node) :
  Astar.manhattanDistance a b = Astar.manhattanDistance b a.
Proof. unfold Astar.manhattanDistance. f_equal. lia. Qed.

Lemma manhattanDistance_zero (h : Heap) (a b : addr) :
  Astar.manhattanDistance (h a) (h b) = Fin 0 ↔ same_cell h a b = true.
Proof.
  unfold Astar.manhattanDistance, same_cell.
  rewrite andb_true_iff, !Z.eqb_eq. split.
  - intros [= H]. lia.
  - intros [-> ->]. f_equal. lia.
Qed.

Lemma manhattanDistance_walk (h : Heap) (l : list addr) : ∀ a b,
  head l = Some a → last l = Some b → movesb h l = true →
  ∃ m, Astar.manhattanDistance (h a) (h b) = Fin m
       ∧ 0 <= m <= Z.of_nat (length l) - 1.
Proof.
  induction l as [|x l IH]; intros a b Hh Hl Hm; [done|].
  simpl in Hh. injection Hh as ->.
  destruct l as [|y l].
  { simpl in Hl. injection Hl as ->. exists 0. split; [|simpl; lia].
    unfold Astar.manhattanDistance. f_equal. lia. }
  change (moveb h a y && movesb h (y :: l) = true) in Hm.
  apply andb_true_iff in Hm as [Hay Hm].
  destruct (IH y b eq_refl Hl Hm) as (m & Hmd & Hle).
  unfold Astar.manhattanDistance in *. injection Hmd as Hmd.
  unfold moveb in Hay. apply Z.eqb_eq in Hay.
  eexists. split; [done|]. simpl length in *. lia.
Qed.

(** ** Copies of the grid *)

Lemma allocatedb_spec (next : addr) (g : Grid) :
  allocatedb next g = true ↔ ∀ a, in_grid g a → (a < next)%nat.
Proof.
  unfold allocatedb. rewrite forallb_forall. split.
  - intros H a Ha. apply elem_of_concat_grid, list_elem_of_join in Ha
      as (rowl & Ha & Hrow).
    specialize (H rowl). rewrite forallb_forall in H.
    apply Nat.ltb_lt, H; by apply list_elem_of_In.
  - intros H rowl Hrow%list_elem_of_In. apply forallb_forall.
    intros a Ha%list_elem_of_In. apply Nat.ltb_lt, H.
    apply elem_of_concat_grid, list_elem_of_join. eauto.
Qed.

Lemma grid_cols_lookup (g : Grid) (r0 : list addr) :
  g !! 0%nat = Some r0 → grid_cols g = Z.of_nat (length r0).
Proof. destruct g; [done|]. by intros [= ->]. Qed.

Lemma map_grid_copy (f : Node → Node) (h : Heap) (next : addr) (g : Grid) :
  allocatedb next g = true →
  ∃ h' next' g',
    map_grid f h next g = (h', next', g')
    ∧ copy_with (λ _, f) h next g h' next' g'.
Proof.
  intros Hal. unfold map_grid.
  destruct (map_grid_acc f g h next [] Hal)
    as (h' & n' & new & Heq & Hle & Hold & Hlen & Hrows).
  exists h', n', new. simpl in Heq. split; [done|].
  assert (Hsome : ∀ r c a, cell g r c = Some a →
            ∃ a', cell new r c = Some a' ∧ (next <= a' < n')%nat
                  ∧ h' a' = f (h a)).
  { intros r c a (Hr & Hc & rowl & Hrow & Ha)%cell_Some.
    destruct (Hrows _ _ Hrow) as (rowl' & Hrow' & _ & Hcells).
    destruct (Hcells _ _ Ha) as (a' & Ha' & Hrange & Hh).
    exists a'. split_and!; [|lia|lia|done].
    apply cell_Some. split_and!; [done|done|]. by exists rowl'. }
  split_and!; try done.
  - unfold grid_length. by rewrite Hlen.
  - destruct g as [|r0 g].
    { destruct new; [done|done]. }
    destruct (Hrows 0%nat r0 eq_refl) as (r0' & Hr0' & Hl0 & _).
    rewrite (grid_cols_lookup _ _ Hr0'). simpl. by rewrite Hl0.
  - intros r c Hnone. destruct (cell new r c) as [a'|] eqn:Hc'; [|done].
    apply cell_Some in Hc' as (Hr & Hc & rowl' & Hrow' & Ha').
    pose proof (lookup_lt_Some _ _ _ Hrow') as Hlt. rewrite Hlen in Hlt.
    destruct (lookup_lt_is_Some_2 g _ Hlt) as [rowl Hrow].
    destruct (Hrows _ _ Hrow) as (rowl2 & Hrow2 & Hlen2 & _).
    pose proof (eq_trans (eq_sym Hrow2) Hrow') as Heq2. injection Heq2 as ->.
    pose proof (lookup_lt_Some _ _ _ Ha') as Hlt'. rewrite Hlen2 in Hlt'.
    destruct (lookup_lt_is_Some_2 rowl _ Hlt') as [a Ha].
    assert (cell g r c = Some a) as Hsome'.
    { apply cell_Some. split_and!; [done|done|]. by exists rowl. }
    congruence.
Qed.

Section copies.
Variables (f : Z * Z → Node → Node) (h : Heap) (next : addr) (g : Grid).
Variables (h' : Heap) (next' : addr) (g' : Grid).
Hypothesis Hcopy : copy_with f h next g h' next' g'.
Hypothesis Hwf : wf_grid h g.
Hypothesis Hf : ∀ p n, row (f p n) = row n ∧ col (f p n) = col n.

Lemma copy_cell_inv (r c : Z) (a' : addr) :
  cell g' r c = Some a' →
  ∃ a, cell g r c = Some a ∧ (next <= a' < next')%nat
       ∧ h' a' = f (r, c) (h a).
Proof using Hcopy.
  destruct Hcopy as (_ & _ & _ & _ & Hsome & Hnone).
  intros Hc'. destruct (cell g r c) as [a|] eqn:Hc.
  - destruct (Hsome _ _ _ Hc) as (a2 & Ha2 & Hr & Hh).
    exists a. assert (a2 = a') as -> by congruence. done.
  - rewrite (Hnone _ _ Hc) in Hc'. done.
Qed.

Lemma copy_wf : wf_grid h' g'.
Proof using Hcopy Hwf Hf.
  pose proof Hcopy as (_ & _ & Hlen & Hcols & Hsome & Hnone).
  destruct Hwf as [Hr Hc Hrect Hpos]. split.
  - by rewrite Hlen.
  - by rewrite Hcols.
  - intros r rowl' Hrow'. rewrite Hcols.
    (* the length of a row is the number of its cells *)
    assert (Hrl : (r < length g)%nat).
    { apply lookup_lt_Some in Hrow'. unfold grid_length in Hlen. lia. }
    destruct (lookup_lt_is_Some_2 g r Hrl) as [rowl Hrow].
    rewrite <- (Hrect r rowl Hrow).
    f_equal. apply Nat.le_antisymm.
    + destruct (decide (length rowl' <= length rowl)%nat) as [|Hgt]; [done|].
      exfalso.
      destruct (lookup_lt_is_Some_2 rowl' (length rowl)) as [a' Ha']; [lia|].
      assert (Hc' : cell g' (Z.of_nat r) (Z.of_nat (length rowl)) = Some a').
      { apply cell_Some. split_and!; [lia|lia|]. exists rowl'.
        by rewrite !Nat2Z.id. }
      destruct (copy_cell_inv _ _ _ Hc') as (a & Ha & _).
      apply cell_Some in Ha as (_ & _ & l & Hl & Hla).
      rewrite !Nat2Z.id in *.
      pose proof (eq_trans (eq_sym Hrow) Hl) as Heq. injection Heq as <-.
      apply lookup_lt_Some in Hla. lia.
    + destruct (decide (length rowl <= length rowl')%nat) as [|Hgt]; [done|].
      exfalso.
      destruct (lookup_lt_is_Some_2 rowl (length rowl')) as [a Ha]; [lia|].
      assert (Hc0 : cell g (Z.of_nat r) (Z.of_nat (length rowl')) = Some a).
      { apply cell_Some. split_and!; [lia|lia|]. exists rowl.
        by rewrite !Nat2Z.id. }
      destruct (Hsome _ _ _ Hc0) as (a' & Ha' & _).
      apply cell_Some in Ha' as (_ & _ & l & Hl & Hla).
      rewrite !Nat2Z.id in *.
      pose proof (eq_trans (eq_sym Hrow') Hl) as Heq. injection Heq as <-.
      apply lookup_lt_Some in Hla. lia.
  - intros r c a' Hc'. destruct (copy_cell_inv _ _ _ Hc') as (a & Ha & _ & Hh).
    unfold pos. rewrite Hh. destruct (Hf (r, c) (h a)) as [-> ->].
    by apply Hpos.
Qed.

Lemma copy_allocated : allocatedb next' g' = true.
Proof using Hcopy.
  apply allocatedb_spec. intros a' (r & c & Hc').
  destruct (copy_cell_inv _ _ _ Hc') as (_ & _ & ? & _). lia.
Qed.

Lemma copy_fresh (a' : addr) : in_grid g' a' → (next <= a')%nat.
Proof using Hcopy.
  intros (r & c & Hc'). destruct (copy_cell_inv _ _ _ Hc') as (_ & _ & ? & _).
  lia.
Qed.

Lemma copy_in_bounds (p : Z * Z) : in_bounds g' p = in_bounds g p.
Proof using Hcopy.
  destruct Hcopy as (_ & _ & Hlen & Hcols & _). unfold in_bounds.
  by rewrite Hlen, Hcols.
Qed.

Lemma copy_old (a : addr) : (a < next)%nat → h' a = h a.
Proof using Hcopy. by destruct Hcopy as (_ & Hold & _); apply Hold. Qed.
End copies.

(** Copies compose. *)
Lemma copy_with_trans (f1 f2 : Z * Z → Node → Node)
  (h1 : Heap) (n1 : addr) (g1 : Grid) (h2 : Heap) (n2 : addr) (g2 : Grid)
  (h3 : Heap) (n3 : addr) (g3 : Grid) :
  copy_with f1 h1 n1 g1 h2 n2 g2 → copy_with f2 h2 n2 g2 h3 n3 g3 →
  copy_with (λ p n, f2 p (f1 p n)) h1 n1 g1 h3 n3 g3.
Proof.
  intros (Hle1 & Hold1 & Hlen1 & Hcols1 & Hsome1 & Hnone1)
         (Hle2 & Hold2 & Hlen2 & Hcols2 & Hsome2 & Hnone2).
  split_and!; [lia| |congruence|congruence| |by auto].
  - intros a Ha. rewrite Hold2 by lia. by apply Hold1.
  - intros r c a Ha. destruct (Hsome1 _ _ _ Ha) as (a2 & Ha2 & Hr2 & Hh2).
    destruct (Hsome2 _ _ _ Ha2) as (a3 & Ha3 & Hr3 & Hh3).
    exists a3. split_and!; [done|lia|lia|]. by rewrite Hh3, Hh2.
Qed.

Lemma copy_with_ext (f1 f2 : Z * Z → Node → Node)
  (h : Heap) (n : addr) (g : Grid) (h' : Heap) (n' : addr) (g' : Grid) :
  (∀ p x, f1 p x = f2 p x) →
  copy_with f1 h n g h' n' g' → copy_with f2 h n g h' n' g'.
Proof.
  intros Hext (Hle & Hold & Hlen & Hcols & Hsome & Hnone).
  split_and!; try done.
  intros r c a Ha. destruct (Hsome _ _ _ Ha) as (a' & Ha' & Hr & Hh).
  exists a'. by rewrite <- Hext.
Qed.

(** ** The states of the editor *)

Lemma wf_grid_wf_gridb (h : Heap) (g : Grid) : wf_grid h g → wf_gridb h g = true.
Proof.
  intros [Hr Hc Hrect Hpos]. unfold wf_gridb.
  rewrite !andb_true_iff. split_and!.
  - by apply Z.ltb_lt.
  - by apply Z.ltb_lt.
  - apply forallb_forall. intros rowl [r Hrow]%list_elem_of_In%list_elem_of_lookup.
    apply Z.eqb_eq. apply (Hrect r rowl Hrow).
  - unfold positions_okb. apply forallb_forall.
    intros [r rowl] Hin%list_elem_of_In.
    apply list_elem_of_lookup in Hin as [i Hi].
    rewrite list_lookup_imap in Hi.
    apply fmap_Some in Hi as (rowl0 & Hrow & Heq). injection Heq as -> ->.
    apply forallb_forall. intros [c a] Hin%list_elem_of_In.
    apply list_elem_of_lookup in Hin as [j Hj].
    rewrite list_lookup_imap in Hj.
    apply fmap_Some in Hj as (a0 & Ha & Heq). injection Heq as -> ->.
    assert (Hcell : cell g (Z.of_nat i) (Z.of_nat j) = Some a0).
    { apply cell_Some. split_and!; [lia|lia|]. exists rowl0.
      by rewrite !Nat2Z.id. }
    apply Hpos in Hcell. unfold pos in Hcell. injection Hcell as -> ->.
    by rewrite !Z.eqb_refl.
Qed.

Lemma placedb_spec (h : Heap) (next : addr) (g : Grid) (a : addr) :
  placedb h next g (Some a) = true ↔
  (a < next)%nat ∧ in_bounds g (pos h a) = true.
Proof. simpl. by rewrite andb_true_iff, Nat.ltb_lt. Qed.

Lemma editor_okb_spec (ed : Editor.State) :
  editor_okb ed = true ↔
  wf_grid (App4.store (Editor.app ed)) (App4.grid (Editor.app ed))
  ∧ allocatedb (App4.next (Editor.app ed)) (App4.grid (Editor.app ed)) = true
  ∧ placedb (App4.store (Editor.app ed)) (App4.next (Editor.app ed))
            (App4.grid (Editor.app ed)) (App4.startNode (Editor.app ed)) = true
  ∧ placedb (App4.store (Editor.app ed)) (App4.next (Editor.app ed))
            (App4.grid (Editor.app ed)) (App4.endNode (Editor.app ed)) = true.
Proof.
  unfold editor_okb. rewrite !andb_true_iff. split.
  - intros [[[H1%wf_gridb_wf H2] H3] H4]. done.
  - intros (H1%wf_grid_wf_gridb & H2 & H3 & H4). done.
Qed.

Lemma in_bounds_cell (h : Heap) (g : Grid) (p : Z * Z) :
  wf_grid h g → in_bounds g p = true → ∃ a, cell g p.1 p.2 = Some a.
Proof.
  intros Hwf Hb. destruct p as [r c].
  by apply (cell_in_bounds h g r c Hwf) in Hb as [a Ha]; exists a.
Qed.

Lemma cell_grid_row (g : Grid) (r c : Z) (a : addr) :
  cell g r c = Some a → ∃ rowl, Editor.grid_row g r = Some rowl.
Proof.
  intros (Hr & _ & rowl & Hrow & _)%cell_Some. exists rowl.
  unfold Editor.grid_row. by rewrite (proj2 (Z.leb_le 0 r)).
Qed.

(** ** Display tags in a store *)

Lemma set_type_eta (n : Node) : set_type (type n) n = n.
Proof. by destruct n. Qed.

Lemma set_type_twice (t t' : NodeType) (n : Node) :
  set_type t (set_type t' n) = set_type t n.
Proof. done. Qed.

Lemma retagged_refl (h : Heap) : retagged h h.
Proof. intros a. by rewrite set_type_eta. Qed.

Lemma retagged_upd (h h' : Heap) (x : addr) (t : NodeType) :
  retagged h h' → retagged h (upd h' x (set_type t)).
Proof.
  intros Hr a. unfold upd. destruct (decide (a = x)) as [->|]; [|apply Hr].
  rewrite (Hr x). done.
Qed.

Lemma retagged_pos (h h' : Heap) (a : addr) : retagged h h' → pos h' a = pos h a.
Proof. intros Hr. unfold pos. by rewrite (Hr a). Qed.

Lemma retagged_wf (h h' : Heap) (g : Grid) :
  retagged h h' → wf_grid h g → wf_grid h' g.
Proof.
  intros Hr [H1 H2 H3 H4]. split; try done.
  intros r c a Hc. rewrite (retagged_pos h h' a Hr). by apply H4.
Qed.

Lemma retagged_old (h h' : Heap) (x : addr) (t : NodeType) (next : addr) :
  (next <= x)%nat → (∀ a, (a < next)%nat → h' a = h a) →
  ∀ a, (a < next)%nat → upd h' x (set_type t) a = h a.
Proof. intros Hx Hold a Ha. rewrite upd_ne by lia. by apply Hold. Qed.

(** ** handleNodeClick *)

Section click.
Variables (ed : Editor.State) (r c : Z).
Local Abbreviation st := (Editor.app ed).
Hypothesis Hok : editor_okb ed = true.
Hypothesis Hrun : App4.isRunning st = false.
Hypothesis Hin : in_bounds (App4.grid st) (r, c) = true.

(** What a click on a cell of the grid leaves. *)
Lemma handleNodeClick_core :
  ∃ h' next' g' n,
    Editor.handleNodeClick r c ed
    = Ok (Editor.mkState
            (App4.mkState (App4.algorithm st) g' false
               (if decide (Editor.currentTool ed = Editor.Tool_start)
                then Some n else App4.startNode st)
               (if decide (Editor.currentTool ed = Editor.Tool_end)
                then Some n else App4.endNode st)
               (App4.error st) h' next')
            (Editor.currentTool ed) (Editor.isMousePressed ed))
    ∧ (App4.next st <= next')%nat
    ∧ (∀ a, (a < App4.next st)%nat → h' a = App4.store st a)
    ∧ wf_grid h' g'
    ∧ grid_length g' = grid_length (App4.grid st)
    ∧ grid_cols g' = grid_cols (App4.grid st)
    ∧ cell g' r c = Some n
    ∧ (∀ r' c' a, cell (App4.grid st) r' c' = Some a → is_Some (cell g' r' c'))
    ∧ (∀ r' c', cell (App4.grid st) r' c' = None → cell g' r' c' = None)
    ∧ (∀ r' c' a', cell g' r' c' = Some a' →
         (App4.next st <= a' < next')%nat
         ∧ ∃ a, cell (App4.grid st) r' c' = Some a
                ∧ h' a' = set_type
                            (clicked_type (Editor.currentTool ed) (r, c)
                               (pos (App4.store st) <$> App4.startNode st)
                               (pos (App4.store st) <$> App4.endNode st)
                               (r', c') (type (App4.store st a)))
                            (App4.store st a)).
Proof.
  apply editor_okb_spec in Hok as (Hwf & Hal & Hps & Hpe).
  unfold Editor.handleNodeClick. rewrite Hrun.
  destruct (map_grid_copy id (App4.store st) _ _ Hal) as (h1 & next1 & g1 & -> & Hcopy).
  pose proof (copy_wf (λ _, id) _ _ _ _ _ _ Hcopy Hwf ltac:(done)) as Hwf1.
  pose proof Hcopy as (Hle & Hold & Hlen & Hcols & Hsome & Hnone).
  destruct (in_bounds_cell _ _ _ Hwf Hin) as [a0 Ha0]. simpl in Ha0.
  destruct (Hsome _ _ _ Ha0) as (n & Hn & Hnr & Hhn). simpl in Hhn.
  destruct (cell_grid_row _ _ _ _ Hn) as [rowl ->]. simpl. rewrite Hn.
  (* the copies, before any tag is assigned *)
  assert (Hcells : ∀ r' c' a', cell g1 r' c' = Some a' →
            (App4.next st <= a' < next1)%nat
            ∧ ∃ a, cell (App4.grid st) r' c' = Some a
                   ∧ h1 a' = App4.store st a).
  { intros r' c' a' Hc'.
    destruct (copy_cell_inv (λ _, id) _ _ _ _ _ _ Hcopy _ _ _ Hc') as (a & Ha & ? & ?).
    eauto. }
  assert (Hinj : ∀ r' c' a', cell g1 r' c' = Some a' →
            a' = n ↔ (r', c') = (r, c)).
  { intros r' c' a' Hc'. split.
    - intros ->. destruct (cell_inj _ _ _ _ _ _ _ Hwf1 Hc' Hn). congruence.
    - intros [= -> ->]. congruence. }
  (* the cell of a node that is set *)
  assert (Hplaced : ∀ x, placedb (App4.store st) (App4.next st) (App4.grid st)
                           (Some x) = true →
            ∃ cx, cell g1 (row (h1 x)) (col (h1 x)) = Some cx
                  ∧ (App4.next st <= cx)%nat
                  ∧ ∀ r' c' a', cell g1 r' c' = Some a' →
                      a' = cx ↔ (r', c') = pos (App4.store st) x).
  { intros x [Hx Hb]%placedb_spec. rewrite (Hold x Hx).
    destruct (in_bounds_cell _ _ _ Hwf Hb) as [ax Hax]. simpl in Hax.
    destruct (Hsome _ _ _ Hax) as (cx & Hcx & Hcr & _).
    exists cx. split_and!; [done|lia|].
    intros r' c' a' Hc'. split.
    - intros ->. destruct (cell_inj _ _ _ _ _ _ _ Hwf1 Hc' Hcx). unfold pos.
      congruence.
    - intros [= -> ->]. congruence. }
  (* the tag of the old start or end cell is cleared *)
  assert (Hclear : ∀ old,
            placedb (App4.store st) (App4.next st) (App4.grid st) old = true →
            ∃ h2, Editor.clear_cell_of h1 g1 old = Ok h2
                  ∧ retagged h1 h2
                  ∧ (∀ a, (a < App4.next st)%nat → h2 a = App4.store st a)
                  ∧ ∀ r' c' a', cell g1 r' c' = Some a' →
                      type (h2 a')
                      = if decide (pos (App4.store st) <$> old = Some (r', c'))
                        then T_empty else type (h1 a')).
  { intros [x|] Hx; simpl.
    - destruct (Hplaced x Hx) as (cx & Hcx & Hcr & Hcxinj).
      unfold Editor.set_cell_type. rewrite Hcx. simpl.
      exists (upd h1 cx (set_type T_empty)). split_and!; [done| | |].
      + apply retagged_upd, retagged_refl.
      + intros a Ha. rewrite upd_ne by lia. by apply Hold.
      + intros r' c' a' Hc'. pose proof (Hcxinj _ _ _ Hc') as Hi.
        destruct (decide (Some (pos (App4.store st) x) = Some (r', c')))
          as [Heq|Hne].
        * assert (Hp : (r', c') = pos (App4.store st) x) by congruence.
          rewrite (proj2 Hi Hp). by rewrite upd_eq.
        * rewrite upd_ne; [done|]. intros Heq. apply Hne. f_equal.
          symmetry. by apply Hi.
    - exists h1. split_and!; [done|apply retagged_refl|done|done]. }
  assert (Hfw : ∀ r' c' a, cell (App4.grid st) r' c' = Some a →
            is_Some (cell g1 r' c')).
  { intros r' c' a Ha. destruct (Hsome _ _ _ Ha) as (a' & -> & _). done. }
  destruct (Editor.currentTool ed) eqn:Htool; simpl.
  - (* the wall tool *)
    set (t0 := type (h1 n)).
    set (h' := if bool_decide (t0 ≠ T_start) && bool_decide (t0 ≠ T_end)
               then upd h1 n (set_type (if bool_decide (t0 = T_wall)
                                        then T_empty else T_wall))
               else h1).
    exists h', next1, g1, n.
    split; [unfold h', t0; by destruct (_ && _)|].
    assert (Hret : retagged h1 h').
    { unfold h'. destruct (_ && _); [|apply retagged_refl].
      apply retagged_upd, retagged_refl. }
    split_and!; try done.
    + intros a Ha. unfold h'. destruct (_ && _); [|by apply Hold].
      rewrite upd_ne by lia. by apply Hold.
    + by apply (retagged_wf h1).
    + intros r' c' a' Hc'. destruct (Hcells _ _ _ Hc') as (Hr' & a & Ha & Hh).
      split; [done|]. exists a. split; [done|].
      rewrite (Hret a'), Hh. f_equal. unfold clicked_type.
      pose proof (Hinj _ _ _ Hc') as Hn'.
      destruct (decide ((r', c') = (r, c))) as [Heq|Hne].
      * pose proof (proj2 Hn' Heq) as ->. injection Heq as -> ->.
        assert (a = a0) as -> by congruence.
        unfold h', t0. rewrite Hhn.
        destruct (type (App4.store st a0)) eqn:Ht; simpl;
          rewrite ?upd_eq; simpl; by rewrite ?Hhn, ?Ht.
      * assert (a' ≠ n) by (intros ?; by apply Hne, Hn').
        unfold h'. destruct (_ && _); [rewrite upd_ne by done|];
          by rewrite Hh.
  - (* the start tool *)
    destruct (Hclear _ Hps) as (h2 & -> & Hret2 & Hold2 & Htype2). simpl.
    exists (upd h2 n (set_type T_start)), next1, g1, n.
    assert (Hret : retagged h1 (upd h2 n (set_type T_start)))
      by (by apply retagged_upd).
    split_and!; try done.
    + intros a Ha. rewrite upd_ne by lia. by apply Hold2.
    + by apply (retagged_wf h1).
    + intros r' c' a' Hc'. destruct (Hcells _ _ _ Hc') as (Hr' & a & Ha & Hh).
      split; [done|]. exists a. split; [done|].
      rewrite (Hret a'), Hh. f_equal.
      pose proof (Hinj _ _ _ Hc') as Hn'.
      destruct (decide ((r', c') = (r, c))) as [Heq|Hne].
      * rewrite (proj2 Hn' Heq). by rewrite upd_eq.
      * rewrite upd_ne by (intros ?; by apply Hne, Hn').
        rewrite (Htype2 _ _ _ Hc'), Hh.
        by destruct (decide (_ = Some (r', c'))).
  - (* the end tool *)
    destruct (Hclear _ Hpe) as (h2 & -> & Hret2 & Hold2 & Htype2). simpl.
    exists (upd h2 n (set_type T_end)), next1, g1, n.
    assert (Hret : retagged h1 (upd h2 n (set_type T_end)))
      by (by apply retagged_upd).
    split_and!; try done.
    + intros a Ha. rewrite upd_ne by lia. by apply Hold2.
    + by apply (retagged_wf h1).
    + intros r' c' a' Hc'. destruct (Hcells _ _ _ Hc') as (Hr' & a & Ha & Hh).
      split; [done|]. exists a. split; [done|].
      rewrite (Hret a'), Hh. f_equal.
      pose proof (Hinj _ _ _ Hc') as Hn'.
      destruct (decide ((r', c') = (r, c))) as [Heq|Hne].
      * rewrite (proj2 Hn' Heq). by rewrite upd_eq.
      * rewrite upd_ne by (intros ?; by apply Hne, Hn').
        rewrite (Htype2 _ _ _ Hc'), Hh.
        by destruct (decide (_ = Some (r', c'))).
Qed.
End click.

Lemma retag_pos F p n : row (retag F p n) = row n ∧ col (retag F p n) = col n.
Proof. done. Qed.

Section click_facts.
Variables (ed : Editor.State) (r c : Z).
Local Abbreviation st := (Editor.app ed).
Hypothesis Hok : editor_okb ed = true.
Hypothesis Hrun : App4.isRunning st = false.

Lemma handleNodeClick_copy :
  in_bounds (App4.grid st) (r, c) = true →
  ∃ ed' n,
    Editor.handleNodeClick r c ed = Ok ed'
    ∧ copy_with (retag (clicked_type (Editor.currentTool ed) (r, c)
                          (pos (App4.store st) <$> App4.startNode st)
                          (pos (App4.store st) <$> App4.endNode st)))
                (App4.store st) (App4.next st) (App4.grid st)
                (App4.store (Editor.app ed')) (App4.next (Editor.app ed'))
                (App4.grid (Editor.app ed'))
    ∧ cell (App4.grid (Editor.app ed')) r c = Some n
    ∧ App4.startNode (Editor.app ed')
      = (if decide (Editor.currentTool ed = Editor.Tool_start)
         then Some n else App4.startNode st)
    ∧ App4.endNode (Editor.app ed')
      = (if decide (Editor.currentTool ed = Editor.Tool_end)
         then Some n else App4.endNode st)
    ∧ App4.isRunning (Editor.app ed') = false
    ∧ App4.algorithm (Editor.app ed') = App4.algorithm st
    ∧ App4.error (Editor.app ed') = App4.error st
    ∧ Editor.currentTool ed' = Editor.currentTool ed
    ∧ Editor.isMousePressed ed' = Editor.isMousePressed ed
    ∧ editor_okb ed' = true.
Proof using Hok Hrun.
  intros Hin.
  destruct (handleNodeClick_core ed r c Hok Hrun Hin)
    as (h' & next' & g' & n & -> & Hle & Hold & Hwf' & Hlen & Hcols & Hn
        & Hfw & Hnone & Hcells).
  apply editor_okb_spec in Hok as (Hwf & Hal & Hps & Hpe).
  eexists _, n. split; [done|]. simpl.
  assert (Hcopy : copy_with (retag (clicked_type (Editor.currentTool ed) (r, c)
                          (pos (App4.store st) <$> App4.startNode st)
                          (pos (App4.store st) <$> App4.endNode st)))
                (App4.store st) (App4.next st) (App4.grid st) h' next' g').
  { split_and!; try done. intros r' c' a Ha.
    destruct (Hfw _ _ _ Ha) as [a' Ha']. exists a'.
    destruct (Hcells _ _ _ Ha') as (Hr' & a2 & Ha2 & Hh).
    split_and!; [done|lia|lia|]. assert (a2 = a) as -> by congruence. done. }
  split_and!; try done.
  apply editor_okb_spec. simpl.
  assert (Hpl : ∀ x, placedb (App4.store st) (App4.next st) (App4.grid st) x
                     = true → placedb h' next' g' x = true).
  { intros [x|]; [|done]. intros [Hx Hb]%placedb_spec. apply placedb_spec.
    split; [lia|]. unfold pos. rewrite (Hold x Hx).
    by rewrite (copy_in_bounds _ _ _ _ _ _ _ Hcopy). }
  assert (Hpn : placedb h' next' g' (Some n) = true).
  { apply placedb_spec. destruct (Hcells _ _ _ Hn) as (Hr' & _).
    split; [lia|]. rewrite (wf_pos _ _ Hwf' _ _ _ Hn).
    by rewrite (copy_in_bounds _ _ _ _ _ _ _ Hcopy). }
  split_and!; [done| | |].
  - by apply (copy_allocated _ _ _ _ _ _ _ Hcopy).
  - destruct (decide _); [done|by apply Hpl].
  - destruct (decide _); [done|by apply Hpl].
Qed.

Lemma clear_cell_of_no_starve (h : Heap) (g : Grid) (old : option addr) :
  Editor.clear_cell_of h g old ≠ OutOfFuel.
Proof.
  destruct old as [x|]; simpl; [|done]. unfold Editor.set_cell_type.
  by destruct (cell g _ _).
Qed.

Lemma handleNodeClick_outside :
  in_bounds (App4.grid st) (r, c) = false →
  Editor.handleNodeClick r c ed = TypeError.
Proof using Hok Hrun.
  intros Hout. apply editor_okb_spec in Hok as (Hwf & Hal & Hps & Hpe).
  unfold Editor.handleNodeClick. rewrite Hrun.
  destruct (map_grid_copy id (App4.store st) _ _ Hal)
    as (h1 & next1 & g1 & -> & Hcopy).
  pose proof Hcopy as (_ & _ & _ & _ & _ & Hnone).
  rewrite (Hnone r c) by (by apply (cell_None_out (App4.store st))).
  destruct (Editor.grid_row g1 r); simpl; [|done].
  destruct (Editor.currentTool ed); simpl; [done| |].
  - pose proof (clear_cell_of_no_starve h1 g1 (App4.startNode st)).
    by destruct (Editor.clear_cell_of _ _ _).
  - pose proof (clear_cell_of_no_starve h1 g1 (App4.endNode st)).
    by destruct (Editor.clear_cell_of _ _ _).
Qed.
End click_facts.

(** ** Consequences for the editor *)


Lemma not_in_gridb_old (h : Heap) (next : addr) (g : Grid) (x : addr) :
  (∀ a, in_grid g a → (next <= a)%nat) → (x < next)%nat →
  in_gridb h g x = false.
Proof.
  intros Hfresh Hx. apply bool_decide_eq_false. intros Hc.
  assert (in_grid g x) as Hin by (by eexists _, _).
  apply Hfresh in Hin. lia.
Qed.

Lemma tags_matchb_spec (ed : Editor.State) :
  tags_matchb ed = true ↔
  ∀ a, in_grid (App4.grid (Editor.app ed)) a →
    (type (App4.store (Editor.app ed) a) = T_start →
     pos (App4.store (Editor.app ed)) <$> App4.startNode (Editor.app ed)
     = Some (pos (App4.store (Editor.app ed)) a))
    ∧ (type (App4.store (Editor.app ed) a) = T_end →
       pos (App4.store (Editor.app ed)) <$> App4.endNode (Editor.app ed)
       = Some (pos (App4.store (Editor.app ed)) a)).
Proof.
  unfold tags_matchb. rewrite forallb_forall.
  set (Q := λ a : addr,
    (negb (bool_decide (type (App4.store (Editor.app ed) a) = T_start))
     || bool_decide (pos (App4.store (Editor.app ed))
                       <$> App4.startNode (Editor.app ed)
                     = Some (pos (App4.store (Editor.app ed)) a)))
    && (negb (bool_decide (type (App4.store (Editor.app ed) a) = T_end))
        || bool_decide (pos (App4.store (Editor.app ed))
                          <$> App4.endNode (Editor.app ed)
                        = Some (pos (App4.store (Editor.app ed)) a)))).
  assert (HQ : ∀ a, Q a = true ↔
    (type (App4.store (Editor.app ed) a) = T_start →
     pos (App4.store (Editor.app ed)) <$> App4.startNode (Editor.app ed)
     = Some (pos (App4.store (Editor.app ed)) a))
    ∧ (type (App4.store (Editor.app ed) a) = T_end →
       pos (App4.store (Editor.app ed)) <$> App4.endNode (Editor.app ed)
       = Some (pos (App4.store (Editor.app ed)) a))).
  { intros a. unfold Q.
    rewrite andb_true_iff, !orb_true_iff, !negb_true_iff,
      !bool_decide_eq_false, !bool_decide_eq_true.
    split.
    - intros [[H1|H1] [H2|H2]]; split; intros; done.
    - intros [H1 H2]. split.
      + destruct (decide (type (App4.store (Editor.app ed) a) = T_start));
          [right; auto|by left].
      + destruct (decide (type (App4.store (Editor.app ed) a) = T_end));
          [right; auto|by left]. }
  split.
  - intros H a Ha. apply HQ.
    apply elem_of_concat_grid, list_elem_of_join in Ha as (rowl & Ha & Hrow).
    specialize (H rowl ltac:(by apply list_elem_of_In)).
    rewrite forallb_forall in H. apply H. by apply list_elem_of_In.
  - intros H rowl Hrow%list_elem_of_In. apply forallb_forall.
    intros a Ha%list_elem_of_In. apply HQ, H.
    apply elem_of_concat_grid, list_elem_of_join. eauto.
Qed.

Lemma twice_clicked (target : Z * Z) (s e s' e' : option (Z * Z)) (p : Z * Z)
  (t : NodeType) :
  clicked_type Editor.Tool_wall target s' e' p
    (clicked_type Editor.Tool_wall target s e p t)
  = twice_clicked_type target p t.
Proof.
  unfold clicked_type, twice_clicked_type.
  destruct (decide (p = target)); [by destruct t|done].
Qed.

(** ** createInitialGrid and resetGrid *)

Lemma create_row_acc (r : nat) (k : nat) :
  ∀ (c0 : nat) (h0 : Heap) (n0 : addr) (out0 : list addr),
  ∃ h',
    fold_left (λ (acc : Heap * addr * list addr) (c : nat),
                 let '(h, next, currentRow) := acc in
                 (alloc h next (fresh_node (Z.of_nat r) (Z.of_nat c) T_empty),
                  S next, currentRow ++ [next]))
              (seq c0 k) (h0, n0, out0)
    = (h', (n0 + k)%nat, out0 ++ seq n0 k)
    ∧ (∀ a, (a < n0)%nat → h' a = h0 a)
    ∧ (∀ j, (j < k)%nat →
         h' (n0 + j)%nat
         = fresh_node (Z.of_nat r) (Z.of_nat (c0 + j)) T_empty).
Proof.
  induction k as [|k IH]; intros c0 h0 n0 out0; simpl.
  { exists h0. rewrite Nat.add_0_r, app_nil_r. split_and!; [done|done|lia]. }
  destruct (IH (S c0) (alloc h0 n0 (fresh_node (Z.of_nat r) (Z.of_nat c0) T_empty))
               (S n0) (out0 ++ [n0])) as (h' & Heq & Hold & Hnew).
  exists h'. split_and!.
  - etrans; [apply Heq|]. f_equal; [f_equal; lia|]. by rewrite <- app_assoc.
  - intros a Ha. rewrite Hold by lia. apply alloc_ne. lia.
  - intros [|j] Hj.
    + rewrite !Nat.add_0_r, Hold by lia. apply alloc_eq.
    + replace (n0 + S j)%nat with (S n0 + j)%nat by lia.
      rewrite Hnew by lia. do 2 f_equal. lia.
Qed.

Lemma create_row_spec (size : Editor.GridSize) (h : Heap) (next : addr)
  (r : nat) :
  ∃ h',
    Editor.create_row size h next r
    = (h', (next + Editor.cols size)%nat, seq next (Editor.cols size))
    ∧ (∀ a, (a < next)%nat → h' a = h a)
    ∧ (∀ j, (j < Editor.cols size)%nat →
         h' (next + j)%nat = fresh_node (Z.of_nat r) (Z.of_nat j) T_empty).
Proof.
  destruct (create_row_acc r (Editor.cols size) 0 h next [])
    as (h' & Heq & Hold & Hnew).
  exists h'. split_and!; [apply Heq|done|done].
Qed.

Lemma create_grid_acc (size : Editor.GridSize) (k : nat) :
  ∀ (r0 : nat) (h0 : Heap) (n0 : addr) (out0 : Grid),
  ∃ h',
    fold_left (λ (acc : Heap * addr * Grid) (r : nat),
                 let '(h, next, newGrid) := acc in
                 let '(h', next', currentRow) :=
                   Editor.create_row size h next r in
                 (h', next', newGrid ++ [currentRow]))
              (seq r0 k) (h0, n0, out0)
    = (h', (n0 + k * Editor.cols size)%nat,
       out0 ++ rows_from n0 (Editor.cols size) 0 k)
    ∧ (∀ a, (a < n0)%nat → h' a = h0 a)
    ∧ (∀ i j, (i < k)%nat → (j < Editor.cols size)%nat →
         h' (n0 + i * Editor.cols size + j)%nat
         = fresh_node (Z.of_nat (r0 + i)) (Z.of_nat j) T_empty).
Proof.
  induction k as [|k IH]; intros r0 h0 n0 out0; simpl.
  { exists h0. rewrite Nat.add_0_r, app_nil_r. split_and!; [done|done|lia]. }
  destruct (create_row_spec size h0 n0 r0) as (h1 & -> & Hold1 & Hnew1).
  destruct (IH (S r0) h1 (n0 + Editor.cols size)%nat
               (out0 ++ [seq n0 (Editor.cols size)]))
    as (h' & Heq & Hold & Hnew).
  exists h'. split_and!.
  - etrans; [apply Heq|]. f_equal; [f_equal; lia|].
    rewrite <- app_assoc. f_equal. unfold rows_from. simpl.
    rewrite Nat.add_0_r. f_equal.
    rewrite <- (fmap_S_seq 0 k), <- list_fmap_compose.
    apply list_fmap_ext. intros _ i _. simpl. f_equal. lia.
  - intros a Ha. rewrite Hold by lia. by apply Hold1.
  - intros [|i] j Hi Hj.
    + simpl. rewrite Nat.add_0_r, Hold by lia. rewrite Hnew1 by done.
      do 2 f_equal. lia.
    + replace (n0 + S i * Editor.cols size + j)%nat
        with (n0 + Editor.cols size + i * Editor.cols size + j)%nat by lia.
      rewrite Hnew by lia. do 2 f_equal. lia.
Qed.

Lemma rows_from_cell (next : addr) (cols k : nat) (r c : Z) (a : addr) :
  cell (rows_from next cols 0 k) r c = Some a ↔
  0 <= r < Z.of_nat k ∧ 0 <= c < Z.of_nat cols
  ∧ a = (next + Z.to_nat r * cols + Z.to_nat c)%nat.
Proof.
  rewrite cell_Some. unfold rows_from. split.
  - intros (Hr & Hc & rowl & Hrow & Ha).
    apply list_lookup_fmap_Some in Hrow as (i & -> & Hi).
    apply lookup_seq in Hi as [-> Hi]. apply lookup_seq in Ha as [-> Ha].
    simpl. split_and!; lia.
  - intros ([Hr Hr'] & [Hc Hc'] & ->). split_and!; [done|done|].
    exists (seq (next + Z.to_nat r * cols) cols). split.
    + apply list_lookup_fmap_Some. exists (Z.to_nat r). split; [done|].
      apply lookup_seq. split; [done|lia].
    + apply lookup_seq. split; [done|lia].
Qed.

Lemma create_grid_spec (size : Editor.GridSize) (h : Heap) (next : addr) :
  (0 < Editor.rows size)%nat → (0 < Editor.cols size)%nat →
  ∃ h' g,
    Editor.create_grid size h next
    = (h', (next + Editor.rows size * Editor.cols size)%nat, g)
    ∧ wf_grid h' g
    ∧ grid_length g = Z.of_nat (Editor.rows size)
    ∧ grid_cols g = Z.of_nat (Editor.cols size)
    ∧ allocatedb (next + Editor.rows size * Editor.cols size)%nat g = true
    ∧ (∀ a, (a < next)%nat → h' a = h a)
    ∧ ∀ r c a, cell g r c = Some a →
        (next <= a)%nat ∧ h' a = fresh_node r c T_empty.
Proof.
  intros Hrows Hcols.
  destruct (create_grid_acc size (Editor.rows size) 0 h next [])
    as (h' & Heq & Hold & Hnew).
  exists h', (rows_from next (Editor.cols size) 0 (Editor.rows size)).
  split; [apply Heq|].
  assert (Hcell : ∀ r c a,
            cell (rows_from next (Editor.cols size) 0 (Editor.rows size)) r c
            = Some a →
            (next <= a < next + Editor.rows size * Editor.cols size)%nat
            ∧ h' a = fresh_node r c T_empty).
  { intros r c a (Hr & Hc & ->)%rows_from_cell. split; [nia|].
    rewrite Hnew by lia. f_equal; lia. }
  assert (Hlen : grid_length (rows_from next (Editor.cols size) 0
                                        (Editor.rows size))
                 = Z.of_nat (Editor.rows size)).
  { unfold grid_length, rows_from. by rewrite length_fmap, length_seq. }
  assert (Hgc : grid_cols (rows_from next (Editor.cols size) 0
                                     (Editor.rows size))
                = Z.of_nat (Editor.cols size)).
  { unfold rows_from. destruct (Editor.rows size); [lia|]. simpl.
    by rewrite length_seq. }
  split_and!; try done.
  - split.
    + lia.
    + lia.
    + intros r rowl Hrow. rewrite Hgc. unfold rows_from in Hrow.
      apply list_lookup_fmap_Some in Hrow as (i & -> & _).
      by rewrite length_seq.
    + intros r c a Hc. destruct (Hcell _ _ _ Hc) as [_ Hh].
      unfold pos. by rewrite Hh.
  - apply allocatedb_spec. intros a (r & c & Hc).
    destruct (Hcell _ _ _ Hc) as [? _]. lia.
  - intros r c a Hc. destruct (Hcell _ _ _ Hc) as [? ?]. split; [lia|done].
Qed.

(** ** The animation *)

Section one_pass.
Variables (h : Heap) (next : addr) (g : Grid) (x : addr).
Hypothesis Hwf : wf_grid h g.
Hypothesis Hal : allocatedb next g = true.
Hypothesis Hx : (x < next)%nat.
Hypothesis Hxb : in_bounds g (pos h x) = true.

Lemma mark_spec (T : NodeType → NodeType) (h1 : Heap) (next1 : addr)
  (g1 : Grid) (h' : Heap) :
  copy_with (λ _, id) h next g h1 next1 g1 →
  retagged h1 h' →
  (∀ n, cell g1 (row (h x)) (col (h x)) = Some n →
     type (h' n) = T (type (h1 n)) ∧ ∀ a, a ≠ n → h' a = h1 a) →
  copy_with (retag (λ p t, if decide (p = pos h x) then T t else t))
            h next g h' next1 g1.
Proof using Hwf Hx Hxb.
  intros Hcopy Hret Hn.
  pose proof (copy_wf (λ _, id) _ _ _ _ _ _ Hcopy Hwf ltac:(done)) as Hwf1.
  pose proof Hcopy as (Hle & Hold & Hlen & Hcols & Hsome & Hnone).
  destruct (in_bounds_cell _ _ _ Hwf Hxb) as [ax Hax]. simpl in Hax.
  destruct (Hsome _ _ _ Hax) as (n & Hcn & Hnr & Hhn).
  destruct (Hn n Hcn) as [Htn Hother].
  split_and!; try done.
  - intros a Ha. rewrite Hother by lia. by apply Hold.
  - intros r c a Ha. destruct (Hsome _ _ _ Ha) as (a' & Ha' & Hr' & Hh).
    exists a'. split_and!; [done|lia|lia|].
    unfold retag. simpl in Hh.
    destruct (decide ((r, c) = pos h x)) as [Heq|Hne].
    + unfold pos in Heq. injection Heq as -> ->.
      assert (a' = n) as -> by congruence. assert (a = ax) as -> by congruence.
      rewrite (Hret n), Htn, Hh. done.
    + rewrite Hother, Hh; [by rewrite set_type_eta|].
      intros ->. apply Hne.
      destruct (cell_inj _ _ _ _ _ _ _ Hwf1 Ha' Hcn). unfold pos. congruence.
Qed.

Lemma mark_visited_spec :
  ∃ h' next' g',
    Animation.mark_visited (h, next, g) x = Ok (h', next', g')
    ∧ copy_with (retag (visit_type (pos h x))) h next g h' next' g'.
Proof using Hwf Hal Hx Hxb.
  unfold Animation.mark_visited.
  destruct (map_grid_copy id h next g Hal) as (h1 & next1 & g1 & -> & Hcopy).
  pose proof Hcopy as (Hle & Hold & Hlen & Hcols & Hsome & Hnone).
  destruct (in_bounds_cell _ _ _ Hwf Hxb) as [ax Hax]. simpl in Hax.
  destruct (Hsome _ _ _ Hax) as (n & Hcn & Hnr & Hhn).
  rewrite (Hold x Hx), Hcn. simpl.
  exists (if bool_decide (type (h1 n) = T_empty)
          then upd h1 n (set_type T_visited) else h1), next1, g1.
  split; [by destruct (bool_decide _)|].
  apply (copy_with_ext
           (retag (λ p t, if decide (p = pos h x)
                          then (if bool_decide (t = T_empty)
                                then T_visited else t) else t))).
  { done. }
  apply (mark_spec _ h1); [done| |].
  - destruct (bool_decide _); [|apply retagged_refl].
    apply retagged_upd, retagged_refl.
  - intros n' Hn'. assert (n' = n) as -> by congruence.
    destruct (bool_decide (type (h1 n) = T_empty)) eqn:Hb.
    + split; [by rewrite upd_eq|]. intros a Ha. by rewrite upd_ne.
    + done.
Qed.

Lemma mark_path_spec :
  ∃ h' next' g',
    Animation.mark_path (h, next, g) x = Ok (h', next', g')
    ∧ copy_with (retag (path_type (pos h x))) h next g h' next' g'.
Proof using Hwf Hal Hx Hxb.
  unfold Animation.mark_path.
  destruct (map_grid_copy id h next g Hal) as (h1 & next1 & g1 & -> & Hcopy).
  pose proof Hcopy as (Hle & Hold & Hlen & Hcols & Hsome & Hnone).
  destruct (in_bounds_cell _ _ _ Hwf Hxb) as [ax Hax]. simpl in Hax.
  destruct (Hsome _ _ _ Hax) as (n & Hcn & Hnr & Hhn).
  rewrite (Hold x Hx), Hcn. simpl.
  exists (if bool_decide (type (h1 n) ≠ T_start)
             && bool_decide (type (h1 n) ≠ T_end)
          then upd h1 n (set_type T_path) else h1), next1, g1.
  split; [by destruct (_ && _)|].
  apply (copy_with_ext
           (retag (λ p t, if decide (p = pos h x)
                          then (if bool_decide (t ≠ T_start)
                                   && bool_decide (t ≠ T_end)
                                then T_path else t) else t))).
  { done. }
  apply (mark_spec _ h1); [done| |].
  - destruct (_ && _); [|apply retagged_refl].
    apply retagged_upd, retagged_refl.
  - intros n' Hn'. assert (n' = n) as -> by congruence.
    destruct (bool_decide (type (h1 n) ≠ T_start)
              && bool_decide (type (h1 n) ≠ T_end)) eqn:Hb.
    + split; [by rewrite upd_eq|]. intros a Ha. by rewrite upd_ne.
    + done.
Qed.
End one_pass.

Lemma copy_cells_with f h next g h' next' g' :
  copy_with f h next g h' next' g' → cells_with f h g h' g'.
Proof.
  intros (_ & _ & Hlen & Hcols & Hsome & Hnone). split_and!; try done.
  intros r c a Ha. destruct (Hsome _ _ _ Ha) as (a' & ? & _ & ?). eauto.
Qed.

Lemma cells_with_refl (F : Z * Z → NodeType → NodeType) h g :
  (∀ p t, F p t = t) → cells_with (retag F) h g h g.
Proof.
  intros HF. split_and!; try done. intros r c a Ha. exists a. split; [done|].
  unfold retag. by rewrite HF, set_type_eta.
Qed.

Lemma cells_with_trans f1 f2 h1 g1 h2 g2 h3 g3 :
  cells_with f1 h1 g1 h2 g2 → cells_with f2 h2 g2 h3 g3 →
  cells_with (λ p n, f2 p (f1 p n)) h1 g1 h3 g3.
Proof.
  intros (Hlen1 & Hcols1 & Hsome1 & Hnone1) (Hlen2 & Hcols2 & Hsome2 & Hnone2).
  split_and!; [congruence|congruence| |by auto].
  intros r c a Ha. destruct (Hsome1 _ _ _ Ha) as (a2 & Ha2 & Hh2).
  destruct (Hsome2 _ _ _ Ha2) as (a3 & Ha3 & Hh3).
  exists a3. split; [done|]. by rewrite Hh3, Hh2.
Qed.

Lemma cells_with_ext f1 f2 h g h' g' :
  (∀ p x, f1 p x = f2 p x) → cells_with f1 h g h' g' → cells_with f2 h g h' g'.
Proof.
  intros Hext (Hlen & Hcols & Hsome & Hnone). split_and!; try done.
  intros r c a Ha. destruct (Hsome _ _ _ Ha) as (a' & Ha' & Hh).
  exists a'. by rewrite <- Hext.
Qed.

Lemma shownb_spec (h : Heap) (next : addr) (g : Grid) (l : list addr) :
  shownb h next g l = true ↔
  ∀ a, a ∈ l → (a < next)%nat ∧ in_bounds g (pos h a) = true.
Proof.
  unfold shownb. rewrite forallb_forall. split.
  - intros H a Ha%list_elem_of_In. specialize (H a Ha).
    by apply andb_true_iff in H as [?%Nat.ltb_lt ?].
  - intros H a Ha%list_elem_of_In. destruct (H a Ha).
    apply andb_true_iff. by rewrite Nat.ltb_lt.
Qed.

Section loops.
Variables (f : Heap * addr * Grid → addr → outcome (Heap * addr * Grid))
          (ty : Z * Z → Z * Z → NodeType → NodeType).
Hypothesis f_spec : ∀ h next g x,
  wf_grid h g → allocatedb next g = true → (x < next)%nat →
  in_bounds g (pos h x) = true →
  ∃ h' next' g', f (h, next, g) x = Ok (h', next', g')
                 ∧ copy_with (retag (ty (pos h x))) h next g h' next' g'.

Lemma foldM_mark (l : list addr) : ∀ h next g,
  wf_grid h g → allocatedb next g = true → shownb h next g l = true →
  ∃ h' next' g',
    foldM f (h, next, g) l = Ok (h', next', g')
    ∧ wf_grid h' g' ∧ allocatedb next' g' = true
    ∧ (next <= next')%nat ∧ (∀ a, (a < next)%nat → h' a = h a)
    ∧ cells_with (retag (λ p t, fold_left (λ t q, ty q p t) (pos h <$> l) t))
                 h g h' g'.
Proof using f_spec.
  induction l as [|x l IH]; intros h next g Hwf Hal Hl.
  { exists h, next, g. split_and!; try done. by apply cells_with_refl. }
  pose proof (proj1 (shownb_spec _ _ _ _) Hl) as Hl'.
  destruct (Hl' x ltac:(by left)) as [Hx Hxb].
  destruct (f_spec h next g x Hwf Hal Hx Hxb)
    as (h1 & next1 & g1 & Hf & Hcopy).
  pose proof (copy_wf _ _ _ _ _ _ _ Hcopy Hwf (retag_pos _)) as Hwf1.
  pose proof (copy_allocated _ _ _ _ _ _ _ Hcopy) as Hal1.
  pose proof Hcopy as (Hle & Hold & _).
  assert (Hl1 : shownb h1 next1 g1 l = true).
  { apply shownb_spec. intros a Ha. destruct (Hl' a ltac:(by right)) as [? ?].
    split; [lia|]. unfold pos. rewrite (Hold a) by done.
    by rewrite (copy_in_bounds _ _ _ _ _ _ _ Hcopy). }
  destruct (IH h1 next1 g1 Hwf1 Hal1 Hl1)
    as (h' & next' & g' & Hfold & Hwf' & Hal' & Hle' & Hold' & Hcells).
  exists h', next', g'. simpl. rewrite Hf. simpl.
  split_and!; [done|done|done|lia| |].
  - intros a Ha. rewrite Hold' by lia. by apply Hold.
  - assert (Hpos : pos h1 <$> l = pos h <$> l).
    { apply list_fmap_ext. intros _ a Ha%list_elem_of_lookup_2.
      destruct (Hl' a ltac:(by right)) as [? _]. unfold pos.
      by rewrite (Hold a). }
    rewrite Hpos in Hcells.
    eapply cells_with_ext;
      [|apply (cells_with_trans _ _ _ _ _ _ _ _
                 (copy_cells_with _ _ _ _ _ _ _ Hcopy) Hcells)].
    done.
Qed.
End loops.

Lemma visit_fold (vis : list (Z * Z)) (p : Z * Z) : ∀ t,
  fold_left (λ t q, visit_type q p t) vis t
  = if bool_decide (p ∈ vis) && bool_decide (t = T_empty) then T_visited else t.
Proof.
  induction vis as [|q vis IH]; intros t; simpl.
  { done. }
  rewrite IH. unfold visit_type.
  destruct (decide (p = q)) as [->|Hne].
  - rewrite (bool_decide_eq_true_2 (q ∈ q :: vis)) by (by left). simpl.
    destruct (bool_decide (t = T_empty)) eqn:Ht.
    + by destruct (bool_decide (q ∈ vis)).
    + rewrite Ht. by rewrite andb_false_r.
  - assert (bool_decide (p ∈ q :: vis) = bool_decide (p ∈ vis)) as ->; [|done].
    apply bool_decide_ext. rewrite elem_of_cons. split; [|by right].
    by intros [?|?].
Qed.

Lemma path_fold (pth : list (Z * Z)) (p : Z * Z) : ∀ t,
  fold_left (λ t q, path_type q p t) pth t
  = if bool_decide (p ∈ pth) && bool_decide (t ≠ T_start)
       && bool_decide (t ≠ T_end)
    then T_path else t.
Proof.
  induction pth as [|q pth IH]; intros t; simpl.
  { done. }
  rewrite IH. unfold path_type.
  destruct (decide (p = q)) as [->|Hne].
  - rewrite (bool_decide_eq_true_2 (q ∈ q :: pth)) by (by left). simpl.
    destruct (bool_decide (t ≠ T_start) && bool_decide (t ≠ T_end)) eqn:Ht.
    + simpl. by destruct (bool_decide (q ∈ pth)).
    + rewrite <- andb_assoc, Ht. by rewrite andb_false_r.
  - assert (bool_decide (p ∈ q :: pth) = bool_decide (p ∈ pth)) as ->; [|done].
    apply bool_decide_ext. rewrite elem_of_cons. split; [|by right].
    by intros [?|?].
Qed.

Lemma shown_type_folds (vis pth : list (Z * Z)) (p : Z * Z) (t : NodeType) :
  fold_left (λ t q, path_type q p t) pth
            (fold_left (λ t q, visit_type q p t) vis t)
  = shown_type vis pth p t.
Proof.
  rewrite path_fold, visit_fold. unfold shown_type.
  destruct (bool_decide (p ∈ pth)), (bool_decide (p ∈ vis)); simpl;
    by destruct t.
Qed.

(** ** The animation of a result *)
Lemma animate_spec (h : Heap) (next : addr) (g : Grid) (result : Result) :
  wf_grid h g → allocatedb next g = true →
  shownb h next g (visitedNodes result) = true →
  shownb h next g (path result) = true →
  ∃ h' next' g',
    Animation.animate (h, next, g) result
    = Ok (h', next', g',
          if decide (path result = []) then Some Animation.NoPathFound
          else None)
    ∧ wf_grid h' g' ∧ allocatedb next' g' = true
    ∧ (next <= next')%nat ∧ (∀ a, (a < next)%nat → h' a = h a)
    ∧ cells_with (retag (shown_type (pos h <$> visitedNodes result)
                                    (pos h <$> path result)))
                 h g h' g'.
Proof.
  intros Hwf Hal Hv Hp. unfold Animation.animate.
  destruct (foldM_mark Animation.mark_visited visit_type
              mark_visited_spec _ h next g Hwf Hal Hv)
    as (h1 & next1 & g1 & -> & Hwf1 & Hal1 & Hle1 & Hold1 & Hc1).
  simpl. destruct (path result) as [|x pth] eqn:Hpath.
  { exists h1, next1, g1. split_and!; try done.
    eapply cells_with_ext; [|apply Hc1].
    intros p n. unfold retag. simpl. by rewrite <- shown_type_folds. }
  assert (Hne : path result ≠ []) by (by rewrite Hpath).
  rewrite <- Hpath in *. clear Hpath.
  assert (Hp1 : shownb h1 next1 g1 (path result) = true).
  { apply shownb_spec. intros a Ha.
    destruct (proj1 (shownb_spec _ _ _ _) Hp a Ha) as [? ?].
    split; [lia|]. unfold pos. rewrite (Hold1 a) by done.
    destruct Hc1 as (Hl & Hc & _). unfold in_bounds. by rewrite Hl, Hc. }
  destruct (foldM_mark Animation.mark_path path_type
              mark_path_spec _ h1 next1 g1 Hwf1 Hal1 Hp1)
    as (h2 & next2 & g2 & -> & Hwf2 & Hal2 & Hle2 & Hold2 & Hc2).
  simpl. exists h2, next2, g2.
  assert (Hpos : pos h1 <$> path result = pos h <$> path result).
  { apply list_fmap_ext. intros _ a Ha%list_elem_of_lookup_2.
    destruct (proj1 (shownb_spec _ _ _ _) Hp a Ha) as [? _]. unfold pos.
    by rewrite (Hold1 a). }
  rewrite Hpos in Hc2.
  split_and!; [|done|done|lia| |].
  - by rewrite decide_False.
  - intros a Ha. rewrite Hold2 by lia. by apply Hold1.
  - eapply cells_with_ext; [|apply (cells_with_trans _ _ _ _ _ _ _ _ Hc1 Hc2)].
    intros p n. unfold retag. simpl. by rewrite <- shown_type_folds.
Qed.

(** * Further properties of the code *)

(** X1: on a well-formed grid with a 4-directional path of non-wall grid
    nodes from the start to the end, dijkstra returns; the end node is the
    last node it finalizes and is finalized once; the path it returns is
    such a path, and no such path has fewer nodes. *)
Theorem dijkstra_shortest_path (h : Heap) (g : Grid) (s e : addr)
  (q0 : list addr) (fuel : nat) :
  wf_gridb h g = true → valid_pathb h g s e q0 = true →
  (grid_size g < fuel)%nat →
  ∃ h' r,
    Dijkstra.dijkstra fuel h g s e = Ok (h', r)
    ∧ (∃ l, visitedNodes r = l ++ [e] ∧ e ∉ l)
    ∧ valid_pathb h g s e (path r) = true
    ∧ ∀ q, valid_pathb h g s e q = true → (length (path r) <= length q)%nat.
Proof.
  intros Hwf%wf_gridb_wf Hq0 Hfuel.
  destruct (valid_path_reach h g s e q0 Hwf Hq0)
    as (Hs & Hsw & He & n0 & _ & Hr0).
  pose proof (in_grid_passable _ _ _ Hwf Hs Hsw) as Hp.
  destruct (dijkstra_run h g s e fuel Hwf Hs Hsw Hfuel)
    as (h' & r & vs & p & st & Hrun & HR & _ & HI & Hc).
  exists h', r. split; [done|].
  destruct Hc as [Hf|Hx].
  2:{ destruct (exhausted_facts _ _ _ _ _ _ Hp hz_cons (hz_goal _) _ _ _ HI Hx)
        as (_ & _ & _ & Hno & _).
      by destruct (Hno _ Hr0). }
  by apply (found_valid_shortest h g s e (λ _, 0) Hwf Hs Hsw hz_cons
              (hz_goal _) h' r vs p st).
Qed.

Lemma dijkstra_shortest_path_witness :
  ∃ h' r,
    Dijkstra.dijkstra 10 ex_heap ex_grid 0%nat 8%nat = Ok (h', r)
    ∧ (∃ l, visitedNodes r = l ++ [8%nat] ∧ 8%nat ∉ l)
    ∧ valid_pathb ex_heap ex_grid 0%nat 8%nat (path r) = true
    ∧ ∀ q, valid_pathb ex_heap ex_grid 0%nat 8%nat q = true →
           (length (path r) <= length q)%nat.
Proof.
  apply (dijkstra_shortest_path ex_heap ex_grid 0%nat 8%nat
           [0; 1; 2; 5; 8]%nat 10%nat);
    [reflexivity | reflexivity | vm_compute; lia].
Defined.

(** X2: on a well-formed grid with a 4-directional path of non-wall grid
    nodes from the start to the end, astar returns; the end node is the
    last node it closes and is closed once; the path it returns is such a
    path, and no such path has fewer nodes. *)
Theorem astar_shortest_path (h : Heap) (g : Grid) (s e : addr)
  (q0 : list addr) (fuel : nat) :
  wf_gridb h g = true → valid_pathb h g s e q0 = true →
  (grid_size g < fuel)%nat →
  ∃ h' r,
    Astar.astar fuel h g s e = Ok (h', r)
    ∧ (∃ l, visitedNodes r = l ++ [e] ∧ e ∉ l)
    ∧ valid_pathb h g s e (path r) = true
    ∧ ∀ q, valid_pathb h g s e q = true → (length (path r) <= length q)%nat.
Proof.
  intros Hwf%wf_gridb_wf Hq0 Hfuel.
  destruct (valid_path_reach h g s e q0 Hwf Hq0)
    as (Hs & Hsw & He & n0 & _ & Hr0).
  pose proof (in_grid_passable _ _ _ Hwf Hs Hsw) as Hp.
  destruct (astar_run h g s e fuel Hwf Hs Hsw Hfuel)
    as (h' & r & vs & p & st & Hrun & HR & _ & HI & Hc).
  exists h', r. split; [done|].
  destruct Hc as [Hf|Hx].
  2:{ destruct (exhausted_facts _ _ _ _ _ _ Hp (manhattan_consistent _)
                  (manhattan_goal _) _ _ _ HI Hx) as (_ & _ & _ & Hno & _).
      by destruct (Hno _ Hr0). }
  by apply (found_valid_shortest h g s e (λ p, manhattan p (pos h e)) Hwf Hs Hsw
              (manhattan_consistent _) (manhattan_goal _) h' r vs p st).
Qed.

Lemma astar_shortest_path_witness :
  ∃ h' r,
    Astar.astar 10 ex_heap ex_grid 0%nat 8%nat = Ok (h', r)
    ∧ (∃ l, visitedNodes r = l ++ [8%nat] ∧ 8%nat ∉ l)
    ∧ valid_pathb ex_heap ex_grid 0%nat 8%nat (path r) = true
    ∧ ∀ q, valid_pathb ex_heap ex_grid 0%nat 8%nat q = true →
           (length (path r) <= length q)%nat.
Proof.
  apply (astar_shortest_path ex_heap ex_grid 0%nat 8%nat
           [0; 1; 2; 5; 8]%nat 10%nat);
    [reflexivity | reflexivity | vm_compute; lia].
Defined.

(** X3: on a well-formed grid whose start node is a node of the grid and
    not a wall and whose end node is a node of the grid, bfs, dijkstra and
    astar return, and each returns the empty path exactly when no
    4-directional path of non-wall grid nodes leads from the start to the
    end. *)
Theorem path_empty_iff_unreachable (h : Heap) (g : Grid) (s e : addr)
  (fuel : nat) :
  wf_gridb h g = true → in_gridb h g s = true → is_wall h s = false →
  in_gridb h g e = true → (grid_size g < fuel)%nat →
  (∃ h' r, Bfs.bfs fuel h g s e = Ok (h', r)
           ∧ (path r = [] ↔ ∀ q, valid_pathb h g s e q = false))
  ∧ (∃ h' r, Dijkstra.dijkstra fuel h g s e = Ok (h', r)
             ∧ (path r = [] ↔ ∀ q, valid_pathb h g s e q = false))
  ∧ (∃ h' r, Astar.astar fuel h g s e = Ok (h', r)
             ∧ (path r = [] ↔ ∀ q, valid_pathb h g s e q = false)).
Proof.
  intros Hwf%wf_gridb_wf Hs%in_gridb_in_grid Hsw He%in_gridb_in_grid Hfuel.
  split_and!.
  - destruct (bfs_explored h g s e fuel Hwf Hs Hsw He Hfuel)
      as (h' & r & Hrun & Hx & _). by exists h', r.
  - destruct (dijkstra_explored h g s e fuel Hwf Hs Hsw He Hfuel)
      as (h' & r & Hrun & Hx & _). by exists h', r.
  - destruct (astar_explored h g s e fuel Hwf Hs Hsw He Hfuel)
      as (h' & r & Hrun & Hx & _). by exists h', r.
Qed.

Lemma path_empty_iff_unreachable_witness :
  (∃ h' r, Bfs.bfs 10 ex_heap ex_grid 0%nat 8%nat = Ok (h', r)
           ∧ (path r = [] ↔
              ∀ q, valid_pathb ex_heap ex_grid 0%nat 8%nat q = false))
  ∧ (∃ h' r, Dijkstra.dijkstra 10 ex_heap ex_grid 0%nat 8%nat = Ok (h', r)
             ∧ (path r = [] ↔
                ∀ q, valid_pathb ex_heap ex_grid 0%nat 8%nat q = false))
  ∧ (∃ h' r, Astar.astar 10 ex_heap ex_grid 0%nat 8%nat = Ok (h', r)
             ∧ (path r = [] ↔
                ∀ q, valid_pathb ex_heap ex_grid 0%nat 8%nat q = false)).
Proof.
  apply (path_empty_iff_unreachable ex_heap ex_grid 0%nat 8%nat 10%nat);
    [reflexivity | reflexivity | reflexivity | reflexivity | vm_compute; lia].
Defined.

(** X4: on such a grid every node that bfs, dijkstra or astar records as
    visited is the end of a 4-directional path of non-wall grid nodes from
    the start; and when the returned path is empty the visited nodes are
    all the nodes that such a path leads to. *)
Theorem visited_are_reachable (h : Heap) (g : Grid) (s e : addr)
  (fuel : nat) :
  wf_gridb h g = true → in_gridb h g s = true → is_wall h s = false →
  in_gridb h g e = true → (grid_size g < fuel)%nat →
  (∃ h' r, Bfs.bfs fuel h g s e = Ok (h', r)
           ∧ (∀ x, x ∈ visitedNodes r → ∃ q, valid_pathb h g s x q = true)
           ∧ (path r = [] →
              ∀ x q, valid_pathb h g s x q = true → x ∈ visitedNodes r))
  ∧ (∃ h' r, Dijkstra.dijkstra fuel h g s e = Ok (h', r)
             ∧ (∀ x, x ∈ visitedNodes r → ∃ q, valid_pathb h g s x q = true)
             ∧ (path r = [] →
                ∀ x q, valid_pathb h g s x q = true → x ∈ visitedNodes r))
  ∧ (∃ h' r, Astar.astar fuel h g s e = Ok (h', r)
             ∧ (∀ x, x ∈ visitedNodes r → ∃ q, valid_pathb h g s x q = true)
             ∧ (path r = [] →
                ∀ x q, valid_pathb h g s x q = true → x ∈ visitedNodes r)).
Proof.
  intros Hwf%wf_gridb_wf Hs%in_gridb_in_grid Hsw He%in_gridb_in_grid Hfuel.
  split_and!.
  - destruct (bfs_explored h g s e fuel Hwf Hs Hsw He Hfuel)
      as (h' & r & Hrun & _ & Hx). by exists h', r.
  - destruct (dijkstra_explored h g s e fuel Hwf Hs Hsw He Hfuel)
      as (h' & r & Hrun & _ & Hx). by exists h', r.
  - destruct (astar_explored h g s e fuel Hwf Hs Hsw He Hfuel)
      as (h' & r & Hrun & _ & Hx). by exists h', r.
Qed.

Lemma visited_are_reachable_witness :
  (∃ h' r, Bfs.bfs 10 ex_heap ex_grid 0%nat 8%nat = Ok (h', r)
           ∧ ∀ x, x ∈ visitedNodes r →
                  ∃ q, valid_pathb ex_heap ex_grid 0%nat x q = true)
  ∧ (∃ h' r, Dijkstra.dijkstra 10 ex_heap ex_grid 0%nat 8%nat = Ok (h', r)
             ∧ ∀ x, x ∈ visitedNodes r →
                    ∃ q, valid_pathb ex_heap ex_grid 0%nat x q = true)
  ∧ (∃ h' r, Astar.astar 10 ex_heap ex_grid 0%nat 8%nat = Ok (h', r)
             ∧ ∀ x, x ∈ visitedNodes r →
                    ∃ q, valid_pathb ex_heap ex_grid 0%nat x q = true).
Proof.
  destruct (visited_are_reachable ex_heap ex_grid 0%nat 8%nat 10%nat)
    as ((hB & rB & HB & HvB & _) & (hD & rD & HD & HvD & _)
        & (hA & rA & HA & HvA & _));
    [reflexivity | reflexivity | reflexivity | reflexivity | vm_compute; lia |].
  split_and!; eauto.
Defined.

(** X5: on a well-formed grid whose start node is a node of the grid and
    not a wall, bfs and dijkstra return the same list of visited nodes
    and the same path. *)
Theorem bfs_dijkstra_same_result (h : Heap) (g : Grid) (s e : addr)
  (fuel : nat) :
  wf_gridb h g = true → in_gridb h g s = true → is_wall h s = false →
  (grid_size g < fuel)%nat →
  ∃ hB hD r,
    Bfs.bfs fuel h g s e = Ok (hB, r)
    ∧ Dijkstra.dijkstra fuel h g s e = Ok (hD, r).
Proof.
  intros Hwf%wf_gridb_wf Hs%in_gridb_in_grid Hsw Hfuel.
  by apply bfs_dijkstra_same.
Qed.

Lemma bfs_dijkstra_same_result_witness :
  ∃ hB hD r,
    Bfs.bfs 10 ex_heap ex_grid 0%nat 8%nat = Ok (hB, r)
    ∧ Dijkstra.dijkstra 10 ex_heap ex_grid 0%nat 8%nat = Ok (hD, r).
Proof.
  apply (bfs_dijkstra_same_result ex_heap ex_grid 0%nat 8%nat 10%nat);
    [reflexivity | reflexivity | reflexivity | vm_compute; lia].
Defined.

(** X6: on a well-formed grid whose start node is a node of the grid and
    not a wall, dijkstra and astar return paths with the same number of
    nodes. *)
Theorem dijkstra_astar_same_length (h : Heap) (g : Grid) (s e : addr)
  (fuel : nat) :
  wf_gridb h g = true → in_gridb h g s = true → is_wall h s = false →
  (grid_size g < fuel)%nat →
  ∃ hD rD hA rA,
    Dijkstra.dijkstra fuel h g s e = Ok (hD, rD)
    ∧ Astar.astar fuel h g s e = Ok (hA, rA)
    ∧ length (path rD) = length (path rA).
Proof.
  intros Hwf%wf_gridb_wf Hs%in_gridb_in_grid Hsw Hfuel.
  by apply dijkstra_astar_length.
Qed.

Lemma dijkstra_astar_same_length_witness :
  ∃ hD rD hA rA,
    Dijkstra.dijkstra 10 ex_heap ex_grid 0%nat 8%nat = Ok (hD, rD)
    ∧ Astar.astar 10 ex_heap ex_grid 0%nat 8%nat = Ok (hA, rA)
    ∧ length (path rD) = length (path rA).
Proof.
  apply (dijkstra_astar_same_length ex_heap ex_grid 0%nat 8%nat 10%nat);
    [reflexivity | reflexivity | reflexivity | vm_compute; lia].
Defined.

(** X7: when the end node has the coordinates of the start node, which is
    a node of a well-formed grid and not a wall, bfs, dijkstra and astar
    return the start node alone as the visited nodes and as the path. *)
Theorem same_cell_run (h : Heap) (g : Grid) (s e : addr) (fuel : nat) :
  wf_gridb h g = true → in_gridb h g s = true → is_wall h s = false →
  same_cell h s e = true → (grid_size g < fuel)%nat →
  (∃ h', Bfs.bfs fuel h g s e = Ok (h', mkResult [s] [s]))
  ∧ (∃ h', Dijkstra.dijkstra fuel h g s e = Ok (h', mkResult [s] [s]))
  ∧ (∃ h', Astar.astar fuel h g s e = Ok (h', mkResult [s] [s])).
Proof.
  intros Hwf%wf_gridb_wf Hs%in_gridb_in_grid Hsw Hse Hfuel.
  by apply same_cell_results.
Qed.

Lemma same_cell_run_witness :
  (∃ h', Bfs.bfs 10 click_store ex_grid 0%nat 9%nat
         = Ok (h', mkResult [0%nat] [0%nat]))
  ∧ (∃ h', Dijkstra.dijkstra 10 click_store ex_grid 0%nat 9%nat
           = Ok (h', mkResult [0%nat] [0%nat]))
  ∧ (∃ h', Astar.astar 10 click_store ex_grid 0%nat 9%nat
           = Ok (h', mkResult [0%nat] [0%nat])).
Proof.
  apply (same_cell_run click_store ex_grid 0%nat 9%nat 10%nat);
    [reflexivity | reflexivity | reflexivity | reflexivity | vm_compute; lia].
Defined.

(** X25: when a path exists, every node that astar visits, other than
    the end node, is reached by a path from the start whose number of
    moves plus the Manhattan distance of the node to the end does not
    exceed the number of moves of the returned path. *)
Theorem astar_visits_promising (h : Heap) (g : Grid) (s e : addr)
  (q0 : list addr) (fuel : nat) :
  wf_gridb h g = true → valid_pathb h g s e q0 = true →
  (grid_size g < fuel)%nat →
  ∃ h' r,
    Astar.astar fuel h g s e = Ok (h', r)
    ∧ ∀ x, x ∈ visitedNodes r →
        x = e
        ∨ ∃ q m, valid_pathb h g s x q = true
                 ∧ Astar.manhattanDistance (h x) (h e) = Fin m
                 ∧ Z.of_nat (length q) - 1 + m
                   <= Z.of_nat (length (path r)) - 1.
Proof.
  intros Hwf%wf_gridb_wf Hq0 Hfuel.
  destruct (valid_path_reach h g s e q0 Hwf Hq0)
    as (Hs & Hsw & He & n0 & _ & Hr0).
  pose proof (in_grid_passable _ _ _ Hwf Hs Hsw) as Hp.
  destruct (astar_run h g s e fuel Hwf Hs Hsw Hfuel)
    as (h' & r & vs & p & st & Hrun & HR & _ & HI & Hc).
  exists h', r. split; [done|].
  destruct Hc as [Hf|Hx].
  2:{ destruct (exhausted_facts _ _ _ _ _ _ Hp (manhattan_consistent _)
                  (manhattan_goal _) _ _ _ HI Hx) as (_ & _ & _ & Hno & _).
      by destruct (Hno _ Hr0). }
  destruct (found_facts _ _ _ _ _ _ Hp (manhattan_consistent _)
              (manhattan_goal _) _ _ _ HI Hf)
    as (_ & _ & _ & Hhd & _ & _ & _ & _ & Hb & _).
  destruct HR as (_ & [Hvg Hv] & [_ Hpp]). simpl in *.
  assert (Hpl : (0 < length (path r))%nat).
  { rewrite <- Hpp in Hhd. destruct (path r); [done|simpl; lia]. }
  intros x Hx. rewrite Forall_forall in Hvg.
  pose proof (Hvg x Hx) as Hxg.
  assert (Hxp : pos h x ∈ vs).
  { rewrite <- Hv. apply list_elem_of_fmap. by exists x. }
  destruct (Hb _ Hxp) as [Heq|(m & Hm & Hle)].
  { left. by apply (pos_inj h g). }
  right.
  destruct (reach_valid_path h g s m _ Hwf Hs Hsw Hm) as (y & q & Hy & Hq & Hlen).
  assert (y = x) as ->.
  { apply (pos_inj h g); [done| |done|done].
    apply valid_pathb_spec in Hq as (_ & Hl & Hall & _); [|done].
    rewrite Forall_forall in Hall. apply Hall.
    apply last_Some in Hl as [l' ->]. apply elem_of_app. right. by left. }
  exists q, (manhattan (pos h x) (pos h e)). split_and!; [done|done|].
  rewrite <- Hpp, length_fmap in Hle. lia.
Qed.

Lemma astar_visits_promising_witness :
  ∃ h' r,
    Astar.astar 10 ex_heap ex_grid 0%nat 8%nat = Ok (h', r)
    ∧ ∀ x, x ∈ visitedNodes r →
        x = 8%nat
        ∨ ∃ q m, valid_pathb ex_heap ex_grid 0%nat x q = true
                 ∧ Astar.manhattanDistance (ex_heap x) (ex_heap 8%nat) = Fin m
                 ∧ Z.of_nat (length q) - 1 + m
                   <= Z.of_nat (length (path r)) - 1.
Proof.
  apply (astar_visits_promising ex_heap ex_grid 0%nat 8%nat
           [0; 1; 2; 5; 8]%nat 10%nat);
    [reflexivity | reflexivity | vm_compute; lia].
Defined.

(** X26: when a path exists, bfs and dijkstra visit every node that a
    path from the start reaches with fewer nodes than the returned path
    has. *)
Theorem closer_nodes_are_visited (h : Heap) (g : Grid) (s e : addr)
  (q0 : list addr) (fuel : nat) :
  wf_gridb h g = true → valid_pathb h g s e q0 = true →
  (grid_size g < fuel)%nat →
  ∃ hB hD r,
    Bfs.bfs fuel h g s e = Ok (hB, r)
    ∧ Dijkstra.dijkstra fuel h g s e = Ok (hD, r)
    ∧ ∀ x q, valid_pathb h g s x q = true →
        (length q < length (path r))%nat → x ∈ visitedNodes r.
Proof.
  intros Hwf%wf_gridb_wf Hq0 Hfuel.
  destruct (valid_path_reach h g s e q0 Hwf Hq0)
    as (Hs & Hsw & He & n0 & _ & Hr0).
  pose proof (in_grid_passable _ _ _ Hwf Hs Hsw) as Hp.
  destruct (bfs_dijkstra_same h g s e fuel Hwf Hs Hsw Hfuel)
    as (hB & hD & r & HB & HD).
  exists hB, hD, r. split_and!; [done|done|].
  destruct (dijkstra_run h g s e fuel Hwf Hs Hsw Hfuel)
    as (h' & r' & vs & p & st & Hrun & HR & _ & HI & Hc).
  rewrite HD in Hrun. injection Hrun as <- <-.
  destruct Hc as [Hf|Hx].
  2:{ destruct (exhausted_facts _ _ _ _ _ _ Hp hz_cons (hz_goal _) _ _ _ HI Hx)
        as (_ & _ & _ & Hno & _).
      by destruct (Hno _ Hr0). }
  destruct (found_facts _ _ _ _ _ _ Hp hz_cons (hz_goal _) _ _ _ HI Hf)
    as (_ & _ & _ & Hhd & _ & _ & _ & _ & _ & Hcompl).
  destruct HR as (_ & Hv & [_ Hpp]). simpl in *.
  assert (Hpl : (0 < length (path r))%nat).
  { rewrite <- Hpp in Hhd. destruct (path r); [done|simpl; lia]. }
  intros x q Hq Hlt.
  destruct (valid_path_reach h g s x q Hwf Hq) as (_ & _ & Hxg & n & Hn & Hr).
  apply (nodes_rel_elem_of h g _ vs); [done|done|done|].
  apply (Hcompl _ n Hr). rewrite <- Hpp, length_fmap. lia.
Qed.

Lemma closer_nodes_are_visited_witness :
  ∃ hB hD r,
    Bfs.bfs 10 ex_heap ex_grid 0%nat 8%nat = Ok (hB, r)
    ∧ Dijkstra.dijkstra 10 ex_heap ex_grid 0%nat 8%nat = Ok (hD, r)
    ∧ ∀ x q, valid_pathb ex_heap ex_grid 0%nat x q = true →
        (length q < length (path r))%nat → x ∈ visitedNodes r.
Proof.
  apply (closer_nodes_are_visited ex_heap ex_grid 0%nat 8%nat
           [0; 1; 2; 5; 8]%nat 10%nat);
    [reflexivity | reflexivity | vm_compute; lia].
Defined.

(** X8: whatever the store and the grid, a run of bfs, dijkstra or astar
    that returns has written to no node other than the nodes of the grid
    it was given and the start node: every other node has all its fields
    as before. *)
Theorem run_footprint (h : Heap) (g : Grid) (s e : addr) (fuel : nat)
  (h' : Heap) (r : Result) :
  Bfs.bfs fuel h g s e = Ok (h', r)
  ∨ Dijkstra.dijkstra fuel h g s e = Ok (h', r)
  ∨ Astar.astar fuel h g s e = Ok (h', r) →
  ∀ a, ¬ in_grid g a → a ≠ s → h' a = h a.
Proof.
  intros Hrun a Hg Hs.
  assert (Hk : kept h g s h').
  { destruct Hrun as [H|[H|H]].
    - by destruct (bfs_footprint h g s fuel e h' r H).
    - by destruct (dijkstra_footprint h g s fuel e h' r H).
    - by destruct (astar_footprint h g s fuel e h' r H). }
  destruct Hk as [_ Hk]. apply Hk. by intros [?|?].
Qed.

Lemma run_footprint_witness :
  ∃ h' r,
    Dijkstra.dijkstra 10 ex_heap ex_grid 0%nat 8%nat = Ok (h', r)
    ∧ ∀ a, ¬ in_grid ex_grid a → a ≠ 0%nat → h' a = ex_heap a.
Proof.
  destruct (dijkstra_run ex_heap ex_grid 0%nat 8%nat 10%nat
              (wf_gridb_wf ex_heap ex_grid eq_refl)
              (in_gridb_in_grid ex_heap ex_grid 0%nat eq_refl) eq_refl
              ltac:(vm_compute; lia))
    as (h' & r & _ & _ & _ & Hrun & _).
  exists h', r. split; [exact Hrun|].
  apply (run_footprint ex_heap ex_grid 0%nat 8%nat 10%nat h' r).
  right. left. exact Hrun.
Defined.

(** X9: whatever the store and the grid, every node that dijkstra or
    astar records as visited is a node of the grid or the start node, and
    is not a wall; every node that bfs records is a node of the grid or
    the start node, and is not a wall unless it is the start node. *)
Theorem visited_not_walls (h : Heap) (g : Grid) (s e : addr) (fuel : nat)
  (h' : Heap) (r : Result) :
  (Dijkstra.dijkstra fuel h g s e = Ok (h', r)
   ∨ Astar.astar fuel h g s e = Ok (h', r) →
   ∀ x, x ∈ visitedNodes r →
        (in_grid g x ∨ x = s) ∧ is_wall h x = false)
  ∧ (Bfs.bfs fuel h g s e = Ok (h', r) →
     ∀ x, x ∈ visitedNodes r →
          (in_grid g x ∨ x = s) ∧ (x = s ∨ is_wall h x = false)).
Proof.
  split.
  - intros Hrun x Hx.
    assert (Hc : clear_of_walls h g s (visitedNodes r)).
    { destruct Hrun as [H|H].
      - by destruct (dijkstra_footprint h g s fuel e h' r H).
      - by destruct (astar_footprint h g s fuel e h' r H). }
    unfold clear_of_walls in Hc. rewrite Forall_forall in Hc. by apply Hc.
  - intros Hrun x Hx.
    destruct (bfs_footprint h g s fuel e h' r Hrun) as [_ Hc].
    rewrite Forall_forall in Hc. by apply Hc.
Qed.

Lemma visited_not_walls_witness :
  ∃ h' r,
    Astar.astar 10 ex_heap ex_grid 0%nat 8%nat = Ok (h', r)
    ∧ ∀ x, x ∈ visitedNodes r →
           (in_grid ex_grid x ∨ x = 0%nat) ∧ is_wall ex_heap x = false.
Proof.
  destruct (astar_run ex_heap ex_grid 0%nat 8%nat 10%nat
              (wf_gridb_wf ex_heap ex_grid eq_refl)
              (in_gridb_in_grid ex_heap ex_grid 0%nat eq_refl) eq_refl
              ltac:(vm_compute; lia))
    as (h' & r & _ & _ & _ & Hrun & _).
  exists h', r. split; [exact Hrun|].
  apply (visited_not_walls ex_heap ex_grid 0%nat 8%nat 10%nat h' r).
  right. exact Hrun.
Defined.

(** X10: when the start node is a wall, dijkstra and astar on a
    well-formed grid return with no visited node and the empty path;
    bfs, whatever the store and the grid, records the start node first. *)
Theorem wall_start (h : Heap) (g : Grid) (s e : addr) (fuel : nat) :
  wf_gridb h g = true → is_wall h s = true → (2 <= fuel)%nat →
  (∃ h', Dijkstra.dijkstra fuel h g s e = Ok (h', mkResult [] []))
  ∧ (∃ h', Astar.astar fuel h g s e = Ok (h', mkResult [] []))
  ∧ ∀ h' r, Bfs.bfs fuel h g s e = Ok (h', r) →
            head (visitedNodes r) = Some s.
Proof.
  intros Hwf%wf_gridb_wf Hw Hfuel. split_and!.
  - by apply dijkstra_wall_start.
  - by apply astar_wall_start.
  - intros h' r. apply bfs_visits_start.
Qed.

Lemma wall_start_witness :
  (∃ h', Dijkstra.dijkstra 10 wall_start_heap ex_grid 0%nat 8%nat
         = Ok (h', mkResult [] []))
  ∧ (∃ h', Astar.astar 10 wall_start_heap ex_grid 0%nat 8%nat
           = Ok (h', mkResult [] []))
  ∧ ∃ h' r, Bfs.bfs 10 wall_start_heap ex_grid 0%nat 8%nat = Ok (h', r)
            ∧ head (visitedNodes r) = Some 0%nat.
Proof.
  destruct (wall_start wall_start_heap ex_grid 0%nat 8%nat 10%nat)
    as (HD & HA & HB); [reflexivity | reflexivity | lia |].
  split; [exact HD|]. split; [exact HA|].
  assert (Hobs : match Bfs.bfs 10 wall_start_heap ex_grid 0%nat 8%nat with
                 | Ok _ => true
                 | _ => false
                 end = true) by (vm_compute; reflexivity).
  destruct (Bfs.bfs 10 wall_start_heap ex_grid 0%nat 8%nat)
    as [[h' r]| |] eqn:Hrun; [|discriminate Hobs|discriminate Hobs].
  exists h', r. split; [reflexivity|]. exact (HB h' r eq_refl).
Defined.

(** X11: when a row of the grid has fewer nodes than the first row, bfs,
    dijkstra and astar throw a TypeError, whatever the store, the start
    and the end. *)
Theorem short_row_throws (h : Heap) (g : Grid) (r0 rowl : list addr)
  (i : nat) (s e : addr) (fuel : nat) :
  g !! 0%nat = Some r0 → g !! i = Some rowl →
  (length rowl < length r0)%nat →
  Bfs.bfs fuel h g s e = TypeError
  ∧ Dijkstra.dijkstra fuel h g s e = TypeError
  ∧ Astar.astar fuel h g s e = TypeError.
Proof.
  intros H0 Hi Hlt.
  assert (Hhd : head g = Some r0) by (by destruct g).
  assert (Hin : rowl ∈ g) by (by eapply list_elem_of_lookup_2).
  unfold Bfs.bfs, Bfs.init, Dijkstra.dijkstra, Dijkstra.init,
    Astar.astar, Astar.init.
  by rewrite !(init_nodes_short _ g r0 rowl h Hhd Hin Hlt).
Qed.

Lemma short_row_throws_witness :
  Bfs.bfs 10 ex_heap short_grid 0%nat 4%nat = TypeError
  ∧ Dijkstra.dijkstra 10 ex_heap short_grid 0%nat 4%nat = TypeError
  ∧ Astar.astar 10 ex_heap short_grid 0%nat 4%nat = TypeError.
Proof.
  apply (short_row_throws ex_heap short_grid [0; 1; 2]%nat [3; 4]%nat 1%nat
           0%nat 4%nat 10%nat); [reflexivity | reflexivity | simpl; lia].
Defined.

(** X12: on the empty grid, with a start node and an end node at
    different coordinates, bfs throws a TypeError; so does dijkstra when
    the start node is not a wall and does not carry the visited flag, and
    astar when the start node is not a wall. *)
Theorem empty_grid_throws (h : Heap) (s e : addr) (fuel : nat) :
  same_cell h s e = false → (0 < fuel)%nat →
  Bfs.bfs fuel h [] s e = TypeError
  ∧ (isVisited (h s) = false → is_wall h s = false →
     Dijkstra.dijkstra fuel h [] s e = TypeError)
  ∧ (is_wall h s = false → Astar.astar fuel h [] s e = TypeError).
Proof.
  intros Hse Hfuel. destruct fuel as [|fuel]; [lia|].
  by apply empty_grid_run.
Qed.

Lemma empty_grid_throws_witness :
  Bfs.bfs 10 ex_heap [] 0%nat 8%nat = TypeError
  ∧ Dijkstra.dijkstra 10 ex_heap [] 0%nat 8%nat = TypeError
  ∧ Astar.astar 10 ex_heap [] 0%nat 8%nat = TypeError.
Proof.
  destruct (empty_grid_throws ex_heap 0%nat 8%nat 10%nat)
    as (HB & HD & HA); [reflexivity | lia |].
  split; [exact HB|]. split; [apply HD; reflexivity | apply HA; reflexivity].
Defined.

(** X13: a start node that is not a node of the grid is not reset by the
    initialisation.  When dijkstra has returned, a second call with the
    same start node, on the store the first call has left and on a
    well-formed grid that does not hold the start node, returns with no
    visited node and the empty path. *)
Theorem dijkstra_second_run (h : Heap) (g : Grid) (s e : addr) (fuel : nat)
  (h1 : Heap) (r1 : Result) (g2 : Grid) (e2 : addr) (fuel2 : nat) :
  Dijkstra.dijkstra fuel h g s e = Ok (h1, r1) →
  wf_gridb h g2 = true → in_gridb h g2 s = false → (2 <= fuel2)%nat →
  ∃ h2, Dijkstra.dijkstra fuel2 h1 g2 s e2 = Ok (h2, mkResult [] []).
Proof.
  intros Hrun Hwf%wf_gridb_wf Hs Hfuel.
  pose proof (dijkstra_frame _ _ _ _ _ _ _ Hrun) as Hfr.
  apply dijkstra_marked_start; [| |by eapply dijkstra_marks_start|done].
  - by apply (wf_grid_frame h).
  - intros Hin. apply (in_grid_in_gridb h) in Hin; [|done]. congruence.
Qed.

Lemma dijkstra_second_run_witness :
  ∃ h1 r1 h2,
    Dijkstra.dijkstra 12 click_store ex_grid 9%nat 8%nat = Ok (h1, r1)
    ∧ visitedNodes r1 ≠ []
    ∧ Dijkstra.dijkstra 12 h1 ex_grid 9%nat 8%nat = Ok (h2, mkResult [] []).
Proof.
  assert (Hobs : match Dijkstra.dijkstra 12 click_store ex_grid 9%nat 8%nat with
                 | Ok (_, r) => negb (bool_decide (visitedNodes r = []))
                 | _ => false
                 end = true) by (vm_compute; reflexivity).
  destruct (Dijkstra.dijkstra 12 click_store ex_grid 9%nat 8%nat)
    as [[h1 r1]| |] eqn:Hrun; [|discriminate Hobs|discriminate Hobs].
  destruct (dijkstra_second_run click_store ex_grid 9%nat 8%nat 12%nat h1 r1
              ex_grid 8%nat 12%nat Hrun) as [h2 H2];
    [reflexivity | reflexivity | lia |].
  exists h1, r1, h2. split; [reflexivity|]. split; [|exact H2].
  apply negb_true_iff, bool_decide_eq_false in Hobs. exact Hobs.
Defined.

(** X14: manhattanDistance is symmetric, is 0 exactly for two nodes with
    the same coordinates, and never exceeds the number of moves of a
    4-directional walk between the two nodes. *)
Theorem manhattanDistance_admissible (h : Heap) :
  (∀ a b, Astar.manhattanDistance (h a) (h b)
          = Astar.manhattanDistance (h b) (h a))
  ∧ (∀ a b, Astar.manhattanDistance (h a) (h b) = Fin 0
            ↔ same_cell h a b = true)
  ∧ ∀ l a b, head l = Some a → last l = Some b → movesb h l = true →
      ∃ m, Astar.manhattanDistance (h a) (h b) = Fin m
           ∧ 0 <= m <= Z.of_nat (length l) - 1.
Proof.
  split_and!.
  - intros a b. apply manhattanDistance_sym.
  - apply manhattanDistance_zero.
  - intros l a b. apply manhattanDistance_walk.
Qed.

Lemma manhattanDistance_admissible_witness :
  ∃ m, Astar.manhattanDistance (ex_heap 0%nat) (ex_heap 8%nat) = Fin m
       ∧ 0 <= m <= Z.of_nat (length [0; 1; 2; 5; 8]%nat) - 1.
Proof.
  destruct (manhattanDistance_admissible ex_heap) as (_ & _ & H).
  apply (H [0; 1; 2; 5; 8]%nat 0%nat 8%nat); reflexivity.
Defined.

(** X15: createInitialGrid returns a well-formed grid of 20 rows of 35
    nodes.  The nodes are 700 new objects; the node at row r, column c has
    these coordinates, the tag empty, the distance Infinity, no visited
    flag and no predecessor; and no object that existed is written. *)
Theorem createInitialGrid_fresh (h : Heap) (next : addr) :
  ∃ h' g,
    Editor.createInitialGrid h next = (h', (next + 700)%nat, g)
    ∧ wf_gridb h' g = true
    ∧ grid_length g = 20 ∧ grid_cols g = 35
    ∧ allocatedb (next + 700)%nat g = true
    ∧ (∀ a, (a < next)%nat → h' a = h a)
    ∧ ∀ r c a, cell g r c = Some a →
        (next <= a)%nat
        ∧ row (h' a) = r ∧ col (h' a) = c ∧ type (h' a) = T_empty
        ∧ distance (h' a) = Inf ∧ isVisited (h' a) = false
        ∧ previousNode (h' a) = None.
Proof.
  destruct (create_grid_spec Editor.GRID_SIZE h next)
    as (h' & g & Heq & Hwf & Hlen & Hcols & Hal & Hold & Hcells);
    [simpl; lia|simpl; lia|].
  exists h', g.
  split; [exact Heq|]. split; [by apply wf_grid_wf_gridb|].
  split; [exact Hlen|]. split; [exact Hcols|]. split; [exact Hal|].
  split; [exact Hold|].
  intros r c a Hc. destruct (Hcells _ _ _ Hc) as [Hge Hh]. rewrite Hh.
  split; [exact Hge|]. repeat split.
Qed.

(** X16: resetGrid leaves a state of the editor with a grid in which
    every cell has the tag empty, with no start node and no end node, not
    running and without an error message; it writes to no object that
    existed; and visualizeAlgorithm, called in the state it leaves,
    returns at its guard with the message that asks for both points. *)
Theorem resetGrid_clears (ed : Editor.State) (fuel : nat) :
  let st' := Editor.app (Editor.resetGrid ed) in
  editor_okb (Editor.resetGrid ed) = true
  ∧ App4.startNode st' = None ∧ App4.endNode st' = None
  ∧ App4.isRunning st' = false ∧ App4.error st' = None
  ∧ (∀ r c a, cell (App4.grid st') r c = Some a →
       type (App4.store st' a) = T_empty)
  ∧ (∀ a, (a < App4.next (Editor.app ed))%nat →
       App4.store st' a = App4.store (Editor.app ed) a)
  ∧ ∃ st2, App4.visualizeAlgorithm fuel st' = Ok (App4.Rejected st2)
           ∧ App4.error st2 = Some SetBothPoints
           ∧ App4.grid st2 = App4.grid st'.
Proof.
  unfold Editor.resetGrid, Editor.createInitialGrid.
  destruct (create_grid_spec Editor.GRID_SIZE (App4.store (Editor.app ed))
              (App4.next (Editor.app ed)))
    as (h' & g & -> & Hwf & Hlen & Hcols & Hal & Hold & Hcells);
    [simpl; lia|simpl; lia|].
  simpl. split_and!; try done.
  - apply editor_okb_spec. simpl. done.
  - intros r c a Hc. destruct (Hcells _ _ _ Hc) as [_ ->]. done.
  - eexists. split; [reflexivity|]. done.
Qed.

(** X17: in a state of the editor with a well-formed grid,
    handleNodeClick returns the state as it is while a run is in
    progress; otherwise a click on a cell of the grid returns a state
    with a well-formed grid of the same size, and a click on coordinates
    outside the grid throws a TypeError. *)
Theorem handleNodeClick_returns (ed : Editor.State) (r c : Z) :
  editor_okb ed = true →
  (App4.isRunning (Editor.app ed) = true →
   Editor.handleNodeClick r c ed = Ok ed)
  ∧ (App4.isRunning (Editor.app ed) = false →
     in_bounds (App4.grid (Editor.app ed)) (r, c) = true →
     ∃ ed', Editor.handleNodeClick r c ed = Ok ed'
            ∧ editor_okb ed' = true
            ∧ grid_length (App4.grid (Editor.app ed'))
              = grid_length (App4.grid (Editor.app ed))
            ∧ grid_cols (App4.grid (Editor.app ed'))
              = grid_cols (App4.grid (Editor.app ed)))
  ∧ (App4.isRunning (Editor.app ed) = false →
     in_bounds (App4.grid (Editor.app ed)) (r, c) = false →
     Editor.handleNodeClick r c ed = TypeError).
Proof.
  intros Hok. split_and!.
  - intros Hrun. unfold Editor.handleNodeClick. by rewrite Hrun.
  - intros Hrun Hin.
    destruct (handleNodeClick_copy ed r c Hok Hrun Hin)
      as (ed' & n & Heq & Hcopy & _ & _ & _ & _ & _ & _ & _ & _ & Hok').
    exists ed'. destruct Hcopy as (_ & _ & Hlen & Hcols & _). done.
  - intros Hrun Hout. by apply handleNodeClick_outside.
Qed.

Lemma handleNodeClick_returns_witness :
  (∃ ed', Editor.handleNodeClick 1 1 (ex_editor Editor.Tool_wall) = Ok ed'
          ∧ editor_okb ed' = true)
  ∧ Editor.handleNodeClick 3 1 (ex_editor Editor.Tool_wall) = TypeError.
Proof.
  destruct (handleNodeClick_returns (ex_editor Editor.Tool_wall) 1 1)
    as (_ & Hin & _); [reflexivity|].
  destruct (handleNodeClick_returns (ex_editor Editor.Tool_wall) 3 1)
    as (_ & _ & Hout); [reflexivity|].
  split.
  - destruct Hin as (ed' & H1 & H2 & _); [reflexivity|reflexivity|].
    exists ed'. split; [exact H1|exact H2].
  - apply Hout; reflexivity.
Defined.

(** X18: a click on a cell of the grid, when no run is in progress,
    leaves a copy of the grid: every node is a new object with the
    coordinates and the scratch fields of the node it replaces, and no
    object that existed is written.  With the wall tool the tag of the
    clicked cell is toggled between wall and empty unless it is start or
    end, and no other tag changes.  With the start tool the clicked cell
    gets the tag start and becomes the start node, the cell of the former
    start node gets the tag empty, and no other tag changes; likewise for
    the end tool. *)
Theorem handleNodeClick_tags (ed : Editor.State) (r c : Z) :
  editor_okb ed = true → App4.isRunning (Editor.app ed) = false →
  in_bounds (App4.grid (Editor.app ed)) (r, c) = true →
  ∃ ed' n,
    Editor.handleNodeClick r c ed = Ok ed'
    ∧ copy_with
        (retag (clicked_type (Editor.currentTool ed) (r, c)
                  (pos (App4.store (Editor.app ed))
                     <$> App4.startNode (Editor.app ed))
                  (pos (App4.store (Editor.app ed))
                     <$> App4.endNode (Editor.app ed))))
        (App4.store (Editor.app ed)) (App4.next (Editor.app ed))
        (App4.grid (Editor.app ed))
        (App4.store (Editor.app ed')) (App4.next (Editor.app ed'))
        (App4.grid (Editor.app ed'))
    ∧ cell (App4.grid (Editor.app ed')) r c = Some n
    ∧ App4.startNode (Editor.app ed')
      = (if decide (Editor.currentTool ed = Editor.Tool_start)
         then Some n else App4.startNode (Editor.app ed))
    ∧ App4.endNode (Editor.app ed')
      = (if decide (Editor.currentTool ed = Editor.Tool_end)
         then Some n else App4.endNode (Editor.app ed)).
Proof.
  intros Hok Hrun Hin.
  destruct (handleNodeClick_copy ed r c Hok Hrun Hin)
    as (ed' & n & Heq & Hcopy & Hn & Hs & He & _).
  by exists ed', n.
Qed.

Lemma handleNodeClick_tags_witness :
  ∃ ed' n,
    Editor.handleNodeClick 2 0 (ex_editor Editor.Tool_start) = Ok ed'
    ∧ cell (App4.grid (Editor.app ed')) 2 0 = Some n
    ∧ App4.startNode (Editor.app ed') = Some n
    ∧ App4.endNode (Editor.app ed') = Some 8%nat.
Proof.
  destruct (handleNodeClick_tags (ex_editor Editor.Tool_start) 2 0)
    as (ed' & n & H1 & _ & H2 & H3 & H4);
    [reflexivity | reflexivity | reflexivity |].
  exists ed', n. split; [exact H1|]. split; [exact H2|].
  split; [exact H3|exact H4].
Defined.

(** X19: after a click on a cell of the grid no object that existed
    before the click is a node of the grid: the nodes of the former grid,
    and a start or end node that an earlier click has set, are not among
    its nodes.  The start node that a click with the start tool sets is a
    node of the grid the click leaves. *)
Theorem click_detaches_nodes (ed : Editor.State) (r c : Z) :
  editor_okb ed = true → App4.isRunning (Editor.app ed) = false →
  in_bounds (App4.grid (Editor.app ed)) (r, c) = true →
  ∃ ed',
    Editor.handleNodeClick r c ed = Ok ed'
    ∧ (∀ x, (x < App4.next (Editor.app ed))%nat →
         in_gridb (App4.store (Editor.app ed')) (App4.grid (Editor.app ed')) x
         = false)
    ∧ (Editor.currentTool ed = Editor.Tool_start →
       ∃ n, App4.startNode (Editor.app ed') = Some n
            ∧ in_gridb (App4.store (Editor.app ed'))
                       (App4.grid (Editor.app ed')) n = true)
    ∧ (Editor.currentTool ed ≠ Editor.Tool_start →
       App4.startNode (Editor.app ed') = App4.startNode (Editor.app ed)).
Proof.
  intros Hok Hrun Hin.
  destruct (handleNodeClick_copy ed r c Hok Hrun Hin)
    as (ed' & n & Heq & Hcopy & Hn & Hs & He & _ & _ & _ & _ & _ & Hok').
  apply editor_okb_spec in Hok' as (Hwf' & _).
  exists ed'. split_and!; [done| | |].
  - intros x Hx. apply (not_in_gridb_old _ (App4.next (Editor.app ed))); [|done].
    intros a. by apply (copy_fresh _ _ _ _ _ _ _ Hcopy).
  - intros Htool. exists n. rewrite Hs, decide_True by done. split; [done|].
    apply in_grid_in_gridb; [done|]. by exists r, c.
  - intros Htool. by rewrite Hs, decide_False.
Qed.

Lemma click_detaches_nodes_witness :
  ∃ ed',
    Editor.handleNodeClick 1 1 (ex_editor Editor.Tool_wall) = Ok ed'
    ∧ App4.startNode (Editor.app ed') = Some 0%nat
    ∧ in_gridb (App4.store (Editor.app ed')) (App4.grid (Editor.app ed'))
               0%nat = false.
Proof.
  destruct (click_detaches_nodes (ex_editor Editor.Tool_wall) 1 1)
    as (ed' & H1 & H2 & _ & H3); [reflexivity | reflexivity | reflexivity |].
  exists ed'. split; [exact H1|]. split.
  - apply H3. discriminate.
  - apply H2. simpl. lia.
Defined.

(** X20: handleNodeClick keeps the tags start and end where the start
    node and the end node are: when every cell with the tag start lies at
    the coordinates of the start node and every cell with the tag end at
    those of the end node, the same holds after a click on a cell of the
    grid with any tool; so no two cells carry the tag start, and no two
    the tag end. *)
Theorem click_keeps_single_start (ed : Editor.State) (r c : Z) :
  editor_okb ed = true → tags_matchb ed = true →
  App4.isRunning (Editor.app ed) = false →
  in_bounds (App4.grid (Editor.app ed)) (r, c) = true →
  ∃ ed',
    Editor.handleNodeClick r c ed = Ok ed'
    ∧ tags_matchb ed' = true
    ∧ ∀ a b t, t = T_start ∨ t = T_end →
        in_grid (App4.grid (Editor.app ed')) a →
        in_grid (App4.grid (Editor.app ed')) b →
        type (App4.store (Editor.app ed') a) = t →
        type (App4.store (Editor.app ed') b) = t → a = b.
Proof.
  intros Hok Htags Hrun Hin.
  destruct (handleNodeClick_copy ed r c Hok Hrun Hin)
    as (ed' & n & Heq & Hcopy & Hn & Hs & He & _ & _ & _ & _ & _ & Hok').
  apply editor_okb_spec in Hok as (Hwf & Hal & Hps & Hpe).
  apply editor_okb_spec in Hok' as (Hwf' & _).
  pose proof (proj1 (tags_matchb_spec ed) Htags) as Ht.
  assert (Hpn : pos (App4.store (Editor.app ed')) n = (r, c))
    by (by apply (wf_pos _ _ Hwf')).
  assert (Hposold : ∀ x, placedb (App4.store (Editor.app ed))
              (App4.next (Editor.app ed)) (App4.grid (Editor.app ed)) x = true →
            pos (App4.store (Editor.app ed')) <$> x
            = pos (App4.store (Editor.app ed)) <$> x).
  { intros [x|]; [|done]. intros [Hx _]%placedb_spec. simpl. f_equal.
    unfold pos. by rewrite (copy_old _ _ _ _ _ _ _ Hcopy x Hx). }
  assert (Ht' : ∀ a', in_grid (App4.grid (Editor.app ed')) a' →
    (type (App4.store (Editor.app ed') a') = T_start →
     pos (App4.store (Editor.app ed')) <$> App4.startNode (Editor.app ed')
     = Some (pos (App4.store (Editor.app ed')) a'))
    ∧ (type (App4.store (Editor.app ed') a') = T_end →
       pos (App4.store (Editor.app ed')) <$> App4.endNode (Editor.app ed')
       = Some (pos (App4.store (Editor.app ed')) a'))).
  { intros a' (r' & c' & Hc').
    destruct (copy_cell_inv _ _ _ _ _ _ _ Hcopy _ _ _ Hc')
      as (a & Ha & _ & Hh).
    assert (Hag : in_grid (App4.grid (Editor.app ed)) a) by (by eexists _, _).
    destruct (Ht a Hag) as [Hts Hte].
    rewrite (wf_pos _ _ Hwf' _ _ _ Hc').
    rewrite (wf_pos _ _ Hwf _ _ _ Ha) in Hts, Hte.
    rewrite Hh, Hs, He. unfold retag, clicked_type. simpl.
    destruct (Editor.currentTool ed) eqn:Htool; simpl.
    - (* wall *)
      rewrite !Hposold by done.
      destruct (decide ((r', c') = (r, c))).
      + split; intros Htype; [apply Hts|apply Hte];
          by destruct (type (App4.store (Editor.app ed) a)).
      + done.
    - (* start *)
      rewrite (Hposold _ Hpe). simpl. rewrite Hpn.
      destruct (decide ((r', c') = (r, c))) as [->|Hne]; [done|].
      destruct (decide (_ = Some (r', c'))) as [Hsp|Hsp]; [done|].
      split; [|done]. intros Htype. by destruct Hsp; apply Hts.
    - (* end *)
      rewrite (Hposold _ Hps). simpl. rewrite Hpn.
      destruct (decide ((r', c') = (r, c))) as [->|Hne]; [done|].
      destruct (decide (_ = Some (r', c'))) as [Hep|Hep]; [done|].
      split; [done|]. intros Htype. by destruct Hep; apply Hte. }
  exists ed'. split_and!; [done|by apply tags_matchb_spec|].
  intros a b t Htag Ha Hb Hta Htb.
  apply (pos_inj _ _ a b Hwf' Ha Hb).
  destruct (Ht' a Ha) as [Has Hae], (Ht' b Hb) as [Hbs Hbe].
  destruct Htag as [->| ->].
  - specialize (Has Hta). specialize (Hbs Htb). congruence.
  - specialize (Hae Hta). specialize (Hbe Htb). congruence.
Qed.

Lemma click_keeps_single_start_witness :
  ∃ ed',
    Editor.handleNodeClick 2 0 (ex_editor Editor.Tool_start) = Ok ed'
    ∧ tags_matchb ed' = true.
Proof.
  destruct (click_keeps_single_start (ex_editor Editor.Tool_start) 2 0)
    as (ed' & H1 & H2 & _);
    [reflexivity | reflexivity | reflexivity | reflexivity |].
  exists ed'. split; [exact H1|exact H2].
Defined.

(** X21: handleMouseDown and handleMouseEnter act with the wall tool
    only.  With the wall tool, handleMouseDown on a cell of the grid
    followed by handleNodeClick on the same cell toggles the tag of the
    cell twice: a cell that was a wall is a wall again, a cell with
    another tag than wall, start or end is empty, no other tag changes
    and the start node and the end node stay as they were. *)
Theorem mouse_down_then_click (ed : Editor.State) (r c : Z) :
  editor_okb ed = true → App4.isRunning (Editor.app ed) = false →
  in_bounds (App4.grid (Editor.app ed)) (r, c) = true →
  (Editor.currentTool ed ≠ Editor.Tool_wall →
   Editor.handleMouseDown r c ed = Ok ed
   ∧ Editor.handleMouseEnter r c ed = Ok ed)
  ∧ (Editor.currentTool ed = Editor.Tool_wall →
     ∃ ed1 ed2,
       Editor.handleMouseDown r c ed = Ok ed1
       ∧ Editor.isMousePressed ed1 = true
       ∧ Editor.handleNodeClick r c ed1 = Ok ed2
       ∧ cells_with (retag (twice_clicked_type (r, c)))
                    (App4.store (Editor.app ed)) (App4.grid (Editor.app ed))
                    (App4.store (Editor.app ed2)) (App4.grid (Editor.app ed2))
       ∧ App4.startNode (Editor.app ed2) = App4.startNode (Editor.app ed)
       ∧ App4.endNode (Editor.app ed2) = App4.endNode (Editor.app ed)).
Proof.
  intros Hok Hrun Hin. split.
  { intros Htool. unfold Editor.handleMouseDown, Editor.handleMouseEnter.
    rewrite (bool_decide_eq_false_2 _ Htool). simpl.
    by rewrite !orb_true_r. }
  intros Htool.
  set (edp := Editor.mkState (Editor.app ed) (Editor.currentTool ed) true).
  assert (Hd : Editor.handleMouseDown r c ed = Editor.handleNodeClick r c edp).
  { unfold Editor.handleMouseDown. rewrite Hrun.
    by rewrite (bool_decide_eq_true_2 _ Htool). }
  destruct (handleNodeClick_copy edp r c Hok Hrun Hin)
    as (ed1 & n1 & Heq1 & Hcopy1 & Hn1 & Hs1 & He1 & Hrun1 & _ & _ & Htool1
        & Hp1 & Hok1).
  simpl in *.
  assert (Hin1 : in_bounds (App4.grid (Editor.app ed1)) (r, c) = true)
    by (by rewrite (copy_in_bounds _ _ _ _ _ _ _ Hcopy1)).
  destruct (handleNodeClick_copy ed1 r c Hok1 Hrun1 Hin1)
    as (ed2 & n2 & Heq2 & Hcopy2 & Hn2 & Hs2 & He2 & _).
  exists ed1, ed2. rewrite Hd. split_and!; [done|done|done| | |].
  - rewrite Htool1, Htool in Hcopy2. rewrite Htool in Hcopy1.
    eapply cells_with_ext;
      [|apply (cells_with_trans _ _ _ _ _ _ _ _
                 (copy_cells_with _ _ _ _ _ _ _ Hcopy1)
                 (copy_cells_with _ _ _ _ _ _ _ Hcopy2))].
    intros p x. unfold retag, clicked_type, twice_clicked_type. simpl.
    destruct (decide (p = (r, c))); [by destruct (type x)|done].
  - rewrite Hs2, Htool1, Htool, Hs1, Htool. done.
  - rewrite He2, Htool1, Htool, He1, Htool. done.
Qed.

Lemma mouse_down_then_click_witness :
  ∃ ed1 ed2,
    Editor.handleMouseDown 0 1 (ex_editor Editor.Tool_wall) = Ok ed1
    ∧ Editor.handleNodeClick 0 1 ed1 = Ok ed2
    ∧ cells_with (retag (twice_clicked_type (0, 1))) ex_heap ex_grid
                 (App4.store (Editor.app ed2)) (App4.grid (Editor.app ed2)).
Proof.
  destruct (mouse_down_then_click (ex_editor Editor.Tool_wall) 0 1)
    as (_ & H); [reflexivity | reflexivity | reflexivity |].
  destruct H as (ed1 & ed2 & H1 & _ & H2 & H3 & _); [reflexivity|].
  exists ed1, ed2. split; [exact H1|]. split; [exact H2|exact H3].
Defined.

(** X22: the end tool takes the cell of the start node.  After a click
    with the start tool and a click with the end tool on the same cell of
    the grid, the start node and the end node are two objects with the
    same coordinates, and the cell carries the tag end. *)
Theorem start_and_end_on_one_cell (ed : Editor.State) (r c : Z) :
  editor_okb ed = true → App4.isRunning (Editor.app ed) = false →
  in_bounds (App4.grid (Editor.app ed)) (r, c) = true →
  ∃ ed1 ed2 s e,
    Editor.handleNodeClick r c (Editor.setCurrentTool Editor.Tool_start ed)
    = Ok ed1
    ∧ Editor.handleNodeClick r c (Editor.setCurrentTool Editor.Tool_end ed1)
      = Ok ed2
    ∧ App4.startNode (Editor.app ed2) = Some s
    ∧ App4.endNode (Editor.app ed2) = Some e
    ∧ s ≠ e
    ∧ same_cell (App4.store (Editor.app ed2)) s e = true
    ∧ cell (App4.grid (Editor.app ed2)) r c = Some e
    ∧ type (App4.store (Editor.app ed2) e) = T_end.
Proof.
  intros Hok Hrun Hin.
  destruct (handleNodeClick_copy (Editor.setCurrentTool Editor.Tool_start ed)
              r c Hok Hrun Hin)
    as (ed1 & n1 & Heq1 & Hcopy1 & Hn1 & Hs1 & He1 & Hrun1 & _ & _ & Htool1
        & Hp1 & Hok1).
  simpl in *.
  assert (Hin1 : in_bounds (App4.grid (Editor.app ed1)) (r, c) = true)
    by (by rewrite (copy_in_bounds _ _ _ _ _ _ _ Hcopy1)).
  assert (Hok1' : editor_okb (Editor.setCurrentTool Editor.Tool_end ed1) = true)
    by exact Hok1.
  destruct (handleNodeClick_copy (Editor.setCurrentTool Editor.Tool_end ed1)
              r c Hok1' Hrun1 Hin1)
    as (ed2 & n2 & Heq2 & Hcopy2 & Hn2 & Hs2 & He2 & _ & _ & _ & _ & _ & Hok2).
  simpl in *.
  apply editor_okb_spec in Hok1 as (Hwf1 & Hal1 & _).
  apply editor_okb_spec in Hok2 as (Hwf2 & _).
  assert (Hn1lt : (n1 < App4.next (Editor.app ed1))%nat).
  { apply (proj1 (allocatedb_spec _ _) Hal1). by exists r, c. }
  destruct (copy_cell_inv _ _ _ _ _ _ _ Hcopy2 _ _ _ Hn2)
    as (a & Ha & Hn2r & Hh2).
  exists ed1, ed2, n1, n2. split_and!; try done.
  - by rewrite Hs2, Hs1.
  - lia.
  - unfold same_cell.
    rewrite (copy_old _ _ _ _ _ _ _ Hcopy2 n1 Hn1lt).
    pose proof (wf_pos _ _ Hwf1 _ _ _ Hn1) as Hp1'.
    pose proof (wf_pos _ _ Hwf2 _ _ _ Hn2) as Hp2'.
    unfold pos in Hp1', Hp2'. injection Hp1' as -> ->.
    injection Hp2' as -> ->. by rewrite !Z.eqb_refl.
  - rewrite Hh2. unfold retag, clicked_type. simpl.
    by rewrite decide_True.
Qed.

Lemma start_and_end_on_one_cell_witness :
  ∃ ed1 ed2 s e,
    Editor.handleNodeClick 1 2
      (Editor.setCurrentTool Editor.Tool_start (ex_editor Editor.Tool_wall))
    = Ok ed1
    ∧ Editor.handleNodeClick 1 2 (Editor.setCurrentTool Editor.Tool_end ed1)
      = Ok ed2
    ∧ App4.startNode (Editor.app ed2) = Some s
    ∧ App4.endNode (Editor.app ed2) = Some e
    ∧ s ≠ e
    ∧ same_cell (App4.store (Editor.app ed2)) s e = true.
Proof.
  destruct (start_and_end_on_one_cell (ex_editor Editor.Tool_wall) 1 2)
    as (ed1 & ed2 & s & e & H1 & H2 & H3 & H4 & H5 & H6 & _);
    [reflexivity | reflexivity | reflexivity |].
  exists ed1, ed2, s, e.
  split; [exact H1|]. split; [exact H2|]. split; [exact H3|].
  split; [exact H4|]. split; [exact H5|exact H6].
Defined.

(** X23: the animation of a result whose nodes lie within a well-formed
    grid returns; it reports that no path was found exactly when the path
    is empty; it writes to no object that existed; and in the grid it
    leaves, a cell at the coordinates of a path node has the tag path
    unless it had the tag start or end, any other cell at the
    coordinates of a visited node has the tag visited if it had the tag
    empty, and every other tag, all coordinates and all scratch fields are
    as before. *)
Theorem animate_tags (h : Heap) (next : addr) (g : Grid) (result : Result) :
  wf_gridb h g = true → allocatedb next g = true →
  shownb h next g (visitedNodes result) = true →
  shownb h next g (path result) = true →
  ∃ h' next' g',
    Animation.animate (h, next, g) result
    = Ok (h', next', g',
          if decide (path result = []) then Some Animation.NoPathFound
          else None)
    ∧ wf_gridb h' g' = true
    ∧ (∀ a, (a < next)%nat → h' a = h a)
    ∧ cells_with (retag (shown_type (pos h <$> visitedNodes result)
                                    (pos h <$> path result)))
                 h g h' g'.
Proof.
  intros Hwf%wf_gridb_wf Hal Hv Hp.
  destruct (animate_spec h next g result Hwf Hal Hv Hp)
    as (h' & next' & g' & Heq & Hwf' & _ & _ & Hold & Hcells).
  exists h', next', g'. split_and!; try done. by apply wf_grid_wf_gridb.
Qed.

Lemma animate_tags_witness :
  ∃ h' next' g',
    Animation.animate (ex_heap, 9%nat, ex_grid)
      (mkResult [0; 3; 1; 6; 2; 7; 5; 8]%nat [0; 3; 6; 7; 8]%nat)
    = Ok (h', next', g', None)
    ∧ wf_gridb h' g' = true
    ∧ cells_with
        (retag (shown_type
                  (pos ex_heap <$> [0; 3; 1; 6; 2; 7; 5; 8]%nat)
                  (pos ex_heap <$> [0; 3; 6; 7; 8]%nat)))
        ex_heap ex_grid h' g'.
Proof.
  destruct (animate_tags ex_heap 9%nat ex_grid
              (mkResult [0; 3; 1; 6; 2; 7; 5; 8]%nat [0; 3; 6; 7; 8]%nat))
    as (h' & next' & g' & H1 & H2 & _ & H3);
    [reflexivity | reflexivity | reflexivity | reflexivity |].
  exists h', next', g'. split; [exact H1|]. split; [exact H2|exact H3].
Defined.



(** X27: on a well-formed grid with a 4-directional path of non-wall grid
    nodes from the start to the end, so that the start node and the end
    node are nodes of the grid, bfs returns; the end node is the last
    node it dequeues and is dequeued once; the path it returns is such a
    path, and no such path has fewer nodes. *)
Theorem bfs_shortest_path (h : Heap) (g : Grid) (s e : addr) (q0 : list addr)
  (fuel : nat) :
  wf_gridb h g = true → valid_pathb h g s e q0 = true →
  (grid_size g < fuel)%nat →
  ∃ h' r,
    Bfs.bfs fuel h g s e = Ok (h', r)
    ∧ (∃ l, visitedNodes r = l ++ [e] ∧ e ∉ l)
    ∧ valid_pathb h g s e (path r) = true
    ∧ ∀ q, valid_pathb h g s e q = true → (length (path r) <= length q)%nat.
Proof.
  intros Hwf%wf_gridb_wf Hq0 Hfuel.
  destruct (valid_path_reach h g s e q0 Hwf Hq0)
    as (Hs & Hsw & He & n0 & _ & Hr0).
  pose proof (in_grid_passable _ _ _ Hwf Hs Hsw) as Hp.
  destruct (bfs_run h g s e fuel Hwf Hs Hsw Hfuel)
    as (h' & r & vs & p & st & Hrun & HR & _ & HI & Hc).
  exists h', r. split; [done|].
  destruct Hc as [Hf|Hx].
  2:{ destruct (exhausted_facts _ _ _ _ _ _ Hp hz_cons (hz_goal _) _ _ _ HI Hx)
        as (_ & _ & _ & Hno & _).
      by destruct (Hno _ Hr0). }
  destruct (found_facts _ _ _ _ _ _ Hp hz_cons (hz_goal _) _ _ _ HI Hf)
    as (Hnd & _ & Hlast & Hhd & Hpl & Hwalk & Hopt & _).
  destruct (result_ends h g s e h' r vs p Hwf Hs He HR Hhd Hpl) as [Hrh Hrl].
  destruct HR as (_ & [Hvg Hv] & [Hpg Hpp]). simpl in *.
  split_and!.
  - apply last_Some in Hlast as [lv Hlv]. rewrite Hlv in Hv.
    apply fmap_app_inv in Hv as (l1 & l2 & -> & Hl2 & Hvis).
    destruct l2 as [|e' [|? ?]]; try done.
    assert (He' : pos h e' = pos h e) by (simpl in Hl2; congruence).
    assert (e' = e) as ->.
    { apply (pos_inj h g); [done| |done|done].
      rewrite Forall_forall in Hvg. apply Hvg. rewrite Hvis.
      apply elem_of_app. right. by left. }
    exists l1. split; [done|]. intros Hin.
    rewrite Hlv in Hnd. apply NoDup_app in Hnd as (_ & Hnd & _).
    apply (Hnd (pos h e)); [|by left].
    apply list_elem_of_fmap. by exists e.
  - apply valid_pathb_spec; [done|]. subst p.
    destruct (walk_movesb h g (path r) Hwf Hpg Hwalk) as [Hm Ht].
    split_and!; try done.
    destruct (path r) as [|a t]; [done|]. simpl in Hrh. injection Hrh as ->.
    apply Forall_cons in Hpg as [_ Hpg]. simpl in Ht.
    constructor; [done|].
    apply Forall_forall. intros x Hx. rewrite Forall_forall in Hpg, Ht. auto.
  - intros q Hq.
    destruct (valid_path_reach h g s e q Hwf Hq) as (_ & _ & _ & n & Hn & Hr).
    specialize (Hopt n Hr). rewrite <- Hpp, length_fmap in Hopt. lia.
Qed.

Lemma bfs_shortest_path_witness :
  ∃ h' r,
    Bfs.bfs 10 ex_heap ex_grid 0%nat 8%nat = Ok (h', r)
    ∧ (∃ l, visitedNodes r = l ++ [8%nat] ∧ 8%nat ∉ l)
    ∧ valid_pathb ex_heap ex_grid 0%nat 8%nat (path r) = true
    ∧ ∀ q, valid_pathb ex_heap ex_grid 0%nat 8%nat q = true →
           (length (path r) <= length q)%nat.
Proof.
  apply (bfs_shortest_path ex_heap ex_grid 0%nat 8%nat
           [0; 1; 2; 5; 8]%nat 10%nat);
    [reflexivity | reflexivity | vm_compute; lia].
Defined.

(** X28: on a well-formed grid whose start node is a node of the grid,
    dijkstra and astar both return, and the visited sequence of astar is
    not longer than the visited sequence of dijkstra. *)
Theorem astar_visits_no_more (h : Heap) (g : Grid) (s e : addr) (fuel : nat) :
  wf_gridb h g = true → in_gridb h g s = true →
  (grid_size g < fuel)%nat →
  ∃ hA rA hD rD,
    Astar.astar fuel h g s e = Ok (hA, rA)
    ∧ Dijkstra.dijkstra fuel h g s e = Ok (hD, rD)
    ∧ (length (visitedNodes rA) <= length (visitedNodes rD))%nat.
Proof.
  intros Hwf%wf_gridb_wf Hs%in_gridb_in_grid Hfuel.
  destruct (is_wall h s) eqn:Hsw.
  { pose proof (grid_size_pos h g Hwf) as Hpos.
    destruct (astar_wall_start h g s e fuel Hwf Hsw ltac:(lia)) as [hA HA].
    destruct (dijkstra_wall_start h g s e fuel Hwf Hsw ltac:(lia)) as [hD HD].
    by exists hA, (mkResult [] []), hD, (mkResult [] []). }
  pose proof (in_grid_passable _ _ _ Hwf Hs Hsw) as Hp.
  destruct (astar_run h g s e fuel Hwf Hs Hsw Hfuel)
    as (hA & rA & vsA & pA & _ & HrunA & (_ & HvA & _) & HsA & _).
  destruct (dijkstra_run h g s e fuel Hwf Hs Hsw Hfuel)
    as (hD & rD & vsD & pD & _ & HrunD & (_ & HvD & _) & HsD & _).
  exists hA, rA, hD, rD. split_and!; [done|done|].
  simpl in HvA, HvD.
  rewrite (nodes_rel_length _ _ _ _ HvA), (nodes_rel_length _ _ _ _ HvD).
  by apply (manhattan_le_zero _ _ _ _ _ _ _ _ _ _ Hp Hfuel HsA HsD).
Qed.

Lemma astar_visits_no_more_witness :
  ∃ hA rA hD rD,
    Astar.astar 10 ex_heap ex_grid 0%nat 8%nat = Ok (hA, rA)
    ∧ Dijkstra.dijkstra 10 ex_heap ex_grid 0%nat 8%nat = Ok (hD, rD)
    ∧ (length (visitedNodes rA) <= length (visitedNodes rD))%nat.
Proof.
  apply (astar_visits_no_more ex_heap ex_grid 0%nat 8%nat 10%nat);
    [reflexivity | reflexivity | vm_compute; lia].
Defined.

(** X29: two well-formed grids with the same dimensions and the same
    walls, with start nodes that are nodes of their grids at the same
    position, no walls, and end nodes at the same position: each of bfs,
    dijkstra and astar returns on both, and the positions of the two
    visited sequences and of the two paths are the same lists, whatever
    the scratch fields and the other display tags of the two stores
    hold. *)
Theorem same_layout_same_result (h1 : Heap) (g1 : Grid) (s1 e1 : addr)
  (h2 : Heap) (g2 : Grid) (s2 e2 : addr) (fuel : nat) :
  wf_gridb h1 g1 = true → wf_gridb h2 g2 = true →
  same_layoutb h1 g1 h2 g2 = true →
  in_gridb h1 g1 s1 = true → in_gridb h2 g2 s2 = true →
  pos h1 s1 = pos h2 s2 → pos h1 e1 = pos h2 e2 →
  is_wall h1 s1 = false → (grid_size g1 < fuel)%nat →
  (∃ h1' r1 h2' r2,
     Bfs.bfs fuel h1 g1 s1 e1 = Ok (h1', r1)
     ∧ Bfs.bfs fuel h2 g2 s2 e2 = Ok (h2', r2)
     ∧ pos h1 <$> visitedNodes r1 = pos h2 <$> visitedNodes r2
     ∧ pos h1 <$> path r1 = pos h2 <$> path r2)
  ∧ (∃ h1' r1 h2' r2,
     Dijkstra.dijkstra fuel h1 g1 s1 e1 = Ok (h1', r1)
     ∧ Dijkstra.dijkstra fuel h2 g2 s2 e2 = Ok (h2', r2)
     ∧ pos h1 <$> visitedNodes r1 = pos h2 <$> visitedNodes r2
     ∧ pos h1 <$> path r1 = pos h2 <$> path r2)
  ∧ (∃ h1' r1 h2' r2,
     Astar.astar fuel h1 g1 s1 e1 = Ok (h1', r1)
     ∧ Astar.astar fuel h2 g2 s2 e2 = Ok (h2', r2)
     ∧ pos h1 <$> visitedNodes r1 = pos h2 <$> visitedNodes r2
     ∧ pos h1 <$> path r1 = pos h2 <$> path r2).
Proof.
  intros Hwf1%wf_gridb_wf Hwf2%wf_gridb_wf Hlay Hs1%in_gridb_in_grid
    Hs2%in_gridb_in_grid Hps Hpe Hsw1 Hfuel1.
  destruct (search_agree h1 g1 s1 e1 h2 g2 s2 e2 (λ _ _, 0) fuel
              Hwf1 Hwf2 Hlay Hs1 Hs2 Hps Hpe Hsw1) as (Hsw2 & Hsize & Hz).
  destruct (search_agree h1 g1 s1 e1 h2 g2 s2 e2 (λ goal p, manhattan p goal)
              fuel Hwf1 Hwf2 Hlay Hs1 Hs2 Hps Hpe Hsw1) as (_ & _ & Hm).
  assert (Hfuel2 : (grid_size g2 < fuel)%nat) by (by rewrite Hsize).
  split_and!.
  - destruct (bfs_run h1 g1 s1 e1 fuel Hwf1 Hs1 Hsw1 Hfuel1)
      as (h1' & r1 & vs1 & p1 & _ & Hrun1 & (_ & [_ Hv1] & [_ Hq1]) & Hx1 & _).
    destruct (bfs_run h2 g2 s2 e2 fuel Hwf2 Hs2 Hsw2 Hfuel2)
      as (h2' & r2 & vs2 & p2 & _ & Hrun2 & (_ & [_ Hv2] & [_ Hq2]) & Hx2 & _).
    exists h1', r1, h2', r2. simpl in *.
    assert (vs1 = vs2 ∧ p1 = p2) as [-> ->].
    { rewrite Hz, Hx2 in Hx1. split; congruence. }
    split_and!; [done|done|congruence|congruence].
  - destruct (dijkstra_run h1 g1 s1 e1 fuel Hwf1 Hs1 Hsw1 Hfuel1)
      as (h1' & r1 & vs1 & p1 & _ & Hrun1 & (_ & [_ Hv1] & [_ Hq1]) & Hx1 & _).
    destruct (dijkstra_run h2 g2 s2 e2 fuel Hwf2 Hs2 Hsw2 Hfuel2)
      as (h2' & r2 & vs2 & p2 & _ & Hrun2 & (_ & [_ Hv2] & [_ Hq2]) & Hx2 & _).
    exists h1', r1, h2', r2. simpl in *.
    assert (vs1 = vs2 ∧ p1 = p2) as [-> ->].
    { rewrite Hz, Hx2 in Hx1. split; congruence. }
    split_and!; [done|done|congruence|congruence].
  - destruct (astar_run h1 g1 s1 e1 fuel Hwf1 Hs1 Hsw1 Hfuel1)
      as (h1' & r1 & vs1 & p1 & _ & Hrun1 & (_ & [_ Hv1] & [_ Hq1]) & Hx1 & _).
    destruct (astar_run h2 g2 s2 e2 fuel Hwf2 Hs2 Hsw2 Hfuel2)
      as (h2' & r2 & vs2 & p2 & _ & Hrun2 & (_ & [_ Hv2] & [_ Hq2]) & Hx2 & _).
    exists h1', r1, h2', r2. simpl in *.
    assert (vs1 = vs2 ∧ p1 = p2) as [-> ->].
    { rewrite Hm, Hx2 in Hx1. split; congruence. }
    split_and!; [done|done|congruence|congruence].
Qed.

Lemma same_layout_same_result_witness :
  (∃ h1' r1 h2' r2,
     Bfs.bfs 10 ex_heap ex_grid 0%nat 8%nat = Ok (h1', r1)
     ∧ Bfs.bfs 10 ex_heap2 ex_grid 0%nat 8%nat = Ok (h2', r2)
     ∧ pos ex_heap <$> visitedNodes r1 = pos ex_heap2 <$> visitedNodes r2
     ∧ pos ex_heap <$> path r1 = pos ex_heap2 <$> path r2)
  ∧ (∃ h1' r1 h2' r2,
     Dijkstra.dijkstra 10 ex_heap ex_grid 0%nat 8%nat = Ok (h1', r1)
     ∧ Dijkstra.dijkstra 10 ex_heap2 ex_grid 0%nat 8%nat = Ok (h2', r2)
     ∧ pos ex_heap <$> visitedNodes r1 = pos ex_heap2 <$> visitedNodes r2
     ∧ pos ex_heap <$> path r1 = pos ex_heap2 <$> path r2)
  ∧ (∃ h1' r1 h2' r2,
     Astar.astar 10 ex_heap ex_grid 0%nat 8%nat = Ok (h1', r1)
     ∧ Astar.astar 10 ex_heap2 ex_grid 0%nat 8%nat = Ok (h2', r2)
     ∧ pos ex_heap <$> visitedNodes r1 = pos ex_heap2 <$> visitedNodes r2
     ∧ pos ex_heap <$> path r1 = pos ex_heap2 <$> path r2).
Proof.
  apply (same_layout_same_result ex_heap ex_grid 0%nat 8%nat
           ex_heap2 ex_grid 0%nat 8%nat 10%nat);
    [reflexivity | reflexivity | reflexivity | reflexivity | reflexivity
    | reflexivity | reflexivity | reflexivity | vm_compute; lia].
Defined.

(** X30: on a well-formed grid that holds the start node, with a start
    that is not a wall, each of bfs, dijkstra and astar returns; the path
    is empty, or it begins with the start node and ends with the node on
    the cell of the end node, which is the end node itself when the grid
    holds it. *)
Theorem path_starts_and_ends (h : Heap) (g : Grid) (s e : addr) (fuel : nat) :
  wf_gridb h g = true → in_gridb h g s = true →
  is_wall h s = false → (grid_size g < fuel)%nat →
  (∃ h' r, Bfs.bfs fuel h g s e = Ok (h', r)
     ∧ (path r = []
        ∨ head (path r) = Some s
          ∧ ∃ l, last (path r) = Some l ∧ same_cell h l e = true
                 ∧ (in_gridb h g e = true → l = e)))
  ∧ (∃ h' r, Dijkstra.dijkstra fuel h g s e = Ok (h', r)
     ∧ (path r = []
        ∨ head (path r) = Some s
          ∧ ∃ l, last (path r) = Some l ∧ same_cell h l e = true
                 ∧ (in_gridb h g e = true → l = e)))
  ∧ (∃ h' r, Astar.astar fuel h g s e = Ok (h', r)
     ∧ (path r = []
        ∨ head (path r) = Some s
          ∧ ∃ l, last (path r) = Some l ∧ same_cell h l e = true
                 ∧ (in_gridb h g e = true → l = e))).
Proof.
  intros Hwf%wf_gridb_wf Hs%in_gridb_in_grid Hsw Hfuel.
  pose proof (in_grid_passable _ _ _ Hwf Hs Hsw) as Hp.
  split_and!.
  - destruct (bfs_run h g s e fuel Hwf Hs Hsw Hfuel)
      as (h' & r & vs & p & st & Hrun & HR & _ & HI & Hc).
    exists h', r. split; [done|]. destruct Hc as [Hf|Hx].
    + destruct (found_facts _ _ _ _ _ _ Hp hz_cons (hz_goal _) _ _ _ HI Hf)
        as (_ & _ & _ & Hhd & Hl & _).
      right. by apply (result_ends_cell h g s e h' r vs p).
    + destruct Hx as (_ & _ & ->). destruct HR as (_ & _ & Hpr).
      left. by apply nodes_rel_nil_inv in Hpr.
  - destruct (dijkstra_run h g s e fuel Hwf Hs Hsw Hfuel)
      as (h' & r & vs & p & st & Hrun & HR & _ & HI & Hc).
    exists h', r. split; [done|]. destruct Hc as [Hf|Hx].
    + destruct (found_facts _ _ _ _ _ _ Hp hz_cons (hz_goal _) _ _ _ HI Hf)
        as (_ & _ & _ & Hhd & Hl & _).
      right. by apply (result_ends_cell h g s e h' r vs p).
    + destruct Hx as (_ & _ & ->). destruct HR as (_ & _ & Hpr).
      left. by apply nodes_rel_nil_inv in Hpr.
  - destruct (astar_run h g s e fuel Hwf Hs Hsw Hfuel)
      as (h' & r & vs & p & st & Hrun & HR & _ & HI & Hc).
    exists h', r. split; [done|]. destruct Hc as [Hf|Hx].
    + destruct (found_facts _ _ _ _ _ _ Hp (manhattan_consistent _)
                  (manhattan_goal _) _ _ _ HI Hf)
        as (_ & _ & _ & Hhd & Hl & _).
      right. by apply (result_ends_cell h g s e h' r vs p).
    + destruct Hx as (_ & _ & ->). destruct HR as (_ & _ & Hpr).
      left. by apply nodes_rel_nil_inv in Hpr.
Qed.

Lemma path_starts_and_ends_witness :
  (∃ h' r, Bfs.bfs 10 ex_heap ex_grid 0%nat 8%nat = Ok (h', r)
     ∧ head (path r) = Some 0%nat ∧ last (path r) = Some 8%nat)
  ∧ (∃ h' r, Dijkstra.dijkstra 10 ex_heap ex_grid 0%nat 8%nat = Ok (h', r)
     ∧ head (path r) = Some 0%nat ∧ last (path r) = Some 8%nat)
  ∧ (∃ h' r, Astar.astar 10 ex_heap ex_grid 0%nat 8%nat = Ok (h', r)
     ∧ head (path r) = Some 0%nat ∧ last (path r) = Some 8%nat).
Proof.
  destruct (path_starts_and_ends ex_heap ex_grid 0%nat 8%nat 10%nat)
    as ((hB & rB & HB & HpB) & (hD & rD & HD & HpD) & (hA & rA & HA & HpA));
    [reflexivity | reflexivity | reflexivity | vm_compute; lia |].
  assert (HlB : match Bfs.bfs 10 ex_heap ex_grid 0%nat 8%nat with
                | Ok (_, r) => length (path r)
                | _ => 0%nat
                end = 5%nat) by (vm_compute; reflexivity).
  assert (HlD : match Dijkstra.dijkstra 10 ex_heap ex_grid 0%nat 8%nat with
                | Ok (_, r) => length (path r)
                | _ => 0%nat
                end = 5%nat) by (vm_compute; reflexivity).
  assert (HlA : match Astar.astar 10 ex_heap ex_grid 0%nat 8%nat with
                | Ok (_, r) => length (path r)
                | _ => 0%nat
                end = 5%nat) by (vm_compute; reflexivity).
  rewrite HB in HlB. rewrite HD in HlD. rewrite HA in HlA.
  split_and!.
  - exists hB, rB. split; [exact HB|].
    destruct HpB as [Hnil|(Hh & l & Hl & _ & He)].
    { rewrite Hnil in HlB. discriminate HlB. }
    split; [exact Hh|]. rewrite Hl. f_equal. apply He. reflexivity.
  - exists hD, rD. split; [exact HD|].
    destruct HpD as [Hnil|(Hh & l & Hl & _ & He)].
    { rewrite Hnil in HlD. discriminate HlD. }
    split; [exact Hh|]. rewrite Hl. f_equal. apply He. reflexivity.
  - exists hA, rA. split; [exact HA|].
    destruct HpA as [Hnil|(Hh & l & Hl & _ & He)].
    { rewrite Hnil in HlA. discriminate HlA. }
    split; [exact Hh|]. rewrite Hl. f_equal. apply He. reflexivity.
Defined.
